(** * HFTBackTester (mm_bt): deterministic ingest, event log, replay.

    A shallow embedding of the deterministic core of the [mm_bt] package
    and the properties its specification states about it.

    Conventions of the embedding:
    - a Python [int] is a [Z]; the 64-bit and 32-bit limits of the on-disk
      format are written out where the code checks or packs them;
    - [bytes] is [list byte]; [struct.pack]/[struct.unpack] with a ["<"]
      format are little-endian encoders over that list;
    - a raised exception is the [Raise] case of [result]; where an object
      keeps the mutations made before the exception (the book, the
      quarantine sink, a generator that already yielded), the state is
      returned next to the outcome;
    - a [dict] is a [gmap]; a [list]/[tuple] is a [list];
    - [decimal.Decimal] is the triple (sign, coefficient, exponent) of the
      General Decimal Arithmetic model, with the context
      [Context(prec=50, rounding=ROUND_HALF_EVEN)] of [decimal_ctx.py]. *)

From Stdlib Require Import ZArith Zpow_facts QArith Qpower Lia.
From Stdlib Require Import List String Ascii.
From Stdlib.Strings Require Import Byte.
From Stdlib Require Import DecimalString.
From stdpp Require Import base option list sorting gmap strings.
Import ListNotations.

Open Scope Z_scope.

(* ================================================================== *)
(** * Part I: the embedding                                            *)
(* ================================================================== *)

(** ** [core/errors.py] and the exception outcomes of library calls *)

Module errors.

Inductive Exn : Type :=
| SchemaError (msg : string)
| OrderingError (msg : string)
| QuantizationError (msg : string)
| QuarantineError (msg : string)
| DeterminismError (msg : string)
| ValueError (msg : string)        (* builtin ValueError *)
| DecimalSignal (signal : string)  (* a trapped decimal signal *)
| StructError                      (* struct.error *)
| KeyError (key : Z)               (* dict lookup of an absent key *)
| IndexError                       (* list index out of range *)
| TypeError                        (* arithmetic on None *)
| UnboundLocalError.               (* a local read before assignment *)

(** [str(exc)] for the exceptions the code formats. *)
Definition str_exn (e : Exn) : string :=
  match e with
  | SchemaError m | OrderingError m | QuantizationError m
  | QuarantineError m | DeterminismError m | ValueError m => m
  | DecimalSignal s => s
  | StructError => "struct.error"
  | KeyError _ => "KeyError"
  | IndexError => "IndexError"
  | TypeError => "TypeError"
  | UnboundLocalError => "UnboundLocalError"
  end.

Inductive result (A : Type) : Type :=
| Ok (a : A)
| Raise (e : Exn).
Arguments Ok {A} a.
Arguments Raise {A} e.

Definition bind {A B} (r : result A) (k : A -> result B) : result B :=
  match r with
  | Ok a => k a
  | Raise e => Raise e
  end.

Definition is_Ok {A} (r : result A) : bool :=
  match r with Ok _ => true | Raise _ => false end.

(** [str(n)] of a Python int. *)
Definition str_of_Z (z : Z) : string := NilZero.string_of_int (Z.to_int z).

(** [repr(s)] of a Python str without quotes or escapes in it. *)
Definition repr_str (s : string) : string := "'" +:+ s +:+ "'".

End errors.
Export errors.

(** [result] is used through stdpp's monad notations [x ← c; k] and
    [c;; k]. *)
#[export] Instance result_ret : MRet result := fun _ a => Ok a.
#[export] Instance result_bind : MBind result := fun _ _ k r => bind r k.

(** ** [core/types.py] *)

Module types.

Inductive Side : Type := BID | ASK.

(** [int(side)] of the [IntEnum]. *)
Definition Side_to_Z (s : Side) : Z :=
  match s with BID => 0 | ASK => 1 end.

(** [Side(value)]: [ValueError] outside of {0, 1}. *)
Definition Side_of_Z (v : Z) : option Side :=
  if v =? 0 then Some BID else if v =? 1 then Some ASK else None.

Definition Side_eqb (a b : Side) : bool :=
  match a, b with BID, BID | ASK, ASK => true | _, _ => false end.

End types.
Export types.

(** ** [decimal.Decimal] under a context

    The part of Python's [decimal] module that [core/decimal_ctx.py] and
    [core/fixedpoint.py] call.  A finite decimal is
    [(-1)^sign * coef * 10^exp]; the constructor from a string is exact,
    every other operation below rounds to the context ([_fix]). *)

Module decimal.

Inductive Decimal : Type :=
| Finite (sign : bool) (coef : N) (exp : Z)
| Infinity (sign : bool)
| NaN (sign : bool) (signaling : bool) (diag : N).

(** [Context(prec, Emax, Emin)]; rounding is ROUND_HALF_EVEN, [clamp] is 0
    and the traps are the default ones (InvalidOperation, DivisionByZero,
    Overflow), as [Context(prec=50, rounding=ROUND_HALF_EVEN)] leaves them. *)
Record Context : Type := { prec : Z; Emax : Z; Emin : Z }.

Definition Etiny (ctx : Context) : Z := Emin ctx - prec ctx + 1.
Definition Etop (ctx : Context) : Z := Emax ctx - prec ctx + 1.

Definition is_finite (d : Decimal) : bool :=
  match d with Finite _ _ _ => true | _ => false end.

(** [len(self._int)]: the number of decimal digits of the coefficient
    (1 for the coefficient 0). *)
Fixpoint ndigits_loop (fuel : nat) (c : N) : Z :=
  match fuel with
  | O => 1
  | S f => if (c <? 10)%N then 1 else 1 + ndigits_loop f (c / 10)%N
  end.

Definition ndigits (c : N) : Z := ndigits_loop (N.size_nat c) c.

(** The rounding functions return [changed]: 1 when the kept coefficient
    is to be incremented, 0 when the dropped digits are all zero, -1
    otherwise.  [k] is the number of dropped low digits. *)
Definition _round_half_up (c : N) (k : N) : Z :=
  let r := (c mod 10 ^ k)%N in
  if (10 ^ k <=? 2 * r)%N then 1
  else if (r =? 0)%N then 0
  else -1.

Definition _round_half_even (c : N) (k : N) : Z :=
  let q := (c / 10 ^ k)%N in
  let r := (c mod 10 ^ k)%N in
  if (2 * r =? 10 ^ k)%N && N.even q then -1
  else _round_half_up c k.

(** [Decimal._fix(context)]: round to the context's precision and
    exponent range. *)
Definition _fix (ctx : Context) (d : Decimal) : result Decimal :=
  match d with
  | Finite s c e =>
    if (c =? 0)%N then
      Ok (Finite s 0 (Z.min (Z.max e (Etiny ctx)) (Emax ctx)))
    else
      let exp_min := ndigits c + e - prec ctx in
      if Etop ctx <? exp_min then Raise (DecimalSignal "Overflow")
      else
        let exp_min := if exp_min <? Etiny ctx then Etiny ctx else exp_min in
        if e <? exp_min then
          let digits := ndigits c + e - exp_min in
          let '(c1, e1) :=
            if digits <? 0 then (1%N, exp_min - 1) else (c, e) in
          let k := Z.to_N (exp_min - e1) in
          let changed := _round_half_even c1 k in
          let coeff := (c1 / 10 ^ k)%N in
          let '(coeff, exp_min) :=
            if 0 <? changed then
              let coeff := (coeff + 1)%N in
              if prec ctx <? ndigits coeff
              then ((coeff / 10)%N, exp_min + 1)
              else (coeff, exp_min)
            else (coeff, exp_min) in
          if Etop ctx <? exp_min then Raise (DecimalSignal "Overflow")
          else Ok (Finite s coeff exp_min)
        else Ok d
  | _ => Ok d
  end.

(** The loop of [normalize] that drops trailing zeros of the coefficient
    while the exponent is below [Emax]. *)
Fixpoint strip_zeros (fuel : nat) (emax : Z) (c : N) (e : Z) : N * Z :=
  match fuel with
  | O => (c, e)
  | S f =>
    if ((c mod 10 =? 0)%N && (e <? emax))
    then strip_zeros f emax (c / 10)%N (e + 1)
    else (c, e)
  end.

(** [Decimal.normalize(context)]. *)
Definition normalize (ctx : Context) (d : Decimal) : result Decimal :=
  match d with
  | NaN _ true _ => Raise (DecimalSignal "InvalidOperation")
  | NaN _ false _ => Ok d
  | _ =>
    dup ← _fix ctx d;
    match dup with
    | Finite s c e =>
      if (c =? 0)%N then Ok (Finite s 0 0)
      else
        let '(c', e') := strip_zeros (N.size_nat c) (Emax ctx) c e in
        Ok (Finite s c' e')
    | _ => Ok dup
    end
  end.

(** [Decimal.scaleb(other, context)] for an int [other]. *)
Definition scaleb (ctx : Context) (d : Decimal) (other : Z)
  : result Decimal :=
  match d with
  | NaN _ true _ => Raise (DecimalSignal "InvalidOperation")
  | NaN _ false _ => Ok d
  | Infinity _ =>
    let limsup := 2 * (Emax ctx + prec ctx) in
    if (other <? - limsup) || (limsup <? other)
    then Raise (DecimalSignal "InvalidOperation")
    else Ok d
  | Finite s c e =>
    let limsup := 2 * (Emax ctx + prec ctx) in
    if (other <? - limsup) || (limsup <? other)
    then Raise (DecimalSignal "InvalidOperation")
    else _fix ctx (Finite s c (e + other))
  end.

(** [Decimal._rescale(0, ROUND_HALF_EVEN)]. *)
Definition _rescale0 (d : Decimal) : Decimal :=
  match d with
  | Finite s c e =>
    if (c =? 0)%N then Finite s 0 0
    else if 0 <=? e then Finite s (c * 10 ^ Z.to_N e)%N 0
    else
      let digits := ndigits c + e in
      let '(c1, e1) := if digits <? 0 then (1%N, -1) else (c, e) in
      let k := Z.to_N (- e1) in
      let changed := _round_half_even c1 k in
      let coeff := (c1 / 10 ^ k)%N in
      let coeff := if changed =? 1 then (coeff + 1)%N else coeff in
      Finite s coeff 0
  | _ => d
  end.

(** [Decimal.to_integral_value()] with the context's rounding. *)
Definition to_integral_value (d : Decimal) : Decimal :=
  match d with
  | Finite s c e => if 0 <=? e then d else _rescale0 d
  | _ => d
  end.

(** [a == b] on decimals: exact numerical comparison; a NaN is equal to
    nothing. *)
Definition Deqb (a b : Decimal) : bool :=
  match a, b with
  | Finite s1 c1 e1, Finite s2 c2 e2 =>
    if (c1 =? 0)%N then (c2 =? 0)%N
    else if (c2 =? 0)%N then false
    else
      let m := Z.min e1 e2 in
      Bool.eqb s1 s2 &&
      (c1 * 10 ^ Z.to_N (e1 - m) =? c2 * 10 ^ Z.to_N (e2 - m))%N
  | Infinity s1, Infinity s2 => Bool.eqb s1 s2
  | _, _ => false
  end.

(** [d == 0], [d < 0] and [d <= 0]. *)
Definition Deq0 (d : Decimal) : bool :=
  match d with Finite _ c _ => (c =? 0)%N | _ => false end.

Definition Dlt0 (d : Decimal) : bool :=
  match d with
  | Finite s c _ => s && negb (c =? 0)%N
  | Infinity s => s
  | NaN _ _ _ => false
  end.

Definition Dle0 (d : Decimal) : bool := Deq0 d || Dlt0 d.

(** [int(d)]: truncation towards zero. *)
Definition int_of_Decimal (d : Decimal) : result Z :=
  match d with
  | Finite s c e =>
    let m :=
      if 0 <=? e then Z.of_N (c * 10 ^ Z.to_N e)
      else Z.of_N (c / 10 ^ Z.to_N (- e)) in
    Ok (if s then - m else m)
  | Infinity _ => Raise (ValueError "cannot convert Infinity to integer")
  | NaN _ _ _ => Raise (ValueError "cannot convert NaN to integer")
  end.

(** [d.as_tuple().exponent] of a finite decimal. *)
Definition exponent (d : Decimal) : Z :=
  match d with Finite _ _ e => e | _ => 0 end.

(** The rational number a finite decimal denotes. *)
Definition to_Q (d : Decimal) : Q :=
  match d with
  | Finite s c e =>
    let m := (inject_Z (Z.of_N c) * Qpower (inject_Z 10) e)%Q in
    if s then Qopp m else m
  | _ => 0%Q
  end.

(** *** [Decimal(str)]

    The numeric-string syntax of the constructor, on ASCII input:
    [sign? (digits [. digits*] | . digits) ([eE] sign? digits)?], or
    [sign? inf(inity)?], or [sign? s? nan digits*], case-insensitive,
    after [strip()] and removal of underscores.  [None] stands for the
    InvalidOperation the constructor raises on anything else. *)

Definition is_space (a : ascii) : bool :=
  let n := N_of_ascii a in
  ((9 <=? n) && (n <=? 13) || (28 <=? n) && (n <=? 32))%N.

Definition is_digit (a : ascii) : bool :=
  let n := N_of_ascii a in ((48 <=? n) && (n <=? 57))%N.

Definition lower (a : ascii) : ascii :=
  let n := N_of_ascii a in
  if ((65 <=? n) && (n <=? 90))%N then ascii_of_N (n + 32) else a.

Fixpoint lstrip (l : list ascii) : list ascii :=
  match l with
  | a :: r => if is_space a then lstrip r else l
  | [] => []
  end.

(** [str.strip()]. *)
Definition strip (s : string) : string :=
  string_of_list_ascii
    (rev (lstrip (rev (lstrip (list_ascii_of_string s))))).

Fixpoint span_digits (l : list ascii) : list ascii * list ascii :=
  match l with
  | a :: r =>
    if is_digit a then let '(d, t) := span_digits r in (a :: d, t)
    else ([], l)
  | [] => ([], [])
  end.

Definition digits_to_N (l : list ascii) : N :=
  fold_left (fun acc a => (10 * acc + (N_of_ascii a - 48))%N) l 0%N.

Definition take_sign (l : list ascii) : bool * list ascii :=
  match l with
  | "-"%char :: r => (true, r)
  | "+"%char :: r => (false, r)
  | _ => (false, l)
  end.

Definition special_of (sign : bool) (l : list ascii) : option Decimal :=
  let s := string_of_list_ascii (map lower l) in
  if (String.eqb s "inf" || String.eqb s "infinity")%bool
  then Some (Infinity sign)
  else
    match map lower l with
    | "n"%char :: "a"%char :: "n"%char :: r =>
      let '(d, t) := span_digits r in
      match t with [] => Some (NaN sign false (digits_to_N d)) | _ => None end
    | "s"%char :: "n"%char :: "a"%char :: "n"%char :: r =>
      let '(d, t) := span_digits r in
      match t with [] => Some (NaN sign true (digits_to_N d)) | _ => None end
    | _ => None
    end.

Definition Decimal_of_string (value : string) : option Decimal :=
  let cs :=
    filter (fun a => negb (Ascii.eqb a "_"))
           (list_ascii_of_string (strip value)) in
  let '(sign, cs) := take_sign cs in
  let '(intpart, r1) := span_digits cs in
  let '(fracpart, r2) :=
    match r1 with
    | "."%char :: r => span_digits r
    | _ => ([], r1)
    end in
  match intpart ++ fracpart with
  | [] => special_of sign cs
  | ds =>
    let coef := digits_to_N ds in
    let nfrac := Z.of_nat (length fracpart) in
    match r2 with
    | [] => Some (Finite sign coef (- nfrac))
    | a :: r3 =>
      if Ascii.eqb (lower a) "e" then
        let '(esign, r4) := take_sign r3 in
        let '(ed, r5) := span_digits r4 in
        match ed, r5 with
        | _ :: _, [] =>
          let e := Z.of_N (digits_to_N ed) in
          Some (Finite sign coef ((if esign then - e else e) - nfrac))
        | _, _ => None
        end
      else None
    end
  end.

End decimal.
Export decimal.

(** ** [core/decimal_ctx.py] *)

Module decimal_ctx.

Definition DECIMAL_CTX : Context :=
  {| prec := 50; Emax := 999999; Emin := -999999 |}.

Definition parse_decimal (value : string) : result Decimal :=
  let value := strip value in
  if String.eqb value "" then Raise (ValueError "empty decimal")
  else
    match Decimal_of_string value with
    | None => Raise (ValueError ("invalid decimal: " +:+ repr_str value))
    | Some d =>
      if negb (is_finite d)
      then Raise (ValueError ("non-finite decimal: " +:+ repr_str value))
      else Ok d
    end.

End decimal_ctx.
Export decimal_ctx.

(** ** [core/fixedpoint.py] *)

Module fixedpoint.

Definition _normalize_increment (increment : Decimal) : result Decimal :=
  if negb (is_finite increment)
  then Raise (QuantizationError "increment must be finite")
  else if Dle0 increment
  then Raise (QuantizationError "increment must be positive")
  else normalize DECIMAL_CTX increment.

Definition _scaled_int (value : Decimal) (scale : Z) : result Z :=
  scaled ← scaleb DECIMAL_CTX value scale;
  if negb (Deqb scaled (to_integral_value scaled))
  then Raise (QuantizationError "value has more precision than increment")
  else int_of_Decimal scaled.

Definition _quantize_decimal (value increment : Decimal)
           (allow_zero : bool) (field : string) : result Z :=
  let inc := increment in
  if negb (is_finite value)
  then Raise (QuantizationError (field +:+ " must be finite"))
  else if Deq0 value then
    if allow_zero then Ok 0
    else Raise (QuantizationError (field +:+ " must be positive"))
  else if Dlt0 value
  then Raise (QuantizationError (field +:+ " must be non-negative"))
  else
    let scale := - exponent inc in
    nv ← normalize DECIMAL_CTX value;
    scaled_value ← _scaled_int nv scale;
    scaled_inc ← _scaled_int inc scale;
    if scaled_inc =? 0
    then Raise (QuantizationError "increment underflow")
    else if negb (scaled_value mod scaled_inc =? 0)
    then Raise (QuantizationError (field +:+ " not a multiple of increment"))
    else Ok (scaled_value / scaled_inc).

Record Quantizer : Type := {
  price_increment : Decimal;
  amount_increment : Decimal
}.

(** The dataclass constructor with its [__post_init__]. *)
Definition Quantizer_new (price_increment amount_increment : Decimal)
  : result Quantizer :=
  p ← _normalize_increment price_increment;
  a ← _normalize_increment amount_increment;
  Ok {| price_increment := p; amount_increment := a |}.

Definition from_strings (price_increment amount_increment : string)
  : result Quantizer :=
  p ← parse_decimal price_increment;
  a ← parse_decimal amount_increment;
  Quantizer_new p a.

(** [except ValueError as exc: raise QuantizationError(str(exc))]. *)
Definition parse_or_quantization_error (value : string) : result Decimal :=
  match parse_decimal value with
  | Raise (ValueError m) => Raise (QuantizationError m)
  | r => r
  end.

Definition quantize_price (self : Quantizer) (value : string) : result Z :=
  dec ← parse_or_quantization_error value;
  _quantize_decimal dec (price_increment self) false "price".

Definition quantize_amount (self : Quantizer) (value : string) : result Z :=
  dec ← parse_or_quantization_error value;
  _quantize_decimal dec (amount_increment self) true "amount".

Definition notional (self : Quantizer) (price_ticks amount_lots : Z) : Z :=
  price_ticks * amount_lots.

End fixedpoint.
Export fixedpoint.

(** ** [struct]: little-endian packing

    The format strings of [evlog/format.py] and [evlog/index.py] all start
    with ["<"]: little-endian, standard sizes, no alignment.  A format is
    the list of its codes; a value is an int or a byte string. *)

Module struct.

Definition byte_of_Z (z : Z) : byte :=
  default x00 (Byte.of_N (Z.to_N (z mod 256))).

Definition Z_of_byte (b : byte) : Z := Z.of_N (Byte.to_N b).

(** The [n] low bytes of [z], least significant first. *)
Fixpoint le_bytes (n : nat) (z : Z) : list byte :=
  match n with
  | O => []
  | S k => byte_of_Z z :: le_bytes k (z / 256)
  end.

Fixpoint le_int (bs : list byte) : Z :=
  match bs with
  | [] => 0
  | b :: r => Z_of_byte b + 256 * le_int r
  end.

Inductive code : Type :=
| fB            (* "B": unsigned char *)
| fH            (* "H": unsigned short *)
| fI            (* "I": unsigned int *)
| fQ            (* "Q": unsigned long long *)
| fq            (* "q": long long *)
| fs (n : nat)  (* "ns": byte string of length n *)
| fx (n : nat). (* "nx": n pad bytes *)

Inductive value : Type :=
| VInt (z : Z)
| VBytes (b : list byte).

Definition code_size (c : code) : nat :=
  match c with
  | fB => 1 | fH => 2 | fI => 4 | fQ => 8 | fq => 8
  | fs n => n | fx n => n
  end%nat.

Definition calcsize (fmt : list code) : nat :=
  fold_right (fun c acc => (code_size c + acc)%nat) 0%nat fmt.

Definition pack_unsigned (n : nat) (v : Z) : result (list byte) :=
  if (0 <=? v) && (v <? 2 ^ (8 * Z.of_nat n))
  then Ok (le_bytes n v) else Raise StructError.

Definition pack_signed (n : nat) (v : Z) : result (list byte) :=
  let half := 2 ^ (8 * Z.of_nat n - 1) in
  if (- half <=? v) && (v <? half)
  then Ok (le_bytes n (v mod 2 ^ (8 * Z.of_nat n)))
  else Raise StructError.

Definition unpack_signed (n : nat) (bs : list byte) : Z :=
  let u := le_int bs in
  if u <? 2 ^ (8 * Z.of_nat n - 1) then u else u - 2 ^ (8 * Z.of_nat n).

(** [struct.pack(fmt, *values)]; a pad code takes no value, a byte string
    is truncated or zero-padded to its field, an int out of the range of
    its code is a [struct.error]. *)
Fixpoint pack (fmt : list code) (vs : list value) : result (list byte) :=
  match fmt with
  | [] => match vs with [] => Ok [] | _ => Raise StructError end
  | fx n :: fmt' =>
    rest ← pack fmt' vs;
    Ok (replicate n x00 ++ rest)
  | c :: fmt' =>
    match vs with
    | [] => Raise StructError
    | v :: vs' =>
      b ← match c, v with
          | fB, VInt z => pack_unsigned 1 z
          | fH, VInt z => pack_unsigned 2 z
          | fI, VInt z => pack_unsigned 4 z
          | fQ, VInt z => pack_unsigned 8 z
          | fq, VInt z => pack_signed 8 z
          | fs n, VBytes b => Ok (take n (b ++ replicate n x00))
          | _, _ => Raise StructError
          end;
      rest ← pack fmt' vs';
      Ok (b ++ rest)
    end
  end.

Fixpoint unpack_fields (fmt : list code) (bs : list byte) : list value :=
  match fmt with
  | [] => []
  | c :: fmt' =>
    let b := take (code_size c) bs in
    let rest := unpack_fields fmt' (drop (code_size c) bs) in
    match c with
    | fB | fH | fI | fQ => VInt (le_int b) :: rest
    | fq => VInt (unpack_signed 8 b) :: rest
    | fs _ => VBytes b :: rest
    | fx _ => rest
    end
  end.

(** [struct.unpack(fmt, data)]: the buffer must have the size of the
    format. *)
Definition unpack (fmt : list code) (data : list byte) : result (list value) :=
  if negb (length data =? calcsize fmt)%nat then Raise StructError
  else Ok (unpack_fields fmt data).

(** [struct.unpack_from(fmt, buffer, offset)]. *)
Definition unpack_from (fmt : list code) (buffer : list byte) (offset : nat)
  : result (list value) :=
  if (length buffer <? offset + calcsize fmt)%nat then Raise StructError
  else Ok (unpack_fields fmt (take (calcsize fmt) (drop offset buffer))).

End struct.
Export struct.

(** ** Binary files

    A file opened for writing is the bytes written so far (the writers only
    append); a file opened for reading is its content and a position. *)

Module fileio.

Record rfile : Type := { content : list byte; pos : Z }.

Definition open_rb (data : list byte) : rfile :=
  {| content := data; pos := 0 |}.

(** [f.read(n)]: up to [n] bytes from the position, which advances by the
    number of bytes read. *)
Definition read (f : rfile) (n : Z) : list byte * rfile :=
  let got := take (Z.to_nat n) (drop (Z.to_nat (pos f)) (content f)) in
  (got, {| content := content f; pos := pos f + Z.of_nat (length got) |}).

(** [f.read()]: everything up to the end of the file. *)
Definition read_all (f : rfile) : list byte * rfile :=
  let got := drop (Z.to_nat (pos f)) (content f) in
  (got, {| content := content f; pos := pos f + Z.of_nat (length got) |}).

(** [f.seek(offset)] and [f.seek(0, 2)]. *)
Definition seek (f : rfile) (offset : Z) : rfile :=
  {| content := content f; pos := offset |}.

Definition seek_end (f : rfile) : rfile :=
  {| content := content f; pos := Z.of_nat (length (content f)) |}.

End fileio.
Export fileio.

(** ** [evlog/types.py] *)

Module evlog_types.

Record L2Update : Type := {
  side : Side;
  price_ticks : Z;
  amount_lots : Z;
  is_snapshot : bool
}.

Record L2Batch : Type := {
  ts_recv_ns : Z;
  ts_exch_ns : Z;
  resets_book : bool;
  updates : list L2Update
}.

End evlog_types.
Export evlog_types.

(** ** [evlog/format.py] *)

Module format.

Definition MAGIC : list byte := list_byte_of_string "MMEVLOG" ++ [x00].
Definition VERSION : Z := 1.
Definition ENDIAN_LITTLE : Z := 1.

Definition HEADER_BASE_FMT : list code := [fs 8; fB; fB; fH; fI].
Definition HEADER_BASE_SIZE : nat := calcsize HEADER_BASE_FMT.

Definition HEADER_V1_EXTRA_FMT : list code := [fQ; fQ; fs 32].
Definition HEADER_V1_EXTRA_SIZE : nat := calcsize HEADER_V1_EXTRA_FMT.
Definition HEADER_V1_SIZE : nat :=
  (HEADER_BASE_SIZE + HEADER_V1_EXTRA_SIZE)%nat.

Definition RECORD_HEADER_FMT : list code := [fB; fB; fH; fI].
Definition RECORD_HEADER_SIZE : nat := calcsize RECORD_HEADER_FMT.

Definition L2_BATCH_HEADER_FMT : list code := [fq; fq; fB; fx 3; fI].
Definition L2_BATCH_HEADER_SIZE : nat := calcsize L2_BATCH_HEADER_FMT.

Definition L2_UPDATE_FMT : list code := [fB; fB; fH; fq; fq; fI].
Definition L2_UPDATE_SIZE : nat := calcsize L2_UPDATE_FMT.

(** [RecordType.L2_BATCH]. *)
Definition L2_BATCH : Z := 1.

Record EvlogHeader : Type := {
  version : Z;
  endian : Z;
  flags : Z;
  exchange_id : option Z;
  symbol_id : option Z;
  quantizer_hash : option (list byte)
}.

Definition pack_header (flags exchange_id symbol_id : Z)
           (quantizer_hash : option (list byte)) : result (list byte) :=
  let quantizer_hash := default (replicate 32 x00) quantizer_hash in
  if negb (length quantizer_hash =? 32)%nat
  then Raise (SchemaError "quantizer_hash must be 32 bytes")
  else if (exchange_id <? 0) || (2 ^ 64 - 1 <? exchange_id)
  then Raise (SchemaError "exchange_id out of range")
  else if (symbol_id <? 0) || (2 ^ 64 - 1 <? symbol_id)
  then Raise (SchemaError "symbol_id out of range")
  else
    base ← pack HEADER_BASE_FMT
           [VBytes MAGIC; VInt VERSION; VInt ENDIAN_LITTLE; VInt flags;
            VInt 0];
    extra ← pack HEADER_V1_EXTRA_FMT
            [VInt exchange_id; VInt symbol_id; VBytes quantizer_hash];
    Ok (base ++ extra).

(** [a == b] on [bytes]. *)
Fixpoint bytes_eqb (a b : list byte) : bool :=
  match a, b with
  | [], [] => true
  | x :: a', y :: b' => Byte.eqb x y && bytes_eqb a' b'
  | _, _ => false
  end.

(** [read_header(f)]: the header, and the file positioned after it. *)
Definition read_header (f : rfile) : result (EvlogHeader * rfile) :=
  let '(base, f) := read f (Z.of_nat HEADER_BASE_SIZE) in
  match base with
  | [] => Raise (SchemaError "missing evlog header")
  | _ =>
    if negb (length base =? HEADER_BASE_SIZE)%nat
    then Raise (SchemaError "truncated evlog header")
    else
      vs ← unpack HEADER_BASE_FMT base;
      match vs with
      | [VBytes magic; VInt version; VInt endian; VInt flags;
         VInt reserved] =>
        if negb (bytes_eqb magic MAGIC)
        then Raise (SchemaError "invalid evlog magic")
        else if version =? 0 then
          if negb (endian =? ENDIAN_LITTLE)
          then Raise (SchemaError
                        ("unsupported evlog endian: " +:+ str_of_Z endian))
          else if negb (reserved =? 0)
          then Raise (SchemaError "non-zero header reserved field")
          else Ok ({| version := version; endian := endian;
                      flags := flags; exchange_id := None;
                      symbol_id := None; quantizer_hash := None |}, f)
        else if negb (version =? VERSION)
        then Raise (SchemaError
                      ("unsupported evlog version: " +:+ str_of_Z version))
        else
          let '(extra, f) := read f (Z.of_nat HEADER_V1_EXTRA_SIZE) in
          if negb (length extra =? HEADER_V1_EXTRA_SIZE)%nat
          then Raise (SchemaError "truncated evlog header")
          else
            ws ← unpack HEADER_V1_EXTRA_FMT extra;
            match ws with
            | [VInt exchange_id; VInt symbol_id; VBytes quantizer_hash] =>
              if negb (endian =? ENDIAN_LITTLE)
              then Raise (SchemaError
                            ("unsupported evlog endian: "
                               +:+ str_of_Z endian))
              else if negb (reserved =? 0)
              then Raise (SchemaError "non-zero header reserved field")
              else Ok ({| version := version; endian := endian;
                          flags := flags;
                          exchange_id := Some exchange_id;
                          symbol_id := Some symbol_id;
                          quantizer_hash := Some quantizer_hash |}, f)
            | _ => Raise StructError
            end
      | _ => Raise StructError
      end
  end.

Definition unpack_record_header (data : list byte) : result (Z * Z) :=
  if negb (length data =? RECORD_HEADER_SIZE)%nat
  then Raise (SchemaError "invalid record header size")
  else
    vs ← unpack RECORD_HEADER_FMT data;
    match vs with
    | [VInt rec_type; VInt flags; VInt reserved; VInt length] =>
      if negb (flags =? 0)
      then Raise (SchemaError "non-zero record flags")
      else if negb (reserved =? 0)
      then Raise (SchemaError "non-zero record reserved field")
      else Ok (rec_type, length)
    | _ => Raise StructError
    end.

End format.
Export format.

(** ** [evlog/writer.py] *)

Module writer.

Definition _require_int64 (value : Z) (field : string) : result unit :=
  if (value <? - 2 ^ 63) || (2 ^ 63 - 1 <? value)
  then Raise (SchemaError
                (field +:+ " out of int64 range: " +:+ str_of_Z value))
  else Ok tt.

Record EvlogWriter : Type := {
  _file : option (list byte);
  _exchange_id : Z;
  _symbol_id : Z;
  _quantizer_hash : option (list byte)
}.

Definition EvlogWriter_new (exchange_id symbol_id : Z)
           (quantizer_hash : option (list byte)) : EvlogWriter :=
  {| _file := None; _exchange_id := exchange_id; _symbol_id := symbol_id;
     _quantizer_hash := quantizer_hash |}.

Definition set_file (self : EvlogWriter) (f : option (list byte))
  : EvlogWriter :=
  {| _file := f; _exchange_id := _exchange_id self;
     _symbol_id := _symbol_id self;
     _quantizer_hash := _quantizer_hash self |}.

(** [__enter__]: the file is created empty and the header written. *)
Definition __enter__ (self : EvlogWriter) : result EvlogWriter :=
  h ← pack_header 0 (_exchange_id self) (_symbol_id self)
                  (_quantizer_hash self);
  Ok (set_file self (Some h)).

(** [__exit__]: the bytes left on disk, and the closed writer. *)
Definition __exit__ (self : EvlogWriter) : option (list byte) * EvlogWriter :=
  (_file self, set_file self None).

Definition tell (self : EvlogWriter) : result Z :=
  match _file self with
  | None => Raise (SchemaError "writer is closed")
  | Some f => Ok (Z.of_nat (length f))
  end.

(** One iteration of the loop over [updates]: the checks, then the 24
    bytes that [struct.pack_into] stores at [offset]. *)
Definition pack_update (update : L2Update) : result (list byte) :=
  let side_value := Side_to_Z (side update) in
  if negb ((side_value =? Side_to_Z BID) || (side_value =? Side_to_Z ASK))
  then Raise (SchemaError ("invalid side: " +:+ str_of_Z side_value))
  else
    let price_ticks := price_ticks update in
    let amount_lots := amount_lots update in
    _require_int64 price_ticks "price_ticks";;
    _require_int64 amount_lots "amount_lots";;
    if price_ticks <=? 0
    then Raise (SchemaError "non-positive price_ticks")
    else if amount_lots <? 0
    then Raise (SchemaError "negative amount_lots")
    else
      pack L2_UPDATE_FMT
           [VInt side_value; VInt (if is_snapshot update then 1 else 0);
            VInt 0; VInt price_ticks; VInt amount_lots; VInt 0].

Fixpoint pack_updates (updates : list L2Update) : result (list byte) :=
  match updates with
  | [] => Ok []
  | u :: us =>
    b ← pack_update u;
    rest ← pack_updates us;
    Ok (b ++ rest)
  end.

Definition write_l2_batch (self : EvlogWriter) (batch : L2Batch)
  : result EvlogWriter :=
  match _file self with
  | None => Raise (SchemaError "writer is closed")
  | Some file =>
    let ts_recv_ns := ts_recv_ns batch in
    let ts_exch_ns := ts_exch_ns batch in
    _require_int64 ts_recv_ns "ts_recv_ns";;
    _require_int64 ts_exch_ns "ts_exch_ns";;
    if (ts_recv_ns <? 0) || (ts_exch_ns <? 0)
    then Raise (SchemaError "negative timestamp")
    else
      let updates := updates batch in
      let update_count := Z.of_nat (length updates) in
      if (update_count <? 0) || (2 ^ 32 - 1 <? update_count)
      then Raise (SchemaError ("update_count out of u32 range: "
                                 +:+ str_of_Z update_count))
      else
        let payload_len :=
          Z.of_nat L2_BATCH_HEADER_SIZE
          + update_count * Z.of_nat L2_UPDATE_SIZE in
        if negb (payload_len mod 8 =? 0)
        then Raise (SchemaError "l2 payload size not 8-byte aligned")
        else
          head ← pack L2_BATCH_HEADER_FMT
                 [VInt ts_recv_ns; VInt ts_exch_ns;
                  VInt (if resets_book batch then 1 else 0);
                  VInt update_count];
          body ← pack_updates updates;
          let payload := head ++ body in
          record_header ← pack RECORD_HEADER_FMT
                          [VInt L2_BATCH; VInt 0; VInt 0; VInt payload_len];
          if negb (length record_header =? RECORD_HEADER_SIZE)%nat
          then Raise (SchemaError "record header size mismatch")
          else Ok (set_file self (Some (file ++ record_header ++ payload)))
  end.

End writer.
Export writer.

(** ** [bisect.bisect_left]

    The loop of the library function: [lo, hi] start at [0, len(a)] and the
    interval shrinks at every turn, so [length a] turns are always enough. *)

Module bisect.

Fixpoint bisect_left_loop (fuel : nat) (a : list Z) (x : Z) (lo hi : nat)
  : nat :=
  match fuel with
  | O => lo
  | S f =>
    if (lo <? hi)%nat then
      let mid := ((lo + hi) / 2)%nat in
      if default 0 (a !! mid) <? x
      then bisect_left_loop f a x (mid + 1)%nat hi
      else bisect_left_loop f a x lo mid
    else lo
  end.

Definition bisect_left (a : list Z) (x : Z) : nat :=
  bisect_left_loop (length a) a x 0%nat (length a).

End bisect.
Export bisect.

(** ** [evlog/index.py] *)

Module index.

Definition INDEX_MAGIC : list byte := list_byte_of_string "MMEVLIDX".
Definition INDEX_VERSION : Z := 0.

Definition INDEX_HEADER_FMT : list code := [fs 8; fB; fB; fH; fI].
Definition INDEX_HEADER_SIZE : nat := calcsize INDEX_HEADER_FMT.

Definition INDEX_ENTRY_FMT : list code := [fq; fq].
Definition INDEX_ENTRY_SIZE : nat := calcsize INDEX_ENTRY_FMT.

Record IndexEntry : Type := { ts_recv_ns : Z; offset : Z }.

Definition _pack_header : result (list byte) :=
  pack INDEX_HEADER_FMT
       [VBytes INDEX_MAGIC; VInt INDEX_VERSION; VInt ENDIAN_LITTLE;
        VInt 0; VInt 0].

Definition _unpack_header (data : list byte) : result unit :=
  if negb (length data =? INDEX_HEADER_SIZE)%nat
  then Raise (SchemaError "invalid index header size")
  else
    vs ← unpack INDEX_HEADER_FMT data;
    match vs with
    | [VBytes magic; VInt version; VInt endian; VInt _flags;
       VInt reserved] =>
      if negb (bytes_eqb magic INDEX_MAGIC)
      then Raise (SchemaError "invalid index magic")
      else if negb (version =? INDEX_VERSION)
      then Raise (SchemaError
                    ("unsupported index version: " +:+ str_of_Z version))
      else if negb (endian =? ENDIAN_LITTLE)
      then Raise (SchemaError
                    ("unsupported index endian: " +:+ str_of_Z endian))
      else if negb (reserved =? 0)
      then Raise (SchemaError "non-zero index reserved field")
      else Ok tt
    | _ => Raise StructError
    end.

(** [prev is not None and P(prev)]. *)
Definition some_and (prev : option Z) (P : Z -> bool) : bool :=
  match prev with Some p => P p | None => false end.

(** The loop of [_write_entries]; the bytes written before an exception
    stay in the file. *)
Fixpoint _write_entries_loop (f : list byte) (count : Z)
         (prev_ts prev_offset : option Z) (entries : list IndexEntry)
  : list byte * result Z :=
  match entries with
  | [] => (f, Ok count)
  | entry :: rest =>
    if ts_recv_ns entry <? 0
    then (f, Raise (SchemaError ("negative index timestamp: "
                                   +:+ str_of_Z (ts_recv_ns entry))))
    else if offset entry <? 0
    then (f, Raise (SchemaError ("negative index offset: "
                                   +:+ str_of_Z (offset entry))))
    else if some_and prev_ts (fun p => ts_recv_ns entry <? p)
    then (f, Raise (SchemaError "index timestamps not monotone"))
    else if some_and prev_offset (fun p => offset entry <=? p)
    then (f, Raise (SchemaError "index offsets not increasing"))
    else
      match pack INDEX_ENTRY_FMT
                 [VInt (ts_recv_ns entry); VInt (offset entry)] with
      | Raise e => (f, Raise e)
      | Ok b =>
        _write_entries_loop (f ++ b) (count + 1)
                            (Some (ts_recv_ns entry))
                            (Some (offset entry)) rest
      end
  end.

Definition _write_entries (f : list byte) (entries : list IndexEntry)
  : list byte * result Z :=
  _write_entries_loop f 0 None None entries.

(** [write_index(path, entries)]: the content of the file at [path] when
    the call returns or raises, and the outcome. *)
Definition write_index (entries : list IndexEntry) : list byte * result Z :=
  match _pack_header with
  | Raise e => ([], Raise e)
  | Ok h => _write_entries h entries
  end.

(** The loop of [read_index] over [range(0, len(data), INDEX_ENTRY_SIZE)],
    [n] entries from [offset]. *)
Fixpoint read_entries (n : nat) (data : list byte) (off : nat)
         (prev_ts prev_offset : option Z) : result (list IndexEntry) :=
  match n with
  | O => Ok []
  | S k =>
    vs ← unpack_from INDEX_ENTRY_FMT data off;
    match vs with
    | [VInt ts_recv_ns; VInt rec_offset] =>
      if ts_recv_ns <? 0
      then Raise (SchemaError "negative index timestamp")
      else if rec_offset <? 0
      then Raise (SchemaError "negative index offset")
      else if some_and prev_ts (fun p => ts_recv_ns <? p)
      then Raise (SchemaError "index timestamps not monotone")
      else if some_and prev_offset (fun p => rec_offset <=? p)
      then Raise (SchemaError "index offsets not increasing")
      else
        rest ← read_entries k data (off + INDEX_ENTRY_SIZE)%nat
                            (Some ts_recv_ns) (Some rec_offset);
        Ok ({| ts_recv_ns := ts_recv_ns; offset := rec_offset |} :: rest)
    | _ => Raise StructError
    end
  end.

(** [read_index(path)] on the content of the file at [path]. *)
Definition read_index (file : list byte) : result (list IndexEntry) :=
  let f := open_rb file in
  let '(header, f) := read f (Z.of_nat INDEX_HEADER_SIZE) in
  _unpack_header header;;
  let '(data, _) := read_all f in
  if negb (length data mod INDEX_ENTRY_SIZE =? 0)%nat
  then Raise (SchemaError "index payload size mismatch")
  else read_entries (length data / INDEX_ENTRY_SIZE) data 0 None None.

End index.

(** ** [evlog/reader.py] *)

Module reader.

(** The loop [for _ in range(update_count)] of [_decode_l2_payload]. *)
Fixpoint decode_updates (n : nat) (payload : list byte) (off : nat)
  : result (list L2Update) :=
  match n with
  | O => Ok []
  | S k =>
    vs ← unpack_from L2_UPDATE_FMT payload off;
    match vs with
    | [VInt side_value; VInt is_snapshot; VInt r16; VInt price_ticks;
       VInt amount_lots; VInt r32] =>
      if negb (r16 =? 0) || negb (r32 =? 0)
      then Raise (SchemaError "non-zero l2 update reserved fields")
      else
        match Side_of_Z side_value with
        | None =>
          Raise (SchemaError ("invalid side: " +:+ str_of_Z side_value))
        | Some side =>
          if negb ((is_snapshot =? 0) || (is_snapshot =? 1))
          then Raise (SchemaError ("invalid is_snapshot flag: "
                                     +:+ str_of_Z is_snapshot))
          else if price_ticks <=? 0
          then Raise (SchemaError "non-positive price_ticks")
          else if amount_lots <? 0
          then Raise (SchemaError "negative amount_lots")
          else
            rest ← decode_updates k payload (off + L2_UPDATE_SIZE)%nat;
            Ok ({| side := side; price_ticks := price_ticks;
                   amount_lots := amount_lots;
                   is_snapshot := negb (is_snapshot =? 0) |} :: rest)
        end
    | _ => Raise StructError
    end
  end.

Definition _decode_l2_payload (payload : list byte) : result L2Batch :=
  if (length payload <? L2_BATCH_HEADER_SIZE)%nat
  then Raise (SchemaError "l2 payload too small")
  else
    vs ← unpack_from L2_BATCH_HEADER_FMT payload 0;
    match vs with
    | [VInt ts_recv_ns; VInt ts_exch_ns; VInt resets_book;
       VInt update_count] =>
      if (ts_recv_ns <? 0) || (ts_exch_ns <? 0)
      then Raise (SchemaError "negative timestamp")
      else if negb ((resets_book =? 0) || (resets_book =? 1))
      then Raise (SchemaError ("invalid resets_book flag: "
                                 +:+ str_of_Z resets_book))
      else
        let expected_len :=
          Z.of_nat L2_BATCH_HEADER_SIZE
          + update_count * Z.of_nat L2_UPDATE_SIZE in
        if negb (Z.of_nat (length payload) =? expected_len)
        then Raise (SchemaError "l2 payload size mismatch")
        else
          updates ← decode_updates (Z.to_nat update_count) payload
                                   L2_BATCH_HEADER_SIZE;
          Ok {| evlog_types.ts_recv_ns := ts_recv_ns;
                ts_exch_ns := ts_exch_ns;
                resets_book := negb (resets_book =? 0);
                updates := updates |}
    | _ => Raise StructError
    end.

Record EvlogReader : Type := {
  _file : option rfile;
  _header : option EvlogHeader;
  _index : option (list index.IndexEntry);
  _index_ts : option (list Z)
}.

(** [EvlogReader(path, index_path=...)]; [index_file] is the content of
    the file at [index_path] when one is given. *)
Definition EvlogReader_new (index_file : option (list byte))
  : result EvlogReader :=
  match index_file with
  | Some bytes =>
    idx ← index.read_index bytes;
    Ok {| _file := None; _header := None; _index := Some idx;
          _index_ts := Some (map index.ts_recv_ns idx) |}
  | None =>
    Ok {| _file := None; _header := None; _index := None;
          _index_ts := None |}
  end.

Definition set_file (self : EvlogReader) (f : option rfile) : EvlogReader :=
  {| _file := f; _header := _header self; _index := _index self;
     _index_ts := _index_ts self |}.

(** [__enter__] on the content of the file at [path]. *)
Definition __enter__ (self : EvlogReader) (data : list byte)
  : result EvlogReader :=
  '(h, f) ← read_header (open_rb data);
  Ok {| _file := Some f; _header := Some h; _index := _index self;
        _index_ts := _index_ts self |}.

Definition seek_time (self : EvlogReader) (ts_recv_ns : Z)
  : result EvlogReader :=
  match _file self with
  | None => Raise (SchemaError "reader is closed")
  | Some f =>
    match _index self, _index_ts self with
    | Some idx_entries, Some index_ts =>
      let idx := bisect_left index_ts ts_recv_ns in
      if (length idx_entries <=? idx)%nat
      then Ok (set_file self (Some (seek_end f)))
      else
        match idx_entries !! idx with
        | Some entry => Ok (set_file self (Some (seek f (index.offset entry))))
        | None => Raise IndexError
        end
    | _, _ => Raise (SchemaError "index not available")
    end
  end.

(** The [while True] loop of [iter_l2_batches]: the batches yielded, the
    exception that ended the iteration if one did, and the file where the
    loop left it.  Each turn that does not stop reads a record header. *)
Fixpoint iter_loop (fuel : nat) (f : rfile)
  : list L2Batch * option Exn * rfile :=
  match fuel with
  | O => ([], None, f)
  | S n =>
    let '(header, f1) := read f (Z.of_nat RECORD_HEADER_SIZE) in
    match header with
    | [] => ([], None, f1)
    | _ =>
      if negb (length header =? RECORD_HEADER_SIZE)%nat
      then ([], Some (SchemaError "truncated record header"), f1)
      else
        match unpack_record_header header with
        | Raise e => ([], Some e, f1)
        | Ok (rec_type, payload_len) =>
          if negb (payload_len mod 8 =? 0)
          then ([], Some (SchemaError "payload length not 8-byte aligned"),
                f1)
          else
            let '(payload, f2) := read f1 payload_len in
            if negb (Z.of_nat (length payload) =? payload_len)
            then ([], Some (SchemaError "truncated payload"), f2)
            else if rec_type =? L2_BATCH then
              match _decode_l2_payload payload with
              | Raise e => ([], Some e, f2)
              | Ok b =>
                let '(bs, e, f3) := iter_loop n f2 in (b :: bs, e, f3)
              end
            else ([], Some (SchemaError ("unknown record type: "
                                           +:+ str_of_Z rec_type)), f2)
        end
    end
  end.

(** [list(reader.iter_l2_batches())]: every turn that continues consumes
    at least the 8 bytes of a record header, so one turn per byte of the
    file and one more for the final empty read always suffice. *)
Definition iter_l2_batches (self : EvlogReader)
  : result (list L2Batch * option Exn * EvlogReader) :=
  match _file self with
  | None => Raise (SchemaError "reader is closed")
  | Some f =>
    let '(bs, e, f') := iter_loop (S (length (content f))) f in
    Ok (bs, e, set_file self (Some f'))
  end.

End reader.

(** ** [book/book_py.py] *)

Module book_py.

(** [prices.insert(idx, price)] after the bisection, unless the price is
    already there. *)
Definition _insert_price (prices : list Z) (price : Z) : list Z :=
  let idx := bisect_left prices price in
  if (idx <? length prices)%nat && bool_decide (prices !! idx = Some price)
  then prices
  else take idx prices ++ price :: drop idx prices.

(** [prices.pop(idx)] when the bisection finds the price. *)
Definition _remove_price (prices : list Z) (price : Z) : list Z :=
  let idx := bisect_left prices price in
  if (idx <? length prices)%nat && bool_decide (prices !! idx = Some price)
  then delete idx prices
  else prices.

Record BookPy : Type := {
  _reject_crossed : bool;
  _bids : gmap Z Z;
  _asks : gmap Z Z;
  _bid_prices : list Z;
  _ask_prices : list Z
}.

Definition reset (self : BookPy) : BookPy :=
  {| _reject_crossed := _reject_crossed self;
     _bids := ∅; _asks := ∅; _bid_prices := []; _ask_prices := [] |}.

(** [BookPy(reject_crossed=...)]. *)
Definition BookPy_new (reject_crossed : bool) : BookPy :=
  {| _reject_crossed := reject_crossed;
     _bids := ∅; _asks := ∅; _bid_prices := []; _ask_prices := [] |}.

(** The static method works on the dict and the list it is handed and
    mutates both; here it returns them. *)
Definition _apply_level (levels : gmap Z Z) (prices : list Z)
           (price amount : Z) : gmap Z Z * list Z :=
  if amount =? 0 then
    if bool_decide (is_Some (levels !! price))
    then (delete price levels, _remove_price prices price)
    else (levels, prices)
  else (<[price := amount]> levels, _insert_price prices price).

(** [_apply_update]: the checks come before any mutation, so a raise
    leaves the book as it was. *)
Definition _apply_update (self : BookPy) (update : L2Update)
  : result BookPy :=
  let price := price_ticks update in
  let amount := amount_lots update in
  if price <=? 0
  then Raise (SchemaError ("non-positive price: " +:+ str_of_Z price))
  else if amount <? 0
  then Raise (SchemaError ("negative amount: " +:+ str_of_Z amount))
  else
    match side update with
    | BID =>
      let '(levels, prices) :=
        _apply_level (_bids self) (_bid_prices self) price amount in
      Ok {| _reject_crossed := _reject_crossed self;
            _bids := levels; _asks := _asks self;
            _bid_prices := prices; _ask_prices := _ask_prices self |}
    | ASK =>
      let '(levels, prices) :=
        _apply_level (_asks self) (_ask_prices self) price amount in
      Ok {| _reject_crossed := _reject_crossed self;
            _bids := _bids self; _asks := levels;
            _bid_prices := _bid_prices self; _ask_prices := prices |}
    end.

Definition _check_crossed (self : BookPy) : result unit :=
  match last (_bid_prices self), head (_ask_prices self) with
  | Some best_bid, Some best_ask =>
    if best_ask <=? best_bid then Raise (SchemaError "crossed book")
    else Ok tt
  | _, _ => Ok tt
  end.

(** The loop over [batch.updates]: the book after the updates applied so
    far, and the exception of the first update that raised. *)
Fixpoint apply_updates (self : BookPy) (updates : list L2Update)
  : BookPy * result unit :=
  match updates with
  | [] => (self, Ok tt)
  | u :: us =>
    match _apply_update self u with
    | Raise e => (self, Raise e)
    | Ok self' => apply_updates self' us
    end
  end.

(** [apply_l2_batch]: the book object after the call, whether it returned
    or raised, and the outcome. *)
Definition apply_l2_batch (self : BookPy) (batch : L2Batch)
  : BookPy * result unit :=
  let self := if resets_book batch then reset self else self in
  match apply_updates self (updates batch) with
  | (self, Raise e) => (self, Raise e)
  | (self, Ok _) =>
    if _reject_crossed self then (self, _check_crossed self)
    else (self, Ok tt)
  end.

(** [levels[price]] of a dict. *)
Definition getitem (levels : gmap Z Z) (price : Z) : result Z :=
  match levels !! price with
  | Some v => Ok v
  | None => Raise (KeyError price)
  end.

Definition best_bid_ask (self : BookPy)
  : result (option Z * option Z * option Z * option Z) :=
  '(bid_px, bid_qty) ←
    match last (_bid_prices self) with
    | None => Ok (None, None)
    | Some bid_px_val =>
      q ← getitem (_bids self) bid_px_val; Ok (Some bid_px_val, Some q)
    end;
  '(ask_px, ask_qty) ←
    match head (_ask_prices self) with
    | None => Ok (None, None)
    | Some ask_px_val =>
      q ← getitem (_asks self) ask_px_val; Ok (Some ask_px_val, Some q)
    end;
  Ok (bid_px, bid_qty, ask_px, ask_qty).

(** The loop of [levels] over [ordered], which stops once [depth] prices
    are out. *)
Fixpoint collect_levels (levels : gmap Z Z) (ordered : list Z)
         (depth : nat) : result (list Z * list Z) :=
  match ordered with
  | [] => Ok ([], [])
  | price :: rest =>
    size ← getitem levels price;
    match depth with
    | O | S O => Ok ([price], [size])
    | S d =>
      '(ps, ss) ← collect_levels levels rest d;
      Ok (price :: ps, size :: ss)
    end
  end.

Definition levels (self : BookPy) (side : Side) (depth : Z)
  : result (list Z * list Z) :=
  if depth <=? 0 then Ok ([], [])
  else
    match side with
    | BID => collect_levels (_bids self) (reverse (_bid_prices self))
                            (Z.to_nat depth)
    | ASK => collect_levels (_asks self) (_ask_prices self)
                            (Z.to_nat depth)
    end.

End book_py.
Export book_py.

(** ** [core/config.py], [io/tardis_csv.py] (the row record) and
    [ingest/quarantine.py] *)

Module config.

Inductive FailurePolicy : Type := HARD_FAIL | QUARANTINE.
Inductive QuarantineAction : Type := HALT | SKIP_ROW | SKIP_BATCH.

Definition FailurePolicy_eqb (a b : FailurePolicy) : bool :=
  match a, b with
  | HARD_FAIL, HARD_FAIL | QUARANTINE, QUARANTINE => true
  | _, _ => false
  end.

Definition QuarantineAction_eqb (a b : QuarantineAction) : bool :=
  match a, b with
  | HALT, HALT | SKIP_ROW, SKIP_ROW | SKIP_BATCH, SKIP_BATCH => true
  | _, _ => false
  end.

End config.
Export config.

Module tardis_csv.

Record L2Row : Type := {
  exchange : string;
  symbol : string;
  timestamp_us : Z;
  local_timestamp_us : Z;
  is_snapshot : bool;
  side : Side;
  price : string;
  amount : string;
  line_number : Z;
  source : string
}.

End tardis_csv.

Module quarantine.

Record QuarantineRecord : Type := {
  reason : string;
  source : string;
  line_number : Z;
  payload : option tardis_csv.L2Row   (* the row, or None *)
}.

(** A [ListQuarantineSink] is the list of its records; the sink argument
    of the batcher is such a sink or [None]. *)
Definition ListQuarantineSink : Type := list QuarantineRecord.

Definition record (self : ListQuarantineSink) (r : QuarantineRecord)
  : ListQuarantineSink := self ++ [r].

Definition record_quarantine (policy : FailurePolicy)
           (sink : option ListQuarantineSink) (r : QuarantineRecord)
  : option ListQuarantineSink :=
  match sink with
  | Some s =>
    if FailurePolicy_eqb policy QUARANTINE then Some (record s r) else sink
  | None => None
  end.

End quarantine.
Export quarantine.

(** ** [ingest/l2_batcher.py]

    The generator is a loop over the rows with eleven local variables; one
    turn of the loop is [process_row].  A turn ends by falling off the end
    of the body, by [continue] or by a raise; on its way it may yield a
    batch and record into the sink. *)

Module l2_batcher.

Import tardis_csv.

Record Locals : Type := {
  prev_local_ts : option Z;
  prev_is_snapshot : bool;
  expected_exchange : option string;
  expected_symbol : option string;
  last_source : option string;
  batch_local_ts : option Z;
  batch_is_snapshot : option bool;
  batch_resets_book : option bool;
  batch_ts_exch_us : option Z;
  updates : list L2Update;
  skip_batch : bool
}.

Definition initial : Locals :=
  {| prev_local_ts := None; prev_is_snapshot := false;
     expected_exchange := None; expected_symbol := None;
     last_source := None; batch_local_ts := None;
     batch_is_snapshot := None; batch_resets_book := None;
     batch_ts_exch_us := None; updates := []; skip_batch := false |}.

(** The generator between two rows: its locals, the sink, and the batches
    yielded so far. *)
Record Gen : Type := {
  locals : Locals;
  sink : option ListQuarantineSink;
  yielded : list L2Batch
}.

Inductive Flow : Type :=
| Fall (g : Gen)                 (* control reaches the next statement *)
| Continue (g : Gen)             (* [continue] *)
| Raised (g : Gen) (e : Exn).    (* an exception leaves the generator *)

Definition and_then (f : Flow) (k : Gen -> Flow) : Flow :=
  match f with
  | Fall g => k g
  | _ => f
  end.

Definition with_locals (g : Gen) (l : Locals) : Gen :=
  {| locals := l; sink := sink g; yielded := yielded g |}.

Record Config : Type := {
  quantizer : Quantizer;
  failure_policy : FailurePolicy;
  quarantine_action : QuarantineAction;
  source_arg : string
}.

(** [_handle_error]: the sink after the call, and the action returned or
    the exception re-raised. *)
Definition _handle_error (exc : Exn) (policy : FailurePolicy)
           (action : QuarantineAction) (sink : option ListQuarantineSink)
           (source : string) (line_number : Z) (payload : option L2Row)
  : option ListQuarantineSink * result QuarantineAction :=
  let sink :=
    record_quarantine policy sink
      {| reason := str_exn exc; quarantine.source := source;
         quarantine.line_number := line_number; payload := payload |} in
  if FailurePolicy_eqb policy HARD_FAIL || QuarantineAction_eqb action HALT
  then (sink, Raise exc)
  else (sink, Ok action).

(** Field updates of the locals. *)
Definition set_prev_local_ts (l : Locals) (v : option Z) : Locals :=
  {| prev_local_ts := v; prev_is_snapshot := prev_is_snapshot l;
     expected_exchange := expected_exchange l;
     expected_symbol := expected_symbol l; last_source := last_source l;
     batch_local_ts := batch_local_ts l;
     batch_is_snapshot := batch_is_snapshot l;
     batch_resets_book := batch_resets_book l;
     batch_ts_exch_us := batch_ts_exch_us l; updates := updates l;
     skip_batch := skip_batch l |}.

Definition set_prev_is_snapshot (l : Locals) (v : bool) : Locals :=
  {| prev_local_ts := prev_local_ts l; prev_is_snapshot := v;
     expected_exchange := expected_exchange l;
     expected_symbol := expected_symbol l; last_source := last_source l;
     batch_local_ts := batch_local_ts l;
     batch_is_snapshot := batch_is_snapshot l;
     batch_resets_book := batch_resets_book l;
     batch_ts_exch_us := batch_ts_exch_us l; updates := updates l;
     skip_batch := skip_batch l |}.

Definition set_expected (l : Locals) (e s : option string) : Locals :=
  {| prev_local_ts := prev_local_ts l;
     prev_is_snapshot := prev_is_snapshot l;
     expected_exchange := e; expected_symbol := s;
     last_source := last_source l;
     batch_local_ts := batch_local_ts l;
     batch_is_snapshot := batch_is_snapshot l;
     batch_resets_book := batch_resets_book l;
     batch_ts_exch_us := batch_ts_exch_us l; updates := updates l;
     skip_batch := skip_batch l |}.

Definition set_last_source (l : Locals) (v : option string) : Locals :=
  {| prev_local_ts := prev_local_ts l;
     prev_is_snapshot := prev_is_snapshot l;
     expected_exchange := expected_exchange l;
     expected_symbol := expected_symbol l; last_source := v;
     batch_local_ts := batch_local_ts l;
     batch_is_snapshot := batch_is_snapshot l;
     batch_resets_book := batch_resets_book l;
     batch_ts_exch_us := batch_ts_exch_us l; updates := updates l;
     skip_batch := skip_batch l |}.

(** The batch variables, assigned together where a batch starts or is
    dropped. *)
Definition set_batch (l : Locals) (ts : option Z) (snap resets : option bool)
           (exch : option Z) (ups : list L2Update) (skip : bool)
  : Locals :=
  {| prev_local_ts := prev_local_ts l;
     prev_is_snapshot := prev_is_snapshot l;
     expected_exchange := expected_exchange l;
     expected_symbol := expected_symbol l; last_source := last_source l;
     batch_local_ts := ts; batch_is_snapshot := snap;
     batch_resets_book := resets; batch_ts_exch_us := exch;
     updates := ups; skip_batch := skip |}.

Section row.

Variable cfg : Config.
Variable row : L2Row.

(** [source or row.source]. *)
Definition row_source : string :=
  if String.eqb (source_arg cfg) "" then tardis_csv.source row
  else source_arg cfg.

Definition handle (g : Gen) (exc : Exn)
  : Gen * result QuarantineAction :=
  let '(s, r) :=
    _handle_error exc (failure_policy cfg) (quarantine_action cfg)
                  (sink g) row_source (tardis_csv.line_number row)
                  (Some row) in
  ({| locals := locals g; sink := s; yielded := yielded g |}, r).

(** Lines 71-99: the source of the row, and the exchange/symbol check. *)
Definition check_exchange (g : Gen) : Flow :=
  let g := with_locals g (set_last_source (locals g) (Some row_source)) in
  let l := locals g in
  match expected_exchange l with
  | None =>
    Fall (with_locals g (set_expected l (Some (exchange row))
                                      (Some (symbol row))))
  | Some ee =>
    if negb (String.eqb (exchange row) ee)
       || negb (bool_decide (Some (symbol row) = expected_symbol l))
    then
      match handle g (SchemaError
                        ("mixed exchange/symbol in stream: "
                           +:+ exchange row +:+ "/" +:+ symbol row)) with
      | (g, Raise e) => Raised g e
      | (g, Ok SKIP_ROW) =>
        Continue (with_locals g
                    (set_prev_local_ts (locals g)
                                       (Some (local_timestamp_us row))))
      | (g, Ok SKIP_BATCH) =>
        let l := locals g in
        let ts :=
          match batch_local_ts l with
          | None => Some (local_timestamp_us row)
          | Some b => Some b
          end in
        let l := set_batch l ts (batch_is_snapshot l)
                           (batch_resets_book l) None [] true in
        Continue (with_locals g
                    (set_prev_local_ts l (Some (local_timestamp_us row))))
      | (g, Ok HALT) => Fall g
      end
    else Fall g
  end.

(** Lines 101-114: the local timestamp must not decrease. *)
Definition check_ordering (g : Gen) : Flow :=
  match prev_local_ts (locals g) with
  | Some prev =>
    if local_timestamp_us row <? prev then
      match handle g (OrderingError
                        ("local_timestamp decreased: "
                           +:+ str_of_Z (local_timestamp_us row)
                           +:+ " < " +:+ str_of_Z prev)) with
      | (g, Raise e) => Raised g e
      | (g, Ok SKIP_ROW) | (g, Ok SKIP_BATCH) => Continue g
      | (g, Ok HALT) => Fall g
      end
    else Fall g
  | None => Fall g
  end.

(** Lines 116-125: rows of a batch that is being skipped. *)
Definition check_skip_batch (g : Gen) : Flow :=
  let l := locals g in
  if skip_batch l then
    if bool_decide (batch_local_ts l = Some (local_timestamp_us row))
    then Continue (with_locals g
                     (set_prev_local_ts l (Some (local_timestamp_us row))))
    else Fall (with_locals g (set_batch l None None None None [] false))
  else Fall g.

(** Lines 132-155: the batch that ends when the timestamp changes is
    yielded, unless it is empty or has no exchange timestamp. *)
Definition flush (g : Gen) (batch_ts : Z) : Flow :=
  let l := locals g in
  match updates l with
  | [] => Fall g
  | _ :: _ =>
    match batch_ts_exch_us l with
    | None =>
      match handle g (SchemaError "missing exchange timestamp in batch")
      with
      | (g, Raise e) => Raised g e
      | (g, Ok SKIP_ROW) | (g, Ok SKIP_BATCH) =>
        let l := locals g in
        Fall (with_locals g
                (set_batch l (batch_local_ts l) (batch_is_snapshot l)
                           (batch_resets_book l) (batch_ts_exch_us l)
                           [] (skip_batch l)))
      | (g, Ok HALT) => Raised g TypeError
      end
    | Some exch =>
      let b := {| ts_recv_ns := batch_ts * 1000;
                  ts_exch_ns := exch * 1000;
                  resets_book := default false (batch_resets_book l);
                  evlog_types.updates := updates l |} in
      Fall {| locals :=
                set_prev_is_snapshot
                  l (default false (batch_is_snapshot l));
              sink := sink g;
              yielded := yielded g ++ [b] |}
    end
  end.

(** Lines 127-160: where a batch starts. *)
Definition batch_boundary (g : Gen) : Flow :=
  let l := locals g in
  match batch_local_ts l with
  | None =>
    Fall (with_locals g
            (set_batch l (Some (local_timestamp_us row))
                       (Some (tardis_csv.is_snapshot row))
                       (Some (negb (prev_is_snapshot l)
                              && tardis_csv.is_snapshot row))
                       (batch_ts_exch_us l) (updates l) (skip_batch l)))
  | Some b =>
    if negb (local_timestamp_us row =? b) then
      and_then (flush g b) (fun g =>
        let l := locals g in
        Fall (with_locals g
                (set_batch l (Some (local_timestamp_us row))
                           (Some (tardis_csv.is_snapshot row))
                           (Some (negb (prev_is_snapshot l)
                                  && tardis_csv.is_snapshot row))
                           None [] (skip_batch l))))
    else Fall g
  end.

(** The two assignments shared by the SKIP_ROW and SKIP_BATCH branches
    of lines 174-182 and 197-205. *)
Definition after_error (g : Gen) (r : result QuarantineAction)
           (fall : Flow) : Flow :=
  match r with
  | Raise e => Raised g e
  | Ok SKIP_ROW =>
    Continue (with_locals g
                (set_prev_local_ts (locals g)
                                   (Some (local_timestamp_us row))))
  | Ok SKIP_BATCH =>
    let l := locals g in
    let l := set_batch l (batch_local_ts l) (batch_is_snapshot l)
                       (batch_resets_book l) None [] true in
    Continue (with_locals g
                (set_prev_local_ts l (Some (local_timestamp_us row))))
  | Ok HALT => fall
  end.

(** Lines 162-182: [is_snapshot] is constant within a batch. *)
Definition check_snapshot (g : Gen) : Flow :=
  match batch_is_snapshot (locals g) with
  | Some bs =>
    if negb (Bool.eqb (tardis_csv.is_snapshot row) bs) then
      let '(g, r) :=
        handle g (SchemaError
                    "mixed is_snapshot values within a local_timestamp batch")
      in after_error g r (Fall g)
    else Fall g
  | None => Fall g
  end.

(** Lines 184-186: the [try] body. *)
Definition quantize_row : result (Z * Z) :=
  price_ticks ← quantize_price (quantizer cfg) (price row);
  amount_lots ← quantize_amount (quantizer cfg) (amount row);
  Ok (price_ticks, amount_lots).

(** Lines 184-216: quantization, then the update is appended. *)
Definition quantize_and_append (g : Gen) : Flow :=
  match quantize_row with
  | Raise (QuantizationError m) =>
    let '(g, r) :=
      handle g (QuantizationError
                  (m +:+ " at line "
                     +:+ str_of_Z (tardis_csv.line_number row)))
    in after_error g r (Raised g UnboundLocalError)
  | Raise e => Raised g e
  | Ok (price_ticks, amount_lots) =>
    let l := locals g in
    let u := {| evlog_types.side := tardis_csv.side row;
                price_ticks := price_ticks;
                amount_lots := amount_lots;
                evlog_types.is_snapshot := tardis_csv.is_snapshot row |} in
    let l := set_batch l (batch_local_ts l) (batch_is_snapshot l)
                       (batch_resets_book l)
                       (Some (timestamp_us row))
                       (updates l ++ [u]) (skip_batch l) in
    Fall (with_locals g
            (set_prev_local_ts l (Some (local_timestamp_us row))))
  end.

(** One turn of [for row in rows]. *)
Definition process_row (g : Gen) : Flow :=
  and_then (check_exchange g) (fun g =>
  and_then (check_ordering g) (fun g =>
  and_then (check_skip_batch g) (fun g =>
  and_then (batch_boundary g) (fun g =>
  and_then (check_snapshot g) quantize_and_append)))).

End row.

Fixpoint run_rows (cfg : Config) (g : Gen) (rows : list L2Row)
  : Gen * option Exn :=
  match rows with
  | [] => (g, None)
  | row :: rest =>
    match process_row cfg row g with
    | Fall g' | Continue g' => run_rows cfg g' rest
    | Raised g' e => (g', Some e)
    end
  end.

(** Lines 218-236: after the last row. *)
Definition finish (cfg : Config) (g : Gen) : Gen * option Exn :=
  let l := locals g in
  match batch_local_ts l with
  | None => (g, None)
  | Some batch_ts =>
    match updates l with
    | [] => (g, None)
    | _ :: _ =>
      match batch_ts_exch_us l with
      | None =>
        let src :=
          if negb (String.eqb (source_arg cfg) "") then source_arg cfg
          else match last_source l with
               | Some s => if String.eqb s "" then "" else s
               | None => ""
               end in
        let '(s, r) :=
          _handle_error (SchemaError "missing exchange timestamp in batch")
                        (failure_policy cfg) (quarantine_action cfg)
                        (sink g) src 0 None in
        let g := {| locals := l; sink := s; yielded := yielded g |} in
        match r with
        | Raise e => (g, Some e)
        | Ok _ => (g, None)
        end
      | Some exch =>
        let b := {| ts_recv_ns := batch_ts * 1000;
                    ts_exch_ns := exch * 1000;
                    resets_book := default false (batch_resets_book l);
                    evlog_types.updates := updates l |} in
        ({| locals := l; sink := sink g; yielded := yielded g ++ [b] |},
         None)
      end
    end
  end.

(** [list(iter_l2_batches(rows, quantizer, ...))] run to its end: the
    generator when it stops (its [yielded] batches and its [sink]), and
    the exception that stopped it, if any. *)
Definition iter_l2_batches (cfg : Config)
           (quarantine_sink : option ListQuarantineSink)
           (rows : list L2Row) : Gen * option Exn :=
  let g := {| locals := initial; sink := quarantine_sink; yielded := [] |} in
  match run_rows cfg g rows with
  | (g, Some e) => (g, Some e)
  | (g, None) => finish cfg g
  end.

End l2_batcher.

(** ** [sim/fees.py], [sim/portfolio.py], [strategy/api.py] *)

Module fees.

Record FixedBpsFeeModel : Type := { bps : Z }.

(** The dataclass constructor with its [__post_init__]. *)
Definition FixedBpsFeeModel_new (bps : Z) : result FixedBpsFeeModel :=
  if bps <? 0 then Raise (SchemaError "fee bps must be non-negative")
  else if 10000 <? bps then Raise (SchemaError "fee bps too large")
  else Ok {| bps := bps |}.

Definition fee_atoms (self : FixedBpsFeeModel) (notional : Z) : result Z :=
  if notional <? 0 then Raise (SchemaError "notional must be non-negative")
  else Ok ((notional * bps self) / 10000).

End fees.
Export fees.

Module portfolio.

Record Portfolio : Type := { cash : Z; position : Z }.

(** [apply_fill]: the portfolio after the call and the outcome; every
    raise comes before the two assignments at the end. *)
Definition apply_fill (self : Portfolio) (side : Side)
           (price_ticks qty_lots fee_atoms : Z)
           (allow_short allow_margin : bool) : Portfolio * result unit :=
  let qty := qty_lots in
  if qty <=? 0 then (self, Raise (SchemaError "qty_lots must be positive"))
  else
    let price := price_ticks in
    if price <=? 0
    then (self, Raise (SchemaError "price_ticks must be positive"))
    else
      let notional := price * qty in
      let fee := fee_atoms in
      if fee <? 0
      then (self, Raise (SchemaError "fee_atoms must be non-negative"))
      else
        match side with
        | BID =>
          let total := notional + fee in
          if negb allow_margin && (cash self <? total)
          then (self, Raise (SchemaError "insufficient cash for buy"))
          else ({| cash := cash self - total;
                   position := position self + qty |}, Ok tt)
        | ASK =>
          if negb allow_short && (position self <? qty)
          then (self, Raise (SchemaError "insufficient position for sell"))
          else ({| cash := cash self + (notional - fee);
                   position := position self - qty |}, Ok tt)
        end.

Definition equity (self : Portfolio) (mark_price_ticks : Z) : result Z :=
  if mark_price_ticks <=? 0
  then Raise (SchemaError "mark_price_ticks must be positive")
  else Ok (cash self + position self * mark_price_ticks).

End portfolio.
Export portfolio.

Module strategy_api.

Record BookSnapshot : Type := {
  bid_px : Z; bid_qty : Z; ask_px : Z; ask_qty : Z
}.

Record MarketOrder : Type := { side : Side; qty_lots : Z }.

End strategy_api.
Export strategy_api.

(** ** [sim/tape.py]: the records of an open tape *)

Module tape.

Inductive TapeEvent : Type :=
| TapeAction (ts_recv_ns action_id : Z) (side : Side) (qty_lots : Z)
| TapeFill (ts_recv_ns fill_id action_id : Z) (side : Side)
           (price_ticks qty_lots notional fee_atoms : Z)
| TapeEquity (ts_recv_ns cash position equity : Z).

(** An open [TapeWriter] is the list of the lines written. *)
Definition TapeWriter : Type := list TapeEvent.

Definition record_action (self : TapeWriter) (ts_recv_ns action_id : Z)
           (side : Side) (qty_lots : Z) : result TapeWriter :=
  if action_id <=? 0 then Raise (SchemaError "action_id must be positive")
  else if qty_lots <=? 0 then Raise (SchemaError "qty_lots must be positive")
  else Ok (self ++ [TapeAction ts_recv_ns action_id side qty_lots]).

Definition record_fill (self : TapeWriter) (ts_recv_ns fill_id action_id : Z)
           (side : Side) (price_ticks qty_lots notional fee_atoms : Z)
  : result TapeWriter :=
  if fill_id <=? 0 then Raise (SchemaError "fill_id must be positive")
  else if action_id <=? 0
  then Raise (SchemaError "action_id must be positive")
  else if price_ticks <=? 0
  then Raise (SchemaError "price_ticks must be positive")
  else if qty_lots <=? 0 then Raise (SchemaError "qty_lots must be positive")
  else Ok (self ++ [TapeFill ts_recv_ns fill_id action_id side price_ticks
                             qty_lots notional fee_atoms]).

End tape.
Export tape.

(** ** [sim/exchange.py]: market orders against the top of the book *)

Module exchange.

Record Fill : Type := {
  ts_recv_ns : Z;
  side : Side;
  price_ticks : Z;
  qty_lots : Z;
  notional : Z;
  fee_atoms : Z
}.

(** The integer and boolean fields of [RunConfig]; [sr_benchmark] and
    [dsr_trials] only feed the floating-point metrics. *)
Record RunConfig : Type := {
  initial_cash : Z;
  initial_position : Z;
  allow_short : bool;
  allow_margin : bool;
  skip_initial_missing_book : bool;
  ignore_risk_rejects : bool
}.

Definition _ensure_snapshot_ready (bid_px bid_qty ask_px ask_qty : option Z)
  : result BookSnapshot :=
  match bid_px, bid_qty, ask_px, ask_qty with
  | Some bp, Some bq, Some ap, Some aq =>
    if (bq <=? 0) || (aq <=? 0)
    then Raise (SchemaError "non-positive top-of-book size")
    else Ok {| bid_px := bp; bid_qty := bq; ask_px := ap; ask_qty := aq |}
  | _, _, _, _ => Raise (SchemaError "missing best bid/ask")
  end.

(** [_execute_market_order]: the portfolio object after the call, and the
    fill, [None], or the exception. *)
Definition _execute_market_order (ts_recv_ns : Z) (order : MarketOrder)
           (book : BookSnapshot) (portfolio : Portfolio)
           (fee_model : FixedBpsFeeModel)
           (allow_short allow_margin ignore_risk_rejects : bool)
  : Portfolio * result (option Fill) :=
  let qty := strategy_api.qty_lots order in
  if qty <=? 0
  then (portfolio, Raise (SchemaError "qty_lots must be positive"))
  else
    let '(price, available) :=
      match strategy_api.side order with
      | BID => (ask_px book, ask_qty book)
      | ASK => (bid_px book, bid_qty book)
      end in
    if available <? qty
    then (portfolio,
          Raise (SchemaError "market order exceeds top-of-book size"))
    else
      let notional := price * qty in
      match fees.fee_atoms fee_model notional with
      | Raise e => (portfolio, Raise e)
      | Ok fee_atoms =>
        let rejected :=
          match strategy_api.side order with
          | BID =>
            if negb allow_margin && (cash portfolio <? notional + fee_atoms)
            then Some "insufficient cash for buy" else None
          | ASK =>
            if negb allow_short && (position portfolio <? qty)
            then Some "insufficient position for sell" else None
          end in
        match rejected with
        | Some msg =>
          if ignore_risk_rejects then (portfolio, Ok None)
          else (portfolio, Raise (SchemaError msg))
        | None =>
          match apply_fill portfolio (strategy_api.side order) price
                           (strategy_api.qty_lots order) fee_atoms
                           allow_short allow_margin with
          | (portfolio, Raise e) => (portfolio, Raise e)
          | (portfolio, Ok _) =>
            (portfolio,
             Ok (Some {| ts_recv_ns := ts_recv_ns;
                         side := strategy_api.side order;
                         price_ticks := price;
                         qty_lots := strategy_api.qty_lots order;
                         notional := notional;
                         fee_atoms := fee_atoms |}))
          end
        end
      end.

(** What the loop [for action in iterator] of [run_backtest] carries. *)
Record Engine : Type := {
  the_portfolio : Portfolio;
  fills : list Fill;
  action_id : Z;
  fill_id : Z;
  the_tape : option TapeWriter
}.

(** One turn of [for action in iterator]: the engine after the turn, and
    the exception that ends the run if one is raised. *)
Definition execute_action (config : RunConfig) (fee_model : FixedBpsFeeModel)
           (ts : Z) (snapshot : BookSnapshot) (en : Engine)
           (action : MarketOrder) : Engine * option Exn :=
  let action_id := action_id en + 1 in
  let en := {| the_portfolio := the_portfolio en; fills := fills en;
               action_id := action_id; fill_id := fill_id en;
               the_tape := the_tape en |} in
  let tape_r :=
    match the_tape en with
    | None => Ok None
    | Some t =>
      t' ← record_action t ts action_id (strategy_api.side action)
                         (strategy_api.qty_lots action);
      Ok (Some t')
    end in
  match tape_r with
  | Raise e => (en, Some e)
  | Ok tp =>
    let en := {| the_portfolio := the_portfolio en; fills := fills en;
                 action_id := action_id; fill_id := fill_id en;
                 the_tape := tp |} in
    match _execute_market_order ts action snapshot (the_portfolio en)
                                fee_model (allow_short config)
                                (allow_margin config)
                                (ignore_risk_rejects config) with
    | (p, Raise e) =>
      ({| the_portfolio := p; fills := fills en; action_id := action_id;
          fill_id := fill_id en; the_tape := tp |}, Some e)
    | (p, Ok None) =>
      ({| the_portfolio := p; fills := fills en; action_id := action_id;
          fill_id := fill_id en; the_tape := tp |}, None)
    | (p, Ok (Some fill)) =>
      let fill_id := fill_id en + 1 in
      let tape_r :=
        match tp with
        | None => Ok None
        | Some t =>
          t' ← record_fill t ts fill_id action_id (side fill)
                           (price_ticks fill) (qty_lots fill)
                           (notional fill) (fee_atoms fill);
          Ok (Some t')
        end in
      match tape_r with
      | Raise e =>
        ({| the_portfolio := p; fills := fills en; action_id := action_id;
            fill_id := fill_id; the_tape := tp |}, Some e)
      | Ok tp' =>
        ({| the_portfolio := p; fills := fills en ++ [fill];
            action_id := action_id; fill_id := fill_id;
            the_tape := tp' |}, None)
      end
    end
  end.

Fixpoint execute_actions (config : RunConfig) (fee_model : FixedBpsFeeModel)
         (ts : Z) (snapshot : BookSnapshot) (en : Engine)
         (actions : list MarketOrder) : Engine * option Exn :=
  match actions with
  | [] => (en, None)
  | a :: rest =>
    match execute_action config fee_model ts snapshot en a with
    | (en', Some e) => (en', Some e)
    | (en', None) => execute_actions config fee_model ts snapshot en' rest
    end
  end.

End exchange.

(** ** [metrics/pnl.py] *)

Module pnl.

Definition _BPS_SCALE : Z := 10000.

Definition _round_half_even (numer denom : Z) : result Z :=
  if denom <=? 0 then Raise (SchemaError "denom must be positive")
  else
    let '(sign, numer) := if numer <? 0 then (-1, - numer) else (1, numer) in
    let q := numer / denom in
    let r := numer mod denom in
    let twice_r := r * 2 in
    let q :=
      if denom <? twice_r then q + 1
      else if (twice_r =? denom) && (q mod 2 =? 1) then q + 1
      else q in
    Ok (sign * q).

(** The loop [for current in equity[1:]]. *)
Fixpoint returns_loop (initial_cash prev : Z) (rest : list Z)
  : result (list Z) :=
  match rest with
  | [] => Ok []
  | current :: rest' =>
    let delta := current - prev in
    bps ← _round_half_even (delta * _BPS_SCALE) initial_cash;
    tl ← returns_loop initial_cash current rest';
    Ok (bps :: tl)
  end.

Definition returns_from_equity (equity : list Z) (initial_cash : Z)
  : result (list Z) :=
  if initial_cash <=? 0
  then Raise (SchemaError "initial_cash must be positive")
  else if (length equity <? 2)%nat
  then Raise (SchemaError "insufficient equity points for returns")
  else
    match equity with
    | [] => Raise IndexError
    | prev :: rest => returns_loop initial_cash prev rest
    end.

End pnl.

(** ** [ingest/compiler.py]: the loop that writes the log and collects
    the index *)

Module compiler.

(** The body of [for batch in iter_l2_batches(...)]: the offset is taken
    before the write, and the entry appended after it. *)
Fixpoint compile_batches (w : EvlogWriter) (entries : list index.IndexEntry)
         (record_count : Z) (batches : list L2Batch)
  : result (EvlogWriter * list index.IndexEntry * Z) :=
  match batches with
  | [] => Ok (w, entries, record_count)
  | batch :: rest =>
    offset ← tell w;
    w ← write_l2_batch w batch;
    compile_batches
      w
      (entries ++ [ {| index.ts_recv_ns := evlog_types.ts_recv_ns batch;
                       index.offset := offset |} ])
      (record_count + 1) rest
  end.

End compiler.
Export compiler.

(** ** [core/time.py] *)

Module core_time.

(** The dataclass has [order=True]: its instances compare as the tuples
    of their fields. *)
Record OrderingKey : Type := {
  ts_recv_ns : Z;
  stream_rank : Z;
  seq_in_stream : Z
}.

(** [a < b] on two keys: the tuples are compared at the first field where
    they differ. *)
Definition OrderingKey_lt (a b : OrderingKey) : bool :=
  if negb (ts_recv_ns a =? ts_recv_ns b) then ts_recv_ns a <? ts_recv_ns b
  else if negb (stream_rank a =? stream_rank b)
  then stream_rank a <? stream_rank b
  else seq_in_stream a <? seq_in_stream b.

(** [a > b]. *)
Definition OrderingKey_gt (a b : OrderingKey) : bool :=
  if negb (ts_recv_ns a =? ts_recv_ns b) then ts_recv_ns b <? ts_recv_ns a
  else if negb (stream_rank a =? stream_rank b)
  then stream_rank b <? stream_rank a
  else seq_in_stream b <? seq_in_stream a.

Definition compare_ordering_key (a b : OrderingKey) : Z :=
  if OrderingKey_lt a b then -1
  else if OrderingKey_gt a b then 1
  else 0.

End core_time.

(** ** [evlog/format.py]: [unpack_header] *)

Module format_header.

(** [unpack_header(data)]: the header held by a byte string of exactly
    16 (version 0) or 64 (version 1) bytes. *)
Definition unpack_header (data : list byte) : result EvlogHeader :=
  if negb ((length data =? HEADER_BASE_SIZE)%nat
           || (length data =? HEADER_V1_SIZE)%nat)
  then Raise (SchemaError "invalid evlog header size")
  else
    vs ← unpack HEADER_BASE_FMT (take HEADER_BASE_SIZE data);
    match vs with
    | [VBytes magic; VInt version; VInt endian; VInt flags;
       VInt reserved] =>
      if negb (bytes_eqb magic MAGIC)
      then Raise (SchemaError "invalid evlog magic")
      else if negb ((version =? 0) || (version =? VERSION))
      then Raise (SchemaError
                    ("unsupported evlog version: " +:+ str_of_Z version))
      else if negb (endian =? ENDIAN_LITTLE)
      then Raise (SchemaError
                    ("unsupported evlog endian: " +:+ str_of_Z endian))
      else if negb (reserved =? 0)
      then Raise (SchemaError "non-zero header reserved field")
      else if version =? 0 then
        if negb (length data =? HEADER_BASE_SIZE)%nat
        then Raise (SchemaError "invalid v0 header size")
        else Ok {| version := version; endian := endian; flags := flags;
                   exchange_id := None; symbol_id := None;
                   quantizer_hash := None |}
      else if negb (length data =? HEADER_V1_SIZE)%nat
      then Raise (SchemaError "invalid v1 header size")
      else
        ws ← unpack HEADER_V1_EXTRA_FMT (drop HEADER_BASE_SIZE data);
        match ws with
        | [VInt exchange_id; VInt symbol_id; VBytes quantizer_hash] =>
          Ok {| version := version; endian := endian; flags := flags;
                exchange_id := Some exchange_id;
                symbol_id := Some symbol_id;
                quantizer_hash := Some quantizer_hash |}
        | _ => Raise StructError
        end
    | _ => Raise StructError
    end.

End format_header.

(** ** [sim/exchange.py]: [run_backtest]

    The loop over the batches of the log, with the reference book.  The
    strategy is any object with a state of its own whose [on_batch]
    returns [None] or a sequence of market orders, or raises.  The
    result stops at the returns: the floating-point metrics computed
    from them (lines 243-251) are left out. *)

Module backtest.
Import exchange.

(** [TapeWriter.record_equity] on an open tape ([sim/tape.py]). *)
Definition record_equity (self : TapeWriter)
           (ts_recv_ns cash position equity : Z) : TapeWriter :=
  self ++ [TapeEquity ts_recv_ns cash position equity].

(** [StrategyContext] ([strategy/api.py]). *)
Record StrategyContext : Type := {
  ctx_ts_recv_ns : Z;
  ctx_cash : Z;
  ctx_position : Z
}.

Section run.

Variable S : Type.
Variable on_batch :
  S -> StrategyContext -> BookSnapshot ->
  S * result (option (list MarketOrder)).

(** What the loop [for batch in reader.iter_l2_batches()] carries. *)
Record Run : Type := {
  engine : Engine;
  active_book : BookPy;
  equity_curve : list (Z * Z);
  seen_ready_book : bool;
  strategy : S
}.

Definition set_engine (st : Run) (en : Engine) : Run :=
  {| engine := en; active_book := active_book st;
     equity_curve := equity_curve st;
     seen_ready_book := seen_ready_book st; strategy := strategy st |}.

Definition set_book (st : Run) (b : BookPy) : Run :=
  {| engine := engine st; active_book := b;
     equity_curve := equity_curve st;
     seen_ready_book := seen_ready_book st; strategy := strategy st |}.

(** [seen_ready_book = True], and the strategy after its call. *)
Definition set_ready (st : Run) (s : S) : Run :=
  {| engine := engine st; active_book := active_book st;
     equity_curve := equity_curve st; seen_ready_book := true;
     strategy := s |}.

Definition set_tape (en : Engine) (t : option TapeWriter) : Engine :=
  {| the_portfolio := the_portfolio en; fills := fills en;
     action_id := action_id en; fill_id := fill_id en; the_tape := t |}.

(** One turn of the loop, lines 163-239: the state after the turn, and
    the exception that ends the run if one is raised. *)
Definition run_batch (config : RunConfig) (fee_model : FixedBpsFeeModel)
           (st : Run) (batch : L2Batch) : Run * option Exn :=
  match apply_l2_batch (active_book st) batch with
  | (bk, Raise e) => (set_book st bk, Some e)
  | (bk, Ok _) =>
    let st := set_book st bk in
    match best_bid_ask bk with
    | Raise e => (st, Some e)
    | Ok (bid_px, bid_qty, ask_px, ask_qty) =>
      match bid_px, bid_qty, ask_px, ask_qty with
      | Some _, Some _, Some _, Some _ =>
        match _ensure_snapshot_ready bid_px bid_qty ask_px ask_qty with
        | Raise e => (st, Some e)
        | Ok snapshot =>
          let ts := evlog_types.ts_recv_ns batch in
          let ctx := {| ctx_ts_recv_ns := ts;
                        ctx_cash := cash (the_portfolio (engine st));
                        ctx_position :=
                          position (the_portfolio (engine st)) |} in
          let '(s, r) := on_batch (strategy st) ctx snapshot in
          let st := set_ready st s in
          match r with
          | Raise e => (st, Some e)
          | Ok None =>
            (st, Some (SchemaError "strategy returned no actions iterable"))
          | Ok (Some actions) =>
            match execute_actions config fee_model ts snapshot (engine st)
                                  actions with
            | (en, Some e) => (set_engine st en, Some e)
            | (en, None) =>
              let p := the_portfolio en in
              let mark_px :=
                if 0 <=? position p then strategy_api.bid_px snapshot
                else strategy_api.ask_px snapshot in
              match equity p mark_px with
              | Raise e => (set_engine st en, Some e)
              | Ok eq =>
                let en :=
                  set_tape en
                    ((fun t => record_equity t ts (cash p) (position p) eq)
                       <$> the_tape en) in
                ({| engine := en; active_book := active_book st;
                    equity_curve := equity_curve st ++ [(ts, eq)];
                    seen_ready_book := true; strategy := strategy st |},
                 None)
              end
            end
          end
        end
      | _, _, _, _ =>
        if skip_initial_missing_book config && negb (seen_ready_book st)
        then (st, None)
        else (st, Some (SchemaError "missing best bid/ask"))
      end
    end
  end.

Fixpoint run_batches (config : RunConfig) (fee_model : FixedBpsFeeModel)
         (st : Run) (batches : list L2Batch) : Run * option Exn :=
  match batches with
  | [] => (st, None)
  | b :: rest =>
    match run_batch config fee_model st b with
    | (st', Some e) => (st', Some e)
    | (st', None) => run_batches config fee_model st' rest
    end
  end.

(** [run_backtest] on the batches the reader yields, [reader_exn] being
    the exception that ends the reader's iteration, if any: the fills,
    the equity curve and the returns. *)
Definition run_backtest (config : RunConfig) (fee_model : FixedBpsFeeModel)
           (strategy0 : S) (book : option BookPy)
           (tape : option TapeWriter)
           (batches : list L2Batch) (reader_exn : option Exn)
  : result (list Fill * list (Z * Z) * list Z) :=
  if initial_cash config <=? 0
  then Raise (SchemaError "initial_cash must be positive")
  else if negb (allow_short config) && (initial_position config <? 0)
  then Raise (SchemaError "initial_position short not allowed")
  else
    let st :=
      {| engine :=
           {| the_portfolio := {| cash := initial_cash config;
                                  position := initial_position config |};
              fills := []; action_id := 0; fill_id := 0;
              the_tape := tape |};
         active_book := default (BookPy_new true) book;
         equity_curve := []; seen_ready_book := false;
         strategy := strategy0 |} in
    match run_batches config fee_model st batches with
    | (_, Some e) => Raise e
    | (st, None) =>
      match reader_exn with
      | Some e => Raise e
      | None =>
        returns ← pnl.returns_from_equity (map snd (equity_curve st))
                                          (initial_cash config);
        Ok (fills (engine st), equity_curve st, returns)
      end
    end.

End run.

Arguments engine {S} r.
Arguments active_book {S} r.
Arguments equity_curve {S} r.
Arguments seen_ready_book {S} r.
Arguments strategy {S} r.
Arguments set_engine {S} st en.
Arguments set_book {S} st b.
Arguments set_ready {S} st s.
Arguments run_batch {S} on_batch config fee_model st batch.
Arguments run_batches {S} on_batch config fee_model st batches.
Arguments run_backtest {S} on_batch config fee_model strategy0 book tape
          batches reader_exn.

End backtest.

(** ** [strategy/dummy.py]: the alternating strategy *)

Module dummy.
Import backtest.

Record AlternatingMarketOrderStrategy : Type := {
  _qty_lots : Z;
  _next_side : Side
}.

(** [AlternatingMarketOrderStrategy(qty_lots)]. *)
Definition AlternatingMarketOrderStrategy_new (qty_lots : Z)
  : result AlternatingMarketOrderStrategy :=
  if qty_lots <=? 0 then Raise (SchemaError "qty_lots must be positive")
  else Ok {| _qty_lots := qty_lots; _next_side := BID |}.

(** [on_batch]: one order on the side that is next, and the side
    flips. *)
Definition on_batch (self : AlternatingMarketOrderStrategy)
           (ctx : StrategyContext) (book : BookSnapshot)
  : AlternatingMarketOrderStrategy * result (option (list MarketOrder)) :=
  let order := {| strategy_api.side := _next_side self;
                  strategy_api.qty_lots := _qty_lots self |} in
  ({| _qty_lots := _qty_lots self;
      _next_side := match _next_side self with BID => ASK | ASK => BID end |},
   Ok (Some [order])).

End dummy.

(* ================================================================== *)
(** * Part II: properties                                              *)
(* ================================================================== *)

(** Unfolding of the monad notation on [result]. *)
Ltac unbind := cbn [mbind mret result_bind result_ret bind].

(** ** [metrics/pnl.py]: returns in basis points *)

Module pnl_proofs.
Import pnl.

(** [r] is the integer nearest to [n / d], the even one of the two when
    [n / d] is halfway between two integers. *)
Definition nearest_half_even (r n d : Z) : Prop :=
  Z.abs (2 * (r * d - n)) <= d /\
  (Z.abs (2 * (r * d - n)) = d -> Z.even r = true).

Definition sum_list (l : list Z) : Z := fold_right Z.add 0 l.

Lemma _round_half_even_raises numer denom :
  denom <= 0 ->
  _round_half_even numer denom = Raise (SchemaError "denom must be positive").
Proof.
  intros H. unfold _round_half_even.
  destruct (Z.leb_spec denom 0); [reflexivity | lia].
Qed.

Lemma nearest_nonneg n d :
  0 <= n -> 0 < d ->
  exists r, _round_half_even n d = Ok r /\ 0 <= r /\ nearest_half_even r n d.
Proof.
  intros Hn Hd. unfold _round_half_even.
  destruct (Z.leb_spec d 0); [lia |].
  destruct (Z.ltb_spec n 0); [lia |].
  pose proof (Z.div_mod n d ltac:(lia)) as Hdm.
  pose proof (Z.mod_pos_bound n d Hd) as Hr.
  pose proof (Z.div_pos n d Hn Hd) as Hq.
  set (q := n / d) in *. set (r := n mod d) in *.
  pose proof (Z.mod_pos_bound q 2 ltac:(lia)) as Hq2.
  pose proof (Z.div_mod q 2 ltac:(lia)) as Hqdm.
  destruct (Z.ltb_spec d (r * 2)).
  - eexists; split; [reflexivity |]. split; [lia |].
    split; [lia |]. intros Habs; exfalso; lia.
  - destruct (Z.eqb_spec (r * 2) d); simpl.
    + destruct (Z.eqb_spec (q mod 2) 1).
      * eexists; split; [reflexivity |]. split; [lia |]. split; [lia |].
        intros _. rewrite Z.even_spec. exists (q / 2 + 1). lia.
      * eexists; split; [reflexivity |]. split; [lia |]. split; [lia |].
        intros _. rewrite Z.even_spec. exists (q / 2). lia.
    + eexists; split; [reflexivity |]. split; [lia |]. split; [lia |].
      intros Habs; exfalso; lia.
Qed.

Lemma _round_half_even_opp n d :
  n < 0 -> 0 < d ->
  _round_half_even n d = (r ← _round_half_even (- n) d; Ok (- r)).
Proof.
  intros Hn Hd. unfold _round_half_even.
  destruct (Z.leb_spec d 0); [lia |].
  destruct (Z.ltb_spec n 0); [| lia].
  destruct (Z.ltb_spec (- n) 0); [lia |].
  cbn. f_equal. lia.
Qed.

Lemma _round_half_even_nearest n d :
  0 < d ->
  exists r, _round_half_even n d = Ok r /\ nearest_half_even r n d.
Proof.
  intros Hd. destruct (Z.lt_ge_cases n 0) as [Hn | Hn].
  - rewrite _round_half_even_opp by assumption.
    destruct (nearest_nonneg (- n) d) as (r & -> & _ & Hle & Hev); [lia .. |].
    exists (- r). split; [reflexivity |]. split.
    + replace (2 * (- r * d - n)) with (- (2 * (r * d - - n))) by lia.
      rewrite Z.abs_opp. exact Hle.
    + replace (2 * (- r * d - n)) with (- (2 * (r * d - - n))) by lia.
      rewrite Z.abs_opp, Z.even_opp. exact Hev.
  - destruct (nearest_nonneg n d) as (r & Hr & _ & Hne); [lia .. |].
    exists r. split; assumption.
Qed.

(** The rounded quotient is unique: the function computes the only
    integer that is nearest with ties to even. *)
Lemma nearest_half_even_unique r1 r2 n d :
  0 < d -> nearest_half_even r1 n d -> nearest_half_even r2 n d -> r1 = r2.
Proof.
  intros Hd [H1 E1] [H2 E2].
  assert (Hcase : r1 = r2 \/ r1 = r2 + 1 \/ r2 = r1 + 1) by nia.
  destruct Hcase as [? | [-> | ->]]; [assumption | exfalso .. ].
  - assert (Z.abs (2 * ((r2 + 1) * d - n)) = d) as A1 by nia.
    assert (Z.abs (2 * (r2 * d - n)) = d) as A2 by nia.
    specialize (E1 A1). specialize (E2 A2).
    rewrite Z.even_add, E2 in E1. discriminate.
  - assert (Z.abs (2 * ((r1 + 1) * d - n)) = d) as A1 by nia.
    assert (Z.abs (2 * (r1 * d - n)) = d) as A2 by nia.
    specialize (E1 A2). specialize (E2 A1).
    rewrite Z.even_add, E1 in E2. discriminate.
Qed.

Lemma last_cons_default (a : Z) l d : List.last (a :: l) d = List.last l a.
Proof.
  revert a d. induction l as [| b l IH]; intros a d; [reflexivity |].
  change (List.last (a :: b :: l) d) with (List.last (b :: l) d).
  rewrite (IH b d), (IH b a). reflexivity.
Qed.

(** The loop yields one return per step, each the rounded quotient of
    its equity step, and the returns add up to the total equity change
    up to half of [initial_cash] per step. *)
Lemma returns_loop_spec cash :
  0 < cash ->
  forall rest prev,
  exists rs,
    returns_loop cash prev rest = Ok rs /\
    length rs = length rest /\
    (forall i e0 e1 r,
        (prev :: rest) !! i = Some e0 -> rest !! i = Some e1 ->
        rs !! i = Some r ->
        nearest_half_even r ((e1 - e0) * 10000) cash) /\
    Z.abs (2 * (sum_list rs * cash - 10000 * (List.last rest prev - prev)))
    <= Z.of_nat (length rs) * cash.
Proof.
  intros Hc. induction rest as [| cur rest IH]; intros prev.
  - exists []. cbn. split; [reflexivity |]. split; [reflexivity |].
    split; [| lia].
    intros j ? ? ? _ H. rewrite lookup_nil in H. discriminate.
  - cbn [returns_loop].
    destruct (_round_half_even_nearest ((cur - prev) * _BPS_SCALE) cash Hc)
      as (b & Hb & Hn).
    destruct (IH cur) as (rs & Hrs & Hlen & Hall & Hsum).
    rewrite Hb, Hrs. exists (b :: rs). cbn [mbind result_bind bind].
    split; [reflexivity |]. split; [cbn; lia |]. split.
    + intros [| j] e0 e1 r; cbn; intros H0 H1 H2.
      * inversion H0; inversion H1; inversion H2; subst. exact Hn.
      * eapply Hall; eassumption.
    + destruct Hn as [Hn _]. unfold _BPS_SCALE in Hn.
      rewrite last_cons_default.
      cbn [sum_list fold_right length]. fold (sum_list rs).
      rewrite Nat2Z.inj_succ. lia.
Qed.

(** C9. [returns_from_equity] fails exactly when [initial_cash <= 0] or
    fewer than two equity points are given.  Otherwise it returns one
    return per consecutive pair of equity points; each return is the
    integer nearest to [(delta * 10_000) / initial_cash], the even one on
    a tie, for deltas of either sign; and the sum of the returns times
    [initial_cash] differs from [10_000 * (final - initial)] by at most
    half of [initial_cash] per return. *)
Theorem returns_from_equity_banker (equity : list Z) (initial_cash : Z) :
  match returns_from_equity equity initial_cash with
  | Raise e =>
    (initial_cash <= 0 \/ (length equity < 2)%nat) /\
    exists msg, e = SchemaError msg
  | Ok returns =>
    0 < initial_cash /\ (2 <= length equity)%nat /\
    S (length returns) = length equity /\
    (forall i e0 e1 r,
        equity !! i = Some e0 -> equity !! S i = Some e1 ->
        returns !! i = Some r ->
        nearest_half_even r ((e1 - e0) * 10000) initial_cash /\
        (forall r', nearest_half_even r' ((e1 - e0) * 10000) initial_cash ->
                    r' = r)) /\
    Z.abs (2 * (sum_list returns * initial_cash
                - 10000 * (List.last equity 0 - List.hd 0 equity)))
    <= Z.of_nat (length returns) * initial_cash
  end.
Proof.
  unfold returns_from_equity.
  destruct (Z.leb_spec initial_cash 0) as [Hc | Hc].
  { split; [left; assumption | eauto]. }
  destruct (Nat.ltb_spec (length equity) 2) as [Hl | Hl].
  { split; [right; assumption | eauto]. }
  destruct equity as [| prev rest]; [cbn in Hl; lia |].
  destruct (returns_loop_spec initial_cash Hc rest prev)
    as (rs & -> & Hlen & Hall & Hsum).
  split; [assumption |]. split; [assumption |].
  split; [cbn; lia |]. split.
  - intros i e0 e1 r H0 H1 H2. cbn in H1.
    pose proof (Hall i e0 e1 r H0 H1 H2) as Hn. split; [exact Hn |].
    intros r' Hn'. eapply nearest_half_even_unique; eassumption.
  - rewrite last_cons_default. cbn [List.hd]. exact Hsum.
Qed.

Example returns_test_1 :
  returns_from_equity [1000; 900; 950] 1000 = Ok [-1000; 500].
Proof. reflexivity. Qed.

Example returns_test_half_even :
  returns_from_equity [0; 1] 20000 = Ok [0]
  /\ returns_from_equity [0; 3] 20000 = Ok [2]
  /\ returns_from_equity [0; -3] 20000 = Ok [-2].
Proof. repeat split. Qed.

End pnl_proofs.

(** ** [sim/exchange.py]: the risk checks of a market order *)

Module exchange_proofs.
Import exchange.

(** The counterparty's top of book for an order. *)
Definition counter_px (book : BookSnapshot) (s : Side) : Z :=
  match s with BID => ask_px book | ASK => bid_px book end.

Definition counter_qty (book : BookSnapshot) (s : Side) : Z :=
  match s with BID => ask_qty book | ASK => bid_qty book end.

(** The risk check of an order fails: a buy without margin that the cash
    does not cover, or a sell without shorting that the position does not
    cover. *)
Definition risk_rejected (allow_short allow_margin : bool) (p : Portfolio)
           (s : Side) (qty notional fee : Z) : Prop :=
  match s with
  | BID => allow_margin = false /\ cash p < notional + fee
  | ASK => allow_short = false /\ position p < qty
  end.

(** The ledger after a fill. *)
Definition filled (p : Portfolio) (s : Side) (qty notional fee : Z)
  : Portfolio :=
  match s with
  | BID => {| cash := cash p - (notional + fee);
              position := position p + qty |}
  | ASK => {| cash := cash p + (notional - fee);
              position := position p - qty |}
  end.

(** The engine after an action that produced no fill: the action is
    counted (and taped when there is a tape), nothing else changes. *)
Definition action_only (ts : Z) (en : Engine) (order : MarketOrder)
  : Engine :=
  {| the_portfolio := the_portfolio en; fills := fills en;
     action_id := action_id en + 1; fill_id := fill_id en;
     the_tape :=
       (fun t => t ++ [TapeAction ts (action_id en + 1)
                                  (strategy_api.side order)
                                  (strategy_api.qty_lots order)])
         <$> the_tape en |}.

(** The engine after an action that produced [fill]. *)
Definition action_filled (ts : Z) (en : Engine) (order : MarketOrder)
           (p' : Portfolio) (fill : Fill) : Engine :=
  {| the_portfolio := p'; fills := fills en ++ [fill];
     action_id := action_id en + 1; fill_id := fill_id en + 1;
     the_tape :=
       (fun t => t ++ [TapeFill ts (fill_id en + 1) (action_id en + 1)
                                (side fill) (price_ticks fill)
                                (qty_lots fill) (notional fill)
                                (fee_atoms fill)])
         <$> the_tape (action_only ts en order) |}.

Lemma fee_atoms_ok fm n :
  0 <= n -> 0 <= bps fm ->
  fees.fee_atoms fm n = Ok (n * bps fm / 10000) /\ 0 <= n * bps fm / 10000.
Proof.
  intros Hn Hb. unfold fees.fee_atoms.
  destruct (Z.ltb_spec n 0); [lia |]. split; [reflexivity |].
  apply Z.div_pos; nia.
Qed.

(** What [_execute_market_order] computes for an order that passes the
    quantity, size and fee checks. *)
Definition rejects (sh mg : bool) (p : Portfolio) (s : Side)
           (qty notional fee : Z) : bool :=
  match s with
  | BID => negb mg && (cash p <? notional + fee)
  | ASK => negb sh && (position p <? qty)
  end.

Lemma rejects_spec sh mg p s qty notional fee :
  if rejects sh mg p s qty notional fee
  then risk_rejected sh mg p s qty notional fee
  else ~ risk_rejected sh mg p s qty notional fee.
Proof.
  unfold rejects, risk_rejected. destruct s.
  - destruct mg; cbn; [intros [? _]; discriminate |].
    destruct (Z.ltb_spec (cash p) (notional + fee));
      [split; [reflexivity | assumption] | intros [_ ?]; lia].
  - destruct sh; cbn; [intros [? _]; discriminate |].
    destruct (Z.ltb_spec (position p) qty);
      [split; [reflexivity | assumption] | intros [_ ?]; lia].
Qed.

Lemma _execute_market_order_eq ts s qty book p fm sh mg ig :
  0 < counter_px book s -> 0 < qty <= counter_qty book s -> 0 <= bps fm ->
  let notional := counter_px book s * qty in
  let fee := notional * bps fm / 10000 in
  exists msg,
    _execute_market_order
      ts {| strategy_api.side := s; strategy_api.qty_lots := qty |}
      book p fm sh mg ig
    = if rejects sh mg p s qty notional fee
      then (p, if ig then Ok None else Raise (SchemaError msg))
      else (filled p s qty notional fee,
            Ok (Some {| ts_recv_ns := ts; side := s;
                        price_ticks := counter_px book s; qty_lots := qty;
                        notional := notional; fee_atoms := fee |})).
Proof.
  intros Hpx [Hq Hav] Hb notional fee.
  assert (Hn : 0 <= notional) by (unfold notional; nia).
  destruct (fee_atoms_ok fm notional Hn Hb) as [Hfee Hfee0].
  fold fee in Hfee, Hfee0.
  unfold _execute_market_order, rejects.
  cbn [strategy_api.side strategy_api.qty_lots].
  destruct (Z.leb_spec qty 0); [lia |].
  destruct s; cbn [counter_px counter_qty] in *.
  - destruct (Z.ltb_spec (ask_qty book) qty); [lia |].
    fold notional. rewrite Hfee.
    destruct (negb mg && (cash p <? notional + fee)) eqn:Hc.
    + eexists. destruct ig; reflexivity.
    + exists ""%string. unfold apply_fill.
      destruct (Z.leb_spec qty 0); [lia |].
      destruct (Z.leb_spec (ask_px book) 0); [lia |].
      destruct (Z.ltb_spec fee 0); [lia |].
      fold notional. rewrite Hc. reflexivity.
  - destruct (Z.ltb_spec (bid_qty book) qty); [lia |].
    fold notional. rewrite Hfee.
    destruct (negb sh && (position p <? qty)) eqn:Hc.
    + eexists. destruct ig; reflexivity.
    + exists ""%string. unfold apply_fill.
      destruct (Z.leb_spec qty 0); [lia |].
      destruct (Z.leb_spec (bid_px book) 0); [lia |].
      destruct (Z.ltb_spec fee 0); [lia |].
      rewrite Hc. reflexivity.
Qed.

(** C3. A market order of positive quantity within the counterparty's
    top-of-book size, at a positive price, with a valid fee model:
    - if its risk check fails (a buy needs [cash >= notional + fee]
      unless [allow_margin], a sell needs [position >= qty] unless
      [allow_short]), no fill is produced and the portfolio is unchanged;
      with [ignore_risk_rejects] the order returns [None] and the engine
      goes on to the next action with its fills and portfolio untouched,
      without it a [SchemaError] is raised and ends the run;
    - otherwise it is filled, and cash and position change by exactly
      the notional, fee and quantity of the fill. *)
Theorem market_order_risk_check
        (config : RunConfig) (fm : FixedBpsFeeModel) (ts : Z)
        (book : BookSnapshot) (en : Engine) (order : MarketOrder) :
  let s := strategy_api.side order in
  let qty := strategy_api.qty_lots order in
  let p := the_portfolio en in
  let notional := counter_px book s * qty in
  let fee := notional * bps fm / 10000 in
  0 < bid_qty book -> 0 < ask_qty book ->
  0 < counter_px book s ->
  0 < qty <= counter_qty book s ->
  0 <= bps fm <= 10000 ->
  0 <= action_id en -> 0 <= fill_id en ->
  let r := _execute_market_order ts order book p fm (allow_short config)
                                 (allow_margin config)
                                 (ignore_risk_rejects config) in
  let step := execute_action config fm ts book en order in
  (risk_rejected (allow_short config) (allow_margin config) p s qty
                 notional fee ->
   (if ignore_risk_rejects config
    then r = (p, Ok None) /\ step = (action_only ts en order, None)
    else exists msg,
        r = (p, Raise (SchemaError msg)) /\
        step = (action_only ts en order, Some (SchemaError msg)))) /\
  (~ risk_rejected (allow_short config) (allow_margin config) p s qty
                   notional fee ->
   let fill := {| ts_recv_ns := ts; side := s;
                  price_ticks := counter_px book s; qty_lots := qty;
                  notional := notional; fee_atoms := fee |} in
   r = (filled p s qty notional fee, Ok (Some fill)) /\
   step = (action_filled ts en order (filled p s qty notional fee) fill,
           None)).
Proof.
  destruct order as [s qty]. cbn [strategy_api.side strategy_api.qty_lots].
  intros Hbq Haq Hpx Hq [Hb0 Hb1] Ha Hf.
  set (p := the_portfolio en).
  set (notional := counter_px book s * qty).
  set (fee := notional * bps fm / 10000).
  destruct (_execute_market_order_eq
              ts s qty book p fm (allow_short config) (allow_margin config)
              (ignore_risk_rejects config) Hpx Hq Hb0) as [msg Hr].
  fold notional fee in Hr.
  pose proof (rejects_spec (allow_short config) (allow_margin config)
                           p s qty notional fee) as Hrej.
  assert (Hstep :
    execute_action config fm ts book en
                   {| strategy_api.side := s; strategy_api.qty_lots := qty |}
    = if rejects (allow_short config) (allow_margin config) p s qty
                 notional fee
      then (action_only ts en
              {| strategy_api.side := s; strategy_api.qty_lots := qty |},
            if ignore_risk_rejects config then None
            else Some (SchemaError msg))
      else (action_filled ts en
              {| strategy_api.side := s; strategy_api.qty_lots := qty |}
              (filled p s qty notional fee)
              {| ts_recv_ns := ts; side := s;
                 price_ticks := counter_px book s; qty_lots := qty;
                 notional := notional; fee_atoms := fee |}, None)).
  { unfold execute_action, action_filled, action_only.
    cbn [strategy_api.side strategy_api.qty_lots the_portfolio fills
         exchange.action_id exchange.fill_id the_tape].
    fold p.
    destruct (the_tape en) as [t |]; cbn [fmap option_fmap option_map].
    - unfold record_action.
      destruct (Z.leb_spec (action_id en + 1) 0); [lia |].
      destruct (Z.leb_spec qty 0); [lia |]. unbind. rewrite Hr.
      destruct (rejects _ _ _ _ _ _ _);
        [destruct (ignore_risk_rejects config); reflexivity |].
      unfold record_fill.
      cbn [side price_ticks qty_lots exchange.notional exchange.fee_atoms].
      destruct (Z.leb_spec (fill_id en + 1) 0); [lia |].
      destruct (Z.leb_spec (action_id en + 1) 0); [lia |].
      destruct (Z.leb_spec (counter_px book s) 0); [lia |].
      destruct (Z.leb_spec qty 0); [lia |]. unbind. cbn [the_tape fmap option_fmap option_map]. reflexivity.
    - rewrite Hr.
      destruct (rejects _ _ _ _ _ _ _);
        [destruct (ignore_risk_rejects config); reflexivity |].
      reflexivity. }
  rewrite Hstep, Hr. clear Hstep Hr.
  destruct (rejects _ _ _ _ _ _ _).
  - split; [intros _ | intros Hno; contradiction].
    destruct (ignore_risk_rejects config); [split; reflexivity |].
    exists msg. split; reflexivity.
  - split; [intros Hyes; contradiction | intros _].
    split; reflexivity.
Qed.

(** A sell of one lot from a flat book position without shorting: with
    [ignore_risk_rejects] the order is skipped, without it the run
    fails; with enough position it is filled. *)
Definition cfg_strict : RunConfig :=
  {| initial_cash := 1000; initial_position := 0; allow_short := false;
     allow_margin := false; skip_initial_missing_book := false;
     ignore_risk_rejects := false |}.

Definition top : BookSnapshot :=
  {| bid_px := 10; bid_qty := 5; ask_px := 11; ask_qty := 5 |}.

Definition flat : Engine :=
  {| the_portfolio := {| cash := 1000; position := 0 |}; fills := [];
     action_id := 0; fill_id := 0; the_tape := None |}.

Example sell_rejected :
  execute_action cfg_strict {| bps := 0 |} 1000 top flat
                 {| strategy_api.side := ASK; strategy_api.qty_lots := 1 |}
  = ({| the_portfolio := {| cash := 1000; position := 0 |}; fills := [];
        action_id := 1; fill_id := 0; the_tape := None |},
     Some (SchemaError "insufficient position for sell")).
Proof. reflexivity. Qed.

Example buy_filled :
  execute_action cfg_strict {| bps := 10 |} 1000 top flat
                 {| strategy_api.side := BID; strategy_api.qty_lots := 2 |}
  = ({| the_portfolio := {| cash := 978; position := 2 |};
        fills := [{| ts_recv_ns := 1000; side := BID; price_ticks := 11;
                     qty_lots := 2; notional := 22; fee_atoms := 0 |}];
        action_id := 1; fill_id := 1; the_tape := None |}, None).
Proof. reflexivity. Qed.

Lemma market_order_risk_check_witness :
  execute_action cfg_strict {| bps := 0 |} 1000 top flat
                 {| strategy_api.side := ASK; strategy_api.qty_lots := 1 |}
  = (action_only 1000 flat
                 {| strategy_api.side := ASK; strategy_api.qty_lots := 1 |},
     Some (SchemaError "insufficient position for sell")).
Proof.
  pose proof (market_order_risk_check
                cfg_strict {| bps := 0 |} 1000 top flat
                {| strategy_api.side := ASK; strategy_api.qty_lots := 1 |})
    as H.
  cbn zeta in H.
  destruct H as [H _]; cbn; try lia.
  cbn in H. destruct H as (msg & H1 & H2); [split; [reflexivity | lia] |].
  reflexivity.
Defined.

End exchange_proofs.

(** ** [bisect.bisect_left] on a sorted list *)

Module bisect_proofs.

Lemma StronglySorted_lookup_le (a : list Z) :
  StronglySorted Z.le a ->
  forall i j x y, (i <= j)%nat -> a !! i = Some x -> a !! j = Some y -> x <= y.
Proof.
  induction 1 as [| h t Ht IH Hall]; intros i j x y Hij Hi Hj.
  - rewrite lookup_nil in Hi. discriminate.
  - destruct i as [| i], j as [| j]; cbn in Hi, Hj; simplify_eq.
    + lia.
    + rewrite Forall_forall in Hall. apply Hall.
      eapply list_elem_of_lookup_2. eassumption.
    + lia.
    + eapply (IH i j); [lia | eassumption ..].
Qed.

Lemma StronglySorted_lt_le (a : list Z) :
  StronglySorted Z.lt a -> StronglySorted Z.le a.
Proof.
  induction 1 as [| h t Ht IH Hall]; constructor; [assumption |].
  eapply Forall_impl; [exact Hall |]. cbn. intros; lia.
Qed.

Lemma StronglySorted_lookup_lt (a : list Z) :
  StronglySorted Z.lt a ->
  forall i j x y, (i < j)%nat -> a !! i = Some x -> a !! j = Some y -> x < y.
Proof.
  induction 1 as [| h t Ht IH Hall]; intros i j x y Hij Hi Hj.
  - rewrite lookup_nil in Hi. discriminate.
  - destruct i as [| i], j as [| j]; cbn in Hi, Hj; simplify_eq; try lia.
    + rewrite Forall_forall in Hall. apply Hall.
      eapply list_elem_of_lookup_2. eassumption.
    + eapply (IH i j); [lia | eassumption ..].
Qed.

(** The loop keeps everything left of [lo] below [x] and everything from
    [hi] on at or above [x]; with as many turns as the interval is wide
    it ends with [lo = hi]. *)
Lemma bisect_left_loop_spec (a : list Z) (x : Z) :
  StronglySorted Z.le a ->
  forall fuel lo hi,
    (lo <= hi <= length a)%nat -> (hi - lo <= fuel)%nat ->
    (forall j v, (j < lo)%nat -> a !! j = Some v -> v < x) ->
    (forall j v, (hi <= j)%nat -> a !! j = Some v -> x <= v) ->
    let i := bisect_left_loop fuel a x lo hi in
    (i <= length a)%nat /\
    (forall j v, (j < i)%nat -> a !! j = Some v -> v < x) /\
    (forall j v, (i <= j)%nat -> a !! j = Some v -> x <= v).
Proof.
  intros Hs. induction fuel as [| fuel IH]; intros lo hi Hb Hf Hlo Hhi.
  - cbn. assert (lo = hi) by lia. subst. repeat split; [lia | auto ..].
  - cbn [bisect_left_loop].
    destruct (Nat.ltb_spec lo hi) as [Hlt | Hge].
    + pose proof (Nat.div_mod_eq (lo + hi) 2) as Hdm.
      pose proof (Nat.mod_upper_bound (lo + hi) 2 ltac:(lia)) as Hm.
      set (mid := ((lo + hi) / 2)%nat) in *.
      assert (Hmid : (lo <= mid < hi)%nat) by lia.
      destruct (lookup_lt_is_Some_2 a mid ltac:(lia)) as [v Hv].
      rewrite Hv. cbn [default from_option id].
      destruct (Z.ltb_spec v x) as [Hvx | Hvx].
      * apply IH; [lia | lia | | assumption].
        intros j w Hj Hw.
        pose proof (StronglySorted_lookup_le a Hs j mid w v ltac:(lia) Hw Hv).
        lia.
      * apply IH; [lia | lia | assumption |].
        intros j w Hj Hw.
        pose proof (StronglySorted_lookup_le a Hs mid j v w ltac:(lia) Hv Hw).
        lia.
    + assert (lo = hi) by lia. subst. repeat split; [lia | auto ..].
Qed.

(** [bisect_left a x] on a sorted list: the index of the first element
    that is at least [x], or the length when there is none. *)
Lemma bisect_left_spec (a : list Z) (x : Z) :
  StronglySorted Z.le a ->
  let i := bisect_left a x in
  (i <= length a)%nat /\
  (forall j v, (j < i)%nat -> a !! j = Some v -> v < x) /\
  (forall j v, (i <= j)%nat -> a !! j = Some v -> x <= v).
Proof.
  intros Hs. unfold bisect_left.
  apply bisect_left_loop_spec; [assumption | lia | lia | |].
  - intros j v Hj. lia.
  - intros j v Hj Hv. apply lookup_lt_Some in Hv. lia.
Qed.

(** More turns than [length a] change nothing: the loop has stopped. *)
Lemma bisect_left_loop_stable (a : list Z) (x : Z) :
  forall fuel lo hi extra,
    (hi - lo <= fuel)%nat ->
    bisect_left_loop (fuel + extra) a x lo hi = bisect_left_loop fuel a x lo hi.
Proof.
  induction fuel as [| fuel IH]; intros lo hi extra Hf.
  - destruct extra; cbn [Nat.add bisect_left_loop]; [reflexivity |].
    destruct (Nat.ltb_spec lo hi); [lia | reflexivity].
  - cbn [Nat.add bisect_left_loop].
    destruct (Nat.ltb_spec lo hi) as [Hlt | Hge]; [| reflexivity].
    pose proof (Nat.div_mod_eq (lo + hi) 2) as Hdm.
    pose proof (Nat.mod_upper_bound (lo + hi) 2 ltac:(lia)) as Hm.
    destruct (default 0 (a !! ((lo + hi) / 2)%nat) <? x); apply IH; lia.
Qed.

Lemma bisect_left_take_drop (a : list Z) (x : Z) :
  StronglySorted Z.le a ->
  Forall (fun v => v < x) (take (bisect_left a x) a) /\
  Forall (fun v => x <= v) (drop (bisect_left a x) a).
Proof.
  intros Hs. destruct (bisect_left_spec a x Hs) as (Hi & Hlo & Hhi).
  split; apply Forall_forall; intros v Hv.
  - apply elem_of_take in Hv as (j & Hj & Hlt). eauto.
  - apply list_elem_of_lookup in Hv as (j & Hj).
    rewrite lookup_drop in Hj. eapply Hhi; [| eassumption]. lia.
Qed.

End bisect_proofs.

(** ** [book/book_py.py]: the invariant of the book *)

Module book_proofs.
Import bisect_proofs.

(** One side of the book is consistent: the price array is strictly
    increasing, it lists exactly the keys of the price -> size map, and
    every size in the map is positive. *)
Record side_ok (levels : gmap Z Z) (prices : list Z) : Prop := {
  prices_sorted : StronglySorted Z.lt prices;
  prices_keys : forall p, p ∈ prices <-> is_Some (levels !! p);
  sizes_positive : forall p v, levels !! p = Some v -> 0 < v
}.

Definition book_ok (b : BookPy) : Prop :=
  side_ok (_bids b) (_bid_prices b) /\ side_ok (_asks b) (_ask_prices b).

Lemma StronglySorted_lt_NoDup (l : list Z) :
  StronglySorted Z.lt l -> NoDup l.
Proof.
  induction 1 as [| h t Ht IH Hall]; constructor; [| assumption].
  intros Hin. rewrite Forall_forall in Hall. specialize (Hall h Hin). lia.
Qed.

Lemma elem_of_take_drop (i : nat) (q : Z) (l : list Z) :
  q ∈ l <-> q ∈ take i l \/ q ∈ drop i l.
Proof. rewrite <- elem_of_app, take_drop. reflexivity. Qed.

(** Where the bisection lands in a strictly increasing list: either on
    the price, or the price is not in the list. *)
Lemma bisect_left_found (prices : list Z) (price : Z) :
  StronglySorted Z.lt prices ->
  let idx := bisect_left prices price in
  Forall (fun v => v < price) (take idx prices) /\
  ((prices !! idx = Some price /\
    Forall (fun v => price < v) (drop (S idx) prices)) \/
   ((prices !! idx <> Some price) /\ (price ∉ prices) /\
    Forall (fun v => price < v) (drop idx prices))).
Proof.
  intros Hs idx.
  pose proof (StronglySorted_lt_le _ Hs) as Hle.
  destruct (bisect_left_take_drop prices price Hle) as [Ht Hd].
  fold idx in Ht, Hd. split; [exact Ht |].
  destruct (decide (prices !! idx = Some price)) as [Heq | Hne].
  - left. split; [exact Heq |].
    apply Forall_forall. intros v Hv.
    apply list_elem_of_lookup in Hv as (j & Hj). rewrite lookup_drop in Hj.
    eapply (StronglySorted_lookup_lt prices Hs idx (S idx + j));
      [lia | eassumption ..].
  - right. split; [exact Hne |].
    assert (Hd' : Forall (fun v => price < v) (drop idx prices)).
    { apply Forall_forall. intros v Hv.
      pose proof Hv as Hv'.
      apply list_elem_of_lookup in Hv as (j & Hj). rewrite lookup_drop in Hj.
      rewrite Forall_forall in Hd. pose proof (Hd v Hv') as Hvp.
      destruct (decide (v = price)) as [-> | ?]; [| lia].
      destruct j as [| j]; [rewrite Nat.add_0_r in Hj; contradiction |].
      destruct (lookup_lt_is_Some_2 prices idx) as [w Hw].
      { apply lookup_lt_Some in Hj. lia. }
      pose proof (StronglySorted_lookup_lt prices Hs idx (idx + S j) w price
                    ltac:(lia) Hw Hj).
      assert (price <= w); [| lia].
      apply Hd.
      apply list_elem_of_lookup. exists 0%nat.
      rewrite lookup_drop, Nat.add_0_r. exact Hw. }
    split; [| exact Hd'].
    intros Hin. rewrite <- (take_drop idx prices) in Hin.
    apply elem_of_app in Hin as [Hin | Hin].
    + rewrite Forall_forall in Ht. specialize (Ht _ Hin). lia.
    + rewrite Forall_forall in Hd'. specialize (Hd' _ Hin). lia.
Qed.

Lemma _insert_price_ok (prices : list Z) (price : Z) :
  StronglySorted Z.lt prices ->
  StronglySorted Z.lt (_insert_price prices price) /\
  forall q, q ∈ _insert_price prices price <-> q = price \/ q ∈ prices.
Proof.
  intros Hs. unfold _insert_price.
  destruct (bisect_left_found prices price Hs) as [Ht Hcase].
  set (idx := bisect_left prices price) in *.
  destruct Hcase as [[Heq Hd] | (Hne & Hnin & Hd)].
  - rewrite bool_decide_eq_true_2 by assumption.
    apply lookup_lt_Some in Heq as Hlt.
    destruct (Nat.ltb_spec idx (length prices)); [| lia]. cbn.
    split; [assumption |]. intros q. split; [auto |].
    intros [-> | ?]; [| assumption].
    eapply list_elem_of_lookup_2. eassumption.
  - rewrite bool_decide_eq_false_2 by assumption. rewrite andb_false_r.
    split.
    + apply StronglySorted_app_2.
      * intros x1 x2 H1 H2. rewrite Forall_forall in Ht.
        specialize (Ht _ H1). apply elem_of_cons in H2 as [-> | H2];
          [assumption |].
        rewrite Forall_forall in Hd. specialize (Hd _ H2). lia.
      * rewrite <- (take_drop idx prices) in Hs.
        eapply StronglySorted_app_1_l. eassumption.
      * constructor; [| assumption].
        rewrite <- (take_drop idx prices) in Hs.
        eapply StronglySorted_app_1_r. eassumption.
    + intros q. rewrite elem_of_app, elem_of_cons.
      rewrite (elem_of_take_drop idx q prices). tauto.
Qed.

Lemma _remove_price_ok (prices : list Z) (price : Z) :
  StronglySorted Z.lt prices ->
  StronglySorted Z.lt (_remove_price prices price) /\
  forall q, q ∈ _remove_price prices price <-> q <> price /\ q ∈ prices.
Proof.
  intros Hs. unfold _remove_price.
  destruct (bisect_left_found prices price Hs) as [Ht Hcase].
  set (idx := bisect_left prices price) in *.
  destruct Hcase as [[Heq Hd] | (Hne & Hnin & Hd)].
  - rewrite bool_decide_eq_true_2 by assumption.
    apply lookup_lt_Some in Heq as Hlt.
    destruct (Nat.ltb_spec idx (length prices)); [| lia]. cbn.
    rewrite delete_take_drop.
    pose proof Hs as Hs'.
    rewrite <- (take_drop idx prices), (drop_S _ _ _ Heq) in Hs'.
    apply StronglySorted_app in Hs' as (Hcross & Hs1 & Hs2).
    apply StronglySorted_cons in Hs2 as [_ Hs2].
    split.
    + apply StronglySorted_app_2; [| assumption ..].
      intros x1 x2 H1 H2. apply Hcross; [assumption |].
      apply elem_of_cons. right. assumption.
    + intros q. rewrite elem_of_app, (elem_of_take_drop idx q prices).
      rewrite (drop_S _ _ _ Heq), elem_of_cons.
      rewrite Forall_forall in Ht, Hd. split.
      * intros [H1 | H1]; [specialize (Ht _ H1) | specialize (Hd _ H1)];
          (split; [lia | tauto]).
      * intros [Hq [H1 | [H1 | H1]]]; tauto.
  - rewrite bool_decide_eq_false_2 by assumption. rewrite andb_false_r.
    split; [assumption |]. intros q. split.
    + intros Hq. split; [| assumption]. intros ->. contradiction.
    + tauto.
Qed.

Lemma _apply_level_ok levels prices price amount :
  0 <= amount -> side_ok levels prices ->
  let '(levels', prices') := _apply_level levels prices price amount in
  side_ok levels' prices'.
Proof.
  intros Ha [Hs Hk Hp]. unfold _apply_level.
  destruct (Z.eqb_spec amount 0) as [-> | Hnz].
  - case_bool_decide as Hin; [| split; assumption].
    destruct (_remove_price_ok prices price Hs) as [Hs' Hm].
    split; [assumption | |].
    + intros q. rewrite Hm, Hk. destruct (decide (q = price)) as [-> | Hne].
      * rewrite lookup_delete_eq. split; [tauto |].
        intros []; discriminate.
      * rewrite lookup_delete_ne by congruence. tauto.
    + intros q v Hq. destruct (decide (q = price)) as [-> | Hne].
      * rewrite lookup_delete_eq in Hq. discriminate.
      * rewrite lookup_delete_ne in Hq by congruence. eauto.
  - destruct (_insert_price_ok prices price Hs) as [Hs' Hm].
    split; [assumption | |].
    + intros q. rewrite Hm, Hk. destruct (decide (q = price)) as [-> | Hne].
      * rewrite lookup_insert_eq. split; [eauto | tauto].
      * rewrite lookup_insert_ne by congruence. tauto.
    + intros q v Hq. destruct (decide (q = price)) as [-> | Hne].
      * rewrite lookup_insert_eq in Hq. simplify_eq. lia.
      * rewrite lookup_insert_ne in Hq by congruence. eauto.
Qed.

Lemma reset_ok b : book_ok (reset b).
Proof.
  split; (split; cbn;
          [constructor
          | intros p; rewrite lookup_empty; split;
            [intros H; inversion H | intros []; discriminate]
          | intros p v H; rewrite lookup_empty in H; discriminate]).
Qed.

Lemma BookPy_new_ok rc : book_ok (BookPy_new rc).
Proof. exact (reset_ok (BookPy_new rc)). Qed.

Lemma _apply_update_ok b u b' :
  book_ok b -> _apply_update b u = Ok b' ->
  book_ok b' /\ _reject_crossed b' = _reject_crossed b.
Proof.
  intros [Hb Ha]. unfold _apply_update.
  destruct (Z.leb_spec (price_ticks u) 0); [discriminate |].
  destruct (Z.ltb_spec (amount_lots u) 0); [discriminate |].
  destruct (evlog_types.side u).
  - pose proof (_apply_level_ok (_bids b) (_bid_prices b) (price_ticks u)
                                (amount_lots u) ltac:(lia) Hb) as Hok.
    destruct (_apply_level _ _ _ _) as [l' p'].
    intros [= <-]. split; [split; assumption | reflexivity].
  - pose proof (_apply_level_ok (_asks b) (_ask_prices b) (price_ticks u)
                                (amount_lots u) ltac:(lia) Ha) as Hok.
    destruct (_apply_level _ _ _ _) as [l' p'].
    intros [= <-]. split; [split; assumption | reflexivity].
Qed.

Lemma apply_updates_ok us :
  forall b, book_ok b ->
  book_ok (apply_updates b us).1 /\
  _reject_crossed (apply_updates b us).1 = _reject_crossed b.
Proof.
  induction us as [| u us IH]; intros b Hb; cbn [apply_updates].
  - split; [assumption | reflexivity].
  - destruct (_apply_update b u) as [b' |] eqn:Hu;
      [| split; [assumption | reflexivity]].
    destruct (_apply_update_ok b u b' Hb Hu) as [Hb' Hrc].
    destruct (IH b' Hb') as [H1 H2]. split; [assumption | congruence].
Qed.

Lemma apply_l2_batch_state b batch :
  (apply_l2_batch b batch).1
  = (apply_updates (if resets_book batch then reset b else b)
                   (updates batch)).1.
Proof.
  unfold apply_l2_batch.
  destruct (apply_updates _ _) as [b' [[] | e]]; cbn; [| reflexivity].
  destruct (_reject_crossed b'); reflexivity.
Qed.

Lemma apply_l2_batch_ok b batch :
  book_ok b -> book_ok (apply_l2_batch b batch).1.
Proof.
  intros Hb. rewrite apply_l2_batch_state.
  apply apply_updates_ok.
  destruct (resets_book batch); [apply reset_ok | assumption].
Qed.


(** *** Reachable books *)

Inductive BookOp : Type :=
| OpReset
| OpApply (batch : L2Batch).

(** One call on the book object; [apply_l2_batch] leaves the object as
    it is when it raises. *)
Definition run_op (b : BookPy) (op : BookOp) : BookPy :=
  match op with
  | OpReset => reset b
  | OpApply batch => (apply_l2_batch b batch).1
  end.

Definition run_ops (b : BookPy) (ops : list BookOp) : BookPy :=
  fold_left run_op ops b.

Lemma run_ops_ok ops : forall b, book_ok b -> book_ok (run_ops b ops).
Proof.
  induction ops as [| op ops IH]; intros b Hb; [exact Hb |].
  apply IH. destruct op; [apply reset_ok | apply apply_l2_batch_ok, Hb].
Qed.

Lemma apply_updates_reject_crossed us :
  forall b, _reject_crossed (apply_updates b us).1 = _reject_crossed b.
Proof.
  induction us as [| u us IH]; intros b; cbn [apply_updates];
    [reflexivity |].
  destruct (_apply_update b u) as [b' |] eqn:Hu; [| reflexivity].
  rewrite IH. unfold _apply_update in Hu.
  destruct (price_ticks u <=? 0); [discriminate |].
  destruct (amount_lots u <? 0); [discriminate |].
  destruct (evlog_types.side u); destruct (_apply_level _ _ _ _);
    injection Hu as <-; reflexivity.
Qed.

Lemma run_ops_reject_crossed ops :
  forall b, _reject_crossed (run_ops b ops) = _reject_crossed b.
Proof.
  induction ops as [| op ops IH]; intros b; [reflexivity |].
  cbn [run_ops fold_left]. fold (run_ops (run_op b op) ops). rewrite IH.
  destruct op; [reflexivity |]. cbn [run_op].
  rewrite apply_l2_batch_state, apply_updates_reject_crossed.
  destruct (resets_book batch); reflexivity.
Qed.

(** *** Top of book and depth *)

Lemma sorted_last_max (l : list Z) (m : Z) :
  StronglySorted Z.lt l -> last l = Some m ->
  m ∈ l /\ forall q, q ∈ l -> q <= m.
Proof.
  intros Hs Hl. apply last_Some in Hl as [l' ->].
  split; [apply elem_of_app; right; apply list_elem_of_singleton; reflexivity |].
  intros q Hq. apply elem_of_app in Hq as [Hq | Hq].
  - apply StronglySorted_app in Hs as (Hc & _ & _).
    assert (q < m); [| lia]. apply Hc; [assumption |].
    apply list_elem_of_singleton. reflexivity.
  - apply list_elem_of_singleton in Hq. lia.
Qed.

Lemma sorted_head_min (l : list Z) (m : Z) :
  StronglySorted Z.lt l -> head l = Some m ->
  m ∈ l /\ forall q, q ∈ l -> m <= q.
Proof.
  intros Hs Hl. destruct l as [| h t]; [discriminate |].
  cbn in Hl. injection Hl as ->.
  split; [left |]. intros q Hq. apply elem_of_cons in Hq as [-> | Hq]; [lia |].
  apply StronglySorted_cons in Hs as [Hall _].
  rewrite Forall_forall in Hall. specialize (Hall _ Hq). lia.
Qed.

(** What [best_bid_ask] reports for one side: nothing when the side is
    empty, else the extreme price of the array and its positive size. *)
Definition top_of_side (levels : gmap Z Z) (prices : list Z)
           (better : Z -> Z -> Prop) (px qty : option Z) : Prop :=
  match px with
  | None => prices = [] /\ qty = None
  | Some p =>
    p ∈ prices /\ (forall q, q ∈ prices -> better q p) /\
    exists v, qty = Some v /\ levels !! p = Some v /\ 0 < v
  end.

Lemma best_bid_ask_ok (b : BookPy) :
  book_ok b ->
  exists bid_px bid_qty ask_px ask_qty,
    best_bid_ask b = Ok (bid_px, bid_qty, ask_px, ask_qty) /\
    bid_px = last (_bid_prices b) /\ ask_px = head (_ask_prices b) /\
    top_of_side (_bids b) (_bid_prices b) Z.le bid_px bid_qty /\
    top_of_side (_asks b) (_ask_prices b) Z.ge ask_px ask_qty.
Proof.
  intros [[Hbs Hbk Hbp] [Has Hak Hap]]. unfold best_bid_ask.
  assert (Hbid : exists q,
    match last (_bid_prices b) with
    | Some bid_px_val =>
      q0 ← getitem (_bids b) bid_px_val; Ok (Some bid_px_val, Some q0)
    | None => Ok (None, None)
    end = Ok (last (_bid_prices b), q) /\
    top_of_side (_bids b) (_bid_prices b) Z.le (last (_bid_prices b)) q).
  { destruct (last (_bid_prices b)) as [p |] eqn:Hl.
    - destruct (sorted_last_max _ _ Hbs Hl) as [Hin Hmax].
      destruct (proj1 (Hbk p) Hin) as [v Hv].
      exists (Some v). unfold getitem. rewrite Hv. unbind.
      split; [reflexivity |]. cbn. eauto 10.
    - exists None. split; [reflexivity |]. cbn.
      split; [apply last_None; assumption | reflexivity]. }
  assert (Hask : exists q,
    match head (_ask_prices b) with
    | Some ask_px_val =>
      q0 ← getitem (_asks b) ask_px_val; Ok (Some ask_px_val, Some q0)
    | None => Ok (None, None)
    end = Ok (head (_ask_prices b), q) /\
    top_of_side (_asks b) (_ask_prices b) Z.ge (head (_ask_prices b)) q).
  { destruct (head (_ask_prices b)) as [p |] eqn:Hl.
    - destruct (sorted_head_min _ _ Has Hl) as [Hin Hmin].
      destruct (proj1 (Hak p) Hin) as [v Hv].
      exists (Some v). unfold getitem. rewrite Hv. unbind.
      split; [reflexivity |]. cbn.
      split; [assumption |]. split; [| eauto].
      intros q Hq. specialize (Hmin q Hq). lia.
    - exists None. split; [reflexivity |]. cbn.
      split; [| reflexivity]. destruct (_ask_prices b); [reflexivity | discriminate]. }
  destruct Hbid as (bq & -> & Hb), Hask as (aq & -> & Ha).
  unbind. eauto 10.
Qed.

Lemma collect_levels_ok (levels : gmap Z Z) :
  (forall p v, levels !! p = Some v -> 0 < v) ->
  forall ordered depth,
    (forall p, p ∈ ordered -> is_Some (levels !! p)) ->
    (1 <= depth)%nat ->
    exists sizes,
      collect_levels levels ordered depth
      = Ok (take depth ordered, sizes) /\
      Forall2 (fun p s => levels !! p = Some s /\ 0 < s)
              (take depth ordered) sizes.
Proof.
  intros Hpos. induction ordered as [| p rest IH]; intros depth Hin Hd.
  - exists []. cbn. rewrite take_nil. split; [reflexivity | constructor].
  - cbn [collect_levels].
    destruct (Hin p ltac:(left)) as [v Hv]. unfold getitem. rewrite Hv.
    unbind. destruct depth as [| [| d]]; [lia | |].
    + exists [v]. cbn. split; [reflexivity |].
      constructor; [eauto | constructor].
    + destruct (IH (S d)) as (sizes & Hc & Hall);
        [intros q Hq; apply Hin; right; exact Hq | lia |].
      rewrite Hc. unbind. exists (v :: sizes).
      split; [reflexivity |]. cbn [take]. constructor; [eauto | exact Hall].
Qed.

(** [levels(side, depth)]: the first [depth] prices from the best one
    outwards, each with the positive size the map holds for it. *)
Definition levels_of (b : BookPy) (s : Side) : gmap Z Z * list Z :=
  match s with
  | BID => (_bids b, reverse (_bid_prices b))
  | ASK => (_asks b, _ask_prices b)
  end.

Lemma levels_ok (b : BookPy) (s : Side) (depth : Z) :
  book_ok b ->
  exists prices sizes,
    levels b s depth = Ok (prices, sizes) /\
    prices = take (Z.to_nat depth) (levels_of b s).2 /\
    Forall2 (fun p v => (levels_of b s).1 !! p = Some v /\ 0 < v)
            prices sizes.
Proof.
  intros [[Hbs Hbk Hbp] [Has Hak Hap]]. unfold levels.
  destruct (Z.leb_spec depth 0) as [Hd | Hd].
  - exists [], []. split; [reflexivity |].
    replace (Z.to_nat depth) with 0%nat by lia.
    split; [reflexivity | constructor].
  - destruct s; cbn [levels_of fst snd].
    + destruct (collect_levels_ok (_bids b) Hbp (reverse (_bid_prices b))
                                  (Z.to_nat depth)) as (sizes & Hc & Hall);
        [| lia | eauto].
      intros p Hp. apply Hbk. rewrite elem_of_reverse in Hp. exact Hp.
    + destruct (collect_levels_ok (_asks b) Hap (_ask_prices b)
                                  (Z.to_nat depth)) as (sizes & Hc & Hall);
        [| lia | eauto].
      intros p Hp. apply Hak. exact Hp.
Qed.

(** C10. After any finite sequence of [reset] and [apply_l2_batch] calls
    on a new book (whatever the batches hold and whether the calls
    return or raise), on each side the price array is strictly
    increasing without duplicates, its elements are exactly the keys of
    the side's price -> size map, and every stored size is positive;
    [best_bid_ask] returns for a non-empty side its extreme price with
    the positive size stored for it, and [levels] returns existing
    levels with positive sizes. *)
Theorem book_levels_invariant (reject_crossed : bool) (ops : list BookOp) :
  let b := run_ops (BookPy_new reject_crossed) ops in
  (StronglySorted Z.lt (_bid_prices b) /\ NoDup (_bid_prices b) /\
   (forall p, p ∈ _bid_prices b <-> is_Some (_bids b !! p)) /\
   (forall p v, _bids b !! p = Some v -> 0 < v)) /\
  (StronglySorted Z.lt (_ask_prices b) /\ NoDup (_ask_prices b) /\
   (forall p, p ∈ _ask_prices b <-> is_Some (_asks b !! p)) /\
   (forall p v, _asks b !! p = Some v -> 0 < v)) /\
  (exists bid_px bid_qty ask_px ask_qty,
      best_bid_ask b = Ok (bid_px, bid_qty, ask_px, ask_qty) /\
      bid_px = last (_bid_prices b) /\ ask_px = head (_ask_prices b) /\
      top_of_side (_bids b) (_bid_prices b) Z.le bid_px bid_qty /\
      top_of_side (_asks b) (_ask_prices b) Z.ge ask_px ask_qty) /\
  (forall s depth,
      exists prices sizes,
        levels b s depth = Ok (prices, sizes) /\
        prices = take (Z.to_nat depth) (levels_of b s).2 /\
        Forall2 (fun p v => (levels_of b s).1 !! p = Some v /\ 0 < v)
                prices sizes).
Proof.
  intros b.
  assert (Hok : book_ok b) by apply run_ops_ok, BookPy_new_ok.
  pose proof Hok as [[Hbs Hbk Hbp] [Has Hak Hap]].
  split; [auto using StronglySorted_lt_NoDup |].
  split; [auto using StronglySorted_lt_NoDup |].
  split; [apply best_bid_ask_ok, Hok |].
  intros s depth. apply levels_ok, Hok.
Qed.


(** *** Crossed books *)

Definition valid_update (u : L2Update) : Prop :=
  0 < price_ticks u /\ 0 <= amount_lots u.

(** [max(prices)] and [min(prices)]; [None] for an empty list. *)
Definition max_price (l : list Z) : option Z :=
  foldr (fun x acc => Some (from_option (Z.max x) x acc)) None l.

Definition min_price (l : list Z) : option Z :=
  foldr (fun x acc => Some (from_option (Z.min x) x acc)) None l.

(** Both sides are non-empty and [max(bid_prices) >= min(ask_prices)]. *)
Definition crossed (b : BookPy) : Prop :=
  match max_price (_bid_prices b), min_price (_ask_prices b) with
  | Some best_bid, Some best_ask => best_ask <= best_bid
  | _, _ => False
  end.

Lemma max_price_spec (l : list Z) (m : Z) :
  m ∈ l -> (forall q, q ∈ l -> q <= m) -> max_price l = Some m.
Proof.
  induction l as [| h t IH]; intros Hin Hmax; [inversion Hin |].
  cbn [max_price foldr]. fold (max_price t). f_equal.
  destruct t as [| h' t'].
  - cbn. apply list_elem_of_singleton in Hin. congruence.
  - destruct (decide (m = h)) as [-> | Hne].
    + destruct (max_price (h' :: t')) as [m' |] eqn:Hm'; [| reflexivity].
      cbn. assert (m' <= h); [| lia].
      apply Hmax. right.
      clear -Hm'. revert m' Hm'.
      induction (h' :: t') as [| a l IHl]; intros m' Hm'; [discriminate |].
      cbn [max_price foldr] in Hm'. fold (max_price l) in Hm'.
      injection Hm' as <-.
      destruct (max_price l) as [ml |] eqn:Hml; cbn; [| left].
      destruct (Z.max_spec a ml) as [[_ ->] | [_ ->]]; [right; eauto | left].
    + apply elem_of_cons in Hin as [? | Hin]; [contradiction |].
      rewrite (IH Hin); [| intros q Hq; apply Hmax; right; exact Hq].
      cbn. pose proof (Hmax h ltac:(left)). lia.
Qed.

Lemma min_price_spec (l : list Z) (m : Z) :
  m ∈ l -> (forall q, q ∈ l -> m <= q) -> min_price l = Some m.
Proof.
  induction l as [| h t IH]; intros Hin Hmin; [inversion Hin |].
  cbn [min_price foldr]. fold (min_price t). f_equal.
  destruct t as [| h' t'].
  - cbn. apply list_elem_of_singleton in Hin. congruence.
  - destruct (decide (m = h)) as [-> | Hne].
    + destruct (min_price (h' :: t')) as [m' |] eqn:Hm'; [| reflexivity].
      cbn. assert (h <= m'); [| lia].
      apply Hmin. right.
      clear -Hm'. revert m' Hm'.
      induction (h' :: t') as [| a l IHl]; intros m' Hm'; [discriminate |].
      cbn [min_price foldr] in Hm'. fold (min_price l) in Hm'.
      injection Hm' as <-.
      destruct (min_price l) as [ml |] eqn:Hml; cbn; [| left].
      destruct (Z.min_spec a ml) as [[_ ->] | [_ ->]]; [left | right; eauto].
    + apply elem_of_cons in Hin as [? | Hin]; [contradiction |].
      rewrite (IH Hin); [| intros q Hq; apply Hmin; right; exact Hq].
      cbn. pose proof (Hmin h ltac:(left)). lia.
Qed.

(** On the sorted arrays the ends are the extremes, which is what
    [_check_crossed] compares. *)
Lemma sorted_max_price (l : list Z) :
  StronglySorted Z.lt l -> max_price l = last l.
Proof.
  intros Hs. destruct (last l) as [m |] eqn:Hl.
  - destruct (sorted_last_max l m Hs Hl). apply max_price_spec; assumption.
  - apply last_None in Hl. subst. reflexivity.
Qed.

Lemma sorted_min_price (l : list Z) :
  StronglySorted Z.lt l -> min_price l = head l.
Proof.
  intros Hs. destruct (head l) as [m |] eqn:Hl.
  - destruct (sorted_head_min l m Hs Hl). apply min_price_spec; assumption.
  - destruct l; [reflexivity | discriminate].
Qed.

Lemma apply_updates_valid us :
  Forall valid_update us ->
  forall b, exists b', apply_updates b us = (b', Ok tt).
Proof.
  induction 1 as [| u us [Hp Ha] _ IH]; intros b; cbn [apply_updates];
    [eauto |].
  unfold _apply_update.
  destruct (Z.leb_spec (price_ticks u) 0); [lia |].
  destruct (Z.ltb_spec (amount_lots u) 0); [lia |].
  destruct (evlog_types.side u); destruct (_apply_level _ _ _ _); apply IH.
Qed.

(** C8. On a book created with [reject_crossed] on, in any state it can
    reach, [apply_l2_batch] of a batch of valid updates applies every
    update (after a reset when [resets_book]) and then fails with
    [SchemaError("crossed book")] if and only if both sides are
    non-empty and [max(bid_prices) >= min(ask_prices)]; otherwise it
    succeeds, and then the best bid reported is strictly below the best
    ask whenever both are present. *)
Theorem apply_l2_batch_crossed (ops : list BookOp) (batch : L2Batch) :
  Forall valid_update (updates batch) ->
  let b := run_ops (BookPy_new true) ops in
  exists b' r,
    apply_updates (if resets_book batch then reset b else b) (updates batch)
    = (b', Ok tt) /\
    apply_l2_batch b batch = (b', r) /\
    (r = Raise (SchemaError "crossed book") <-> crossed b') /\
    (r = Ok tt <-> ~ crossed b') /\
    (r = Ok tt ->
     forall bid_px bid_qty ask_px ask_qty,
       best_bid_ask b' = Ok (Some bid_px, bid_qty, Some ask_px, ask_qty) ->
       bid_px < ask_px).
Proof.
  intros Hvalid b.
  assert (Hok : book_ok b) by apply run_ops_ok, BookPy_new_ok.
  assert (Hrc : _reject_crossed b = true)
    by (unfold b; rewrite run_ops_reject_crossed; reflexivity).
  set (b0 := if resets_book batch then reset b else b).
  assert (Hok0 : book_ok b0)
    by (unfold b0; destruct (resets_book batch); [apply reset_ok | exact Hok]).
  assert (Hrc0 : _reject_crossed b0 = true)
    by (unfold b0; destruct (resets_book batch); exact Hrc).
  destruct (apply_updates_valid _ Hvalid b0) as [b' Hb'].
  destruct (apply_updates_ok (updates batch) b0 Hok0) as [Hok' Hrc'].
  rewrite Hb' in Hok', Hrc'. cbn [fst] in Hok', Hrc'.
  rewrite Hrc0 in Hrc'.
  exists b', (_check_crossed b'). split; [exact Hb' |].
  split; [unfold apply_l2_batch; fold b0; rewrite Hb', Hrc'; reflexivity |].
  pose proof Hok' as [[Hbs _ _] [Has _ _]].
  unfold crossed, _check_crossed.
  rewrite (sorted_max_price _ Hbs), (sorted_min_price _ Has).
  destruct (best_bid_ask_ok b' Hok')
    as (bp & bq & ap & aq & Hbba & -> & -> & _ & _).
  rewrite Hbba.
  destruct (last (_bid_prices b')) as [pb |];
    [| repeat split; try tauto; try discriminate].
  destruct (head (_ask_prices b')) as [pa |];
    [| repeat split; try tauto; try discriminate].
  destruct (Z.leb_spec pa pb).
  - repeat split; try tauto; try discriminate; try (intros; lia).
  - repeat split; try tauto; try discriminate; try (intros; lia).
    intros _ ? ? ? ? [= <- _ <- _]. assumption.
Qed.

(** Scenario "crossed book rejected": one batch with [(bid,10,1)] and
    [(ask,9,1)]. *)
Definition crossing_batch : L2Batch :=
  {| evlog_types.ts_recv_ns := 0; ts_exch_ns := 0; resets_book := true;
     updates := [ {| evlog_types.side := BID; price_ticks := 10;
                     amount_lots := 1; is_snapshot := true |};
                  {| evlog_types.side := ASK; price_ticks := 9;
                     amount_lots := 1; is_snapshot := true |} ] |}.

Example crossed_book_rejected :
  (apply_l2_batch (BookPy_new true) crossing_batch).2
  = Raise (SchemaError "crossed book").
Proof. vm_compute. reflexivity. Qed.

Lemma apply_l2_batch_crossed_witness :
  exists b',
    apply_l2_batch (BookPy_new true) crossing_batch
    = (b', Raise (SchemaError "crossed book")) /\ crossed b'.
Proof.
  destruct (apply_l2_batch_crossed [] crossing_batch)
    as (b' & r & _ & Hb & Hx & _).
  { repeat constructor; cbn; lia. }
  cbn [run_ops fold_left] in Hb.
  assert (Hr : r = Raise (SchemaError "crossed book")).
  { assert (H2 : (apply_l2_batch (BookPy_new true) crossing_batch).2 = r)
      by (rewrite Hb; reflexivity).
    rewrite <- H2. vm_compute. reflexivity. }
  exists b'. split; [rewrite Hb, Hr; reflexivity | apply Hx, Hr].
Defined.

End book_proofs.

(** ** [struct]: unpacking what was packed *)

Module struct_proofs.

Lemma Z_of_byte_range b : 0 <= Z_of_byte b < 256.
Proof.
  unfold Z_of_byte. pose proof (Byte.to_N_bounded b). lia.
Qed.

Lemma Z_of_byte_of_Z z : Z_of_byte (byte_of_Z z) = z mod 256.
Proof.
  unfold Z_of_byte, byte_of_Z.
  pose proof (Z.mod_pos_bound z 256 ltac:(lia)) as Hm.
  destruct (Byte.of_N (Z.to_N (z mod 256))) as [b |] eqn:Hb; cbn.
  - apply Byte.to_of_N in Hb. rewrite Hb. lia.
  - apply Byte.of_N_None_iff in Hb. lia.
Qed.

Lemma length_le_bytes n z : length (le_bytes n z) = n.
Proof. revert z. induction n; intros z; cbn; [reflexivity | f_equal; auto]. Qed.

Lemma le_int_le_bytes n z :
  le_int (le_bytes n z) = z mod 2 ^ (8 * Z.of_nat n).
Proof.
  revert z. induction n as [| n IH]; intros z.
  - cbn. rewrite Z.mod_1_r. reflexivity.
  - cbn [le_bytes le_int]. rewrite Z_of_byte_of_Z, IH.
    replace (8 * Z.of_nat (S n)) with (8 + 8 * Z.of_nat n) by lia.
    rewrite Z.pow_add_r by lia. change (2 ^ 8) with 256.
    rewrite (Z.rem_mul_r z 256) by lia. reflexivity.
Qed.

Lemma pack_unsigned_inv n v bs :
  pack_unsigned n v = Ok bs ->
  bs = le_bytes n v /\ 0 <= v < 2 ^ (8 * Z.of_nat n) /\
  length bs = n /\ le_int bs = v.
Proof.
  unfold pack_unsigned.
  destruct (Z.leb_spec 0 v); [| discriminate].
  destruct (Z.ltb_spec v (2 ^ (8 * Z.of_nat n))); [| discriminate].
  cbn. intros [= <-]. repeat split; try lia.
  - apply length_le_bytes.
  - rewrite le_int_le_bytes. apply Z.mod_small. lia.
Qed.

Lemma pack_unsigned_ok n v :
  0 <= v < 2 ^ (8 * Z.of_nat n) -> pack_unsigned n v = Ok (le_bytes n v).
Proof.
  intros [H0 H1]. unfold pack_unsigned.
  destruct (Z.leb_spec 0 v); [| lia].
  destruct (Z.ltb_spec v (2 ^ (8 * Z.of_nat n))); [reflexivity | lia].
Qed.

Lemma pack_signed_inv n v bs :
  (0 < n)%nat ->
  pack_signed n v = Ok bs ->
  - 2 ^ (8 * Z.of_nat n - 1) <= v < 2 ^ (8 * Z.of_nat n - 1) /\
  length bs = n /\ unpack_signed n bs = v.
Proof.
  intros Hn. unfold pack_signed, unpack_signed.
  set (w := 8 * Z.of_nat n).
  assert (Hw : 2 ^ w = 2 * 2 ^ (w - 1)).
  { replace w with (1 + (w - 1)) at 1 by lia.
    rewrite Z.pow_add_r by lia. reflexivity. }
  assert (Hpos : 0 < 2 ^ (w - 1)) by (apply Z.pow_pos_nonneg; lia).
  destruct (Z.leb_spec (- 2 ^ (w - 1)) v); [| discriminate].
  destruct (Z.ltb_spec v (2 ^ (w - 1))); [| discriminate].
  cbn. intros [= <-]. split; [lia |]. split; [apply length_le_bytes |].
  rewrite le_int_le_bytes. fold w. rewrite Z.mod_mod by lia.
  destruct (Z.lt_ge_cases v 0).
  - rewrite <- (Z.mod_add v 1 (2 ^ w)) by lia.
    rewrite Z.mod_small by lia.
    destruct (Z.ltb_spec (v + 1 * 2 ^ w) (2 ^ (w - 1))); lia.
  - rewrite Z.mod_small by lia.
    destruct (Z.ltb_spec v (2 ^ (w - 1))); lia.
Qed.

Lemma pack_signed_ok n v :
  - 2 ^ (8 * Z.of_nat n - 1) <= v < 2 ^ (8 * Z.of_nat n - 1) ->
  is_Ok (pack_signed n v) = true.
Proof.
  intros [H0 H1]. unfold pack_signed.
  destruct (Z.leb_spec (- 2 ^ (8 * Z.of_nat n - 1)) v); [| lia].
  destruct (Z.ltb_spec v (2 ^ (8 * Z.of_nat n - 1))); [reflexivity | lia].
Qed.

(** What [unpack] returns for the values that were packed: ints as they
    are, a byte string cut or zero-padded to its field. *)
Definition canon (c : code) (v : value) : value :=
  match c, v with
  | fs n, VBytes b => VBytes (take n (b ++ replicate n x00))
  | _, _ => v
  end.

Fixpoint canon_all (fmt : list code) (vs : list value) : list value :=
  match fmt with
  | [] => []
  | fx _ :: fmt' => canon_all fmt' vs
  | c :: fmt' =>
    match vs with
    | v :: vs' => canon c v :: canon_all fmt' vs'
    | [] => []
    end
  end.

Lemma take_drop_app_exact {A} (b rest : list A) n :
  length b = n -> take n (b ++ rest) = b /\ drop n (b ++ rest) = rest.
Proof.
  intros <-. split; [apply take_app_length | apply drop_app_length].
Qed.

Lemma pack_spec fmt :
  forall vs bs,
    pack fmt vs = Ok bs ->
    length bs = calcsize fmt /\
    forall rest, unpack_fields fmt (bs ++ rest) = canon_all fmt vs.
Proof.
  induction fmt as [| c fmt IH]; intros vs bs H.
  - destruct vs; [| discriminate]. injection H as <-.
    split; [reflexivity | intros; reflexivity].
  - assert (Hstep : forall b bs' vs' (f : list value -> list value),
               length b = code_size c ->
               pack fmt vs' = Ok bs' ->
               (forall rest, f (unpack_fields fmt (bs' ++ rest))
                             = canon_all (c :: fmt) vs) ->
               (forall rest,
                   take (code_size c) (b ++ bs' ++ rest) = b ->
                   drop (code_size c) (b ++ bs' ++ rest) = bs' ++ rest ->
                   unpack_fields (c :: fmt) (b ++ bs' ++ rest)
                   = f (unpack_fields fmt (bs' ++ rest))) ->
               length (b ++ bs') = calcsize (c :: fmt) /\
               forall rest, unpack_fields (c :: fmt) ((b ++ bs') ++ rest)
                            = canon_all (c :: fmt) vs).
    { intros b bs' vs' f Hlen Hp Hf Hu.
      destruct (IH _ _ Hp) as [Hl _]. split.
      - rewrite length_app, Hl, Hlen. reflexivity.
      - intros rest. rewrite <- app_assoc.
        destruct (take_drop_app_exact b (bs' ++ rest) _ Hlen) as [Ht Hd].
        rewrite (Hu rest Ht Hd). apply Hf. }
    destruct c; cbn [pack] in H;
      try (destruct vs as [| [z | b0] vs']; try discriminate;
           unfold mbind, result_bind, bind in H;
           match type of H with
           | context [pack_unsigned ?n ?z] =>
             destruct (pack_unsigned n z) as [b |] eqn:Hb; [| discriminate];
             apply pack_unsigned_inv in Hb as (_ & _ & Hlen & Hv)
           | context [pack_signed ?n ?z] =>
             destruct (pack_signed n z) as [b |] eqn:Hb; [| discriminate];
             apply pack_signed_inv in Hb as (_ & Hlen & Hv); [| lia]
           | _ => idtac
           end;
           destruct (pack fmt vs') as [bs' |] eqn:Hp; [| discriminate];
           injection H as <-).
    + eapply (Hstep _ _ _ (fun r => VInt z :: r)); eauto.
      * intros rest. cbn. destruct (IH _ _ Hp) as [_ ->]. reflexivity.
      * intros rest Ht Hd. cbn [unpack_fields]. rewrite Ht, Hd, Hv.
        reflexivity.
    + eapply (Hstep _ _ _ (fun r => VInt z :: r)); eauto.
      * intros rest. cbn. destruct (IH _ _ Hp) as [_ ->]. reflexivity.
      * intros rest Ht Hd. cbn [unpack_fields]. rewrite Ht, Hd, Hv.
        reflexivity.
    + eapply (Hstep _ _ _ (fun r => VInt z :: r)); eauto.
      * intros rest. cbn. destruct (IH _ _ Hp) as [_ ->]. reflexivity.
      * intros rest Ht Hd. cbn [unpack_fields]. rewrite Ht, Hd, Hv.
        reflexivity.
    + eapply (Hstep _ _ _ (fun r => VInt z :: r)); eauto.
      * intros rest. cbn. destruct (IH _ _ Hp) as [_ ->]. reflexivity.
      * intros rest Ht Hd. cbn [unpack_fields]. rewrite Ht, Hd, Hv.
        reflexivity.
    + eapply (Hstep _ _ _ (fun r => VInt z :: r)); eauto.
      * intros rest. cbn. destruct (IH _ _ Hp) as [_ ->]. reflexivity.
      * intros rest Ht Hd. cbn [unpack_fields]. rewrite Ht, Hd, Hv.
        reflexivity.
    + eapply (Hstep _ _ _ (fun r => VBytes (take n (b0 ++ replicate n x00)) :: r)).
      * rewrite length_take, length_app, length_replicate. cbn. lia.
      * eassumption.
      * intros rest. cbn. destruct (IH _ _ Hp) as [_ ->]. reflexivity.
      * intros rest Ht Hd. cbn [unpack_fields]. rewrite Ht, Hd. reflexivity.
    + unfold mbind, result_bind, bind in H.
      destruct (pack fmt vs) as [bs' |] eqn:Hp; [| discriminate].
      injection H as <-.
      eapply (Hstep _ _ _ (fun r => r)).
      * rewrite length_replicate. reflexivity.
      * eassumption.
      * intros rest. cbn. destruct (IH _ _ Hp) as [_ ->]. reflexivity.
      * intros rest Ht Hd. cbn [unpack_fields]. rewrite Hd. reflexivity.
Qed.

Lemma unpack_pack fmt vs bs :
  pack fmt vs = Ok bs -> unpack fmt bs = Ok (canon_all fmt vs).
Proof.
  intros H. destruct (pack_spec fmt vs bs H) as [Hl Hu].
  unfold unpack. rewrite Hl, Nat.eqb_refl. cbn.
  specialize (Hu []). rewrite app_nil_r in Hu. rewrite Hu. reflexivity.
Qed.

Lemma unpack_from_pack fmt vs bs pre post :
  pack fmt vs = Ok bs ->
  unpack_from fmt (pre ++ bs ++ post) (length pre)
  = Ok (canon_all fmt vs).
Proof.
  intros H. destruct (pack_spec fmt vs bs H) as [Hl Hu].
  unfold unpack_from. rewrite !length_app, Hl.
  destruct (Nat.ltb_spec (length pre + (calcsize fmt + length post))
                         (length pre + calcsize fmt)); [lia |].
  rewrite drop_app_length, <- Hl, take_app_length.
  specialize (Hu []). rewrite app_nil_r in Hu. rewrite Hu. reflexivity.
Qed.

End struct_proofs.

(** ** [evlog/index.py]: writing and reading a time index *)

Module index_proofs.
Import index struct_proofs.

Definition int64 (z : Z) : Prop := - 2 ^ 63 <= z < 2 ^ 63.

Definition entry_int64 (e : IndexEntry) : Prop :=
  int64 (ts_recv_ns e) /\ int64 (offset e).

(** The invariants of an index: no negative field, and along every
    adjacent pair the timestamp does not decrease and the offset
    strictly increases. *)
Definition adjacent_ok (es : list IndexEntry) : Prop :=
  forall i e1 e2,
    es !! i = Some e1 -> es !! S i = Some e2 ->
    ts_recv_ns e1 <= ts_recv_ns e2 /\ offset e1 < offset e2.

Definition index_valid (es : list IndexEntry) : Prop :=
  (forall e, e ∈ es -> 0 <= ts_recv_ns e /\ 0 <= offset e) /\
  adjacent_ok es.

(** The same, the way the loops check it: each entry against the one
    before. *)
Fixpoint index_ok (prev : option IndexEntry) (es : list IndexEntry) : Prop :=
  match es with
  | [] => True
  | e :: rest =>
    0 <= ts_recv_ns e /\ 0 <= offset e /\
    match prev with
    | Some p => ts_recv_ns p <= ts_recv_ns e /\ offset p < offset e
    | None => True
    end /\
    index_ok (Some e) rest
  end.

Lemma index_ok_valid es :
  forall prev,
    index_ok prev es <->
    (forall e, e ∈ es -> 0 <= ts_recv_ns e /\ 0 <= offset e) /\
    adjacent_ok (option_list prev ++ es).
Proof.
  induction es as [| e rest IH]; intros prev.
  - cbn. split; [intros _ | tauto]. split; [intros e H; inversion H |].
    intros i e1 e2 H1 H2. rewrite app_nil_r in H1, H2.
    destruct prev; destruct i; cbn in H1, H2; discriminate.
  - cbn [index_ok]. rewrite (IH (Some e)). cbn [option_list app].
    split.
    + intros (Ht & Ho & Hp & Hall & Hadj). split.
      * intros e' He'. apply elem_of_cons in He' as [-> | He']; auto.
      * intros i e1 e2 H1 H2. destruct prev as [p |]; cbn in *.
        -- destruct i as [| i]; cbn in *; simplify_eq; [exact Hp |].
           eapply (Hadj i); eassumption.
        -- eapply (Hadj i); eassumption.
    + intros [Hall Hadj].
      destruct (Hall e ltac:(left)) as [Ht Ho].
      split; [exact Ht |]. split; [exact Ho |]. split.
      * destruct prev as [p |]; [| exact I].
        apply (Hadj 0%nat p e); reflexivity.
      * split; [intros e' He'; apply Hall; right; exact He' |].
        intros i e1 e2 H1 H2. destruct prev as [p |]; cbn in *.
        -- apply (Hadj (S i) e1 e2); assumption.
        -- apply (Hadj i e1 e2); assumption.
Qed.

Lemma index_ok_None es : index_ok None es <-> index_valid es.
Proof. apply (index_ok_valid es None). Qed.

(** The bytes of one entry: two little-endian 64-bit fields. *)
Definition raw_entry (e : IndexEntry) : list byte :=
  le_bytes 8 (ts_recv_ns e mod 2 ^ 64) ++ le_bytes 8 (offset e mod 2 ^ 64).

Definition index_header : list byte :=
  list_byte_of_string "MMEVLIDX"
  ++ [x00; x01; x00; x00; x00; x00; x00; x00].

(** An index file that holds [es]: the header and the entries one after
    the other. *)
Definition raw_index (es : list IndexEntry) : list byte :=
  index_header ++ concat (map raw_entry es).

Lemma _pack_header_eq : _pack_header = Ok index_header.
Proof. vm_compute. reflexivity. Qed.

Lemma _unpack_header_ok : _unpack_header index_header = Ok tt.
Proof. vm_compute. reflexivity. Qed.

Lemma pack_entry e :
  entry_int64 e ->
  pack INDEX_ENTRY_FMT [VInt (ts_recv_ns e); VInt (offset e)]
  = Ok (raw_entry e).
Proof.
  intros [[H1 H2] [H3 H4]]. unfold INDEX_ENTRY_FMT, raw_entry. cbn [pack].
  unfold pack_signed. change (8 * Z.of_nat 8 - 1) with 63.
  change (8 * Z.of_nat 8) with 64.
  destruct (Z.leb_spec (- 2 ^ 63) (ts_recv_ns e)); [| lia].
  destruct (Z.ltb_spec (ts_recv_ns e) (2 ^ 63)); [| lia].
  destruct (Z.leb_spec (- 2 ^ 63) (offset e)); [| lia].
  destruct (Z.ltb_spec (offset e) (2 ^ 63)); [| lia].
  cbn [andb]. unbind. rewrite app_nil_r. reflexivity.
Qed.

Lemma length_raw_entry e : length (raw_entry e) = 16%nat.
Proof. unfold raw_entry. rewrite length_app, !length_le_bytes. reflexivity. Qed.

Lemma length_raw_entries es :
  length (concat (map raw_entry es)) = (16 * length es)%nat.
Proof.
  induction es as [| e es IH]; [reflexivity |].
  cbn [map concat length]. rewrite length_app, length_raw_entry, IH. lia.
Qed.

Definition prev_ts (prev : option IndexEntry) : option Z :=
  ts_recv_ns <$> prev.
Definition prev_offset (prev : option IndexEntry) : option Z :=
  offset <$> prev.

(** The checks the two loops share, on one entry. *)
Lemma entry_checks prev e :
  (0 <= ts_recv_ns e /\ 0 <= offset e /\
   match prev with
   | Some p => ts_recv_ns p <= ts_recv_ns e /\ offset p < offset e
   | None => True
   end /\
   (ts_recv_ns e <? 0) = false /\ (offset e <? 0) = false /\
   some_and (prev_ts prev) (fun p => ts_recv_ns e <? p) = false /\
   some_and (prev_offset prev) (fun p => offset e <=? p) = false)
  \/
  (~ (0 <= ts_recv_ns e /\ 0 <= offset e /\
      match prev with
      | Some p => ts_recv_ns p <= ts_recv_ns e /\ offset p < offset e
      | None => True
      end) /\
   ((ts_recv_ns e <? 0) = true \/
    (ts_recv_ns e <? 0) = false /\ (offset e <? 0) = true \/
    (ts_recv_ns e <? 0) = false /\ (offset e <? 0) = false /\
    some_and (prev_ts prev) (fun p => ts_recv_ns e <? p) = true \/
    (ts_recv_ns e <? 0) = false /\ (offset e <? 0) = false /\
    some_and (prev_ts prev) (fun p => ts_recv_ns e <? p) = false /\
    some_and (prev_offset prev) (fun p => offset e <=? p) = true)).
Proof.
  destruct (Z.ltb_spec (ts_recv_ns e) 0); [right; split; [lia | auto] |].
  destruct (Z.ltb_spec (offset e) 0); [right; split; [lia | auto] |].
  destruct prev as [p |]; cbn.
  - destruct (Z.ltb_spec (ts_recv_ns e) (ts_recv_ns p));
      [right; split; [lia | auto 10] |].
    destruct (Z.leb_spec (offset e) (offset p));
      [right; split; [lia | auto 10] |].
    left. repeat split; lia.
  - left. repeat split; lia.
Qed.

Lemma _write_entries_loop_spec es :
  Forall entry_int64 es ->
  forall f count prev,
    (index_ok prev es /\
     _write_entries_loop f count (prev_ts prev) (prev_offset prev) es
     = (f ++ concat (map raw_entry es), Ok (count + Z.of_nat (length es))))
    \/
    (~ index_ok prev es /\
     exists f' msg,
       _write_entries_loop f count (prev_ts prev) (prev_offset prev) es
       = (f', Raise (SchemaError msg))).
Proof.
  induction 1 as [| e es He _ IH]; intros f count prev.
  - left. cbn. rewrite app_nil_r, Z.add_0_r. split; [exact I | reflexivity].
  - cbn [_write_entries_loop index_ok].
    destruct (entry_checks prev e)
      as [(Ht & Ho & Hp & -> & -> & -> & ->)
         | [Hno [-> | [[-> ->] | [(-> & -> & ->) | (-> & -> & -> & ->)]]]]];
      try (right; split; [tauto | eauto]).
    rewrite (pack_entry e He).
    destruct (IH (f ++ raw_entry e) (count + 1) (Some e))
      as [[Hok Heq] | [Hno (f' & msg & Heq)]];
      cbn [prev_ts prev_offset fmap option_fmap option_map] in Heq;
      rewrite Heq.
    + left. split; [tauto |]. cbn [map concat length].
      rewrite <- app_assoc. f_equal. f_equal. lia.
    + right. split; [tauto | eauto].
Qed.

Lemma read_entries_spec es :
  Forall entry_int64 es ->
  forall pre prev,
    (index_ok prev es /\
     read_entries (length es) (pre ++ concat (map raw_entry es))
                  (length pre) (prev_ts prev) (prev_offset prev)
     = Ok es)
    \/
    (~ index_ok prev es /\
     exists msg,
       read_entries (length es) (pre ++ concat (map raw_entry es))
                    (length pre) (prev_ts prev) (prev_offset prev)
       = Raise (SchemaError msg)).
Proof.
  induction 1 as [| e es He _ IH]; intros pre prev.
  - left. split; [exact I | reflexivity].
  - cbn [length read_entries map concat index_ok].
    rewrite (unpack_from_pack _ _ _ pre _ (pack_entry e He)).
    cbn [canon_all canon INDEX_ENTRY_FMT]. unbind.
    destruct (entry_checks prev e)
      as [(Ht & Ho & Hp & -> & -> & -> & ->)
         | [Hno [-> | [[-> ->] | [(-> & -> & ->) | (-> & -> & -> & ->)]]]]];
      try (right; split; [tauto | eauto]).
    specialize (IH (pre ++ raw_entry e) (Some e)).
    rewrite length_app, length_raw_entry in IH.
    rewrite <- app_assoc in IH. change INDEX_ENTRY_SIZE with 16%nat.
    destruct IH as [[Hok Heq] | [Hno (msg & Heq)]];
      cbn [prev_ts prev_offset fmap option_fmap option_map] in Heq;
      rewrite Heq.
    + left. split; [tauto |]. unbind. destruct e; reflexivity.
    + right. split; [tauto | eauto].
Qed.

Lemma read_index_raw es :
  read_index (raw_index es)
  = read_entries (length es) (concat (map raw_entry es)) 0 None None.
Proof.
  unfold read_index, raw_index, read, read_all, open_rb.
  cbn [content pos]. change (Z.to_nat 0) with 0%nat. rewrite drop_0.
  change (Z.to_nat (Z.of_nat INDEX_HEADER_SIZE)) with (length index_header).
  rewrite take_app_length, _unpack_header_ok. unbind.
  rewrite Z.add_0_l, Nat2Z.id, drop_app_length.
  rewrite length_raw_entries. change INDEX_ENTRY_SIZE with 16%nat.
  rewrite Nat.mul_comm, Nat.Div0.mod_mul, Nat.div_mul by lia.
  reflexivity.
Qed.

(** C6, as the code has it.  For entries whose fields are 64-bit
    integers: [write_index] succeeds exactly when no field is negative
    and along every adjacent pair the timestamp does not decrease and the
    offset strictly increases; it then writes the header and the entries
    and returns their number, and [read_index] of that file returns
    exactly the entries.  When the entries violate these invariants,
    [write_index] fails with a [SchemaError], and so does [read_index] of
    a file that holds them. *)
Theorem index_write_read (es : list IndexEntry) :
  Forall entry_int64 es ->
  (index_valid es ->
   write_index es = (raw_index es, Ok (Z.of_nat (length es))) /\
   read_index (raw_index es) = Ok es) /\
  (~ index_valid es ->
   (exists f msg, write_index es = (f, Raise (SchemaError msg))) /\
   (exists msg, read_index (raw_index es) = Raise (SchemaError msg))).
Proof.
  intros H64. rewrite <- index_ok_None.
  unfold write_index, _write_entries. rewrite _pack_header_eq.
  rewrite read_index_raw.
  destruct (_write_entries_loop_spec es H64 index_header 0 None)
    as [[Hok Hw] | [Hno (f & msg & Hw)]];
    destruct (read_entries_spec es H64 [] None)
      as [[Hok' Hr] | [Hno' (msg' & Hr)]];
    cbn [prev_ts prev_offset fmap option_fmap option_map app length]
      in Hw, Hr;
    rewrite Hw, Hr; split; intros ?; try contradiction; eauto.
Qed.

Example index_roundtrip_test :
  let es := [ {| ts_recv_ns := 1000; offset := 16 |};
              {| ts_recv_ns := 2000; offset := 64 |} ] in
  write_index es = (raw_index es, Ok 2) /\
  read_index (write_index es).1 = Ok es.
Proof. vm_compute. split; reflexivity. Qed.

Lemma index_write_read_witness :
  let es := [ {| ts_recv_ns := 1000; offset := 16 |};
              {| ts_recv_ns := 2000; offset := 64 |} ] in
  read_index (raw_index es) = Ok es.
Proof.
  intros es.
  assert (H64 : Forall entry_int64 es).
  { repeat constructor; cbn; lia. }
  destruct (index_write_read es H64) as [Hvalid _].
  apply Hvalid. apply index_ok_None. cbn. lia.
Defined.

(** The claim as the specification words it fails twice: a decreasing
    timestamp is reported as a [SchemaError], not an [OrderingError]; and
    a sequence with non-decreasing timestamps and strictly increasing
    non-negative offsets is rejected when a timestamp is negative. *)
Lemma index_ordering_error_counterexample :
  (write_index [ {| ts_recv_ns := 2000; offset := 16 |};
                 {| ts_recv_ns := 1000; offset := 64 |} ]).2
  = Raise (SchemaError "index timestamps not monotone")
  /\ (forall msg,
         (write_index [ {| ts_recv_ns := 2000; offset := 16 |};
                        {| ts_recv_ns := 1000; offset := 64 |} ]).2
         <> Raise (OrderingError msg))
  /\ (write_index [ {| ts_recv_ns := -5; offset := 16 |} ]).2
     = Raise (SchemaError "negative index timestamp: -5").
Proof.
  split; [vm_compute; reflexivity |].
  split; [intros msg; vm_compute; discriminate | vm_compute; reflexivity].
Qed.

End index_proofs.

(** ** [evlog/writer.py] and [evlog/reader.py]: round trip and seek *)

Module evlog_proofs.
Import struct_proofs index_proofs bisect_proofs.

(** What [write_l2_batch] checks on an update and on a batch. *)
Definition update_ok (u : L2Update) : Prop :=
  int64 (price_ticks u) /\ int64 (amount_lots u) /\
  0 < price_ticks u /\ 0 <= amount_lots u.

Definition batch_checks (b : L2Batch) : Prop :=
  int64 (evlog_types.ts_recv_ns b) /\ int64 (ts_exch_ns b) /\
  0 <= evlog_types.ts_recv_ns b /\ 0 <= ts_exch_ns b /\
  Z.of_nat (length (updates b)) <= 2 ^ 32 - 1 /\
  Forall update_ok (updates b).

(** The payload length [24 + 24 * update_count] fits the 32-bit length
    field of the record header. *)
Definition payload_fits (b : L2Batch) : Prop :=
  24 + 24 * Z.of_nat (length (updates b)) <= 2 ^ 32 - 1.

Lemma _require_int64_ok v f : int64 v -> _require_int64 v f = Ok tt.
Proof.
  intros [H0 H1]. unfold _require_int64.
  destruct (Z.ltb_spec v (- 2 ^ 63)); [lia |].
  destruct (Z.ltb_spec (2 ^ 63 - 1) v); [lia | reflexivity].
Qed.

Lemma _require_int64_inv v f : _require_int64 v f = Ok tt -> int64 v.
Proof.
  unfold _require_int64, int64.
  destruct (Z.ltb_spec v (- 2 ^ 63)); [discriminate |].
  destruct (Z.ltb_spec (2 ^ 63 - 1) v); [discriminate | lia].
Qed.

Lemma _require_int64_cases v f :
  (int64 v /\ _require_int64 v f = Ok tt) \/
  (~ int64 v /\ exists m, _require_int64 v f = Raise (SchemaError m)).
Proof.
  unfold _require_int64, int64.
  destruct (Z.ltb_spec v (- 2 ^ 63)); [right; split; [lia | eauto] |].
  destruct (Z.ltb_spec (2 ^ 63 - 1) v); [right; split; [lia | eauto] |].
  left. split; [lia | reflexivity].
Qed.

Definition update_fields (u : L2Update) : list value :=
  [VInt (Side_to_Z (evlog_types.side u));
   VInt (if is_snapshot u then 1 else 0); VInt 0;
   VInt (price_ticks u); VInt (amount_lots u); VInt 0].

(** [pack_update] succeeds exactly on the updates that pass the checks,
    and then packs the six fields; it fails with a [SchemaError]
    otherwise. *)
Lemma pack_update_cases u :
  (update_ok u /\ exists b, pack_update u = Ok b /\
                            pack L2_UPDATE_FMT (update_fields u) = Ok b) \/
  (~ update_ok u /\ exists m, pack_update u = Raise (SchemaError m)).
Proof.
  unfold pack_update, update_ok.
  assert (Hside : negb ((Side_to_Z (evlog_types.side u) =? Side_to_Z BID)
                        || (Side_to_Z (evlog_types.side u) =? Side_to_Z ASK))
                  = false) by (destruct (evlog_types.side u); reflexivity).
  rewrite Hside.
  destruct (_require_int64_cases (price_ticks u) "price_ticks")
    as [[Hp ->] | [Hp [m ->]]]; [| right; split; [tauto | eauto]].
  destruct (_require_int64_cases (amount_lots u) "amount_lots")
    as [[Ha ->] | [Ha [m ->]]]; [| right; split; [tauto | eauto]].
  unbind.
  destruct (Z.leb_spec (price_ticks u) 0); [right; split; [lia | eauto] |].
  destruct (Z.ltb_spec (amount_lots u) 0); [right; split; [lia | eauto] |].
  left. split; [tauto |].
  fold (update_fields u).
  assert (Hok : is_Ok (pack L2_UPDATE_FMT (update_fields u)) = true).
  { unfold L2_UPDATE_FMT, update_fields. cbn [pack].
    destruct Hp as [Hp0 Hp1], Ha as [Ha0 Ha1].
    unfold pack_signed, pack_unsigned.
    change (8 * Z.of_nat 8 - 1) with 63.
    destruct (Z.leb_spec (- 2 ^ 63) (price_ticks u)); [| lia].
    destruct (Z.ltb_spec (price_ticks u) (2 ^ 63)); [| lia].
    destruct (Z.leb_spec (- 2 ^ 63) (amount_lots u)); [| lia].
    destruct (Z.ltb_spec (amount_lots u) (2 ^ 63)); [| lia].
    destruct (evlog_types.side u), (is_snapshot u); reflexivity. }
  destruct (pack L2_UPDATE_FMT (update_fields u)) as [b |]; [| discriminate].
  eauto.
Qed.

Lemma Side_of_to_Z s : Side_of_Z (Side_to_Z s) = Some s.
Proof. destruct s; reflexivity. Qed.

(** The update loop of the writer against the update loop of the
    reader. *)
Lemma pack_updates_spec us :
  (Forall update_ok us /\
   exists body,
     pack_updates us = Ok body /\
     length body = (24 * length us)%nat /\
     forall pre post,
       reader.decode_updates (length us) (pre ++ body ++ post) (length pre)
       = Ok us) \/
  (~ Forall update_ok us /\
   exists m, pack_updates us = Raise (SchemaError m)).
Proof.
  induction us as [| u us IH].
  - left. split; [constructor |]. exists []. repeat split; reflexivity.
  - cbn [pack_updates].
    destruct (pack_update_cases u) as [[Hu (b & -> & Hb)] | [Hu (m & ->)]];
      [| right; split; [intros H; inversion H; tauto | eauto]].
    unbind.
    destruct IH as [[Hus (body & -> & Hlen & Hdec)] | [Hus (m & ->)]];
      [| right; split; [intros H; inversion H; tauto | eauto]].
    unbind. left. split; [constructor; assumption |].
    exists (b ++ body). split; [reflexivity |].
    destruct (pack_spec _ _ _ Hb) as [Hlb _].
    change (calcsize L2_UPDATE_FMT) with 24%nat in Hlb.
    split; [rewrite length_app, Hlb, Hlen; cbn [length]; lia |].
    intros pre post. cbn [length reader.decode_updates].
    rewrite <- app_assoc.
    rewrite (unpack_from_pack _ _ _ pre (body ++ post) Hb).
    unfold update_fields. cbn [canon_all canon L2_UPDATE_FMT]. unbind.
    cbn [Z.eqb negb orb]. rewrite Side_of_to_Z.
    destruct Hu as (_ & _ & Hp & Ha).
    assert (Hsnap : negb (((if is_snapshot u then 1 else 0) =? 0)
                          || ((if is_snapshot u then 1 else 0) =? 1))
                    = false) by (destruct (is_snapshot u); reflexivity).
    rewrite Hsnap.
    destruct (Z.leb_spec (price_ticks u) 0); [lia |].
    destruct (Z.ltb_spec (amount_lots u) 0); [lia |].
    specialize (Hdec (pre ++ b) post).
    rewrite length_app, Hlb, <- app_assoc in Hdec.
    change L2_UPDATE_SIZE with 24%nat. rewrite Hdec. unbind.
    f_equal. f_equal. destruct u as [s p a snap]; cbn.
    destruct snap; reflexivity.
Qed.


(** [rec] is a record of the log that holds [b]: an 8-byte record header
    of type L2_BATCH with the length of the payload, a multiple of 8,
    and a payload that [_decode_l2_payload] decodes to [b]. *)
Definition is_record (rec : list byte) (b : L2Batch) : Prop :=
  exists rh payload,
    rec = rh ++ payload /\ length rh = 8%nat /\
    unpack_record_header rh = Ok (L2_BATCH, Z.of_nat (length payload)) /\
    Z.of_nat (length payload) mod 8 = 0 /\
    reader._decode_l2_payload payload = Ok b.

Lemma pack_batch_header b :
  int64 (evlog_types.ts_recv_ns b) -> int64 (ts_exch_ns b) ->
  0 <= Z.of_nat (length (updates b)) <= 2 ^ 32 - 1 ->
  exists head,
    pack L2_BATCH_HEADER_FMT
         [VInt (evlog_types.ts_recv_ns b); VInt (ts_exch_ns b);
          VInt (if resets_book b then 1 else 0);
          VInt (Z.of_nat (length (updates b)))] = Ok head.
Proof.
  intros [H0 H1] [H2 H3] [H4 H5].
  unfold L2_BATCH_HEADER_FMT. cbn [pack].
  unfold pack_signed, pack_unsigned.
  change (8 * Z.of_nat 8 - 1) with 63. change (8 * Z.of_nat 4) with 32.
  destruct (Z.leb_spec (- 2 ^ 63) (evlog_types.ts_recv_ns b)); [| lia].
  destruct (Z.ltb_spec (evlog_types.ts_recv_ns b) (2 ^ 63)); [| lia].
  destruct (Z.leb_spec (- 2 ^ 63) (ts_exch_ns b)); [| lia].
  destruct (Z.ltb_spec (ts_exch_ns b) (2 ^ 63)); [| lia].
  destruct (Z.leb_spec 0 (Z.of_nat (length (updates b)))); [| lia].
  destruct (Z.ltb_spec (Z.of_nat (length (updates b))) (2 ^ 32)); [| lia].
  destruct (resets_book b); cbn; eauto.
Qed.

Lemma pack_record_header plen :
  (0 <= plen <= 2 ^ 32 - 1 /\
   exists rh, pack RECORD_HEADER_FMT
                   [VInt L2_BATCH; VInt 0; VInt 0; VInt plen] = Ok rh) \/
  (~ (0 <= plen <= 2 ^ 32 - 1) /\
   pack RECORD_HEADER_FMT [VInt L2_BATCH; VInt 0; VInt 0; VInt plen]
   = Raise StructError).
Proof.
  unfold RECORD_HEADER_FMT, L2_BATCH. cbn [pack].
  assert (Hcases : (0 <= plen <= 2 ^ 32 - 1 /\
                    pack_unsigned 4 plen = Ok (le_bytes 4 plen)) \/
                   (~ (0 <= plen <= 2 ^ 32 - 1) /\
                    pack_unsigned 4 plen = Raise StructError)).
  { unfold pack_unsigned. change (8 * Z.of_nat 4) with 32.
    destruct (Z.leb_spec 0 plen); [| right; split; [lia | reflexivity]].
    destruct (Z.ltb_spec plen (2 ^ 32));
      [| right; split; [lia | reflexivity]].
    left. split; [lia | reflexivity]. }
  destruct Hcases as [[Hfit ->] | [Hfit ->]].
  - left. split; [exact Hfit |]. cbn. eauto.
  - right. split; [exact Hfit |]. reflexivity.
Qed.

Lemma payload_len_aligned n : (24 + Z.of_nat n * 24) mod 8 = 0.
Proof.
  replace (24 + Z.of_nat n * 24) with ((3 + 3 * Z.of_nat n) * 8) by lia.
  apply Z.mod_mul. lia.
Qed.

(** The three outcomes of [write_l2_batch] on an open writer: the record
    is appended; or the batch passes every check but its payload is
    longer than the length field of the record header can say, and
    packing the header raises [struct.error]; or a check fails with a
    [SchemaError].  Nothing is written in the last two cases. *)
Lemma write_l2_batch_cases (w : EvlogWriter) (b : L2Batch) file :
  writer._file w = Some file ->
  (batch_checks b /\ payload_fits b /\
   exists rec,
     write_l2_batch w b = Ok (writer.set_file w (Some (file ++ rec))) /\
     is_record rec b /\
     length rec = (32 + 24 * length (updates b))%nat) \/
  (batch_checks b /\ ~ payload_fits b /\
   write_l2_batch w b = Raise StructError) \/
  (~ batch_checks b /\
   exists m, write_l2_batch w b = Raise (SchemaError m)).
Proof.
  intros Hfile. unfold write_l2_batch, batch_checks, payload_fits.
  rewrite Hfile.
  destruct (_require_int64_cases (evlog_types.ts_recv_ns b) "ts_recv_ns")
    as [[Hr ->] | [Hr [m ->]]]; [| right; right; split; [tauto | eauto]].
  destruct (_require_int64_cases (ts_exch_ns b) "ts_exch_ns")
    as [[He ->] | [He [m ->]]]; [| right; right; split; [tauto | eauto]].
  unbind.
  destruct (Z.ltb_spec (evlog_types.ts_recv_ns b) 0);
    [right; right; split; [lia | eauto] |].
  destruct (Z.ltb_spec (ts_exch_ns b) 0);
    [right; right; split; [lia | eauto] |].
  cbn [orb].
  set (n := length (updates b)).
  destruct (Z.ltb_spec (Z.of_nat n) 0); [lia |].
  destruct (Z.ltb_spec (2 ^ 32 - 1) (Z.of_nat n));
    [right; right; split; [lia | eauto] |].
  cbn [orb].
  change (Z.of_nat L2_BATCH_HEADER_SIZE) with 24.
  change (Z.of_nat L2_UPDATE_SIZE) with 24.
  rewrite payload_len_aligned. cbn [Z.eqb negb].
  destruct (pack_batch_header b Hr He ltac:(fold n; lia)) as [head Hhead].
  fold n in Hhead. rewrite Hhead. unbind.
  destruct (pack_updates_spec (updates b))
    as [[Hus (body & -> & Hlen & Hdec)] | [Hus (m & ->)]];
    [| right; right; split; [tauto | eauto]].
  unbind.
  destruct (pack_record_header (24 + Z.of_nat n * 24))
    as [[Hfit (rh & Hrh)] | [Hfit ->]];
    [| right; left; split; [tauto | split; [lia | reflexivity]]].
  rewrite Hrh. unbind.
  destruct (pack_spec _ _ _ Hrh) as [Hlrh _].
  destruct (pack_spec _ _ _ Hhead) as [Hlhead _].
  change (calcsize RECORD_HEADER_FMT) with 8%nat in Hlrh.
  change (calcsize L2_BATCH_HEADER_FMT) with 24%nat in Hlhead.
  change RECORD_HEADER_SIZE with 8%nat. rewrite Hlrh. cbn [Nat.eqb negb].
  left. split; [tauto |]. split; [lia |].
  exists (rh ++ head ++ body). split; [reflexivity |].
  assert (Hpl : Z.of_nat (length (head ++ body)) = 24 + Z.of_nat n * 24).
  { rewrite length_app, Hlhead, Hlen. fold n. lia. }
  split.
  - exists rh, (head ++ body). split; [reflexivity |].
    split; [exact Hlrh |]. rewrite Hpl. split.
    + unfold unpack_record_header. change RECORD_HEADER_SIZE with 8%nat.
      rewrite Hlrh. cbn [Nat.eqb negb].
      rewrite (unpack_pack _ _ _ Hrh). reflexivity.
    + split; [apply payload_len_aligned |].
      unfold reader._decode_l2_payload.
      change L2_BATCH_HEADER_SIZE with 24%nat.
      destruct (Nat.ltb_spec (length (head ++ body)) 24);
        [rewrite length_app in *; lia |].
      pose proof (unpack_from_pack _ _ _ [] body Hhead) as Hu.
      cbn [app length] in Hu. rewrite Hu.
      cbn [canon_all canon L2_BATCH_HEADER_FMT]. unbind.
      destruct (Z.ltb_spec (evlog_types.ts_recv_ns b) 0); [lia |].
      destruct (Z.ltb_spec (ts_exch_ns b) 0); [lia |].
      cbn [orb].
      assert (Hres : negb (((if resets_book b then 1 else 0) =? 0)
                           || ((if resets_book b then 1 else 0) =? 1))
                     = false) by (destruct (resets_book b); reflexivity).
      rewrite Hres.
      change (Z.of_nat L2_UPDATE_SIZE) with 24. rewrite Hpl.
      change (Z.of_nat 24) with 24. rewrite Z.eqb_refl. cbn [negb].
      rewrite Nat2Z.id.
      specialize (Hdec head []). rewrite app_nil_r, Hlhead in Hdec.
      fold n in Hdec. rewrite Hdec. unbind.
      f_equal. destruct b as [tr te rs us]; cbn. destruct rs; reflexivity.
  - rewrite !length_app, Hlrh, Hlhead, Hlen. fold n. lia.
Qed.


(** *** Reading records back *)

Lemma read_at pre x post :
  read {| content := pre ++ x ++ post; pos := Z.of_nat (length pre) |}
       (Z.of_nat (length x))
  = (x, {| content := pre ++ x ++ post;
           pos := Z.of_nat (length (pre ++ x)) |}).
Proof.
  unfold read. cbn [content pos].
  rewrite !Nat2Z.id, drop_app_length, take_app_length, length_app.
  f_equal. f_equal. lia.
Qed.

Lemma is_record_length rec b : is_record rec b -> (8 <= length rec)%nat.
Proof.
  intros (rh & payload & -> & Hl & _). rewrite length_app. lia.
Qed.

(** The reader's loop on a file that ends with the records [recs],
    started where they start, yields their batches and stops at the end
    of the file without an error, given one turn more than there are
    records. *)
Lemma iter_loop_records recs bs :
  Forall2 is_record recs bs ->
  forall pre fuel,
    (length bs < fuel)%nat ->
    reader.iter_loop
      fuel {| content := pre ++ concat recs;
              pos := Z.of_nat (length pre) |}
    = (bs, None, {| content := pre ++ concat recs;
                    pos := Z.of_nat (length (pre ++ concat recs)) |}).
Proof.
  induction 1 as [| rec b recs bs Hrec _ IH]; intros pre fuel Hfuel.
  - destruct fuel as [| fuel]; [cbn in Hfuel; lia |].
    cbn [reader.iter_loop concat].
    unfold read. cbn [content pos].
    rewrite Nat2Z.id, app_nil_r, drop_ge, take_nil by lia. cbn [length].
    rewrite Z.add_0_r. reflexivity.
  - destruct fuel as [| fuel]; [cbn in Hfuel; lia |].
    destruct Hrec as (rh & payload & -> & Hl & Hu & Hal & Hdec).
    cbn [reader.iter_loop concat].
    change (Z.of_nat RECORD_HEADER_SIZE) with 8.
    replace 8 with (Z.of_nat (length rh)) by (rewrite Hl; reflexivity).
    rewrite <- !app_assoc.
    rewrite (read_at pre rh (payload ++ concat recs)).
    destruct rh as [| r0 rh']; [discriminate |].
    change RECORD_HEADER_SIZE with 8%nat. rewrite Hl. cbn [Nat.eqb negb].
    rewrite Hu. change (Z.of_nat 8) with 8. rewrite Hal. cbn [Z.eqb negb].
    replace (pre ++ (r0 :: rh') ++ payload ++ concat recs)
      with ((pre ++ r0 :: rh') ++ payload ++ concat recs)
      by (rewrite <- app_assoc; reflexivity).
    rewrite (read_at (pre ++ r0 :: rh') payload (concat recs)).
    rewrite Z.eqb_refl. cbn [negb]. change (L2_BATCH =? L2_BATCH) with true.
    cbn iota. rewrite Hdec.
    specialize (IH ((pre ++ r0 :: rh') ++ payload) fuel
                   ltac:(cbn in Hfuel; lia)).
    rewrite <- (app_assoc (pre ++ r0 :: rh') payload (concat recs)) in IH.
    rewrite IH. reflexivity.
Qed.

(** *** The header *)

Definition header_base : list byte :=
  list_byte_of_string "MMEVLOG"
  ++ [x00; x01; x01; x00; x00; x00; x00; x00; x00].

Lemma pack_header_base :
  pack HEADER_BASE_FMT
       [VBytes MAGIC; VInt VERSION; VInt ENDIAN_LITTLE; VInt 0; VInt 0]
  = Ok header_base.
Proof. vm_compute. reflexivity. Qed.

(** A header written by [pack_header] is 64 bytes long, and
    [read_header] accepts it and leaves the file right after it. *)
Lemma pack_header_read eid sid qh h :
  pack_header 0 eid sid qh = Ok h ->
  length h = 64%nat /\
  forall rest,
  exists hdr,
    read_header (open_rb (h ++ rest))
    = Ok (hdr, {| content := h ++ rest; pos := 64 |}).
Proof.
  unfold pack_header.
  destruct (negb (length (default (replicate 32 x00) qh) =? 32)%nat);
    [discriminate |].
  destruct ((eid <? 0) || (2 ^ 64 - 1 <? eid)); [discriminate |].
  destruct ((sid <? 0) || (2 ^ 64 - 1 <? sid)); [discriminate |].
  rewrite pack_header_base. unbind.
  destruct (pack HEADER_V1_EXTRA_FMT _) as [extra |] eqn:Hextra;
    [| discriminate].
  unbind. intros Heq.
  assert (Hh : h = header_base ++ extra)
    by (injection Heq; intros <-; reflexivity).
  subst h. clear Heq.
  destruct (pack_spec _ _ _ Hextra) as [Hle _].
  change (calcsize HEADER_V1_EXTRA_FMT) with 48%nat in Hle.
  split; [rewrite length_app, Hle; reflexivity |].
  intros rest. unfold read_header, open_rb.
  change (Z.of_nat HEADER_BASE_SIZE) with (Z.of_nat (length header_base)).
  rewrite <- app_assoc.
  pose proof (read_at [] header_base (extra ++ rest)) as Hr.
  cbn [app length] in Hr. change (Z.of_nat 0) with 0 in Hr.
  cbn [app]. rewrite Hr. clear Hr.
  change (unpack HEADER_BASE_FMT header_base)
    with (Ok [VBytes MAGIC; VInt 1; VInt 1; VInt 0; VInt 0]).
  cbn -[read HEADER_V1_EXTRA_FMT unpack Z.of_nat header_base].
  change (Z.of_nat HEADER_V1_EXTRA_SIZE) with 48.
  replace 48 with (Z.of_nat (length extra)) by (rewrite Hle; reflexivity).
  change (Z.of_nat 16) with (Z.of_nat (length header_base)).
  rewrite (read_at header_base extra rest).
  change HEADER_V1_EXTRA_SIZE with 48%nat. rewrite Hle.
  cbn [Nat.eqb negb]. rewrite (unpack_pack _ _ _ Hextra).
  cbn [canon_all canon HEADER_V1_EXTRA_FMT]. unbind.
  eexists. f_equal. f_equal. f_equal.
  rewrite length_app, Hle. reflexivity.
Qed.


(** *** Writing a log *)

(** What the writer accepts: the checks of [write_l2_batch], and a
    payload that the record header can describe. *)
Definition batch_ok (b : L2Batch) : Prop :=
  batch_checks b /\ payload_fits b.

(** The index entries of the records [recs] of the batches [bs], the
    first of which starts at offset [start]. *)
Fixpoint entries_from (start : nat) (recs : list (list byte))
         (bs : list L2Batch) : list index.IndexEntry :=
  match recs, bs with
  | rec :: recs', b :: bs' =>
    {| index.ts_recv_ns := evlog_types.ts_recv_ns b;
       index.offset := Z.of_nat start |}
      :: entries_from (start + length rec) recs' bs'
  | _, _ => []
  end.

Lemma compile_batches_ok bs :
  Forall batch_ok bs ->
  forall w file entries count,
    writer._file w = Some file ->
    exists recs,
      compile_batches w entries count bs
      = Ok (writer.set_file w (Some (file ++ concat recs)),
            entries ++ entries_from (length file) recs bs,
            count + Z.of_nat (length bs)) /\
      Forall2 is_record recs bs.
Proof.
  induction 1 as [| b bs [Hb Hfit] _ IH]; intros w file entries count Hfile.
  - exists []. cbn. rewrite !app_nil_r, Z.add_0_r.
    split; [| constructor]. f_equal. f_equal. destruct w; cbn in *.
    subst. reflexivity.
  - cbn [compile_batches]. unfold tell. rewrite Hfile. unbind.
    destruct (write_l2_batch_cases w b file Hfile)
      as [(_ & _ & rec & Hw & Hrec & Hlen)
         | [(_ & Hno & _) | (Hno & _)]]; [| contradiction ..].
    rewrite Hw. unbind.
    destruct (IH (writer.set_file w (Some (file ++ rec))) (file ++ rec)
                 (entries ++ [ {| index.ts_recv_ns := evlog_types.ts_recv_ns b;
                                  index.offset := Z.of_nat (length file) |} ])
                 (count + 1) eq_refl)
      as (recs & Hc & Hrecs).
    rewrite Hc. exists (rec :: recs). split; [| constructor; assumption].
    cbn [concat entries_from length writer.set_file writer._exchange_id
                writer._symbol_id writer._quantizer_hash].
    rewrite <- !app_assoc, length_app. cbn [app].
    f_equal. f_equal. lia.
Qed.

(** C2, the single record. *)
Lemma write_then_decode (w : EvlogWriter) (b : L2Batch) file :
  writer._file w = Some file -> batch_ok b ->
  exists rec,
    write_l2_batch w b = Ok (writer.set_file w (Some (file ++ rec))) /\
    is_record rec b.
Proof.
  intros Hfile [Hb Hfit].
  destruct (write_l2_batch_cases w b file Hfile)
    as [(_ & _ & rec & Hw & Hrec & _) | [(_ & Hno & _) | (Hno & _)]];
    [eauto | contradiction ..].
Qed.

Lemma length_concat_records recs bs :
  Forall2 is_record recs bs -> (length bs <= length (concat recs))%nat.
Proof.
  induction 1 as [| rec b recs bs Hrec _ IH]; [reflexivity |].
  cbn [concat length]. rewrite length_app.
  apply is_record_length in Hrec. lia.
Qed.

(** The reader's loop on a whole log, from right after the header. *)
Lemma iter_l2_batches_records h recs bs (r : reader.EvlogReader) :
  Forall2 is_record recs bs ->
  reader._file r = Some {| content := h ++ concat recs;
                           pos := Z.of_nat (length h) |} ->
  exists r', reader.iter_l2_batches r = Ok (bs, None, r').
Proof.
  intros Hrecs Hfile. unfold reader.iter_l2_batches. rewrite Hfile.
  cbn [content].
  rewrite (iter_loop_records recs bs Hrecs h).
  - eauto.
  - pose proof (length_concat_records recs bs Hrecs).
    rewrite length_app. lia.
Qed.

(** C2, as the code has it.  A batch the writer accepts is a batch that
    passes the checks of [write_l2_batch] (64-bit non-negative
    timestamps, at most [2^32 - 1] updates, each with a positive 64-bit
    price and a non-negative 64-bit amount) and whose payload of
    [24 + 24 * update_count] bytes fits the 32-bit length field of the
    record header.  Writing such a batch appends one record that the
    reader decodes to the same batch; and a log written from any
    sequence of such batches reads back, in file order, as exactly that
    sequence. *)
Theorem evlog_roundtrip (eid sid : Z) (qh : option (list byte))
        (w0 : EvlogWriter) (bs : list L2Batch) :
  writer.__enter__ (EvlogWriter_new eid sid qh) = Ok w0 ->
  Forall batch_ok bs ->
  (forall b w file,
      b ∈ bs -> writer._file w = Some file ->
      exists rec,
        write_l2_batch w b = Ok (writer.set_file w (Some (file ++ rec))) /\
        is_record rec b) /\
  exists w entries file r0 r r',
    compile_batches w0 [] 0 bs = Ok (w, entries, Z.of_nat (length bs)) /\
    writer._file w = Some file /\
    reader.EvlogReader_new None = Ok r0 /\
    reader.__enter__ r0 file = Ok r /\
    reader.iter_l2_batches r = Ok (bs, None, r').
Proof.
  intros Henter Hbs. split.
  { intros b w file Hin Hfile. apply write_then_decode; [assumption |].
    rewrite Forall_forall in Hbs. apply Hbs. exact Hin. }
  unfold writer.__enter__ in Henter.
  cbn [writer._exchange_id writer._symbol_id writer._quantizer_hash
       EvlogWriter_new] in Henter.
  destruct (pack_header 0 eid sid qh) as [h |] eqn:Hh; [| discriminate].
  cbn in Henter. injection Henter as <-.
  destruct (pack_header_read _ _ _ _ Hh) as [Hlen Hread].
  destruct (compile_batches_ok bs Hbs
              (writer.set_file (EvlogWriter_new eid sid qh) (Some h))
              h [] 0 eq_refl) as (recs & Hc & Hrecs).
  destruct (Hread (concat recs)) as [hdr Hhdr].
  eexists _, _, (h ++ concat recs), _, _.
  assert (Hiter : exists r',
    reader.iter_l2_batches
      {| reader._file := Some {| content := h ++ concat recs; pos := 64 |};
         reader._header := Some hdr; reader._index := None;
         reader._index_ts := None |} = Ok (bs, None, r')).
  { eapply iter_l2_batches_records; [eassumption |].
    cbn. rewrite Hlen. reflexivity. }
  destruct Hiter as [r' Hiter]. exists r'.
  split; [exact Hc |]. split; [reflexivity |]. split; [reflexivity |].
  split; [| exact Hiter].
  unfold reader.__enter__. rewrite Hhdr. reflexivity.
Qed.


Definition test_batch : L2Batch :=
  {| evlog_types.ts_recv_ns := 1000; ts_exch_ns := 900; resets_book := true;
     updates := [ {| evlog_types.side := BID; price_ticks := 10;
                     amount_lots := 1; is_snapshot := true |};
                  {| evlog_types.side := ASK; price_ticks := 11;
                     amount_lots := 2; is_snapshot := true |} ] |}.

Definition open_writer : EvlogWriter :=
  match writer.__enter__ (EvlogWriter_new 0 0 None) with
  | Ok w => w
  | Raise _ => EvlogWriter_new 0 0 None
  end.

Lemma open_writer_eq :
  writer.__enter__ (EvlogWriter_new 0 0 None) = Ok open_writer.
Proof. vm_compute. reflexivity. Qed.

(** [test_evlog_roundtrip], run. *)
Example evlog_roundtrip_test :
  exists w file r r',
    write_l2_batch open_writer test_batch = Ok w /\
    writer._file w = Some file /\
    reader.__enter__ {| reader._file := None; reader._header := None;
                        reader._index := None; reader._index_ts := None |}
                     file = Ok r /\
    reader.iter_l2_batches r = Ok ([test_batch], None, r').
Proof.
  eexists _, _, _, _.
  split; [vm_compute; reflexivity |].
  split; [reflexivity |].
  split; [vm_compute; reflexivity |].
  vm_compute. reflexivity.
Qed.

Lemma test_batch_ok : batch_ok test_batch.
Proof.
  unfold batch_ok, batch_checks, payload_fits, update_ok, int64. cbn.
  repeat split; try lia.
  repeat constructor; cbn; lia.
Qed.

Lemma evlog_roundtrip_witness :
  exists w entries file r0 r r',
    compile_batches open_writer [] 0 [test_batch] = Ok (w, entries, 1) /\
    writer._file w = Some file /\
    reader.EvlogReader_new None = Ok r0 /\
    reader.__enter__ r0 file = Ok r /\
    reader.iter_l2_batches r = Ok ([test_batch], None, r').
Proof.
  apply (evlog_roundtrip 0 0 None open_writer [test_batch] open_writer_eq).
  constructor; [exact test_batch_ok | constructor].
Defined.

(** A batch that passes every check of [write_l2_batch] and is not
    written: with 178,956,970 updates the payload is 4,294,967,304
    bytes long, one more multiple of 8 than the 32-bit length field of
    the record header can hold, and packing the record header raises
    [struct.error]. *)
Definition one_update : L2Update :=
  {| evlog_types.side := BID; price_ticks := 1; amount_lots := 0;
     is_snapshot := false |}.

Definition huge_batch : L2Batch :=
  {| evlog_types.ts_recv_ns := 0; ts_exch_ns := 0; resets_book := false;
     updates := replicate (Z.to_nat 178956970) one_update |}.

Lemma evlog_roundtrip_counterexample :
  batch_checks huge_batch /\
  write_l2_batch open_writer huge_batch = Raise StructError.
Proof.
  assert (Hlen : Z.of_nat (length (updates huge_batch)) = 178956970).
  { unfold huge_batch. cbn [updates].
    rewrite length_replicate. apply Z2Nat.id. lia. }
  assert (Hchecks : batch_checks huge_batch).
  { unfold batch_checks. rewrite Hlen.
    unfold huge_batch, int64.
    cbn [evlog_types.ts_recv_ns ts_exch_ns updates].
    repeat split; try lia.
    apply Forall_replicate. unfold update_ok, one_update, int64. cbn. lia. }
  split; [exact Hchecks |].
  assert (Hfile : exists file, writer._file open_writer = Some file)
    by (eexists; vm_compute; reflexivity).
  destruct Hfile as [file Hfile].
  destruct (write_l2_batch_cases open_writer huge_batch file Hfile)
    as [(_ & Hfit & _) | [(_ & _ & Hw) | (Hno & _)]];
    [| exact Hw | contradiction].
  exfalso. unfold payload_fits in Hfit. rewrite Hlen in Hfit. lia.
Qed.


(** *** Seeking by time *)

(** [k] is the index of the first element of [l] that is at least [x],
    or the length of [l] when there is none. *)
Definition first_at_least (l : list Z) (x : Z) (k : nat) : Prop :=
  (k <= length l)%nat /\
  (forall j v, (j < k)%nat -> l !! j = Some v -> v < x) /\
  (forall j v, (k <= j)%nat -> l !! j = Some v -> x <= v).

(** [seek_time] on any reader with an open file and a loaded index whose
    timestamps do not decrease. *)
Lemma seek_time_bisect (r : reader.EvlogReader) f idx target :
  reader._file r = Some f ->
  reader._index r = Some idx ->
  reader._index_ts r = Some (map index.ts_recv_ns idx) ->
  StronglySorted Z.le (map index.ts_recv_ns idx) ->
  let k := bisect_left (map index.ts_recv_ns idx) target in
  first_at_least (map index.ts_recv_ns idx) target k /\
  reader.seek_time r target
  = Ok (reader.set_file
          r (Some (match idx !! k with
                   | Some e => seek f (index.offset e)
                   | None => seek_end f
                   end))).
Proof.
  intros Hf Hi Hts Hs k.
  split; [apply bisect_left_spec; assumption |].
  unfold reader.seek_time. rewrite Hf, Hi, Hts. fold k.
  destruct (Nat.leb_spec (length idx) k) as [Hge | Hlt].
  - rewrite (lookup_ge_None_2 idx k) by lia. reflexivity.
  - destruct (lookup_lt_is_Some_2 idx k Hlt) as [e ->]. reflexivity.
Qed.

Lemma entries_from_ts start recs bs :
  Forall2 is_record recs bs ->
  map index.ts_recv_ns (entries_from start recs bs)
  = map evlog_types.ts_recv_ns bs.
Proof.
  intros H. revert start.
  induction H as [| rec b recs bs _ _ IH]; intros start; [reflexivity |].
  cbn. f_equal. apply IH.
Qed.

Lemma entries_from_offset recs bs :
  Forall2 is_record recs bs ->
  forall start k e,
    entries_from start recs bs !! k = Some e ->
    index.offset e = Z.of_nat (start + length (concat (take k recs))).
Proof.
  induction 1 as [| rec b recs bs _ _ IH]; intros start k e He.
  - cbn in He. rewrite lookup_nil in He. discriminate.
  - destruct k as [| k]; cbn in He.
    + injection He as <-. cbn. f_equal. lia.
    + rewrite (IH _ _ _ He). cbn [take concat].
      rewrite length_app. f_equal. lia.
Qed.

Lemma entries_from_int64 recs bs :
  Forall2 is_record recs bs -> Forall batch_ok bs ->
  forall start,
    Z.of_nat (start + length (concat recs)) < 2 ^ 63 ->
    Forall entry_int64 (entries_from start recs bs).
Proof.
  induction 1 as [| rec b recs bs _ _ IH]; intros Hbs start Hlt;
    [constructor |].
  apply Forall_cons in Hbs as [[(Hts & _) _] Hbs].
  cbn [concat length entries_from] in *. rewrite length_app in Hlt.
  constructor.
  - split; [exact Hts |]. cbn. unfold int64. lia.
  - apply IH; [assumption |]. lia.
Qed.

Lemma entries_from_index_ok recs bs :
  Forall2 is_record recs bs -> Forall batch_ok bs ->
  StronglySorted Z.le (map evlog_types.ts_recv_ns bs) ->
  forall start prev,
    match prev with
    | Some p =>
      Forall (fun t => index.ts_recv_ns p <= t)
             (map evlog_types.ts_recv_ns bs)
      /\ index.offset p < Z.of_nat start
    | None => True
    end ->
    index_ok prev (entries_from start recs bs).
Proof.
  induction 1 as [| rec b recs bs Hrec _ IH]; intros Hbs Hs start prev Hp;
    [exact I |].
  apply Forall_cons in Hbs as [[(_ & _ & Hts & _) _] Hbs].
  cbn [map] in Hs. apply StronglySorted_cons in Hs as [Hall Hs].
  cbn [entries_from index_ok index.ts_recv_ns index.offset].
  split; [exact Hts |]. split; [lia |]. split.
  - destruct prev as [p |]; [| exact I]. destruct Hp as [Hp1 Hp2].
    cbn [map] in Hp1. apply Forall_cons in Hp1 as [Hp1 _]. lia.
  - apply IH; [assumption .. |]. cbn. split; [exact Hall |].
    apply is_record_length in Hrec. lia.
Qed.

(** C7. For a log and an index written by the compile loop from batches
    the writer accepts, in non-decreasing [ts_recv_ns] order (the log
    shorter than [2^63] bytes): the index file loads, [seek_time(ts)]
    puts the file at the offset of the first index entry whose
    [ts_recv_ns] is at least [ts], or at the end of the file when there
    is none, and the iteration that follows yields exactly the batches
    from that entry on (none in the second case), without an error. *)
Theorem seek_time_first_entry (eid sid : Z) (qh : option (list byte))
        (w0 w : EvlogWriter) (bs : list L2Batch)
        (entries : list index.IndexEntry) (n : Z) (file : list byte)
        (target : Z) :
  writer.__enter__ (EvlogWriter_new eid sid qh) = Ok w0 ->
  Forall batch_ok bs ->
  StronglySorted Z.le (map evlog_types.ts_recv_ns bs) ->
  compile_batches w0 [] 0 bs = Ok (w, entries, n) ->
  writer._file w = Some file ->
  Z.of_nat (length file) < 2 ^ 63 ->
  let k := bisect_left (map index.ts_recv_ns entries) target in
  first_at_least (map evlog_types.ts_recv_ns bs) target k /\
  exists r0 r1 r2 r3 f,
    reader.EvlogReader_new (Some (index.write_index entries).1) = Ok r0 /\
    reader._index r0 = Some entries /\
    reader.__enter__ r0 file = Ok r1 /\
    reader._file r1 = Some f /\
    reader.seek_time r1 target = Ok r2 /\
    reader._file r2 = Some (match entries !! k with
                            | Some e => seek f (index.offset e)
                            | None => seek_end f
                            end) /\
    reader.iter_l2_batches r2 = Ok (drop k bs, None, r3).
Proof.
  intros Henter Hbs Hsorted Hcompile Hfile Hsize k.
  unfold writer.__enter__ in Henter.
  cbn [writer._exchange_id writer._symbol_id writer._quantizer_hash
       EvlogWriter_new] in Henter.
  destruct (pack_header 0 eid sid qh) as [h |] eqn:Hh; [| discriminate].
  cbn in Henter. injection Henter as <-.
  destruct (pack_header_read _ _ _ _ Hh) as [Hlen Hread].
  destruct (compile_batches_ok bs Hbs
              (writer.set_file (EvlogWriter_new eid sid qh) (Some h))
              h [] 0 eq_refl) as (recs & Hc & Hrecs).
  rewrite Hc in Hcompile. injection Hcompile as <- <- <-.
  cbn in Hfile. injection Hfile as <-.
  cbn [app] in k |- *.
  set (entries := entries_from (length h) recs bs) in *.
  assert (Hts : map index.ts_recv_ns entries
                = map evlog_types.ts_recv_ns bs)
    by (apply entries_from_ts; assumption).
  assert (H64 : Forall entry_int64 entries).
  { apply entries_from_int64; [assumption .. |].
    rewrite length_app in Hsize. lia. }
  assert (Hvalid : index_valid entries).
  { apply index_ok_None. apply entries_from_index_ok; auto. }
  destruct (index_write_read entries H64) as [Hwr _].
  destruct (Hwr Hvalid) as [Hwrite Hreadidx].
  split; [rewrite <- Hts; apply bisect_left_spec; rewrite Hts; assumption |].
  destruct (Hread (concat recs)) as [hdr Hhdr].
  set (f := {| content := h ++ concat recs; pos := 64 |}).
  set (r0 := {| reader._file := None; reader._header := None;
                reader._index := Some entries;
                reader._index_ts := Some (map index.ts_recv_ns entries) |}).
  set (r1 := {| reader._file := Some f; reader._header := Some hdr;
                reader._index := Some entries;
                reader._index_ts := Some (map index.ts_recv_ns entries) |}).
  destruct (seek_time_bisect r1 f entries target eq_refl eq_refl eq_refl)
    as [_ Hseek]; [rewrite Hts; assumption |].
  fold k in Hseek.
  set (f2 := match entries !! k with
             | Some e => seek f (index.offset e)
             | None => seek_end f
             end) in *.
  assert (Hf2 : f2 = {| content := (h ++ concat (take k recs))
                                     ++ concat (drop k recs);
                        pos := Z.of_nat (length (h ++ concat (take k recs)))
                     |}).
  { assert (Hcontent : (h ++ concat (take k recs)) ++ concat (drop k recs)
                       = h ++ concat recs).
    { rewrite <- app_assoc, <- concat_app, take_drop. reflexivity. }
    subst f2. destruct (entries !! k) as [e |] eqn:He.
    - rewrite (entries_from_offset recs bs Hrecs _ _ _ He).
      unfold seek, f. cbn [content]. rewrite Hcontent, length_app.
      reflexivity.
    - apply lookup_ge_None_1 in He.
      assert (length entries = length recs).
      { rewrite <- (length_map index.ts_recv_ns), Hts, length_map.
        symmetry. eapply Forall2_length. eassumption. }
      unfold seek_end, f. cbn [content]. rewrite Hcontent.
      rewrite (take_ge recs k) by lia. reflexivity. }
  assert (Hiter : exists r3,
    reader.iter_l2_batches (reader.set_file r1 (Some f2))
    = Ok (drop k bs, None, r3)).
  { eapply (iter_l2_batches_records (h ++ concat (take k recs))
                                    (drop k recs) (drop k bs)).
    - apply Forall2_drop. assumption.
    - cbn. rewrite Hf2. reflexivity. }
  destruct Hiter as [r3 Hiter].
  exists r0, r1, (reader.set_file r1 (Some f2)), r3, f.
  split.
  { rewrite Hwrite. cbn [fst]. unfold reader.EvlogReader_new.
    rewrite Hreadidx. reflexivity. }
  split; [reflexivity |]. split.
  { unfold reader.__enter__. rewrite Hhdr. reflexivity. }
  split; [reflexivity |]. split; [exact Hseek |].
  split; [reflexivity | exact Hiter].
Qed.


(** [test_evlog_index_seek]: batches at 1000 and 2000; after
    [seek_time(2000)] only the second one is read. *)
Definition second_batch : L2Batch :=
  {| evlog_types.ts_recv_ns := 2000; ts_exch_ns := 1900;
     resets_book := false;
     updates := [ {| evlog_types.side := ASK; price_ticks := 11;
                     amount_lots := 2; is_snapshot := false |} ] |}.

Definition two_batches : list L2Batch := [test_batch; second_batch].

Definition compiled :=
  match compile_batches open_writer [] 0 two_batches with
  | Ok r => r
  | Raise _ => (open_writer, [], 0)
  end.

Lemma compiled_eq :
  compile_batches open_writer [] 0 two_batches = Ok compiled.
Proof. vm_compute. reflexivity. Qed.

Example index_seek_test :
  exists r0 r1 r2 r3,
    reader.EvlogReader_new (Some (index.write_index compiled.1.2).1) = Ok r0
    /\ reader.__enter__ r0 (default [] (writer._file compiled.1.1)) = Ok r1
    /\ reader.seek_time r1 2000 = Ok r2
    /\ reader.iter_l2_batches r2 = Ok ([second_batch], None, r3).
Proof.
  eexists _, _, _, _.
  split; [vm_compute; reflexivity |].
  split; [vm_compute; reflexivity |].
  split; [vm_compute; reflexivity |].
  vm_compute. reflexivity.
Qed.

Lemma seek_time_first_entry_witness :
  exists r2 r3,
    reader.iter_l2_batches r2 = Ok ([second_batch], None, r3).
Proof.
  assert (Hok : Forall batch_ok two_batches).
  { constructor; [exact test_batch_ok |].
    constructor; [| constructor].
    unfold batch_ok, batch_checks, payload_fits, update_ok, int64. cbn.
    repeat split; try lia. repeat constructor; cbn; lia. }
  assert (Hs : StronglySorted Z.le (map evlog_types.ts_recv_ns two_batches)).
  { repeat constructor; cbn; lia. }
  destruct (seek_time_first_entry
              0 0 None open_writer compiled.1.1 two_batches compiled.1.2
              compiled.2 (default [] (writer._file compiled.1.1)) 2000
              open_writer_eq Hok Hs)
    as (_ & r0 & r1 & r2 & r3 & f & _ & _ & _ & _ & _ & _ & Hiter).
  - rewrite compiled_eq. destruct compiled as [[? ?] ?]. reflexivity.
  - vm_compute. reflexivity.
  - vm_compute. reflexivity.
  - exists r2, r3. exact Hiter.
Defined.

End evlog_proofs.

(** ** [ingest/l2_batcher.py]: resets and quarantine *)

Module l2_batcher_proofs.
Import l2_batcher tardis_csv.

(** The snapshot flag of a batch: the flag of its updates. *)
Definition snap_flag (b : L2Batch) : bool :=
  match evlog_types.updates b with
  | u :: _ => evlog_types.is_snapshot u
  | [] => false
  end.

Definition uniform (s : bool) (us : list L2Update) : Prop :=
  Forall (fun u => evlog_types.is_snapshot u = s) us.

(** Along the yielded batches: each batch has updates, all with one
    flag, and resets the book exactly when it is a snapshot batch and the
    batch before it ([prev] for the first one) was not. *)
Fixpoint chain (prev : bool) (bs : list L2Batch) : Prop :=
  match bs with
  | [] => True
  | b :: rest =>
    evlog_types.updates b <> [] /\
    uniform (snap_flag b) (evlog_types.updates b) /\
    resets_book b = negb prev && snap_flag b /\
    chain (snap_flag b) rest
  end.

Fixpoint final_flag (prev : bool) (bs : list L2Batch) : bool :=
  match bs with
  | [] => prev
  | b :: rest => final_flag (snap_flag b) rest
  end.

Lemma chain_snoc bs : forall prev b,
  chain prev bs ->
  evlog_types.updates b <> [] ->
  uniform (snap_flag b) (evlog_types.updates b) ->
  resets_book b = negb (final_flag prev bs) && snap_flag b ->
  chain prev (bs ++ [b]) /\ final_flag prev (bs ++ [b]) = snap_flag b.
Proof.
  induction bs as [| b0 bs IH]; intros prev b Hc Hne Hu Hr.
  - cbn in *. repeat split; assumption.
  - cbn in Hc, Hr. destruct Hc as (H1 & H2 & H3 & H4).
    destruct (IH _ b H4 Hne Hu Hr) as [Hc' Hf'].
    cbn. repeat split; assumption.
Qed.

Definition yielded_ok (g : Gen) : Prop :=
  chain false (yielded g) /\
  prev_is_snapshot (locals g) = final_flag false (yielded g).

(** The updates collected for the current batch carry the batch's flag,
    and the exchange timestamp of the last one is known. *)
Definition pending_ok (l : Locals) : Prop :=
  updates l = [] \/
  exists s exch,
    batch_is_snapshot l = Some s /\ batch_ts_exch_us l = Some exch /\
    uniform s (updates l).

(** A batch is open: its timestamp and flag are set, and its
    [resets_book] was computed from the flag of the last yielded
    batch. *)
Definition started (l : Locals) : Prop :=
  exists ts s,
    batch_local_ts l = Some ts /\ batch_is_snapshot l = Some s /\
    batch_resets_book l = Some (negb (prev_is_snapshot l) && s).

Definition fresh (l : Locals) : Prop :=
  prev_local_ts l = None /\ skip_batch l = false /\
  batch_local_ts l = None /\ updates l = [].

(** Between two rows. *)
Definition row_inv (g : Gen) : Prop :=
  yielded_ok g /\ pending_ok (locals g) /\
  ((expected_exchange (locals g) = None /\ fresh (locals g))
   \/ started (locals g)).

(** After the exchange and ordering checks fell through. *)
Definition checked_inv (g : Gen) : Prop :=
  yielded_ok g /\ pending_ok (locals g) /\
  (fresh (locals g) \/ started (locals g)).

(** Before the batch boundary. *)
Definition boundary_inv (g : Gen) : Prop :=
  yielded_ok g /\ pending_ok (locals g) /\
  ((batch_local_ts (locals g) = None /\ updates (locals g) = [])
   \/ started (locals g)).

(** Inside a batch. *)
Definition batch_inv (g : Gen) : Prop :=
  yielded_ok g /\ pending_ok (locals g) /\ started (locals g).

(** What a stage must leave behind, by the way it ends. *)
Definition flow_inv (P : Gen -> Prop) (f : Flow) : Prop :=
  match f with
  | Fall g => P g
  | Continue g => row_inv g
  | Raised g _ => chain false (yielded g)
  end.

Lemma flow_inv_and_then (P Q : Gen -> Prop) f k :
  flow_inv P f -> (forall g, P g -> flow_inv Q (k g)) ->
  flow_inv Q (and_then f k).
Proof. destruct f; cbn; auto. Qed.

(** [_handle_error] never returns HALT: it re-raises then. *)
Lemma _handle_error_cases exc policy action sink src line payload :
  let '(s, r) := _handle_error exc policy action sink src line payload in
  s = record_quarantine policy sink
        {| reason := str_exn exc; quarantine.source := src;
           quarantine.line_number := line; payload := payload |} /\
  (r = Raise exc \/
   policy = QUARANTINE /\ action = SKIP_ROW /\ r = Ok SKIP_ROW \/
   policy = QUARANTINE /\ action = SKIP_BATCH /\ r = Ok SKIP_BATCH).
Proof.
  unfold _handle_error. destruct policy, action; cbn; auto 10.
Qed.

Lemma handle_cases cfg row g exc :
  let '(g', r) := handle cfg row g exc in
  locals g' = locals g /\ yielded g' = yielded g /\
  sink g' = record_quarantine (failure_policy cfg) (sink g)
              {| reason := str_exn exc;
                 quarantine.source := row_source cfg row;
                 quarantine.line_number := tardis_csv.line_number row;
                 payload := Some row |} /\
  (r = Raise exc \/
   failure_policy cfg = QUARANTINE /\ quarantine_action cfg = SKIP_ROW
   /\ r = Ok SKIP_ROW \/
   failure_policy cfg = QUARANTINE /\ quarantine_action cfg = SKIP_BATCH
   /\ r = Ok SKIP_BATCH).
Proof.
  unfold handle.
  pose proof (_handle_error_cases
                exc (failure_policy cfg) (quarantine_action cfg) (sink g)
                (row_source cfg row) (tardis_csv.line_number row)
                (Some row)) as H.
  destruct (_handle_error _ _ _ _ _ _ _) as [s r].
  destruct H as [-> Hr]. cbn. auto.
Qed.


Ltac simp_locals :=
  unfold with_locals, set_prev_local_ts, set_prev_is_snapshot, set_expected,
    set_last_source, set_batch in *;
  cbn [locals sink yielded prev_local_ts prev_is_snapshot expected_exchange
       expected_symbol last_source batch_local_ts batch_is_snapshot
       batch_resets_book batch_ts_exch_us updates skip_batch] in *.

Ltac unfold_invs :=
  unfold row_inv, checked_inv, boundary_inv, batch_inv, yielded_ok,
    pending_ok, started, fresh in *.

(** Case analysis on a call of [handle]: it raised, or returned SKIP_ROW
    or SKIP_BATCH; the generator it returns differs in the sink only. *)
Ltac handle_cases g' r Hl Hy :=
  match goal with
  | |- context [handle ?cfg ?row ?g ?exc] =>
    let H := fresh "H" in
    let Hs := fresh "Hs" in
    let Hr := fresh "Hr" in
    pose proof (handle_cases cfg row g exc) as H;
    destruct (handle cfg row g exc) as [g' r];
    destruct H as (Hl & Hy & Hs & Hr);
    destruct Hr as [-> | [(_ & _ & ->) | (_ & _ & ->)]]
  end.

Lemma check_exchange_inv cfg row g :
  row_inv g -> flow_inv checked_inv (check_exchange cfg row g).
Proof.
  intros (Hy & Hp & Hs). unfold check_exchange. simp_locals.
  destruct (expected_exchange (locals g)) as [ee |] eqn:Hee.
  - destruct Hs as [[Hnone _] | Hs]; [discriminate |].
    destruct (negb (exchange row =? ee)%string
              || negb (bool_decide (Some (symbol row)
                                    = expected_symbol (locals g)))).
    + handle_cases g' r Hl Hyl; cbn [flow_inv]; simp_locals.
      * rewrite Hyl. apply Hy.
      * unfold_invs. simp_locals. rewrite Hyl, Hl. auto.
      * unfold_invs. simp_locals. rewrite Hyl, Hl.
        split; [exact Hy |]. split; [left; reflexivity |]. right.
        destruct Hs as (ts & s & -> & H2 & H3). eauto.
    + cbn [flow_inv]. unfold_invs. simp_locals. auto.
  - cbn [flow_inv]. unfold_invs. simp_locals.
    destruct Hs as [[_ Hf] | Hs]; auto.
Qed.

Lemma check_ordering_inv cfg row g :
  checked_inv g -> flow_inv checked_inv (check_ordering cfg row g).
Proof.
  intros (Hy & Hp & Hs). unfold check_ordering.
  destruct (prev_local_ts (locals g)) as [prev |] eqn:Hprev;
    [| cbn; unfold checked_inv; auto].
  destruct (local_timestamp_us row <? prev);
    [| cbn; unfold checked_inv; auto].
  assert (Hst : started (locals g)).
  { destruct Hs as [(Hn & _) | Hs]; [congruence | exact Hs]. }
  handle_cases g' r Hl Hyl; cbn [flow_inv].
  - rewrite Hyl. apply Hy.
  - unfold_invs. rewrite Hyl, Hl. auto.
  - unfold_invs. rewrite Hyl, Hl. auto.
Qed.

Lemma check_skip_batch_inv row g :
  checked_inv g -> flow_inv boundary_inv (check_skip_batch row g).
Proof.
  intros (Hy & Hp & Hs). unfold check_skip_batch.
  destruct (skip_batch (locals g)) eqn:Hskip.
  - assert (Hst : started (locals g)).
    { destruct Hs as [(_ & Hn & _) | Hs]; [congruence | exact Hs]. }
    case_bool_decide; cbn [flow_inv]; unfold_invs; simp_locals; auto.
  - cbn [flow_inv]. unfold_invs.
    destruct Hs as [(_ & _ & H1 & H2) | Hs]; auto.
Qed.

Lemma flush_inv cfg row g ts :
  boundary_inv g -> batch_local_ts (locals g) = Some ts ->
  flow_inv yielded_ok (flush cfg row g ts).
Proof.
  intros (Hy & Hp & Hs) Hts. unfold flush.
  destruct (updates (locals g)) as [| u us] eqn:Hu; [exact Hy |].
  destruct Hp as [Hnil | (s & exch & Hsnap & Hexch & Huni)];
    [congruence |].
  rewrite Hexch. cbn [flow_inv]. simp_locals.
  unfold uniform in Huni. rewrite Hu in Huni.
  destruct Hs as [[Hn _] | (ts' & s' & _ & Hs2 & Hs3)]; [congruence |].
  assert (s' = s) by congruence. subst s'.
  rewrite Hs2, Hs3. cbn [default from_option id].
  set (b := {| evlog_types.ts_recv_ns := ts * 1000;
               ts_exch_ns := exch * 1000;
               resets_book := negb (prev_is_snapshot (locals g)) && s;
               evlog_types.updates := u :: us |}).
  assert (Hflag : snap_flag b = s).
  { unfold snap_flag, b. cbn. pose proof Huni as Huni'.
    apply Forall_cons in Huni' as [H _]. exact H. }
  destruct Hy as [Hc Hprev].
  destruct (chain_snoc (yielded g) false b Hc) as [Hc' Hf'].
  - discriminate.
  - rewrite Hflag. exact Huni.
  - rewrite Hflag, <- Hprev. reflexivity.
  - unfold yielded_ok. simp_locals.
    split; [exact Hc' | rewrite Hf', Hflag; reflexivity].
Qed.

Lemma batch_boundary_inv cfg row g :
  boundary_inv g -> flow_inv batch_inv (batch_boundary cfg row g).
Proof.
  intros Hb. pose proof Hb as (Hy & Hp & Hs). unfold batch_boundary.
  destruct (batch_local_ts (locals g)) as [ts |] eqn:Hts.
  - destruct (negb (local_timestamp_us row =? ts)).
    + eapply flow_inv_and_then; [apply flush_inv; eassumption |].
      intros g' Hy'. cbn [flow_inv]. unfold_invs. simp_locals.
      split; [exact Hy' |]. split; [left; reflexivity | eauto].
    + cbn [flow_inv]. unfold batch_inv.
      destruct Hs as [[Hn _] | Hs]; [discriminate | auto].
  - cbn [flow_inv]. unfold_invs. simp_locals.
    destruct Hs as [[_ Hnil] | (ts & s & Hn & _)]; [| congruence].
    split; [exact Hy |]. split; [left; exact Hnil | eauto].
Qed.

Lemma after_error_inv row g r fall (P : Gen -> Prop) :
  batch_inv g -> r <> Ok HALT ->
  flow_inv P (after_error row g r fall).
Proof.
  intros (Hy & Hp & Hs) Hr. unfold after_error.
  destruct r as [[| |] | e]; cbn [flow_inv]; [congruence | | | apply Hy].
  - unfold_invs. simp_locals. auto.
  - unfold_invs. simp_locals.
    split; [exact Hy |]. split; [left; reflexivity |]. right.
    destruct Hs as (ts & s & -> & H2 & H3). eauto.
Qed.

(** Inside a batch whose flag is the flag of the row. *)
Definition row_batch_inv (row : L2Row) (g : Gen) : Prop :=
  batch_inv g /\
  batch_is_snapshot (locals g) = Some (tardis_csv.is_snapshot row).

Lemma check_snapshot_inv cfg row g :
  batch_inv g -> flow_inv (row_batch_inv row) (check_snapshot cfg row g).
Proof.
  intros Hb. pose proof Hb as (Hy & Hp & Hs). unfold check_snapshot.
  destruct (batch_is_snapshot (locals g)) as [bs |] eqn:Hbs.
  - destruct (Bool.eqb (tardis_csv.is_snapshot row) bs) eqn:Heq; cbn [negb].
    + apply Bool.eqb_prop in Heq. subst bs. cbn. split; assumption.
    + handle_cases g' r Hl Hyl;
        (apply after_error_inv;
         [unfold_invs; rewrite Hyl, Hl; auto | discriminate]).
  - destruct Hs as (ts & s & _ & H2 & _). congruence.
Qed.

Lemma quantize_and_append_inv cfg row g :
  row_batch_inv row g -> flow_inv row_inv (quantize_and_append cfg row g).
Proof.
  intros [Hb Hflag]. pose proof Hb as (Hy & Hp & Hs).
  unfold quantize_and_append.
  destruct (quantize_row cfg row) as [[p a] | e].
  - cbn [flow_inv]. unfold_invs. simp_locals.
    split; [exact Hy |]. split.
    + right. exists (tardis_csv.is_snapshot row), (timestamp_us row).
      split; [exact Hflag |]. split; [reflexivity |].
      apply Forall_app. split.
      * destruct Hp as [-> | (s & exch & H1 & _ & H3)]; [constructor |].
        assert (s = tardis_csv.is_snapshot row) by congruence. subst s.
        exact H3.
      * constructor; [reflexivity | constructor].
    + right. destruct Hs as (ts & s & -> & H2 & H3). eauto.
  - destruct e; try (cbn [flow_inv]; apply Hy).
    handle_cases g' r Hl Hyl;
      (apply after_error_inv;
       [unfold_invs; rewrite Hyl, Hl; auto | discriminate]).
Qed.

Lemma process_row_inv cfg row g :
  row_inv g -> flow_inv row_inv (process_row cfg row g).
Proof.
  intros H. unfold process_row.
  eapply flow_inv_and_then; [apply check_exchange_inv, H |].
  intros g1 H1.
  eapply flow_inv_and_then; [apply check_ordering_inv, H1 |].
  intros g2 H2.
  eapply flow_inv_and_then; [apply check_skip_batch_inv, H2 |].
  intros g3 H3.
  eapply flow_inv_and_then; [apply batch_boundary_inv, H3 |].
  intros g4 H4.
  eapply flow_inv_and_then; [apply check_snapshot_inv, H4 |].
  intros g5 H5. apply quantize_and_append_inv, H5.
Qed.

Lemma run_rows_inv cfg rows :
  forall g, row_inv g ->
  match run_rows cfg g rows with
  | (g', None) => row_inv g'
  | (g', Some _) => chain false (yielded g')
  end.
Proof.
  induction rows as [| row rows IH]; intros g Hg; [exact Hg |].
  cbn [run_rows]. pose proof (process_row_inv cfg row g Hg) as Hp.
  destruct (process_row cfg row g) as [g' | g' | g' e]; cbn in Hp;
    [apply IH, Hp | apply IH, Hp | exact Hp].
Qed.

Lemma finish_inv cfg g :
  row_inv g -> chain false (yielded (finish cfg g).1).
Proof.
  intros (Hy & Hp & Hs). unfold finish.
  destruct (batch_local_ts (locals g)) as [ts |] eqn:Hts; [| apply Hy].
  destruct (updates (locals g)) as [| u us] eqn:Hu; [apply Hy |].
  destruct Hp as [Hnil | (s & exch & Hsnap & Hexch & Huni)];
    [congruence |].
  rewrite Hexch. cbn [fst yielded].
  unfold uniform in Huni. rewrite Hu in Huni.
  destruct Hs as [[_ (_ & _ & Hn & _)] | (ts' & s' & _ & Hs2 & Hs3)];
    [congruence |].
  assert (s' = s) by congruence. subst s'.
  rewrite Hs3. cbn [default from_option id].
  destruct Hy as [Hc Hprev].
  assert (Hs : evlog_types.is_snapshot u = s).
  { pose proof Huni as Huni'. apply Forall_cons in Huni' as [H _]. exact H. }
  eapply chain_snoc; [exact Hc | cbn; discriminate | |].
  - unfold snap_flag. cbn. rewrite Hs. exact Huni.
  - unfold snap_flag. cbn. rewrite Hs, Hprev. reflexivity.
Qed.

Lemma initial_inv s : row_inv {| locals := initial; sink := s; yielded := [] |}.
Proof.
  unfold row_inv, yielded_ok, pending_ok, fresh. cbn. auto 10.
Qed.

Lemma iter_l2_batches_chain cfg s rows :
  chain false (yielded (iter_l2_batches cfg s rows).1).
Proof.
  unfold iter_l2_batches.
  pose proof (run_rows_inv cfg rows _ (initial_inv s)) as H.
  destruct (run_rows cfg _ rows) as [g [e |]]; [exact H |].
  apply finish_inv, H.
Qed.


Lemma chain_lookup bs :
  forall prev i b,
    chain prev bs -> bs !! i = Some b ->
    evlog_types.updates b <> [] /\
    uniform (snap_flag b) (evlog_types.updates b) /\
    resets_book b
    = negb (match i with
            | O => prev
            | S j => from_option snap_flag false (bs !! j)
            end) && snap_flag b.
Proof.
  induction bs as [| b0 bs IH]; intros prev i b Hc Hi.
  - rewrite lookup_nil in Hi. discriminate.
  - cbn in Hc. destruct Hc as (H1 & H2 & H3 & H4).
    destruct i as [| i]; cbn in Hi.
    + injection Hi as <-. auto.
    + destruct (IH _ i b H4 Hi) as (I1 & I2 & I3).
      split; [exact I1 |]. split; [exact I2 |].
      rewrite I3. destruct i as [| i]; reflexivity.
Qed.

(** C4. Whatever the rows, the policy and the sink, and whether the
    batcher ends normally or by an exception: every batch it yielded has
    updates, all with the same [is_snapshot] flag, and its [resets_book]
    is true if and only if it is a snapshot batch and the batch yielded
    before it was not one (there being none before the first).  So a
    first batch that is a snapshot resets the book, and a snapshot batch
    right after a snapshot batch does not. *)
Theorem resets_book_iff (cfg : Config) (snk : option ListQuarantineSink)
        (rows : list L2Row) (i : nat) (b : L2Batch) :
  let batches := yielded (iter_l2_batches cfg snk rows).1 in
  batches !! i = Some b ->
  let previous_is_snapshot :=
    match i with
    | O => false
    | S j => from_option snap_flag false (batches !! j)
    end in
  evlog_types.updates b <> [] /\
  uniform (snap_flag b) (evlog_types.updates b) /\
  (resets_book b = true <->
   snap_flag b = true /\ previous_is_snapshot = false).
Proof.
  intros batches Hi prev.
  destruct (chain_lookup batches false i b
                         (iter_l2_batches_chain cfg snk rows) Hi)
    as (H1 & H2 & H3).
  split; [exact H1 |]. split; [exact H2 |].
  fold prev in H3. rewrite H3.
  destruct prev, (snap_flag b); cbn; split; try tauto;
    try discriminate; intros [? ?]; discriminate.
Qed.

(** [test_reset_semantics]: a snapshot batch, a diff batch, a snapshot
    batch, under HARD_FAIL with increments 1. *)
Definition unit_quantizer : Quantizer :=
  {| price_increment := Finite false 1 0;
     amount_increment := Finite false 1 0 |}.

Definition mk_row (line local_ts exch_ts : Z) (snap : bool) (s : Side)
           (price amount : string) : L2Row :=
  {| exchange := "binance"; symbol := "BTCUSDT"; timestamp_us := exch_ts;
     local_timestamp_us := local_ts; tardis_csv.is_snapshot := snap;
     tardis_csv.side := s; tardis_csv.price := price;
     tardis_csv.amount := amount; tardis_csv.line_number := line;
     tardis_csv.source := "test.csv" |}.

Definition hard_fail : Config :=
  {| quantizer := unit_quantizer; failure_policy := HARD_FAIL;
     quarantine_action := HALT; source_arg := "" |}.

Definition reset_rows : list L2Row :=
  [ mk_row 2 1000 900 true BID "10" "1";
    mk_row 3 2000 901 false BID "10" "2";
    mk_row 4 3000 902 true BID "10" "3" ].

Example reset_semantics_test :
  from_strings "1" "1" = Ok unit_quantizer /\
  map resets_book (yielded (iter_l2_batches hard_fail None reset_rows).1)
  = [true; false; true].
Proof. split; vm_compute; reflexivity. Qed.

Lemma resets_book_iff_witness :
  exists b,
    yielded (iter_l2_batches hard_fail None reset_rows).1 !! 2%nat = Some b
    /\ resets_book b = true.
Proof.
  eexists. split; [vm_compute; reflexivity |].
  apply (resets_book_iff hard_fail None reset_rows 2).
  - vm_compute. reflexivity.
  - split; vm_compute; reflexivity.
Defined.


(** *** Quarantine with SKIP_ROW *)

Inductive Violation : Type :=
| MixedExchange | DecreasingTs | MixedSnapshot | QuantizationFailure.

Definition exchange_mismatch (l : Locals) (row : L2Row) : bool :=
  match expected_exchange l with
  | Some ee =>
    negb (exchange row =? ee)%string
    || negb (bool_decide (Some (symbol row) = expected_symbol l))
  | None => false
  end.

Definition ts_decreased (l : Locals) (row : L2Row) : bool :=
  match prev_local_ts l with
  | Some prev => local_timestamp_us row <? prev
  | None => false
  end.

(** The row belongs to the open batch and has another flag. *)
Definition snapshot_mixed (l : Locals) (row : L2Row) : bool :=
  bool_decide (batch_local_ts l = Some (local_timestamp_us row))
  && match batch_is_snapshot l with
     | Some s => negb (Bool.eqb (tardis_csv.is_snapshot row) s)
     | None => false
     end.

(** The invariant a row violates, the first one in the order the
    batcher checks them, with the exception the batcher builds for it:
    here for a row that passed the exchange and ordering checks. *)
Definition batch_violation (cfg : Config) (l : Locals) (row : L2Row)
  : option (Violation * Exn) :=
  if snapshot_mixed l row then
    Some (MixedSnapshot,
          SchemaError
            "mixed is_snapshot values within a local_timestamp batch")
  else
    match quantize_row cfg row with
    | Raise (QuantizationError m) =>
      Some (QuantizationFailure,
            QuantizationError
              (m +:+ " at line " +:+ str_of_Z (tardis_csv.line_number row)))
    | _ => None
    end.

Definition late_violation (cfg : Config) (l : Locals) (row : L2Row)
  : option (Violation * Exn) :=
  if ts_decreased l row then
    Some (DecreasingTs,
          OrderingError ("local_timestamp decreased: "
                           +:+ str_of_Z (local_timestamp_us row)
                           +:+ " < "
                           +:+ str_of_Z (default 0 (prev_local_ts l))))
  else batch_violation cfg l row.

Definition violation (cfg : Config) (l : Locals) (row : L2Row)
  : option (Violation * Exn) :=
  if exchange_mismatch l row then
    Some (MixedExchange,
          SchemaError ("mixed exchange/symbol in stream: "
                         +:+ exchange row +:+ "/" +:+ symbol row))
  else late_violation cfg l row.

(** What SKIP_ROW leaves in [prev_local_ts]. *)
Definition prev_local_ts_after (v : Violation) (l : Locals) (row : L2Row)
  : option Z :=
  match v with
  | DecreasingTs => prev_local_ts l
  | _ => Some (local_timestamp_us row)
  end.

(** Every update the batcher holds: those of the yielded batches, then
    those collected for the open batch. *)
Definition all_updates (g : Gen) : list L2Update :=
  concat (map evlog_types.updates (yielded g)) ++ updates (locals g).

Definition quarantine_record (cfg : Config) (row : L2Row) (exc : Exn)
  : QuarantineRecord :=
  {| reason := str_exn exc; quarantine.source := row_source cfg row;
     quarantine.line_number := tardis_csv.line_number row;
     payload := Some row |}.

Definition skip_row_config (cfg : Config) : Prop :=
  failure_policy cfg = QUARANTINE /\ quarantine_action cfg = SKIP_ROW.

Lemma handle_skip_row cfg row g exc :
  skip_row_config cfg ->
  handle cfg row g exc
  = ({| locals := locals g;
        sink := (fun s => s ++ [quarantine_record cfg row exc]) <$> sink g;
        yielded := yielded g |}, Ok SKIP_ROW).
Proof.
  intros [Hp Ha]. unfold handle, _handle_error, record_quarantine.
  rewrite Hp, Ha. cbn. destruct (sink g); reflexivity.
Qed.

(** With SKIP_ROW no batch is ever being skipped, and a generator that
    was given a sink keeps it. *)
Definition no_skip (g : Gen) : Prop :=
  skip_batch (locals g) = false /\ is_Some (sink g).

Definition flow_no_skip (f : Flow) : Prop :=
  match f with
  | Fall g | Continue g => no_skip g
  | Raised _ _ => True
  end.

Lemma process_row_no_skip cfg row g :
  skip_row_config cfg -> no_skip g -> flow_no_skip (process_row cfg row g).
Proof.
  intros Hcfg [Hg [s Hs]].
  unfold process_row, check_exchange, check_ordering, check_skip_batch,
    batch_boundary, flush, check_snapshot, quantize_and_append, after_error.
  simp_locals.
  repeat first
         [ rewrite (handle_skip_row _ _ _ _ Hcfg)
         | rewrite Hg
         | progress (cbn [and_then flow_no_skip]; simp_locals)
         | match goal with
           | |- context [match ?x with _ => _ end] =>
             lazymatch x with
             | handle _ _ _ _ => fail
             | _ => destruct x eqn:?
             end
           end ];
    try exact I; unfold no_skip; simp_locals; rewrite ?Hs;
      (split; [first [assumption | reflexivity] | cbn; eauto]).
Qed.

Lemma run_rows_no_skip cfg rows :
  skip_row_config cfg ->
  forall g g', no_skip g -> run_rows cfg g rows = (g', None) -> no_skip g'.
Proof.
  intros Hcfg. induction rows as [| row rows IH]; intros g g' Hg Hrun.
  - cbn in Hrun. congruence.
  - cbn [run_rows] in Hrun.
    pose proof (process_row_no_skip cfg row g Hcfg Hg) as Hp.
    destruct (process_row cfg row g) as [g1 | g1 | g1 e]; cbn in Hp;
      [eapply IH; eassumption | eapply IH; eassumption | congruence].
Qed.

Lemma run_rows_row_inv cfg rows g g' :
  row_inv g -> run_rows cfg g rows = (g', None) -> row_inv g'.
Proof.
  intros Hg Hrun. pose proof (run_rows_inv cfg rows g Hg) as H.
  rewrite Hrun in H. exact H.
Qed.

(** The turn of the loop ended with [continue]: one record was appended
    to the sink, no update was added or lost, and [prev_local_ts] is as
    [prev_local_ts_after] says. *)
Definition skipped (cfg : Config) (row : L2Row) (v : Violation) (exc : Exn)
           (g : Gen) (f : Flow) : Prop :=
  exists g',
    f = Continue g' /\
    sink g' = (fun s => s ++ [quarantine_record cfg row exc]) <$> sink g /\
    all_updates g' = all_updates g /\
    prev_local_ts (locals g') = prev_local_ts_after v (locals g) row.

Lemma check_snapshot_pass cfg row g :
  batch_is_snapshot (locals g) = None
  \/ batch_is_snapshot (locals g) = Some (tardis_csv.is_snapshot row) ->
  check_snapshot cfg row g = Fall g.
Proof.
  unfold check_snapshot. intros [-> | ->]; [reflexivity |].
  rewrite Bool.eqb_reflx. reflexivity.
Qed.

Lemma quantize_and_append_skip_row cfg row g m :
  skip_row_config cfg ->
  quantize_row cfg row = Raise (QuantizationError m) ->
  quantize_and_append cfg row g
  = Continue
      {| locals := set_prev_local_ts (locals g)
                                     (Some (local_timestamp_us row));
         sink := (fun s =>
                    s ++ [quarantine_record cfg row
                            (QuantizationError
                               (m +:+ " at line "
                                  +:+ str_of_Z (tardis_csv.line_number row)))])
                 <$> sink g;
         yielded := yielded g |}.
Proof.
  intros Hcfg Hq. unfold quantize_and_append. rewrite Hq.
  rewrite (handle_skip_row _ _ _ _ Hcfg). reflexivity.
Qed.

Lemma batch_violation_quantize cfg l row v exc :
  snapshot_mixed l row = false ->
  batch_violation cfg l row = Some (v, exc) ->
  exists m,
    quantize_row cfg row = Raise (QuantizationError m) /\
    v = QuantizationFailure /\
    exc = QuantizationError
            (m +:+ " at line " +:+ str_of_Z (tardis_csv.line_number row)).
Proof.
  unfold batch_violation. intros -> Hv.
  destruct (quantize_row cfg row) as [pa | e]; [discriminate |].
  destruct e; try discriminate. injection Hv as <- <-. eauto.
Qed.

Lemma after_ordering_skip_row cfg row g v exc :
  skip_row_config cfg -> skip_batch (locals g) = false ->
  pending_ok (locals g) ->
  batch_violation cfg (locals g) row = Some (v, exc) ->
  exists g',
    and_then (check_skip_batch row g) (fun g =>
    and_then (batch_boundary cfg row g) (fun g =>
    and_then (check_snapshot cfg row g) (quantize_and_append cfg row)))
    = Continue g' /\
    sink g' = (fun s => s ++ [quarantine_record cfg row exc]) <$> sink g /\
    all_updates g' = all_updates g /\
    prev_local_ts (locals g') = Some (local_timestamp_us row).
Proof.
  intros Hcfg Hskip Hpend Hv.
  unfold check_skip_batch. rewrite Hskip. cbn [and_then].
  unfold batch_boundary.
  destruct (batch_local_ts (locals g)) as [b |] eqn:Hb.
  - destruct (local_timestamp_us row =? b) eqn:Heq; cbn [negb].
    + apply Z.eqb_eq in Heq. subst b. cbn [and_then].
      destruct (snapshot_mixed (locals g) row) eqn:Hmix.
      * unfold batch_violation in Hv. rewrite Hmix in Hv.
        injection Hv as <- <-.
        unfold snapshot_mixed in Hmix. rewrite Hb in Hmix.
        rewrite bool_decide_eq_true_2 in Hmix by reflexivity.
        cbn [andb] in Hmix. unfold check_snapshot.
        destruct (batch_is_snapshot (locals g)) as [s |];
          [| discriminate].
        rewrite Hmix. rewrite (handle_skip_row _ _ _ _ Hcfg).
        cbn [after_error and_then]. eexists. split; [reflexivity |].
        simp_locals. unfold all_updates. simp_locals. auto.
      * destruct (batch_violation_quantize _ _ _ _ _ Hmix Hv)
          as (m & Hq & -> & ->).
        unfold snapshot_mixed in Hmix. rewrite Hb in Hmix.
        rewrite bool_decide_eq_true_2 in Hmix by reflexivity.
        cbn [andb] in Hmix.
        rewrite check_snapshot_pass; cycle 1.
        { destruct (batch_is_snapshot (locals g)) as [s |]; [| auto].
          right. f_equal. apply negb_false_iff in Hmix.
          apply Bool.eqb_prop in Hmix. congruence. }
        cbn [and_then].
        rewrite (quantize_and_append_skip_row _ _ _ _ Hcfg Hq).
        eexists. split; [reflexivity |]. unfold all_updates.
        simp_locals. auto.
    + assert (Hmix : snapshot_mixed (locals g) row = false).
      { unfold snapshot_mixed. rewrite Hb.
        rewrite bool_decide_eq_false_2; [reflexivity |].
        apply Z.eqb_neq in Heq. congruence. }
      destruct (batch_violation_quantize _ _ _ _ _ Hmix Hv)
        as (m & Hq & -> & ->).
      unfold flush.
      destruct (updates (locals g)) as [| u us] eqn:Hu.
      * cbn [and_then]. simp_locals.
        rewrite check_snapshot_pass by (right; reflexivity).
        cbn [and_then].
        rewrite (quantize_and_append_skip_row _ _ _ _ Hcfg Hq).
        eexists. split; [reflexivity |]. unfold all_updates.
        simp_locals. rewrite Hu. auto.
      * destruct Hpend as [Hnil | (s & exch & Hs & Hexch & _)];
          [congruence |].
        rewrite Hexch. cbn [and_then]. simp_locals.
        rewrite check_snapshot_pass by (right; reflexivity).
        cbn [and_then].
        rewrite (quantize_and_append_skip_row _ _ _ _ Hcfg Hq).
        eexists. split; [reflexivity |]. unfold all_updates.
        simp_locals. rewrite Hu.
        rewrite map_app, concat_app. cbn [map concat evlog_types.updates].
        rewrite !app_nil_r. auto.
  - assert (Hmix : snapshot_mixed (locals g) row = false).
    { unfold snapshot_mixed. rewrite Hb.
      rewrite bool_decide_eq_false_2; [reflexivity | discriminate]. }
    destruct (batch_violation_quantize _ _ _ _ _ Hmix Hv)
      as (m & Hq & -> & ->).
    cbn [and_then]. simp_locals.
    rewrite check_snapshot_pass by (right; reflexivity).
    cbn [and_then].
    rewrite (quantize_and_append_skip_row _ _ _ _ Hcfg Hq).
    eexists. split; [reflexivity |]. unfold all_updates.
    simp_locals. auto.
Qed.

Lemma after_exchange_skip_row cfg row g v exc :
  skip_row_config cfg -> skip_batch (locals g) = false ->
  pending_ok (locals g) ->
  late_violation cfg (locals g) row = Some (v, exc) ->
  skipped cfg row v exc g
    (and_then (check_ordering cfg row g) (fun g =>
     and_then (check_skip_batch row g) (fun g =>
     and_then (batch_boundary cfg row g) (fun g =>
     and_then (check_snapshot cfg row g) (quantize_and_append cfg row))))).
Proof.
  intros Hcfg Hskip Hpend Hv.
  unfold late_violation, ts_decreased in Hv.
  unfold skipped, check_ordering.
  assert (Hlate : forall v exc,
             batch_violation cfg (locals g) row = Some (v, exc) ->
             prev_local_ts_after v (locals g) row
             = Some (local_timestamp_us row)).
  { intros v' exc' H'. unfold batch_violation in H'.
    destruct (snapshot_mixed (locals g) row);
      [injection H' as <- <-; reflexivity |].
    destruct (quantize_row cfg row) as [pa | e]; [discriminate |].
    destruct e; try discriminate. injection H' as <- <-. reflexivity. }
  destruct (prev_local_ts (locals g)) as [prev |] eqn:Hprev.
  - destruct (local_timestamp_us row <? prev) eqn:Hlt.
    + injection Hv as <- <-. rewrite (handle_skip_row _ _ _ _ Hcfg).
      cbn [and_then]. eexists. split; [reflexivity |].
      simp_locals. cbn [prev_local_ts_after default from_option id].
      auto.
    + cbn [and_then]. rewrite (Hlate _ _ Hv).
      apply (after_ordering_skip_row cfg row g v exc); assumption.
  - cbn [and_then]. rewrite (Hlate _ _ Hv).
    apply (after_ordering_skip_row cfg row g v exc); assumption.
Qed.

Lemma process_row_skip_row cfg row g v exc :
  skip_row_config cfg -> skip_batch (locals g) = false ->
  pending_ok (locals g) ->
  violation cfg (locals g) row = Some (v, exc) ->
  skipped cfg row v exc g (process_row cfg row g).
Proof.
  intros Hcfg Hskip Hpend Hv.
  unfold violation, exchange_mismatch in Hv.
  unfold process_row, check_exchange. simp_locals.
  destruct (expected_exchange (locals g)) as [ee |] eqn:Hee.
  - destruct (negb (exchange row =? ee)%string
              || negb (bool_decide (Some (symbol row)
                                    = expected_symbol (locals g)))).
    + injection Hv as <- <-. rewrite (handle_skip_row _ _ _ _ Hcfg).
      cbn [and_then]. eexists. split; [reflexivity |].
      simp_locals. auto.
    + cbn [and_then].
      match goal with
      | |- skipped _ _ _ _ _ (and_then (check_ordering _ _ ?g1) _) =>
        destruct (after_exchange_skip_row cfg row g1 v exc Hcfg Hskip Hpend Hv)
          as (g' & Hf & Hsink & Hall & Hts)
      end.
      exists g'. repeat split; assumption.
  - cbn [and_then].
    match goal with
    | |- skipped _ _ _ _ _ (and_then (check_ordering _ _ ?g1) _) =>
      destruct (after_exchange_skip_row cfg row g1 v exc Hcfg Hskip Hpend Hv)
        as (g' & Hf & Hsink & Hall & Hts)
    end.
    exists g'. repeat split; assumption.
Qed.

(** C5, as the code has it.  Under QUARANTINE with SKIP_ROW, in a run
    that was given a sink, let a row violate a batcher invariant (mixed
    exchange or symbol, decreasing local timestamp, mixed is_snapshot, or
    a quantization failure).  Then the turn of the loop ends with
    [continue]: exactly one record {reason, source, line_number, payload}
    is appended to the sink, with the text of the exception as reason and
    the row as payload; no update is added to or lost from what the
    batcher holds; the run goes on with the next row; and [prev_local_ts]
    becomes the row's local_timestamp_us, except for a decreasing
    timestamp, where it keeps its greater value. *)
Theorem quarantine_skip_row (cfg : Config) (s0 : ListQuarantineSink)
        (done : list L2Row) (g : Gen) (row : L2Row)
        (v : Violation) (exc : Exn) :
  skip_row_config cfg ->
  run_rows cfg {| locals := initial; sink := Some s0; yielded := [] |} done
  = (g, None) ->
  violation cfg (locals g) row = Some (v, exc) ->
  exists s g',
    sink g = Some s /\
    process_row cfg row g = Continue g' /\
    sink g' = Some (s ++ [{| reason := str_exn exc;
                             quarantine.source := row_source cfg row;
                             quarantine.line_number :=
                               tardis_csv.line_number row;
                             payload := Some row |}]) /\
    all_updates g' = all_updates g /\
    (forall rest, run_rows cfg g (row :: rest) = run_rows cfg g' rest) /\
    match v with
    | DecreasingTs =>
      prev_local_ts (locals g') = prev_local_ts (locals g) /\
      prev_local_ts (locals g') <> Some (local_timestamp_us row)
    | _ => prev_local_ts (locals g') = Some (local_timestamp_us row)
    end.
Proof.
  intros Hcfg Hrun Hv.
  assert (Hno : no_skip g).
  { eapply run_rows_no_skip; [exact Hcfg | | exact Hrun].
    split; cbn; eauto. }
  assert (Hinv : row_inv g).
  { eapply run_rows_row_inv; [apply initial_inv | exact Hrun]. }
  destruct Hno as [Hskip [s Hs]]. destruct Hinv as (_ & Hpend & _).
  destruct (process_row_skip_row cfg row g v exc Hcfg Hskip Hpend Hv)
    as (g' & Hf & Hsink & Hall & Hts).
  exists s, g'. rewrite Hs in Hsink. cbn in Hsink.
  split; [exact Hs |]. split; [exact Hf |]. split; [exact Hsink |].
  split; [exact Hall |]. split.
  { intros rest. cbn [run_rows]. rewrite Hf. reflexivity. }
  destruct v; cbn [prev_local_ts_after] in Hts; try exact Hts.
  split; [exact Hts |]. rewrite Hts.
  unfold violation in Hv.
  destruct (exchange_mismatch (locals g) row); [discriminate |].
  unfold late_violation, ts_decreased in Hv.
  destruct (prev_local_ts (locals g)) as [prev |].
  - destruct (local_timestamp_us row <? prev) eqn:Hlt.
    + apply Z.ltb_lt in Hlt. intros [= Heq]. lia.
    + unfold batch_violation in Hv.
      destruct (snapshot_mixed (locals g) row); [discriminate |].
      destruct (quantize_row cfg row) as [pa | e]; [discriminate |].
      destruct e; discriminate.
  - discriminate.
Qed.

Definition skip_row : Config :=
  {| quantizer := unit_quantizer; failure_policy := QUARANTINE;
     quarantine_action := SKIP_ROW; source_arg := "" |}.

Definition gen_after (cfg : Config) (rows : list L2Row) : Gen :=
  (run_rows cfg {| locals := initial; sink := Some []; yielded := [] |}
            rows).1.

(** A row with amount -1 after a good row of the same timestamp. *)
Definition bad_amount_row : L2Row := mk_row 3 1000 900 false BID "10" "-1".

Lemma quarantine_skip_row_witness :
  exists g',
    process_row skip_row bad_amount_row
                (gen_after skip_row [mk_row 2 1000 900 false BID "10" "1"])
    = Continue g' /\
    prev_local_ts (locals g') = Some 1000.
Proof.
  destruct (quarantine_skip_row
              skip_row [] [mk_row 2 1000 900 false BID "10" "1"]
              (gen_after skip_row [mk_row 2 1000 900 false BID "10" "1"])
              bad_amount_row QuantizationFailure
              (QuantizationError
                 "amount must be non-negative at line 3"))
    as (s & g' & _ & Hf & _ & _ & _ & Hts).
  - split; reflexivity.
  - vm_compute. reflexivity.
  - vm_compute. reflexivity.
  - exists g'. split; [exact Hf | exact Hts].
Defined.

(** The second row's local timestamp is smaller than the first's. *)
Definition late_row : L2Row := mk_row 3 1000 901 false BID "10" "2".

(** C5, the case where the sentence fails: a row whose local timestamp
    decreased is recorded and dropped, and the run goes on, but
    [prev_local_ts] stays at 2000 and is not advanced to the row's
    1000. *)
Lemma quarantine_skip_row_counterexample :
  let g := gen_after skip_row [mk_row 2 2000 900 false BID "10" "1"] in
  exists g',
    process_row skip_row late_row g = Continue g' /\
    sink g'
    = Some [{| reason := "local_timestamp decreased: 1000 < 2000";
               quarantine.source := "test.csv";
               quarantine.line_number := 3;
               payload := Some late_row |}] /\
    all_updates g' = all_updates g /\
    prev_local_ts (locals g') = Some 2000 /\
    prev_local_ts (locals g') <> Some (local_timestamp_us late_row).
Proof.
  eexists. split; [vm_compute; reflexivity |].
  cbn [sink locals prev_local_ts].
  split; [reflexivity |]. split; [vm_compute; reflexivity |].
  split; [reflexivity |]. discriminate.
Qed.

End l2_batcher_proofs.

(** ** [core/fixedpoint.py]: quantization is exact *)

Module fixedpoint_proofs.

(** *** The fuel of the digit loops *)

Lemma size_nat_pow2 (c : N) (f : nat) :
  (N.size_nat c <= f)%nat -> (c < 2 ^ N.of_nat f)%N.
Proof.
  intros H. destruct c as [| p].
  - apply N.neq_0_lt_0, N.pow_nonzero. discriminate.
  - cbn [N.size_nat] in H. apply Zpower2_Psize in H.
    apply N2Z.inj_lt. rewrite N2Z.inj_pow, nat_N_Z. exact H.
Qed.

Lemma div10_pow2 (c : N) (f : nat) :
  (c < 2 ^ N.of_nat (S f))%N -> (c / 10 < 2 ^ N.of_nat f)%N.
Proof.
  intros H. apply N.Div0.div_lt_upper_bound.
  rewrite Nat2N.inj_succ, N.pow_succ_r' in H. lia.
Qed.

Lemma ndigits_loop_fuel (f1 : nat) : forall (f2 : nat) (c : N),
  (c < 2 ^ N.of_nat f1)%N -> (c < 2 ^ N.of_nat f2)%N ->
  ndigits_loop f1 c = ndigits_loop f2 c.
Proof.
  induction f1 as [| f1 IH]; intros [| f2] c H1 H2; cbn [ndigits_loop].
  - reflexivity.
  - cbn in H1. destruct (c <? 10)%N eqn:E; [reflexivity |].
    apply N.ltb_ge in E. lia.
  - cbn in H2. destruct (c <? 10)%N eqn:E; [reflexivity |].
    apply N.ltb_ge in E. lia.
  - destruct (c <? 10)%N; [reflexivity |]. f_equal.
    apply IH; apply div10_pow2; assumption.
Qed.

Lemma ndigits_div10 (c : N) :
  (10 <= c)%N -> ndigits c = 1 + ndigits (c / 10).
Proof.
  intros H. unfold ndigits.
  pose proof (size_nat_pow2 c _ (le_n _)) as Hc.
  destruct (N.size_nat c) as [| k] eqn:Hk.
  - cbn in Hc. lia.
  - cbn [ndigits_loop]. apply N.ltb_ge in H. rewrite H. f_equal.
    apply ndigits_loop_fuel.
    + apply div10_pow2, Hc.
    + apply size_nat_pow2, le_n.
Qed.

Lemma ndigits_pos (c : N) : 1 <= ndigits c.
Proof.
  unfold ndigits. generalize (N.size_nat c) as f. intros f. revert c.
  induction f as [| f IH]; intros c; cbn [ndigits_loop]; [lia |].
  destruct (c <? 10)%N; [lia |]. specialize (IH (c / 10)%N). lia.
Qed.

(** *** [normalize] drops trailing zeros, and nothing else *)

Lemma strip_zeros_exp_le (emax : Z) (f : nat) : forall (c : N) (e : Z),
  e <= (strip_zeros f emax c e).2.
Proof.
  induction f as [| f IH]; intros c e; cbn [strip_zeros]; [cbn; lia |].
  destruct ((c mod 10 =? 0)%N && (e <? emax)); [| cbn; lia].
  specialize (IH (c / 10)%N (e + 1)). lia.
Qed.

Lemma strip_zeros_spec (emax : Z) (f : nat) : forall (c : N) (e : Z) (c' : N) (e' : Z),
  c <> 0%N -> (c < 2 ^ N.of_nat f)%N ->
  strip_zeros f emax c e = (c', e') ->
  (c' <> 0)%N /\ e <= e' /\ c = (c' * 10 ^ Z.to_N (e' - e))%N /\
  ndigits c' + e' = ndigits c + e /\
  ((c' mod 10)%N <> 0%N \/ emax <= e').
Proof.
  induction f as [| f IH]; intros c e c' e' Hc Hf Hs.
  - cbn in Hf. lia.
  - cbn [strip_zeros] in Hs.
    destruct (c mod 10 =? 0)%N eqn:Hm; cbn [andb] in Hs.
    + destruct (e <? emax) eqn:He.
      * apply N.eqb_eq in Hm.
        pose proof (N.div_mod c 10 ltac:(discriminate)) as Hd.
        rewrite Hm, N.add_0_r in Hd.
        assert (Hc10 : (c / 10)%N <> 0%N) by lia.
        destruct (IH _ _ _ _ Hc10 (div10_pow2 _ _ Hf) Hs)
          as (H1 & H2 & H3 & H4 & H5).
        split; [exact H1 |]. split; [lia |]. split.
        { replace (e' - e) with (Z.succ (e' - (e + 1))) by lia.
          rewrite Z2N.inj_succ by lia. rewrite N.pow_succ_r'.
          rewrite Hd at 1. rewrite H3 at 1. lia. }
        split; [| exact H5].
        rewrite (ndigits_div10 c) by lia. lia.
      * injection Hs as <- <-. apply Z.ltb_ge in He.
        split; [exact Hc |]. split; [lia |]. split.
        { rewrite Z.sub_diag. cbn. lia. }
        split; [reflexivity | right; exact He].
    + injection Hs as <- <-. apply N.eqb_neq in Hm.
      split; [exact Hc |]. split; [lia |]. split.
      { rewrite Z.sub_diag. cbn. lia. }
      split; [reflexivity | left; exact Hm].
Qed.

(** *** Inside the context nothing is rounded *)

(** A coefficient of at most [prec] digits with an exponent inside the
    range of the context. *)
Definition fits (c : N) (e : Z) : Prop :=
  c <> 0%N /\ ndigits c <= prec DECIMAL_CTX /\
  Etiny DECIMAL_CTX <= e /\ ndigits c + e <= Emax DECIMAL_CTX + 1.

Lemma _fix_fits (s : bool) (c : N) (e : Z) :
  fits c e -> _fix DECIMAL_CTX (Finite s c e) = Ok (Finite s c e).
Proof.
  unfold fits, Etiny. cbn [prec Emax Emin DECIMAL_CTX].
  intros (Hc & Hn & He & Ha). unfold _fix, Etop, Etiny.
  cbn [prec Emax Emin DECIMAL_CTX].
  apply N.eqb_neq in Hc. rewrite Hc.
  destruct (999999 - 50 + 1 <? ndigits c + e - 50) eqn:H1;
    [apply Z.ltb_lt in H1; lia |].
  destruct (ndigits c + e - 50 <? -999999 - 50 + 1) eqn:H2.
  - destruct (e <? -999999 - 50 + 1) eqn:H3;
      [apply Z.ltb_lt in H3; lia | reflexivity].
  - destruct (e <? ndigits c + e - 50) eqn:H3;
      [apply Z.ltb_lt in H3; lia | reflexivity].
Qed.

Lemma normalize_fits (c : N) (e : Z) :
  fits c e ->
  exists (c' : N) (e' : Z),
    normalize DECIMAL_CTX (Finite false c e) = Ok (Finite false c' e') /\
    fits c' e' /\ e <= e' /\ c = (c' * 10 ^ Z.to_N (e' - e))%N /\
    ndigits c' + e' = ndigits c + e /\
    ((c' mod 10)%N <> 0%N \/ Emax DECIMAL_CTX <= e').
Proof.
  intros Hfit. unfold normalize. rewrite (_fix_fits _ _ _ Hfit). unbind.
  destruct Hfit as (Hc & Hn & He & Ha).
  pose proof Hc as Hc'. apply N.eqb_neq in Hc'. rewrite Hc'.
  destruct (strip_zeros (N.size_nat c) (Emax DECIMAL_CTX) c e)
    as [c' e'] eqn:Hs.
  destruct (strip_zeros_spec _ _ _ _ _ _ Hc (size_nat_pow2 _ _ (le_n _)) Hs)
    as (H1 & H2 & H3 & H4 & H5).
  exists c', e'. split; [reflexivity |].
  pose proof (ndigits_pos c'). pose proof (ndigits_pos c).
  unfold fits. repeat split; try assumption; lia.
Qed.

(** *** Normalized increments *)

(** An increment as [Quantizer.__post_init__] leaves it: positive,
    finite, and unchanged by [normalize]. *)
Definition normalized_increment (inc : Decimal) : Prop :=
  _normalize_increment inc = Ok inc.

Lemma normalized_increment_inv (inc : Decimal) :
  normalized_increment inc ->
  exists (c : N) (e : Z),
    inc = Finite false c e /\ fits c e /\ e <= Emax DECIMAL_CTX.
Proof.
  unfold normalized_increment, _normalize_increment.
  destruct inc as [s c e | s | s sg dg]; cbn [is_finite negb];
    [| discriminate | discriminate].
  unfold Dle0, Deq0, Dlt0.
  destruct (c =? 0)%N eqn:Hc; cbn [orb]; [discriminate |].
  destruct s; cbn [andb negb]; [discriminate |].
  apply N.eqb_neq in Hc. intros Hnorm. exists c, e.
  split; [reflexivity |].
  unfold normalize, _fix in Hnorm. 
  assert (Hc' : (c =? 0)%N = false) by (apply N.eqb_neq; exact Hc).
  rewrite Hc' in Hnorm.
  pose proof (ndigits_pos c) as Hpos.
  unfold fits, Etop, Etiny in *. cbn [prec Emax Emin DECIMAL_CTX] in *.
  destruct (999999 - 50 + 1 <? ndigits c + e - 50) eqn:H1;
    [discriminate |].
  apply Z.ltb_ge in H1.
  set (exp_min := if ndigits c + e - 50 <? -999999 - 50 + 1
                  then -999999 - 50 + 1 else ndigits c + e - 50) in *.
  assert (Hem : -999999 - 50 + 1 <= exp_min /\ ndigits c + e - 50 <= exp_min).
  { subst exp_min.
    destruct (ndigits c + e - 50 <? -999999 - 50 + 1) eqn:H2;
      [apply Z.ltb_lt in H2 | apply Z.ltb_ge in H2]; lia. }
  destruct (e <? exp_min) eqn:H3.
  - exfalso. apply Z.ltb_lt in H3.
    assert (Hexp : forall (x : N) (m : Z),
               exp_min <= m ->
               (dup ← (if 999999 - 50 + 1 <? m
                       then Raise (DecimalSignal "Overflow")
                       else Ok (Finite false x m));
                match dup with
                | Finite s c0 e0 =>
                  if (c0 =? 0)%N then Ok (Finite s 0 0)
                  else
                    let '(c', e') :=
                      strip_zeros (N.size_nat c0) 999999 c0 e0 in
                    Ok (Finite s c' e')
                | _ => Ok dup
                end) = Ok (Finite false c e) -> False).
    { intros x m Hm Heq.
      destruct (999999 - 50 + 1 <? m); [discriminate |].
      cbn [mbind mret result_bind result_ret bind] in Heq.
      destruct (x =? 0)%N; [injection Heq as <- _; congruence |].
      pose proof (strip_zeros_exp_le 999999 (N.size_nat x) x m) as Hle.
      destruct (strip_zeros (N.size_nat x) 999999 x m) as [c' e'].
      cbn [snd] in Hle. injection Heq as _ <-. lia. }
    revert Hnorm.
    destruct (ndigits c + e - exp_min <? 0);
      cbn zeta beta iota;
      match goal with
      | |- context [if 0 <? ?ch then _ else _] => destruct (0 <? ch)
      end;
      try match goal with
          | |- context [if 50 <? ?n then _ else _] => destruct (50 <? n)
          end;
      apply Hexp; lia.
  - apply Z.ltb_ge in H3. repeat split; try assumption; lia.
Qed.

(** *** [_scaled_int] *)

Definition scale_ok (scale : Z) : Prop :=
  - (2 * (Emax DECIMAL_CTX + prec DECIMAL_CTX)) <= scale
  <= 2 * (Emax DECIMAL_CTX + prec DECIMAL_CTX).

Lemma scaleb_fits (c : N) (e scale : Z) :
  fits c (e + scale) -> scale_ok scale ->
  scaleb DECIMAL_CTX (Finite false c e) scale
  = Ok (Finite false c (e + scale)).
Proof.
  intros Hfit [Hlo Hhi]. unfold scaleb.
  destruct (scale <? - (2 * (Emax DECIMAL_CTX + prec DECIMAL_CTX))) eqn:H1;
    [apply Z.ltb_lt in H1; lia |].
  destruct (2 * (Emax DECIMAL_CTX + prec DECIMAL_CTX) <? scale) eqn:H2;
    [apply Z.ltb_lt in H2; lia |].
  cbn [orb]. apply _fix_fits, Hfit.
Qed.

Lemma Deqb_refl (s : bool) (c : N) (e : Z) :
  Deqb (Finite s c e) (Finite s c e) = true.
Proof.
  unfold Deqb. destruct (c =? 0)%N; [reflexivity |].
  rewrite Bool.eqb_reflx, N.eqb_refl. reflexivity.
Qed.

Lemma _scaled_int_integer (c : N) (e scale : Z) :
  fits c (e + scale) -> scale_ok scale -> 0 <= e + scale ->
  _scaled_int (Finite false c e) scale
  = Ok (Z.of_N (c * 10 ^ Z.to_N (e + scale))).
Proof.
  intros Hfit Hsc Hx. unfold _scaled_int.
  rewrite (scaleb_fits _ _ _ Hfit Hsc). unbind.
  unfold to_integral_value, int_of_Decimal.
  apply Z.leb_le in Hx. rewrite Hx. rewrite Deqb_refl. reflexivity.
Qed.

Lemma not_multiple_of_10 (c y : N) (k : Z) :
  (c mod 10)%N <> 0%N -> 0 < k -> c <> (y * 10 ^ Z.to_N k)%N.
Proof.
  intros Hm Hk Heq. apply Hm.
  replace k with (Z.succ (k - 1)) in Heq by lia.
  rewrite Z2N.inj_succ in Heq by lia. rewrite N.pow_succ_r' in Heq.
  rewrite Heq.
  replace (y * (10 * 10 ^ Z.to_N (k - 1)))%N
    with (y * 10 ^ Z.to_N (k - 1) * 10)%N by lia.
  apply N.Div0.mod_mul.
Qed.

Lemma _scaled_int_fraction (c : N) (e scale : Z) :
  fits c (e + scale) -> scale_ok scale -> e + scale < 0 ->
  (c mod 10)%N <> 0%N ->
  _scaled_int (Finite false c e) scale
  = Raise (QuantizationError "value has more precision than increment").
Proof.
  intros Hfit Hsc Hx Hm. unfold _scaled_int.
  rewrite (scaleb_fits _ _ _ Hfit Hsc). unbind.
  destruct Hfit as (Hc & _).
  assert (Hc' : (c =? 0)%N = false) by (apply N.eqb_neq; exact Hc).
  assert (Hx' : (0 <=? e + scale) = false) by (apply Z.leb_gt; exact Hx).
  unfold to_integral_value, _rescale0. rewrite Hx', Hc'.
  assert (Hne : forall y : N,
             Deqb (Finite false c (e + scale)) (Finite false y 0) = false).
  { intros y. unfold Deqb. rewrite Hc'.
    destruct (y =? 0)%N; [reflexivity |].
    rewrite Z.min_l by lia. rewrite Z.sub_diag. cbn [Bool.eqb andb].
    apply N.eqb_neq. change (Z.to_N 0) with 0%N.
    rewrite N.pow_0_r, N.mul_1_r.
    apply not_multiple_of_10; [exact Hm | lia]. }
  destruct (ndigits c + (e + scale) <? 0); cbn zeta beta iota;
    match goal with
    | |- context [if ?ch =? 1 then _ else _] => destruct (ch =? 1)
    end; rewrite Hne; reflexivity.
Qed.

(** *** Decimals as rationals *)

Definition pow10 (z : Z) : Q := Qpower (inject_Z 10) z.

Lemma pow10_pos (z : Z) : (0 < pow10 z)%Q.
Proof. apply Qpower_0_lt. reflexivity. Qed.

Lemma pow10_add (a b : Z) : (pow10 (a + b) == pow10 a * pow10 b)%Q.
Proof. apply Qpower_plus. discriminate. Qed.

Lemma pow10_Z (z : Z) : 0 <= z -> (pow10 z == inject_Z (10 ^ z))%Q.
Proof. intros H. symmetry. apply Zpower_Qpower, H. Qed.

(** Two scaled integers are equal as rationals when they are equal as
    integers at the smaller exponent. *)
Lemma Qeq_pow10 (a b p q m : Z) :
  m <= p -> m <= q ->
  (inject_Z a * pow10 p == inject_Z b * pow10 q)%Q
  <-> a * 10 ^ (p - m) = b * 10 ^ (q - m).
Proof.
  intros Hp Hq.
  assert (Hsplit : forall (n x : Z), m <= x ->
             (inject_Z n * pow10 x
              == inject_Z (n * 10 ^ (x - m)) * pow10 m)%Q).
  { intros n x Hx. replace x with ((x - m) + m) at 1 by lia.
    rewrite pow10_add, pow10_Z by lia. rewrite inject_Z_mult. ring. }
  rewrite (Hsplit a p Hp), (Hsplit b q Hq).
  pose proof (pow10_pos m) as Hpos.
  split.
  - intros H. apply Qmult_inj_r in H.
    + apply (proj1 (inject_Z_injective _ _)) in H. exact H.
    + intros Hz. rewrite Hz in Hpos. discriminate.
  - intros ->. reflexivity.
Qed.

Lemma to_Q_Finite (c : N) (e : Z) :
  to_Q (Finite false c e) = (inject_Z (Z.of_N c) * pow10 e)%Q.
Proof. reflexivity. Qed.

(** [t] increments make the value. *)
Definition makes (t : Z) (inc value : Decimal) : Prop :=
  (inject_Z t * to_Q inc == to_Q value)%Q.

Lemma makes_Finite (t : Z) (ci c : N) (ei e m : Z) :
  m <= ei -> m <= e ->
  makes t (Finite false ci ei) (Finite false c e)
  <-> t * Z.of_N ci * 10 ^ (ei - m) = Z.of_N c * 10 ^ (e - m).
Proof.
  intros H1 H2. unfold makes. rewrite !to_Q_Finite.
  rewrite Qmult_assoc, <- inject_Z_mult.
  apply Qeq_pow10; assumption.
Qed.

Lemma to_Q_strip (c c' : N) (e e' : Z) :
  e <= e' -> c = (c' * 10 ^ Z.to_N (e' - e))%N ->
  (to_Q (Finite false c e) == to_Q (Finite false c' e'))%Q.
Proof.
  intros He Hc. rewrite !to_Q_Finite.
  apply (Qeq_pow10 _ _ _ _ e); [lia | lia |].
  rewrite Z.sub_diag, Z.pow_0_r, Z.mul_1_r. rewrite Hc.
  rewrite N2Z.inj_mul, N2Z.inj_pow, Z2N.id by lia. reflexivity.
Qed.

Lemma to_Q_zero (s : bool) (e : Z) : (to_Q (Finite s 0 e) == 0)%Q.
Proof.
  unfold to_Q. change (inject_Z (Z.of_N 0)) with 0%Q.
  destruct s; ring.
Qed.

Lemma to_Q_negative (c : N) (e : Z) :
  c <> 0%N -> (to_Q (Finite true c e) < 0)%Q.
Proof.
  intros Hc. unfold to_Q.
  assert (0 < inject_Z (Z.of_N c) * inject_Z 10 ^ e)%Q as Hpos.
  { apply Qmult_lt_0_compat; [| apply pow10_pos].
    change 0%Q with (inject_Z 0). rewrite <- Zlt_Qlt. lia. }
  apply Qopp_lt_compat in Hpos. exact Hpos.
Qed.

(** *** [_quantize_decimal] on a positive value *)

(** The value has at most [prec] digits, and the value and its quotient
    by the unit of the increment's last place lie inside the exponent
    range of the context: nothing [normalize] and [scaleb] do to the
    value rounds it or overflows. *)
Definition in_range (value inc : Decimal) : Prop :=
  match value with
  | Finite _ c e => c = 0%N \/ (fits c e /\ fits c (e - exponent inc))
  | _ => True
  end.

Lemma _quantize_decimal_positive (c : N) (e : Z) (inc : Decimal)
      (allow_zero : bool) (field : string) :
  normalized_increment inc ->
  fits c e -> fits c (e - exponent inc) ->
  match _quantize_decimal (Finite false c e) inc allow_zero field with
  | Ok t => 0 < t /\ makes t inc (Finite false c e)
  | Raise ex =>
    (exists m, ex = QuantizationError m) /\
    forall t, ~ makes t inc (Finite false c e)
  end.
Proof.
  intros Hinc Hfit Hfit2.
  destruct (normalized_increment_inv _ Hinc) as (ci & ei & -> & Hfi & Hei).
  cbn [exponent] in Hfit2.
  unfold _quantize_decimal. cbn [is_finite negb Deq0 Dlt0 andb exponent].
  assert (Hc0 : (c =? 0)%N = false) by (apply N.eqb_neq, Hfit).
  rewrite Hc0.
  destruct (normalize_fits c e Hfit)
    as (c' & e' & -> & Hfit' & Hee & Hcc & Hnd & Hstop).
  unbind.
  assert (Hval : forall t,
             makes t (Finite false ci ei) (Finite false c e)
             <-> makes t (Finite false ci ei) (Finite false c' e')).
  { intros t. unfold makes. rewrite (to_Q_strip c c' e e' Hee Hcc).
    reflexivity. }
  unfold fits, Etiny in Hfit, Hfit2, Hfit', Hfi.
  cbn [prec Emax Emin DECIMAL_CTX] in *.
  assert (Hsc : scale_ok (- ei)).
  { unfold scale_ok. cbn [prec Emax Emin DECIMAL_CTX]. lia. }
  assert (Hfs : fits c' (e' + - ei)).
  { unfold fits, Etiny. cbn [prec Emax Emin DECIMAL_CTX].
    repeat split; try tauto; lia. }
  assert (Hfis : fits ci (ei + - ei)).
  { unfold fits, Etiny. cbn [prec Emax Emin DECIMAL_CTX].
    repeat split; try tauto; lia. }
  assert (Hci : (0 < Z.of_N ci)) by lia.
  assert (Hc' : (0 < Z.of_N c')) by lia.
  destruct (Z_lt_le_dec (e' + - ei) 0) as [Hneg | Hnn].
  - (* digits below the increment's last place *)
    assert (Hm : (c' mod 10)%N <> 0%N) by (destruct Hstop; [assumption | lia]).
    rewrite (_scaled_int_fraction _ _ _ Hfs Hsc Hneg Hm). unbind.
    split; [eauto |]. intros t Ht. apply Hval in Ht.
    apply (makes_Finite t ci c' ei e' e') in Ht; [| lia | lia].
    rewrite Z.sub_diag, Z.pow_0_r, Z.mul_1_r in Ht.
    apply Hm. apply N2Z.inj. rewrite N2Z.inj_mod. rewrite <- Ht.
    replace (ei - e') with (Z.succ (ei - e' - 1)) by lia.
    rewrite Z.pow_succ_r by lia.
    replace (t * Z.of_N ci * (10 * 10 ^ (ei - e' - 1)))
      with (t * Z.of_N ci * 10 ^ (ei - e' - 1) * 10) by lia.
    apply Z.mod_mul. lia.
  - rewrite (_scaled_int_integer _ _ _ Hfs Hsc Hnn). unbind.
    rewrite (_scaled_int_integer _ _ _ Hfis Hsc) by lia. unbind.
    rewrite Z.add_opp_diag_r. change (Z.to_N 0) with 0%N.
    rewrite N.pow_0_r, N.mul_1_r.
    rewrite N2Z.inj_mul, N2Z.inj_pow, Z2N.id by lia.
    change (Z.of_N 10) with 10.
    assert (Hsv : 0 < Z.of_N c' * 10 ^ (e' + - ei)).
    { apply Z.mul_pos_pos; [lia |]. apply Z.pow_pos_nonneg; lia. }
    destruct (Z.of_N ci =? 0) eqn:Hz; [apply Z.eqb_eq in Hz; lia |].
    assert (Hmk : forall t,
               makes t (Finite false ci ei) (Finite false c e)
               <-> t * Z.of_N ci = Z.of_N c' * 10 ^ (e' + - ei)).
    { intros t. rewrite Hval.
      rewrite (makes_Finite t ci c' ei e' ei) by lia.
      rewrite Z.sub_diag, Z.pow_0_r, Z.mul_1_r.
      replace (e' - ei) with (e' + - ei) by lia. reflexivity. }
    destruct (Z.of_N c' * 10 ^ (e' + - ei) mod Z.of_N ci =? 0) eqn:Hmod;
      cbn [negb].
    + apply Z.eqb_eq in Hmod.
      pose proof (Z.div_mod (Z.of_N c' * 10 ^ (e' + - ei)) (Z.of_N ci)
                            ltac:(lia)) as Hdm.
      rewrite Hmod, Z.add_0_r in Hdm.
      split.
      * apply Z.div_str_pos. split; [lia |].
        apply Z.divide_pos_le; [lia |].
        apply Z.mod_divide; [lia | exact Hmod].
      * apply Hmk. lia.
    + apply Z.eqb_neq in Hmod. split; [eauto |].
      intros t Ht. apply Hmk in Ht. apply Hmod. rewrite <- Ht.
      apply Z.mod_mul. lia.
Qed.

Lemma to_Q_positive (c : N) (e : Z) :
  c <> 0%N -> (0 < to_Q (Finite false c e))%Q.
Proof.
  intros Hc. rewrite to_Q_Finite.
  apply Qmult_lt_0_compat; [| apply pow10_pos].
  change 0%Q with (inject_Z 0). rewrite <- Zlt_Qlt. lia.
Qed.

(** *** The strings [parse_decimal] accepts *)

Lemma parse_decimal_Ok (value : string) (d : Decimal) :
  parse_decimal value = Ok d -> is_finite d = true.
Proof.
  unfold parse_decimal. destruct (strip value =? "")%string; [discriminate |].
  destruct (Decimal_of_string (strip value)) as [d' |]; [| discriminate].
  destruct (is_finite d') eqn:Hf; cbn [negb]; [| discriminate].
  intros [= <-]. exact Hf.
Qed.

Lemma parse_decimal_Raise (value : string) (e : Exn) :
  parse_decimal value = Raise e -> exists m, e = ValueError m.
Proof.
  unfold parse_decimal. destruct (strip value =? "")%string;
    [intros [= <-]; eauto |].
  destruct (Decimal_of_string (strip value)) as [d' |];
    [| intros [= <-]; eauto].
  destruct (is_finite d'); cbn [negb]; [discriminate |].
  intros [= <-]. eauto.
Qed.

(** What [_quantize_decimal] returns on a finite value in range. *)
Lemma _quantize_decimal_finite (s : bool) (c : N) (e : Z) (inc : Decimal)
      (allow_zero : bool) (field : string) :
  normalized_increment inc ->
  in_range (Finite s c e) inc ->
  let d := Finite s c e in
  match _quantize_decimal d inc allow_zero field with
  | Ok t =>
    (if allow_zero then 0 <= t /\ (0 <= to_Q d)%Q
     else 0 < t /\ (0 < to_Q d)%Q) /\
    ((to_Q d == 0)%Q -> t = 0) /\
    makes t inc d
  | Raise ex =>
    (exists m, ex = QuantizationError m) /\
    ((if allow_zero then (to_Q d < 0)%Q else (to_Q d <= 0)%Q)
     \/ forall t, ~ makes t inc d)
  end.
Proof.
  intros Hinc Hrange d.
  destruct (N.eq_dec c 0%N) as [-> | Hc].
  - (* zero *)
    subst d. unfold _quantize_decimal. cbn [is_finite negb Deq0].
    change (0 =? 0)%N with true. cbv iota.
    pose proof (to_Q_zero s e) as Hz.
    destruct allow_zero.
    + split; [split; [lia | rewrite Hz; apply Qle_refl] |].
      split; [reflexivity |]. unfold makes. rewrite Hz. ring.
    + split; [eauto |]. left. rewrite Hz. apply Qle_refl.
  - destruct s.
    + (* negative *)
      subst d. unfold _quantize_decimal.
      cbn [is_finite negb Deq0 Dlt0 andb].
      assert (Hc0 : (c =? 0)%N = false) by (apply N.eqb_neq, Hc).
      rewrite Hc0. cbn [negb]. split; [eauto |]. left.
      pose proof (to_Q_negative c e Hc) as Hn.
      destruct allow_zero; [exact Hn | apply Qlt_le_weak, Hn].
    + (* positive *)
      cbn [in_range] in Hrange.
      destruct Hrange as [-> | [Hf1 Hf2]]; [congruence |].
      pose proof (_quantize_decimal_positive
                    c e inc allow_zero field Hinc Hf1 Hf2) as H.
      pose proof (to_Q_positive c e Hc) as Hpos. subst d.
      destruct (_quantize_decimal (Finite false c e) inc allow_zero field)
        as [t | ex].
      * destruct H as [Ht Hm].
        split; [destruct allow_zero; split;
                first [lia | assumption | apply Qlt_le_weak, Hpos] |].
        split; [| exact Hm].
        intros Hz. rewrite Hz in Hpos. discriminate.
      * destruct H as [Hex Hno]. split; [exact Hex | right; exact Hno].
Qed.

(** C1, as the code has it.  Let the increments of the quantizer be
    positive, finite and normalized.  A string that [parse_decimal]
    rejects (empty, not a number, or non-finite) makes quantize_price and
    quantize_amount fail with a QuantizationError that carries the
    parser's message.  For a string that parses to a value in range (at
    most 50 digits, exponents inside the context's range):
    quantize_price returns an integer t exactly when the value is
    positive and an integer multiple of price_increment, and then
    0 < t and t * price_increment is the value, exactly; otherwise it
    fails with a QuantizationError.  quantize_amount does the same with
    amount_increment, except that the value 0 is accepted and gives 0;
    a negative value is rejected. *)
Theorem quantize_exact (q : Quantizer) (value : string) :
  normalized_increment (price_increment q) ->
  normalized_increment (amount_increment q) ->
  match parse_decimal value with
  | Raise e =>
    quantize_price q value = Raise (QuantizationError (str_exn e)) /\
    quantize_amount q value = Raise (QuantizationError (str_exn e))
  | Ok d =>
    is_finite d = true /\
    (in_range d (price_increment q) ->
     match quantize_price q value with
     | Ok t =>
       0 < t /\ (0 < to_Q d)%Q /\ makes t (price_increment q) d
     | Raise e =>
       (exists m, e = QuantizationError m) /\
       ((to_Q d <= 0)%Q \/ forall t, ~ makes t (price_increment q) d)
     end) /\
    (in_range d (amount_increment q) ->
     match quantize_amount q value with
     | Ok t =>
       0 <= t /\ (0 <= to_Q d)%Q /\ ((to_Q d == 0)%Q -> t = 0) /\
       makes t (amount_increment q) d
     | Raise e =>
       (exists m, e = QuantizationError m) /\
       ((to_Q d < 0)%Q \/ forall t, ~ makes t (amount_increment q) d)
     end)
  end.
Proof.
  intros Hp Ha. unfold quantize_price, quantize_amount.
  unfold parse_or_quantization_error.
  destruct (parse_decimal value) as [d | e] eqn:Hparse.
  - pose proof (parse_decimal_Ok _ _ Hparse) as Hfin. unbind.
    split; [exact Hfin |].
    destruct d as [s c x | s | s sg dg]; try discriminate.
    split; intros Hrange.
    + pose proof (_quantize_decimal_finite
                    s c x _ false "price" Hp Hrange) as H.
      cbv zeta in H.
      destruct (_quantize_decimal (Finite s c x) (price_increment q)
                                  false "price") as [t | ex].
      * destruct H as ([H1 H2] & _ & H3). auto.
      * exact H.
    + pose proof (_quantize_decimal_finite
                    s c x _ true "amount" Ha Hrange) as H.
      cbv zeta in H.
      destruct (_quantize_decimal (Finite s c x) (amount_increment q)
                                  true "amount") as [t | ex].
      * destruct H as ([H1 H2] & H3 & H4). auto.
      * exact H.
  - destruct (parse_decimal_Raise _ _ Hparse) as [m ->].
    unbind. cbn [str_exn]. split; reflexivity.
Qed.

(** [Quantizer.from_strings("0.01", "0.001")]. *)
Definition cents : Quantizer :=
  {| price_increment := Finite false 1 (-2);
     amount_increment := Finite false 1 (-3) |}.

Example cents_from_strings : from_strings "0.01" "0.001" = Ok cents.
Proof. vm_compute. reflexivity. Qed.

Lemma quantize_exact_witness :
  quantize_price cents "100.25" = Ok 10025 /\
  makes 10025 (price_increment cents) (Finite false 10025 (-2)).
Proof.
  split; [vm_compute; reflexivity |].
  assert (Hp : normalized_increment (price_increment cents))
    by (vm_compute; reflexivity).
  assert (Ha : normalized_increment (amount_increment cents))
    by (vm_compute; reflexivity).
  pose proof (quantize_exact cents "100.25" Hp Ha) as H.
  change (parse_decimal "100.25") with (Ok (Finite false 10025 (-2))) in H.
  destruct H as (_ & Hprice & _).
  assert (Hrange : in_range (Finite false 10025 (-2))
                            (price_increment cents)).
  { right. split; unfold fits; (split; [discriminate |]);
      vm_compute; repeat split; discriminate. }
  specialize (Hprice Hrange).
  change (quantize_price cents "100.25") with (Ok 10025) in Hprice.
  exact (proj2 (proj2 Hprice)).
Defined.

(** [Quantizer.from_strings("1", "1")]. *)
Definition units : Quantizer :=
  {| price_increment := Finite false 1 0;
     amount_increment := Finite false 1 0 |}.

(** A price of 51 significant digits, 1 + 10^-50. *)
Definition long_price : string :=
  "1.00000000000000000000000000000000000000000000000001".

Definition long_price_value : Decimal :=
  Finite false 100000000000000000000000000000000000000000000000001 (-50).

(** C1, where the sentence fails.  With the increment 1, the price
    1 + 10^-50 is finite, positive and not an integer multiple of the
    increment; [normalize] rounds it to the 50 digits of the context, and
    quantize_price returns 1 instead of failing: 1 * price_increment is
    not the value. *)
Lemma quantize_exact_counterexample :
  from_strings "1" "1" = Ok units /\
  normalized_increment (price_increment units) /\
  parse_decimal long_price = Ok long_price_value /\
  (0 < to_Q long_price_value)%Q /\
  (forall t, ~ makes t (price_increment units) long_price_value) /\
  quantize_price units long_price = Ok 1.
Proof.
  split; [vm_compute; reflexivity |].
  split; [vm_compute; reflexivity |].
  split; [vm_compute; reflexivity |].
  split; [apply to_Q_positive; discriminate |].
  split; [| vm_compute; reflexivity].
  intros t Ht.
  apply (makes_Finite t _ _ 0 (-50) (-50)) in Ht; [| lia | lia].
  change (Z.of_N 1) with 1 in Ht.
  rewrite Z.sub_diag, Z.pow_0_r, !Z.mul_1_r in Ht.
  assert (Hmod : (t * 10 ^ (0 - -50)) mod 10 = 0).
  { change (0 - -50) with (Z.succ 49). rewrite Z.pow_succ_r by lia.
    replace (t * (10 * 10 ^ 49)) with (t * 10 ^ 49 * 10) by lia.
    apply Z.mod_mul. lia. }
  rewrite Ht in Hmod. vm_compute in Hmod. discriminate.
Qed.

(** A trapped signal of the context is not turned into a
    QuantizationError: scaling the price 10^999999 by the increment
    10^-10 overflows. *)
Example quantize_price_overflow :
  quantize_price
    {| price_increment := Finite false 1 (-10);
       amount_increment := Finite false 1 0 |} "1E+999999"
  = Raise (DecimalSignal "Overflow").
Proof. vm_compute. reflexivity. Qed.

End fixedpoint_proofs.

(** ** [core/time.py]: the order of the keys *)

Module core_time_proofs.
Import core_time.

(** The lexicographic order on the three fields. *)
Definition key_before (a b : OrderingKey) : Prop :=
  ts_recv_ns a < ts_recv_ns b \/
  (ts_recv_ns a = ts_recv_ns b /\
   (stream_rank a < stream_rank b \/
    (stream_rank a = stream_rank b /\ seq_in_stream a < seq_in_stream b))).

Lemma OrderingKey_lt_spec (a b : OrderingKey) :
  OrderingKey_lt a b = true <-> key_before a b.
Proof.
  unfold OrderingKey_lt, key_before.
  destruct (Z.eqb_spec (ts_recv_ns a) (ts_recv_ns b)); cbn [negb];
    [| rewrite Z.ltb_lt; lia].
  destruct (Z.eqb_spec (stream_rank a) (stream_rank b)); cbn [negb];
    rewrite Z.ltb_lt; lia.
Qed.

Lemma OrderingKey_gt_spec (a b : OrderingKey) :
  OrderingKey_gt a b = true <-> key_before b a.
Proof.
  unfold OrderingKey_gt, key_before.
  destruct (Z.eqb_spec (ts_recv_ns a) (ts_recv_ns b)); cbn [negb];
    [| rewrite Z.ltb_lt; lia].
  destruct (Z.eqb_spec (stream_rank a) (stream_rank b)); cbn [negb];
    rewrite Z.ltb_lt; lia.
Qed.

Lemma compare_ordering_key_spec (a b : OrderingKey) :
  (key_before a b /\ compare_ordering_key a b = -1) \/
  (key_before b a /\ compare_ordering_key a b = 1) \/
  (a = b /\ compare_ordering_key a b = 0).
Proof.
  unfold compare_ordering_key.
  pose proof (OrderingKey_lt_spec a b) as Hlt.
  pose proof (OrderingKey_gt_spec a b) as Hgt.
  destruct (OrderingKey_lt a b); [left; split; [tauto | reflexivity] |].
  destruct (OrderingKey_gt a b);
    [right; left; split; [tauto | reflexivity] |].
  right; right. split; [| reflexivity].
  assert (Hn1 : ~ key_before a b) by (intros H; apply Hlt in H; discriminate).
  assert (Hn2 : ~ key_before b a) by (intros H; apply Hgt in H; discriminate).
  unfold key_before in Hn1, Hn2.
  destruct a as [a1 a2 a3], b as [b1 b2 b3].
  cbn [ts_recv_ns stream_rank seq_in_stream] in *.
  f_equal; lia.
Qed.

(** [compare_ordering_key] is the three-way comparison of the
    lexicographic order on (ts_recv_ns, stream_rank, seq_in_stream), a
    total order: it is -1, 0 or 1; it is 0 on equal keys only; swapping
    the arguments negates it; and "before" is transitive. *)
Theorem compare_ordering_key_total_order (a b c : OrderingKey) :
  (compare_ordering_key a b = -1 <-> key_before a b) /\
  (compare_ordering_key a b = 0 <-> a = b) /\
  (compare_ordering_key a b = 1 <-> key_before b a) /\
  compare_ordering_key b a = - compare_ordering_key a b /\
  (compare_ordering_key a b = -1 -> compare_ordering_key b c = -1 ->
   compare_ordering_key a c = -1).
Proof.
  assert (Hirr : forall x y, key_before x y -> key_before y x -> False).
  { intros x y. unfold key_before. lia. }
  assert (Hne : forall x, ~ key_before x x).
  { intros x. unfold key_before. lia. }
  pose proof (compare_ordering_key_spec a b) as Hab.
  pose proof (compare_ordering_key_spec b a) as Hba.
  pose proof (compare_ordering_key_spec b c) as Hbc.
  pose proof (compare_ordering_key_spec a c) as Hac.
  split; [| split; [| split; [| split]]].
  - destruct Hab as [[H ->] | [[H ->] | [-> ->]]];
      split; intros; try lia; try assumption; exfalso; eauto.
  - destruct Hab as [[H ->] | [[H ->] | [-> ->]]];
      split; intros; try lia; try reflexivity; subst; exfalso;
        eapply Hne; eassumption.
  - destruct Hab as [[H ->] | [[H ->] | [-> ->]]];
      split; intros; try lia; try assumption; exfalso; eauto.
  - destruct Hab as [[H ->] | [[H ->] | [Heq ->]]];
      destruct Hba as [[H' ->] | [[H' ->] | [Heq' ->]]];
      try reflexivity; subst; exfalso; eauto.
  - intros H1 H2.
    destruct Hab as [[Hx _] | [[_ Hx] | [_ Hx]]]; try lia.
    destruct Hbc as [[Hy _] | [[_ Hy] | [_ Hy]]]; try lia.
    destruct Hac as [[_ Hz] | [[Hz _] | [Hz _]]]; [exact Hz | |].
    + exfalso. unfold key_before in *. lia.
    + subst c. exfalso. eauto.
Qed.

End core_time_proofs.

(** ** [sim/fees.py] and [sim/portfolio.py]: the ledger *)

Module ledger_proofs.

(** A fee model exists for 0..10000 bps only; its fee on a non-negative
    notional is the floor of notional * bps / 10000, between 0 and the
    notional, and it does not decrease with the notional; a negative
    notional is rejected. *)
Theorem fee_atoms_floor (b n m : Z) :
  match FixedBpsFeeModel_new b with
  | Raise e =>
    (b < 0 \/ 10000 < b) /\ exists msg, e = SchemaError msg
  | Ok fm =>
    0 <= b <= 10000 /\ bps fm = b /\
    (n < 0 ->
     fee_atoms fm n = Raise (SchemaError "notional must be non-negative")) /\
    (0 <= n ->
     exists f,
       fee_atoms fm n = Ok f /\ 0 <= f <= n /\
       10000 * f <= n * b < 10000 * (f + 1) /\
       (n <= m -> exists g, fee_atoms fm m = Ok g /\ f <= g))
  end.
Proof.
  unfold FixedBpsFeeModel_new.
  destruct (Z.ltb_spec b 0); [split; [lia | eauto] |].
  destruct (Z.ltb_spec 10000 b); [split; [lia | eauto] |].
  split; [lia |]. split; [reflexivity |]. unfold fee_atoms. cbn [bps].
  split.
  - intros Hn. destruct (Z.ltb_spec n 0); [reflexivity | lia].
  - intros Hn. destruct (Z.ltb_spec n 0); [lia |].
    exists (n * b / 10000). split; [reflexivity |].
    pose proof (Z.div_mod (n * b) 10000 ltac:(lia)) as Hdm.
    pose proof (Z.mod_pos_bound (n * b) 10000 ltac:(lia)) as Hmb.
    assert (0 <= n * b) by nia.
    assert (n * b <= n * 10000) by nia.
    split; [nia |]. split; [nia |].
    intros Hm. destruct (Z.ltb_spec m 0); [lia |].
    eexists. split; [reflexivity |].
    apply Z.div_le_mono; [lia | nia].
Qed.

(** [apply_fill] either raises and leaves the ledger as it was, or books
    the fill: quantity and price are positive and the fee is not
    negative, the position moves by the quantity, and the value of the
    ledger at the fill price ([equity]) drops by exactly the fee.  A buy
    without margin leaves no negative cash, a sell without shorting no
    negative position. *)
Theorem apply_fill_accounting (p : Portfolio) (s : Side)
        (price qty fee : Z) (allow_short allow_margin : bool) :
  match apply_fill p s price qty fee allow_short allow_margin with
  | (p', Raise e) => p' = p /\ exists msg, e = SchemaError msg
  | (p', Ok _) =>
    0 < qty /\ 0 < price /\ 0 <= fee /\
    position p' = match s with
                  | BID => position p + qty
                  | ASK => position p - qty
                  end /\
    (exists v, equity p price = Ok v /\ equity p' price = Ok (v - fee)) /\
    (s = BID -> allow_margin = false -> 0 <= cash p') /\
    (s = ASK -> allow_short = false -> 0 <= position p')
  end.
Proof.
  unfold apply_fill, equity.
  destruct (Z.leb_spec qty 0); [split; eauto |].
  destruct (Z.leb_spec price 0); [split; eauto |].
  destruct (Z.ltb_spec fee 0); [split; eauto |].
  destruct s.
  - destruct allow_margin; cbn [negb andb].
    + cbn [cash position]. repeat split; try lia; try discriminate.
      eexists. split; [reflexivity |]. f_equal. lia.
    + destruct (Z.ltb_spec (cash p) (price * qty + fee)); [split; eauto |].
      cbn [cash position]. repeat split; try lia; try discriminate.
      eexists. split; [reflexivity |]. f_equal. lia.
  - destruct allow_short; cbn [negb andb].
    + cbn [cash position]. repeat split; try lia; try discriminate.
      eexists. split; [reflexivity |]. f_equal. lia.
    + destruct (Z.ltb_spec (position p) qty); [split; eauto |].
      cbn [cash position]. repeat split; try lia; try discriminate.
      eexists. split; [reflexivity |]. f_equal. lia.
Qed.

End ledger_proofs.

(** ** [sim/exchange.py]: a run of actions *)

Module engine_proofs.
Import exchange exchange_proofs.

(** A fill of this batch against the snapshot: at the counterparty's best
    price, for a positive quantity within the size shown there, with the
    notional and the fee computed from them. *)
Definition fill_of_snapshot (fm : FixedBpsFeeModel) (ts : Z)
           (snapshot : BookSnapshot) (f : Fill) : Prop :=
  ts_recv_ns f = ts /\
  price_ticks f = counter_px snapshot (side f) /\ 0 < price_ticks f /\
  0 < qty_lots f <= counter_qty snapshot (side f) /\
  notional f = price_ticks f * qty_lots f /\
  fee_atoms f = notional f * bps fm / 10000 /\ 0 <= fee_atoms f.

(** The ledger with a fill booked. *)
Definition book_fill (p : Portfolio) (f : Fill) : Portfolio :=
  filled p (side f) (qty_lots f) (notional f) (fee_atoms f).

Ltac bool_hyps :=
  repeat match goal with
         | H : (_ <=? _) = true |- _ => apply Z.leb_le in H
         | H : (_ <=? _) = false |- _ => apply Z.leb_gt in H
         | H : (_ <? _) = true |- _ => apply Z.ltb_lt in H
         | H : (_ <? _) = false |- _ => apply Z.ltb_ge in H
         end.

Lemma _execute_market_order_cases ts order book p fm sh mg ig :
  match _execute_market_order ts order book p fm sh mg ig with
  | (p', Raise _) | (p', Ok None) => p' = p
  | (p', Ok (Some f)) =>
    fill_of_snapshot fm ts book f /\ p' = book_fill p f /\
    side f = strategy_api.side order /\
    qty_lots f = strategy_api.qty_lots order /\
    (mg = false -> side f = BID -> 0 <= cash p') /\
    (sh = false -> side f = ASK -> 0 <= position p')
  end.
Proof.
  destruct order as [s qty].
  unfold _execute_market_order, fees.fee_atoms, apply_fill.
  cbn [strategy_api.side strategy_api.qty_lots].
  destruct s, mg, sh; cbn [negb andb];
    repeat match goal with
           | |- context [if ?c then _ else _] => destruct c eqn:?
           end;
    try reflexivity; bool_hyps; try lia;
      unfold fill_of_snapshot, book_fill, filled, counter_px, counter_qty;
      cbn [ts_recv_ns side price_ticks qty_lots exchange.notional
           exchange.fee_atoms cash position];
      repeat split; try reflexivity; try discriminate; try lia.
Qed.

(** The guards of a ledger that allows no margin and no shorting. *)
Definition guarded (config : RunConfig) (p' : Portfolio) (f : Fill) : Prop :=
  (allow_margin config = false -> side f = BID -> 0 <= cash p') /\
  (allow_short config = false -> side f = ASK -> 0 <= position p').

Lemma execute_action_cases config fm ts snapshot en a :
  let '(en', r) := execute_action config fm ts snapshot en a in
  let p := the_portfolio en in
  action_id en' = action_id en + 1 /\
  (the_portfolio en' = p \/
   exists f, fill_of_snapshot fm ts snapshot f /\
             the_portfolio en' = book_fill p f /\
             guarded config (the_portfolio en') f) /\
  match r with
  | Some _ => fills en' = fills en
  | None =>
    en' = action_only ts en a \/
    exists f,
      fill_of_snapshot fm ts snapshot f /\
      side f = strategy_api.side a /\
      qty_lots f = strategy_api.qty_lots a /\
      en' = action_filled ts en a (book_fill p f) f
  end.
Proof.
  unfold execute_action.
  cbn [the_portfolio fills exchange.action_id exchange.fill_id the_tape].
  pose proof (_execute_market_order_cases
                ts a snapshot (the_portfolio en) fm (allow_short config)
                (allow_margin config) (ignore_risk_rejects config)) as Hx.
  destruct (the_tape en) as [t |] eqn:Ht.
  - unfold record_action.
    destruct (action_id en + 1 <=? 0) eqn:Ha; unbind;
      [cbn; auto |].
    destruct (strategy_api.qty_lots a <=? 0) eqn:Hq; unbind;
      [cbn; auto |].
    destruct (_execute_market_order _ _ _ _ _ _ _ _) as [p' [[f |] | e]].
    + destruct Hx as (Hf & Hp & Hs & Hqty & Hg1 & Hg2).
      unfold record_fill.
      destruct (fill_id en + 1 <=? 0) eqn:H1; unbind;
        [cbn; split; [reflexivity |]; split; [| reflexivity];
         right; exists f; unfold guarded; auto |].
      rewrite Ha.
      destruct (price_ticks f <=? 0) eqn:H2; unbind;
        [cbn; split; [reflexivity |]; split; [| reflexivity];
         right; exists f; unfold guarded; auto |].
      destruct (qty_lots f <=? 0) eqn:H3; unbind;
        [cbn; split; [reflexivity |]; split; [| reflexivity];
         right; exists f; unfold guarded; auto |].
      cbn [the_portfolio fills exchange.action_id].
      split; [reflexivity |].
      split; [right; exists f; unfold guarded; auto |].
      right. exists f. split; [exact Hf |]. split; [exact Hs |].
      split; [exact Hqty |].
      unfold action_filled, action_only. rewrite Ht, Hp.
      cbn [the_tape fmap option_fmap option_map]. reflexivity.
    + cbn [the_portfolio fills exchange.action_id].
      split; [reflexivity |]. split; [left; exact Hx |].
      left. unfold action_only. rewrite Ht, Hx. reflexivity.
    + cbn [the_portfolio fills exchange.action_id]. auto.
  - destruct (_execute_market_order _ _ _ _ _ _ _ _) as [p' [[f |] | e]].
    + destruct Hx as (Hf & Hp & Hs & Hqty & Hg1 & Hg2).
      cbn [the_portfolio fills exchange.action_id].
      split; [reflexivity |].
      split; [right; exists f; unfold guarded; auto |].
      right. exists f. split; [exact Hf |]. split; [exact Hs |].
      split; [exact Hqty |].
      unfold action_filled, action_only. rewrite Ht, Hp. reflexivity.
    + cbn [the_portfolio fills exchange.action_id].
      split; [reflexivity |]. split; [left; exact Hx |].
      left. unfold action_only. rewrite Ht, Hx. reflexivity.
    + cbn [the_portfolio fills exchange.action_id]. auto.
Qed.

(** What the tape says of an action and of a fill. *)
Definition action_record (e : TapeEvent) : option (Z * (Side * Z)) :=
  match e with
  | TapeAction _ id s q => Some (id, (s, q))
  | _ => None
  end.

Definition fill_record (e : TapeEvent) : option (Z * Fill) :=
  match e with
  | TapeFill ts fid _ s px q n fee =>
    Some (fid, {| ts_recv_ns := ts; side := s; price_ticks := px;
                  qty_lots := q; notional := n; fee_atoms := fee |})
  | _ => None
  end.

Definition numbered {A} (start : Z) (l : list A) : list (Z * A) :=
  imap (fun i x => (start + Z.of_nat i, x)) l.

Lemma numbered_cons {A} (start : Z) (x : A) (l : list A) :
  numbered start (x :: l) = (start, x) :: numbered (start + 1) l.
Proof.
  unfold numbered. cbn [imap]. rewrite Z.add_0_r. f_equal.
  apply imap_ext. intros i y _. cbn. f_equal. lia.
Qed.

(** What a run of actions that ends without an exception did. *)
Definition ran (fm : FixedBpsFeeModel) (ts : Z) (snapshot : BookSnapshot)
           (en : Engine) (actions : list MarketOrder) (en' : Engine)
  : Prop :=
  exists new,
    fills en' = fills en ++ new /\
    Forall (fill_of_snapshot fm ts snapshot) new /\
    (length new <= length actions)%nat /\
    action_id en' = action_id en + Z.of_nat (length actions) /\
    fill_id en' = fill_id en + Z.of_nat (length new) /\
    the_portfolio en' = fold_left book_fill new (the_portfolio en) /\
    match the_tape en with
    | None => the_tape en' = None
    | Some t =>
      exists evs,
        the_tape en' = Some (t ++ evs) /\
        omap (M:=list) action_record evs
        = numbered (action_id en + 1)
                   (map (fun a => (strategy_api.side a,
                                   strategy_api.qty_lots a)) actions)
          /\
        omap (M:=list) fill_record evs = numbered (fill_id en + 1) new
    end.

Lemma execute_actions_ran config fm ts snapshot actions :
  forall en en',
    execute_actions config fm ts snapshot en actions = (en', None) ->
    ran fm ts snapshot en actions en'.
Proof.
  induction actions as [| a rest IH]; intros en en' Hrun.
  - cbn in Hrun. injection Hrun as <-. exists [].
    rewrite app_nil_r. cbn [length fold_left Z.of_nat].
    rewrite !Z.add_0_r.
    repeat split; try reflexivity; [constructor |].
    destruct (the_tape en) as [t |]; [| reflexivity].
    exists []. rewrite app_nil_r. repeat split; reflexivity.
  - cbn [execute_actions] in Hrun.
    pose proof (execute_action_cases config fm ts snapshot en a) as Hc.
    destruct (execute_action config fm ts snapshot en a) as [en1 [e |]];
      [discriminate |].
    destruct Hc as (Haid & _ & Hc).
    destruct (IH _ _ Hrun)
      as (new & Hfills & Hall & Hlen & Hact & Hfid & Hport & Htape).
    destruct Hc as [-> | (f & Hf & Hs & Hq & ->)].
    + (* no fill *)
      exists new.
      cbn [action_only fills the_portfolio exchange.action_id
           exchange.fill_id the_tape] in *.
      split; [exact Hfills |]. split; [exact Hall |].
      split; [cbn [length]; lia |].
      split; [cbn [length]; lia |].
      split; [exact Hfid |]. split; [exact Hport |].
      destruct (the_tape en) as [t |]; cbn [fmap option_fmap option_map] in *;
        [| exact Htape].
      destruct Htape as (evs & Ht & Hacts & Hfs).
      exists (TapeAction ts (action_id en + 1) (strategy_api.side a)
                         (strategy_api.qty_lots a) :: evs).
      split; [rewrite Ht, <- app_assoc; reflexivity |].
      cbn [omap list_omap action_record fill_record map].
      rewrite numbered_cons. split; [f_equal; exact Hacts | exact Hfs].
    + (* a fill *)
      exists (f :: new).
      cbn [action_filled action_only fills the_portfolio exchange.action_id
           exchange.fill_id the_tape] in *.
      split; [rewrite Hfills, <- app_assoc; reflexivity |].
      split; [constructor; assumption |].
      split; [cbn [length]; lia |].
      split; [cbn [length]; lia |].
      split; [cbn [length]; lia |].
      split; [exact Hport |].
      destruct (the_tape en) as [t |]; cbn [fmap option_fmap option_map] in *;
        [| exact Htape].
      destruct Htape as (evs & Ht & Hacts & Hfs).
      exists (TapeAction ts (action_id en + 1) (strategy_api.side a)
                         (strategy_api.qty_lots a)
              :: TapeFill ts (fill_id en + 1) (action_id en + 1) (side f)
                          (price_ticks f) (qty_lots f) (notional f)
                          (fee_atoms f) :: evs).
      split; [rewrite Ht, <- !app_assoc; reflexivity |].
      cbn [omap list_omap action_record fill_record map].
      rewrite !numbered_cons. split; [f_equal; exact Hacts |].
      f_equal; [| exact Hfs]. f_equal.
      destruct Hf as (Hts & _). destruct f; cbn in *. subst. reflexivity.
Qed.

(** A run of actions that ends without an exception: every action is
    counted; the new fills are appended to the old ones, at most one per
    action, each at the counterparty's best price of the snapshot for a
    positive quantity within the size shown, and each counted; the ledger
    is the old one with the new fills booked in order; and an open tape
    has one action record per action and one fill record per fill, with
    consecutive ids, the fill records being the new fills. *)
Theorem execute_actions_accounts config fm ts snapshot en actions en' :
  execute_actions config fm ts snapshot en actions = (en', None) ->
  exists new,
    fills en' = fills en ++ new /\
    Forall (fill_of_snapshot fm ts snapshot) new /\
    (length new <= length actions)%nat /\
    action_id en' = action_id en + Z.of_nat (length actions) /\
    fill_id en' = fill_id en + Z.of_nat (length new) /\
    the_portfolio en' = fold_left book_fill new (the_portfolio en) /\
    match the_tape en with
    | None => the_tape en' = None
    | Some t =>
      exists evs,
        the_tape en' = Some (t ++ evs) /\
        omap (M:=list) action_record evs
        = numbered (action_id en + 1)
                   (map (fun a => (strategy_api.side a,
                                   strategy_api.qty_lots a)) actions)
          /\
        omap (M:=list) fill_record evs = numbered (fill_id en + 1) new
    end.
Proof. apply execute_actions_ran. Qed.

Definition test_snapshot : BookSnapshot :=
  {| bid_px := 99; bid_qty := 5; ask_px := 101; ask_qty := 5 |}.

Definition test_config : RunConfig :=
  {| initial_cash := 1000; initial_position := 0; allow_short := false;
     allow_margin := false; skip_initial_missing_book := false;
     ignore_risk_rejects := true |}.

Definition test_engine : Engine :=
  {| the_portfolio := {| cash := 1000; position := 0 |}; fills := [];
     action_id := 0; fill_id := 0; the_tape := Some [] |}.

(** A buy, a sell that is filled, and a sell that the risk check drops. *)
Definition test_actions : list MarketOrder :=
  [ {| strategy_api.side := BID; strategy_api.qty_lots := 2 |};
    {| strategy_api.side := ASK; strategy_api.qty_lots := 1 |};
    {| strategy_api.side := ASK; strategy_api.qty_lots := 2 |} ].

Lemma execute_actions_accounts_witness :
  exists en',
    execute_actions test_config {| bps := 10 |} 7 test_snapshot test_engine
                    test_actions = (en', None) /\
    action_id en' = 3 /\ fill_id en' = 2.
Proof.
  eexists. split; [vm_compute; reflexivity |].
  destruct (execute_actions_accounts
              test_config {| bps := 10 |} 7 test_snapshot test_engine
              test_actions _ ltac:(vm_compute; reflexivity))
    as (new & Hfills & _ & _ & Hact & Hfid & _).
  split; [exact Hact |].
  assert (Hnew : length new = 2%nat).
  { apply (f_equal length) in Hfills. rewrite length_app in Hfills.
    cbn in Hfills. lia. }
  rewrite Hfid, Hnew. reflexivity.
Defined.

Lemma execute_actions_portfolio config fm ts snapshot actions :
  forall en (P : Portfolio -> Prop),
    P (the_portfolio en) ->
    (forall p f, P p -> fill_of_snapshot fm ts snapshot f ->
                 guarded config (book_fill p f) f -> P (book_fill p f)) ->
    P (the_portfolio (execute_actions config fm ts snapshot en actions).1).
Proof.
  induction actions as [| a rest IH]; intros en P H0 Hstep; [exact H0 |].
  cbn [execute_actions].
  pose proof (execute_action_cases config fm ts snapshot en a) as Hc.
  destruct (execute_action config fm ts snapshot en a) as [en1 [e |]];
    destruct Hc as (_ & Hp & _).
  - cbn [fst].
    destruct Hp as [-> | (f & Hf & Hp & Hg)]; [exact H0 |].
    rewrite Hp in *. apply Hstep; assumption.
  - apply IH; [| exact Hstep].
    destruct Hp as [-> | (f & Hf & Hp & Hg)]; [exact H0 |].
    rewrite Hp in *. apply Hstep; assumption.
Qed.

(** Without margin and without shorting, under a fee model of 0..10000
    bps, a run of actions never leaves negative cash or a negative
    position, whether it ends normally or in an exception. *)
Theorem execute_actions_no_debt config fm ts snapshot en actions :
  allow_margin config = false -> allow_short config = false ->
  0 <= bps fm <= 10000 ->
  0 <= cash (the_portfolio en) -> 0 <= position (the_portfolio en) ->
  let en' := (execute_actions config fm ts snapshot en actions).1 in
  0 <= cash (the_portfolio en') /\ 0 <= position (the_portfolio en').
Proof.
  intros Hm Hs Hb Hc Hp en'. subst en'.
  apply (execute_actions_portfolio
           config fm ts snapshot actions en
           (fun p => 0 <= cash p /\ 0 <= position p)); [auto |].
  intros p f [Hc' Hp'] Hf [Hg1 Hg2].
  destruct Hf as (_ & _ & Hpx & Hq & Hn & Hfee & Hfee0).
  unfold book_fill, filled in *.
  destruct (side f); cbn [cash position] in *.
  - split; [apply Hg1; auto | lia].
  - split; [| apply Hg2; auto].
    assert (0 <= notional f) by nia.
    assert (fee_atoms f <= notional f).
    { rewrite Hfee. apply Z.div_le_upper_bound; nia. }
    lia.
Qed.

Lemma execute_actions_no_debt_witness :
  0 <= cash (the_portfolio
               (execute_actions test_config {| bps := 10 |} 7 test_snapshot
                                test_engine test_actions).1).
Proof.
  apply (execute_actions_no_debt
           test_config {| bps := 10 |} 7 test_snapshot test_engine
           test_actions);
    first [reflexivity | cbn; lia].
Defined.

End engine_proofs.

(** ** [book/book_py.py]: what a batch does to the levels *)

Module book_level_proofs.
Import bisect_proofs book_proofs.

#[local] Instance Side_eq_dec : EqDecision Side.
Proof. solve_decision. Defined.

(** The size the book holds at a price of a side. *)
Definition size_at (b : BookPy) (s : Side) (p : Z) : option Z :=
  match s with BID => _bids b !! p | ASK => _asks b !! p end.

Definition prices_of (b : BookPy) (s : Side) : list Z :=
  match s with BID => _bid_prices b | ASK => _ask_prices b end.

(** The level an update leaves: none for the amount 0. *)
Definition level_of_amount (a : Z) : option Z :=
  if a =? 0 then None else Some a.

Lemma _apply_level_lookup levels prices price amount q :
  (_apply_level levels prices price amount).1 !! q
  = if decide (q = price) then level_of_amount amount else levels !! q.
Proof.
  unfold _apply_level, level_of_amount.
  destruct (amount =? 0).
  - case_bool_decide as Hin; cbn [fst].
    + destruct (decide (q = price)) as [-> | Hne];
        [apply lookup_delete_eq | apply lookup_delete_ne; congruence].
    + destruct (decide (q = price)) as [-> | Hne]; [| reflexivity].
      destruct (levels !! price) eqn:E; [| reflexivity].
      exfalso. apply Hin. eauto.
  - cbn [fst]. destruct (decide (q = price)) as [-> | Hne];
      [apply lookup_insert_eq | apply lookup_insert_ne; congruence].
Qed.

Lemma _apply_update_size b u b' :
  _apply_update b u = Ok b' ->
  forall s p,
    size_at b' s p
    = if decide (s = evlog_types.side u /\ p = price_ticks u)
      then level_of_amount (amount_lots u)
      else size_at b s p.
Proof.
  unfold _apply_update.
  destruct (Z.leb_spec (price_ticks u) 0); [discriminate |].
  destruct (Z.ltb_spec (amount_lots u) 0); [discriminate |].
  destruct (evlog_types.side u) eqn:Hs.
  - pose proof (_apply_level_lookup (_bids b) (_bid_prices b)
                                    (price_ticks u) (amount_lots u)) as Hl.
    destruct (_apply_level _ _ _ _) as [l' p']. cbn [fst] in Hl.
    intros [= <-] s p. destruct s; cbn [size_at _bids _asks].
    + rewrite Hl. repeat case_decide; try reflexivity; tauto.
    + case_decide as Hd; [destruct Hd; discriminate | reflexivity].
  - pose proof (_apply_level_lookup (_asks b) (_ask_prices b)
                                    (price_ticks u) (amount_lots u)) as Hl.
    destruct (_apply_level _ _ _ _) as [l' p']. cbn [fst] in Hl.
    intros [= <-] s p. destruct s; cbn [size_at _bids _asks].
    + case_decide as Hd; [destruct Hd; discriminate | reflexivity].
    + rewrite Hl. repeat case_decide; try reflexivity; tauto.
Qed.

(** One update: invalid values raise a SchemaError before anything is
    changed; a valid update sets the level at its side and price to its
    amount, drops it for the amount 0, and leaves every other level as it
    was; on a consistent book the price array of the side lists the price
    exactly when the amount is not 0. *)
Theorem _apply_update_level (b : BookPy) (u : L2Update) :
  match _apply_update b u with
  | Raise e =>
    (price_ticks u <= 0 \/ amount_lots u < 0) /\
    exists msg, e = SchemaError msg
  | Ok b' =>
    0 < price_ticks u /\ 0 <= amount_lots u /\
    size_at b' (evlog_types.side u) (price_ticks u)
    = level_of_amount (amount_lots u) /\
    (forall s p, ~ (s = evlog_types.side u /\ p = price_ticks u) ->
                 size_at b' s p = size_at b s p) /\
    (book_ok b ->
     (price_ticks u ∈ prices_of b' (evlog_types.side u)
      <-> amount_lots u <> 0) /\
     forall s p, ~ (s = evlog_types.side u /\ p = price_ticks u) ->
                 (p ∈ prices_of b' s <-> p ∈ prices_of b s))
  end.
Proof.
  destruct (_apply_update b u) as [b' | e] eqn:Hu.
  - pose proof (_apply_update_size b u b' Hu) as Hsz.
    assert (Hv : 0 < price_ticks u /\ 0 <= amount_lots u).
    { unfold _apply_update in Hu.
      destruct (Z.leb_spec (price_ticks u) 0); [discriminate |].
      destruct (Z.ltb_spec (amount_lots u) 0); [discriminate |]. lia. }
    destruct Hv as [Hp Ha]. split; [exact Hp |]. split; [exact Ha |].
    split; [rewrite Hsz; case_decide; [reflexivity | tauto] |].
    split; [intros s p Hne; rewrite Hsz; case_decide; [tauto | reflexivity] |].
    intros Hok.
    destruct (_apply_update_ok b u b' Hok Hu) as [[Hb' Ha'] _].
    destruct Hok as [Hb0 Ha0].
    assert (Hin : forall bk s p, book_ok bk ->
               (p ∈ prices_of bk s <-> is_Some (size_at bk s p))).
    { intros bk s p [[_ Hk1 _] [_ Hk2 _]]. destruct s; [apply Hk1 | apply Hk2]. }
    assert (Hok' : book_ok b') by (split; assumption).
    assert (Hok0 : book_ok b) by (split; assumption).
    split.
    + rewrite (Hin b' _ _ Hok'), Hsz.
      case_decide; [| tauto]. unfold level_of_amount.
      destruct (Z.eqb_spec (amount_lots u) 0) as [-> | Hnz].
      * split; [intros []; discriminate | congruence].
      * split; [intros _; exact Hnz | eauto].
    + intros s p Hne. rewrite (Hin b' _ _ Hok'), (Hin b _ _ Hok0), Hsz.
      case_decide; [tauto | reflexivity].
  - unfold _apply_update in Hu.
    destruct (Z.leb_spec (price_ticks u) 0);
      [injection Hu as <-; split; [lia | eauto] |].
    destruct (Z.ltb_spec (amount_lots u) 0);
      [injection Hu as <-; split; [lia | eauto] |].
    destruct (evlog_types.side u);
      destruct (_apply_level _ _ _ _); discriminate.
Qed.

(** The amount of the last update of [us] for a side and price. *)
Fixpoint last_amount (us : list L2Update) (s : Side) (p : Z) : option Z :=
  match us with
  | [] => None
  | u :: rest =>
    match last_amount rest s p with
    | Some a => Some a
    | None =>
      if bool_decide (s = evlog_types.side u /\ p = price_ticks u)
      then Some (amount_lots u) else None
    end
  end.

Lemma apply_updates_size us : forall b b',
  apply_updates b us = (b', Ok tt) ->
  forall s p,
    size_at b' s p
    = match last_amount us s p with
      | Some a => level_of_amount a
      | None => size_at b s p
      end.
Proof.
  induction us as [| u rest IH]; intros b b' Hrun s p.
  - cbn in Hrun. injection Hrun as <-. reflexivity.
  - cbn [apply_updates] in Hrun.
    destruct (_apply_update b u) as [b1 | e] eqn:Hu; [| discriminate].
    rewrite (IH _ _ Hrun). cbn [last_amount].
    destruct (last_amount rest s p); [reflexivity |].
    rewrite (_apply_update_size _ _ _ Hu).
    case_bool_decide; case_decide; tauto.
Qed.

Lemma apply_updates_app us1 : forall b us2,
  apply_updates b (us1 ++ us2)
  = match apply_updates b us1 with
    | (b1, Ok _) => apply_updates b1 us2
    | (b1, Raise e) => (b1, Raise e)
    end.
Proof.
  induction us1 as [| u rest IH]; intros b us2; [reflexivity |].
  cbn [app apply_updates].
  destruct (_apply_update b u); [apply IH | reflexivity].
Qed.

(** A batch that [apply_l2_batch] accepts: every level the batch
    mentions holds the amount of the batch's last update for it (no level
    for the amount 0); a level the batch does not mention is kept, or
    dropped when the batch resets the book.  So the book after a
    resetting batch does not depend on the book before it. *)
Theorem apply_l2_batch_levels (b b' : BookPy) (batch : L2Batch) :
  apply_l2_batch b batch = (b', Ok tt) ->
  forall s p,
    size_at b' s p
    = match last_amount (updates batch) s p with
      | Some a => level_of_amount a
      | None => if resets_book batch then None else size_at b s p
      end.
Proof.
  unfold apply_l2_batch. intros Hrun s p.
  destruct (apply_updates (if resets_book batch then reset b else b)
                          (updates batch)) as [b1 [[] | e]] eqn:Hu;
    [| discriminate].
  assert (b1 = b') as ->.
  { destruct (_reject_crossed b1); [| congruence].
    destruct (_check_crossed b1); congruence. }
  rewrite (apply_updates_size _ _ _ Hu).
  destruct (last_amount (updates batch) s p); [reflexivity |].
  destruct (resets_book batch); [| reflexivity].
  destruct s; cbn [size_at reset _bids _asks]; apply lookup_empty.
Qed.

Definition two_level_batch : L2Batch :=
  {| evlog_types.ts_recv_ns := 1; ts_exch_ns := 1; resets_book := true;
     updates :=
       [ {| evlog_types.side := BID; price_ticks := 10; amount_lots := 5;
            is_snapshot := true |};
         {| evlog_types.side := ASK; price_ticks := 12; amount_lots := 7;
            is_snapshot := true |};
         {| evlog_types.side := BID; price_ticks := 10; amount_lots := 3;
            is_snapshot := true |} ] |}.

Lemma apply_l2_batch_levels_witness :
  size_at (apply_l2_batch (BookPy_new true) two_level_batch).1 BID 10
  = Some 3.
Proof.
  rewrite (apply_l2_batch_levels
             (BookPy_new true)
             (apply_l2_batch (BookPy_new true) two_level_batch).1
             two_level_batch ltac:(vm_compute; reflexivity) BID 10).
  vm_compute. reflexivity.
Defined.

(** A batch with an invalid update is applied up to that update: the
    call raises the update's SchemaError and leaves the book with the
    updates before it applied (after the reset, if the batch resets). *)
Theorem apply_l2_batch_partial (b : BookPy) (batch : L2Batch)
        (before after : list L2Update) (u : L2Update) :
  updates batch = before ++ u :: after ->
  Forall valid_update before -> ~ valid_update u ->
  exists b1 msg,
    apply_updates (if resets_book batch then reset b else b) before
    = (b1, Ok tt) /\
    apply_l2_batch b batch = (b1, Raise (SchemaError msg)).
Proof.
  intros Hus Hvalid Hbad. unfold apply_l2_batch. rewrite Hus.
  rewrite apply_updates_app.
  set (b0 := if resets_book batch then reset b else b). clearbody b0.
  assert (Hpre : exists b1, apply_updates b0 before = (b1, Ok tt)).
  { clear Hus. revert b0. induction Hvalid as [| v vs [Hp Ha] _ IH];
      intros b0; [eexists; reflexivity |].
    cbn [apply_updates]. unfold _apply_update.
    destruct (Z.leb_spec (price_ticks v) 0); [lia |].
    destruct (Z.ltb_spec (amount_lots v) 0); [lia |].
    destruct (evlog_types.side v);
      destruct (_apply_level _ _ _ _); apply IH. }
  destruct Hpre as [b1 Hpre]. rewrite Hpre. cbn [apply_updates].
  unfold _apply_update, valid_update in *.
  destruct (Z.leb_spec (price_ticks u) 0); [eauto |].
  destruct (Z.ltb_spec (amount_lots u) 0); [eauto |]. lia.
Qed.

Definition bad_tail_batch : L2Batch :=
  {| evlog_types.ts_recv_ns := 1; ts_exch_ns := 1; resets_book := false;
     updates :=
       [ {| evlog_types.side := BID; price_ticks := 10; amount_lots := 5;
            is_snapshot := false |};
         {| evlog_types.side := BID; price_ticks := 0; amount_lots := 1;
            is_snapshot := false |} ] |}.

Lemma apply_l2_batch_partial_witness :
  exists b1 msg,
    apply_l2_batch (BookPy_new true) bad_tail_batch
    = (b1, Raise (SchemaError msg)) /\
    size_at b1 BID 10 = Some 5.
Proof.
  destruct (apply_l2_batch_partial
              (BookPy_new true) bad_tail_batch
              [ {| evlog_types.side := BID; price_ticks := 10;
                   amount_lots := 5; is_snapshot := false |} ]
              []
              {| evlog_types.side := BID; price_ticks := 0;
                 amount_lots := 1; is_snapshot := false |})
    as (b1 & msg & Hpre & Hrun).
  - reflexivity.
  - constructor; [unfold valid_update; cbn; lia | constructor].
  - unfold valid_update. cbn. lia.
  - exists b1, msg. split; [exact Hrun |].
    vm_compute in Hpre. injection Hpre as <-. vm_compute. reflexivity.
Defined.

(** *** The book is determined by its levels *)

Lemma sorted_prices_unique (l1 l2 : list Z) :
  StronglySorted Z.lt l1 -> StronglySorted Z.lt l2 ->
  (forall p, p ∈ l1 <-> p ∈ l2) -> l1 = l2.
Proof.
  intros H1 H2 Hin.
  apply (StronglySorted_unique_strong Z.lt); [intros; lia | assumption ..|].
  apply NoDup_Permutation; auto using StronglySorted_lt_NoDup.
Qed.

Lemma book_determined (b1 b2 : BookPy) :
  book_ok b1 -> book_ok b2 -> _reject_crossed b1 = _reject_crossed b2 ->
  (forall s p, size_at b1 s p = size_at b2 s p) -> b1 = b2.
Proof.
  intros [[Hs1 Hk1 _] [Hs1' Hk1' _]] [[Hs2 Hk2 _] [Hs2' Hk2' _]] Hrc Hsz.
  destruct b1 as [rc1 bids1 asks1 bp1 ap1], b2 as [rc2 bids2 asks2 bp2 ap2].
  cbn in *.
  assert (bids1 = bids2) as -> by (apply map_eq; intros p; apply (Hsz BID p)).
  assert (asks1 = asks2) as -> by (apply map_eq; intros p; apply (Hsz ASK p)).
  assert (bp1 = bp2) as ->.
  { apply sorted_prices_unique; [assumption .. |].
    intros p. rewrite Hk1, Hk2. reflexivity. }
  assert (ap1 = ap2) as ->.
  { apply sorted_prices_unique; [assumption .. |].
    intros p. rewrite Hk1', Hk2'. reflexivity. }
  subst. reflexivity.
Qed.

Lemma apply_updates_flag us : forall b b' r,
  apply_updates b us = (b', r) -> book_ok b ->
  book_ok b' /\ _reject_crossed b' = _reject_crossed b.
Proof.
  induction us as [| u rest IH]; intros b b' r Hrun Hok.
  - cbn in Hrun. injection Hrun as <- _. auto.
  - cbn [apply_updates] in Hrun.
    destruct (_apply_update b u) as [b1 | e] eqn:Hu.
    + destruct (_apply_update_ok _ _ _ Hok Hu) as [Hok1 Hrc1].
      destruct (IH _ _ _ Hrun Hok1) as [Hok' Hrc']. split; congruence.
    + injection Hrun as <- _. auto.
Qed.

(** On a consistent book, two runs of updates that both succeed and set
    the same last amount for every level leave the same book: the order
    of updates of different levels, and updates overwritten later in the
    run, do not matter. *)
Theorem apply_updates_last_wins (b b1 b2 : BookPy) (us1 us2 : list L2Update) :
  book_ok b ->
  apply_updates b us1 = (b1, Ok tt) ->
  apply_updates b us2 = (b2, Ok tt) ->
  (forall s p,
      level_of_amount <$> last_amount us1 s p
      = level_of_amount <$> last_amount us2 s p) ->
  b1 = b2.
Proof.
  intros Hok H1 H2 Hlast.
  destruct (apply_updates_flag _ _ _ _ H1 Hok) as [Hok1 Hrc1].
  destruct (apply_updates_flag _ _ _ _ H2 Hok) as [Hok2 Hrc2].
  apply book_determined; [assumption | assumption | congruence |].
  intros s p.
  rewrite (apply_updates_size _ _ _ H1), (apply_updates_size _ _ _ H2).
  specialize (Hlast s p).
  destruct (last_amount us1 s p), (last_amount us2 s p);
    cbn in Hlast; congruence.
Qed.

Definition bid_10_5 : L2Update :=
  {| evlog_types.side := BID; price_ticks := 10; amount_lots := 5;
     is_snapshot := false |}.

Definition ask_12_7 : L2Update :=
  {| evlog_types.side := ASK; price_ticks := 12; amount_lots := 7;
     is_snapshot := false |}.

Lemma apply_updates_last_wins_witness :
  (apply_updates (BookPy_new true) [bid_10_5; ask_12_7]).1
  = (apply_updates (BookPy_new true) [ask_12_7; bid_10_5; bid_10_5]).1.
Proof.
  apply (apply_updates_last_wins
           (BookPy_new true) _ _ [bid_10_5; ask_12_7]
           [ask_12_7; bid_10_5; bid_10_5]).
  - apply BookPy_new_ok.
  - vm_compute. reflexivity.
  - vm_compute. reflexivity.
  - intros s p. cbn [last_amount bid_10_5 ask_12_7 evlog_types.side
                     price_ticks amount_lots].
    repeat case_bool_decide; try reflexivity;
      repeat match goal with H : _ /\ _ |- _ => destruct H end;
      subst; try discriminate; try tauto; try lia.
Defined.

End book_level_proofs.

(** ** [struct]: packing what was unpacked *)

Module bytes_proofs.
Import struct_proofs.

Lemma byte_of_Z_of_byte (b : byte) : byte_of_Z (Z_of_byte b) = b.
Proof.
  unfold byte_of_Z, Z_of_byte.
  pose proof (Z_of_byte_range b) as Hr. unfold Z_of_byte in Hr.
  rewrite Z.mod_small by lia. rewrite N2Z.id, Byte.of_to_N. reflexivity.
Qed.

Lemma le_int_range (bs : list byte) :
  0 <= le_int bs < 2 ^ (8 * Z.of_nat (length bs)).
Proof.
  induction bs as [| b bs IH]; [cbn; lia |].
  cbn [le_int length]. pose proof (Z_of_byte_range b).
  replace (8 * Z.of_nat (S (length bs)))
    with (8 + 8 * Z.of_nat (length bs)) by lia.
  rewrite Z.pow_add_r by lia. change (2 ^ 8) with 256. lia.
Qed.

Lemma le_bytes_le_int (bs : list byte) :
  le_bytes (length bs) (le_int bs) = bs.
Proof.
  induction bs as [| b bs IH]; [reflexivity |].
  cbn [length le_bytes le_int]. pose proof (Z_of_byte_range b) as Hb.
  replace (Z_of_byte b + 256 * le_int bs)
    with (Z_of_byte b + le_int bs * 256) by lia.
  f_equal.
  - unfold byte_of_Z. rewrite Z.mod_add by lia.
    rewrite Z.mod_small by lia. unfold Z_of_byte.
    rewrite N2Z.id, Byte.of_to_N. reflexivity.
  - rewrite Z.div_add by lia.
    rewrite Z.div_small by lia. exact IH.
Qed.

(** A signed 64-bit field read from 8 bytes is an int64, and packing it
    gives the 8 bytes back. *)
Lemma unpack_signed_8 (bs : list byte) :
  length bs = 8%nat ->
  - 2 ^ 63 <= unpack_signed 8 bs < 2 ^ 63 /\
  le_bytes 8 (unpack_signed 8 bs mod 2 ^ 64) = bs.
Proof.
  intros Hl. unfold unpack_signed.
  pose proof (le_int_range bs) as Hr. rewrite Hl in Hr.
  change (8 * Z.of_nat 8) with 64 in *. change (64 - 1) with 63.
  assert (H64 : 2 ^ 64 = 2 * 2 ^ 63) by reflexivity.
  assert (Hpos : 0 < 2 ^ 63) by reflexivity.
  destruct (Z.ltb_spec (le_int bs) (2 ^ 63)).
  - split; [lia |]. rewrite Z.mod_small by lia.
    rewrite <- Hl. apply le_bytes_le_int.
  - split; [lia |].
    rewrite <- (Z.mod_add _ 1) by lia.
    replace (le_int bs - 2 ^ 64 + 1 * 2 ^ 64) with (le_int bs) by lia.
    rewrite Z.mod_small by lia. rewrite <- Hl. apply le_bytes_le_int.
Qed.

End bytes_proofs.

(** ** [evlog/index.py]: what [read_index] accepts *)

Module index_read_proofs.
Import index struct_proofs index_proofs bytes_proofs.

Lemma _unpack_header_cases (data : list byte) :
  _unpack_header data = Ok tt \/
  exists msg, _unpack_header data = Raise (SchemaError msg).
Proof.
  unfold _unpack_header. change INDEX_HEADER_SIZE with 16%nat.
  destruct (Nat.eqb_spec (length data) 16) as [Hl | Hl]; cbn [negb];
    [| eauto].
  unfold unpack. change (calcsize INDEX_HEADER_FMT) with 16%nat.
  rewrite Hl. cbn [Nat.eqb negb]. unbind.
  cbn [unpack_fields INDEX_HEADER_FMT code_size].
  repeat match goal with
         | |- context [if ?c then _ else _] => destruct c
         end; eauto.
Qed.

Lemma unpack_from_entry (data : list byte) (off : nat) :
  (off + 16 <= length data)%nat ->
  unpack_from INDEX_ENTRY_FMT data off
  = Ok [VInt (unpack_signed 8 (take 8 (drop off data)));
        VInt (unpack_signed 8 (take 8 (drop (off + 8) data)))].
Proof.
  intros Hl. unfold unpack_from. change (calcsize INDEX_ENTRY_FMT) with 16%nat.
  destruct (Nat.ltb_spec (length data) (off + 16)); [lia |].
  cbn [unpack_fields INDEX_ENTRY_FMT code_size].
  rewrite take_take.
  change (drop 8 (take 16 (drop off data)))
    with (drop 8 (take (8 + 8) (drop off data))).
  rewrite <- take_drop_commute, take_take, drop_drop.
  reflexivity.
Qed.

(** The loop of [read_index], on any bytes: the entries it returns are
    64-bit, pass the checks against [prev], and are what the bytes hold;
    when it raises, it raises a SchemaError. *)
Lemma read_entries_sound (n : nat) : forall data off prev,
  (off + n * 16 <= length data)%nat ->
  match read_entries n data off (prev_ts prev) (prev_offset prev) with
  | Ok es =>
    length es = n /\ Forall entry_int64 es /\ index_ok prev es /\
    take (n * 16) (drop off data) = concat (map raw_entry es)
  | Raise e => exists msg, e = SchemaError msg
  end.
Proof.
  induction n as [| n IH]; intros data off prev Hl.
  - cbn. repeat split; constructor.
  - cbn [read_entries]. rewrite unpack_from_entry by lia. unbind.
    set (ts := unpack_signed 8 (take 8 (drop off data))).
    set (ro := unpack_signed 8 (take 8 (drop (off + 8) data))).
    destruct (unpack_signed_8 (take 8 (drop off data))) as [Hts Hbts].
    { rewrite length_take, length_drop. lia. }
    destruct (unpack_signed_8 (take 8 (drop (off + 8) data))) as [Hro Hbro].
    { rewrite length_take, length_drop. lia. }
    fold ts in Hts, Hbts. fold ro in Hro, Hbro.
    destruct (entry_checks prev {| ts_recv_ns := ts; offset := ro |})
      as [(H0 & H1 & Hp & E1 & E2 & E3 & E4) | (_ & Hbad)];
      cbn [ts_recv_ns offset] in *.
    + rewrite E1, E2, E3, E4. change INDEX_ENTRY_SIZE with 16%nat.
      specialize (IH data (off + 16)%nat
                     (Some {| ts_recv_ns := ts; offset := ro |})
                     ltac:(lia)).
      cbn [prev_ts prev_offset fmap option_fmap option_map ts_recv_ns offset]
        in IH.
      destruct (read_entries n data (off + 16) (Some ts) (Some ro))
        as [es | e]; unbind; [| exact IH].
      destruct IH as (Hlen & H64 & Hok & Hbytes).
      split; [cbn; lia |].
      split; [constructor; [split; unfold int64; cbn [ts_recv_ns offset]; lia
                         | exact H64] |].
      split; [cbn [index_ok ts_recv_ns offset]; auto |].
      cbn [map concat]. rewrite <- Hbytes. unfold raw_entry.
      cbn [ts_recv_ns offset]. rewrite Hbts, Hbro.
      replace (S n * 16)%nat with (8 + (8 + n * 16))%nat by lia.
      rewrite <- app_assoc.
      rewrite <- (take_take_drop (drop off data) 8 (8 + n * 16)).
      rewrite drop_drop.
      rewrite <- (take_take_drop (drop (off + 8) data) 8 (n * 16)).
      rewrite drop_drop.
      replace (off + 8 + 8)%nat with (off + 16)%nat by lia.
      reflexivity.
    + destruct Hbad
        as [E1 | [(E1 & E2) | [(E1 & E2 & E3) | (E1 & E2 & E3 & E4)]]];
        rewrite ?E1, ?E2, ?E3, ?E4; eauto.
Qed.

(** [read_index] on any bytes: it returns an index that satisfies the
    invariants of an index, whose fields are 64-bit, and that is what the
    bytes after the 16-byte header hold, so that [write_index] accepts it
    and writes these bytes again; or it raises a SchemaError. *)
Theorem read_index_sound (file : list byte) :
  match read_index file with
  | Ok es =>
    index_valid es /\ Forall entry_int64 es /\
    file = take 16 file ++ concat (map raw_entry es) /\
    write_index es = (raw_index es, Ok (Z.of_nat (length es))) /\
    read_index (raw_index es) = Ok es
  | Raise e => exists msg, e = SchemaError msg
  end.
Proof.
  unfold read_index at 1. unfold read, read_all, open_rb. cbn [content pos].
  change (Z.to_nat 0) with 0%nat. rewrite drop_0.
  change (Z.to_nat (Z.of_nat INDEX_HEADER_SIZE)) with 16%nat.
  destruct (_unpack_header_cases (take 16 file)) as [Hh | [msg Hh]];
    rewrite Hh; unbind; [| eauto].
  assert (Hlen : length (take 16 file) = 16%nat).
  { unfold _unpack_header in Hh. change INDEX_HEADER_SIZE with 16%nat in Hh.
    destruct (Nat.eqb_spec (length (take 16 file)) 16); [assumption |].
    discriminate. }
  rewrite Z.add_0_l, Nat2Z.id, Hlen.
  change INDEX_ENTRY_SIZE with 16%nat.
  set (data := drop 16 file).
  destruct (Nat.eqb_spec (length data mod 16) 0) as [Hm | Hm]; cbn [negb];
    [| eauto].
  pose proof (Nat.div_mod_eq (length data) 16) as Hdm. rewrite Hm in Hdm.
  pose proof (read_entries_sound (length data / 16) data 0 None
                                 ltac:(lia)) as Hr.
  cbn [prev_ts prev_offset fmap option_fmap option_map] in Hr.
  destruct (read_entries (length data / 16) data 0 None None) as [es | e];
    [| exact Hr].
  destruct Hr as (Hn & H64 & Hok & Hbytes).
  rewrite drop_0, take_ge in Hbytes by lia.
  split; [apply index_ok_None, Hok |]. split; [exact H64 |].
  split; [rewrite <- Hbytes; subst data; symmetry; apply take_drop |].
  unfold write_index, _write_entries. rewrite _pack_header_eq.
  rewrite read_index_raw.
  destruct (_write_entries_loop_spec es H64 index_header 0 None)
    as [[_ Hw] | [Hno _]]; [| contradiction].
  destruct (read_entries_spec es H64 [] None)
    as [[_ Hrd] | [Hno _]]; [| contradiction].
  cbn [prev_ts prev_offset fmap option_fmap option_map app length]
    in Hw, Hrd.
  rewrite Hw, Hrd. split; reflexivity.
Qed.

End index_read_proofs.

(** ** [evlog/reader.py]: what the reader yields from any bytes *)

Module reader_proofs.
Import struct_proofs index_proofs evlog_proofs bytes_proofs book_proofs.

Lemma int64_signed_8 (l : list byte) (k : nat) :
  (k + 8 <= length l)%nat -> int64 (unpack_signed 8 (take 8 (drop k l))).
Proof.
  intros H. apply unpack_signed_8. rewrite length_take, length_drop. lia.
Qed.

Lemma le_int_take (l : list byte) (n : nat) :
  0 <= le_int (take n l) < 2 ^ (8 * Z.of_nat n).
Proof.
  pose proof (le_int_range (take n l)) as H.
  assert (length (take n l) <= n)%nat by (rewrite length_take; lia).
  assert (2 ^ (8 * Z.of_nat (length (take n l))) <= 2 ^ (8 * Z.of_nat n))
    by (apply Z.pow_le_mono_r; lia).
  lia.
Qed.

(** The loop over the updates of a payload, on any bytes. *)
Lemma decode_updates_sound (n : nat) : forall payload off,
  (off + n * 24 <= length payload)%nat ->
  match reader.decode_updates n payload off with
  | Ok us => length us = n /\ Forall update_ok us
  | Raise e => exists msg, e = SchemaError msg
  end.
Proof.
  induction n as [| n IH]; intros payload off Hl; [cbn; auto |].
  cbn [reader.decode_updates]. unfold unpack_from.
  change (calcsize L2_UPDATE_FMT) with 24%nat.
  destruct (Nat.ltb_spec (length payload) (off + 24)); [lia |]. unbind.
  cbn [unpack_fields L2_UPDATE_FMT code_size].
  set (chunk := take 24 (drop off payload)).
  assert (Hc : length chunk = 24%nat).
  { subst chunk. rewrite length_take, length_drop. lia. }
  destruct (negb (_ =? 0) || negb (_ =? 0)); [eauto |].
  destruct (Side_of_Z _) as [s |]; [| eauto].
  destruct (negb _); [eauto |].
  match goal with
  | |- context [if ?p <=? 0 then _ else _] => destruct (Z.leb_spec p 0)
  end; [eauto |].
  match goal with
  | |- context [if ?a <? 0 then _ else _] => destruct (Z.ltb_spec a 0)
  end; [eauto |].
  change L2_UPDATE_SIZE with 24%nat.
  specialize (IH payload (off + 24)%nat ltac:(lia)).
  destruct (reader.decode_updates n payload (off + 24)) as [us | e];
    unbind; [| exact IH].
  destruct IH as [Hlen Hall]. split; [cbn; lia |].
  constructor; [| exact Hall].
  unfold update_ok. cbn [price_ticks amount_lots].
  split; [| split; [| lia]]; repeat rewrite drop_drop;
    apply int64_signed_8; rewrite Hc; lia.
Qed.

(** [_decode_l2_payload] on any bytes: a batch it returns passes the
    checks of the writer and has one update per 24 bytes after the
    24-byte batch header; otherwise it raises a SchemaError. *)
Lemma _decode_l2_payload_sound (payload : list byte) :
  match reader._decode_l2_payload payload with
  | Ok b =>
    batch_checks b /\
    Z.of_nat (length payload) = 24 + 24 * Z.of_nat (length (updates b))
  | Raise e => exists msg, e = SchemaError msg
  end.
Proof.
  unfold reader._decode_l2_payload.
  change L2_BATCH_HEADER_SIZE with 24%nat.
  destruct (Nat.ltb_spec (length payload) 24); [eauto |].
  unfold unpack_from. change (calcsize L2_BATCH_HEADER_FMT) with 24%nat.
  destruct (Nat.ltb_spec (length payload) (0 + 24)); [lia |]. unbind.
  cbn [unpack_fields L2_BATCH_HEADER_FMT code_size]. rewrite drop_0.
  set (chunk := take 24 payload).
  assert (Hc : length chunk = 24%nat).
  { subst chunk. rewrite length_take. lia. }
  assert (Ha : int64 (unpack_signed 8 (take 8 chunk))).
  { rewrite <- (drop_0 chunk). apply int64_signed_8. rewrite Hc. lia. }
  assert (Hb : int64 (unpack_signed 8 (take 8 (drop 8 chunk)))).
  { apply int64_signed_8. rewrite Hc. lia. }
  destruct (Z.ltb_spec (unpack_signed 8 (take 8 chunk)) 0);
    [cbn [orb]; solve [eauto] |].
  destruct (Z.ltb_spec (unpack_signed 8 (take 8 (drop 8 chunk))) 0);
    [cbn [orb]; solve [eauto] |].
  cbn [orb].
  destruct (negb _); [solve [eauto] |].
  change (Z.of_nat L2_UPDATE_SIZE) with 24. change (Z.of_nat 24) with 24.
  match goal with
  | |- context [Z.of_nat (length payload) =? 24 + ?c * 24] =>
    set (count := c);
      assert (Hcount : 0 <= count < 2 ^ 32)
        by (subst count; apply (le_int_take _ 4));
      destruct (Z.eqb_spec (Z.of_nat (length payload)) (24 + count * 24))
        as [Hlen | Hlen]; cbn [negb]; [| eauto]
  end.
  pose proof (decode_updates_sound (Z.to_nat count) payload 24
                                   ltac:(lia)) as Hd.
  destruct (reader.decode_updates (Z.to_nat count) payload 24) as [us | e];
    unbind; [| exact Hd].
  destruct Hd as [Hn Hall].
  unfold batch_checks.
  cbn [evlog_types.ts_recv_ns ts_exch_ns updates].
  rewrite Hn, Z2Nat.id by lia.
  split; [| lia].
  split; [exact Ha |]. split; [exact Hb |]. split; [exact H1 |].
  split; [exact H2 |]. split; [lia | exact Hall].
Qed.

Lemma unpack_record_header_sound (header : list byte) :
  match unpack_record_header header with
  | Ok (_, len) => 0 <= len < 2 ^ 32
  | Raise e => exists msg, e = SchemaError msg
  end.
Proof.
  unfold unpack_record_header. change RECORD_HEADER_SIZE with 8%nat.
  destruct (Nat.eqb_spec (length header) 8) as [Hl | Hl]; cbn [negb];
    [| eauto].
  unfold unpack. change (calcsize RECORD_HEADER_FMT) with 8%nat.
  rewrite Hl. cbn [Nat.eqb negb]. unbind.
  cbn [unpack_fields RECORD_HEADER_FMT code_size].
  destruct (negb _); [solve [eauto] |].
  destruct (negb _); [solve [eauto] |].
  apply (le_int_take _ 4).
Qed.

(** The loop of [iter_l2_batches] from any position of any file: every
    batch it yields passes the checks of the writer and fits a record,
    and an exception that ends it is a SchemaError. *)
Lemma iter_loop_sound (fuel : nat) : forall f,
  let '(bs, e, f') := reader.iter_loop fuel f in
  Forall batch_ok bs /\
  match e with Some x => exists msg, x = SchemaError msg | None => True end.
Proof.
  induction fuel as [| fuel IH]; intros f; [cbn; auto |].
  cbn [reader.iter_loop].
  destruct (read f (Z.of_nat RECORD_HEADER_SIZE)) as [header f1].
  destruct header as [| h0 header]; [auto |].
  destruct (negb _); [split; [constructor | eauto] |].
  pose proof (unpack_record_header_sound (h0 :: header)) as Hrh.
  destruct (unpack_record_header (h0 :: header)) as [[rec_type plen] | e];
    [| split; [constructor | exact Hrh]].
  destruct (negb (plen mod 8 =? 0)); [split; [constructor | eauto] |].
  destruct (read f1 plen) as [payload f2].
  destruct (Z.eqb_spec (Z.of_nat (length payload)) plen) as [Hpl | Hpl];
    cbn [negb]; [| split; [constructor | eauto]].
  destruct (rec_type =? L2_BATCH); [| split; [constructor | eauto]].
  pose proof (_decode_l2_payload_sound payload) as Hd.
  destruct (reader._decode_l2_payload payload) as [b | e];
    [| split; [constructor | exact Hd]].
  specialize (IH f2).
  destruct (reader.iter_loop fuel f2) as [[bs e] f3].
  destruct IH as [Hall He]. split; [| exact He].
  constructor; [| exact Hall].
  destruct Hd as [Hchecks Hlen]. split; [exact Hchecks |].
  unfold payload_fits. lia.
Qed.

(** One turn per byte left and one more make the loop end by itself:
    with that much fuel or more the outcome is the same. *)
Lemma iter_loop_fuel (fuel1 : nat) : forall fuel2 f,
  0 <= pos f ->
  (length (content f) - Z.to_nat (pos f) < fuel1)%nat ->
  (length (content f) - Z.to_nat (pos f) < fuel2)%nat ->
  reader.iter_loop fuel1 f = reader.iter_loop fuel2 f.
Proof.
  induction fuel1 as [| fuel1 IH]; intros fuel2 f Hpos H1 H2; [lia |].
  destruct fuel2 as [| fuel2]; [lia |].
  cbn [reader.iter_loop]. unfold read at 1 3. cbn [content pos].
  change (Z.to_nat (Z.of_nat RECORD_HEADER_SIZE)) with 8%nat.
  set (header := take 8 (drop (Z.to_nat (pos f)) (content f))).
  assert (Hh : length header
               = Nat.min 8 (length (content f) - Z.to_nat (pos f))).
  { subst header. rewrite length_take, length_drop. reflexivity. }
  destruct header as [| h0 header']; [reflexivity |].
  set (hd := h0 :: header') in *.
  destruct (Nat.eqb_spec (length hd) RECORD_HEADER_SIZE) as [Hl | Hl];
    cbn [negb]; [| reflexivity].
  change RECORD_HEADER_SIZE with 8%nat in Hl.
  destruct (unpack_record_header hd) as [[rec_type plen] | e];
    [| reflexivity].
  destruct (negb (plen mod 8 =? 0)); [reflexivity |].
  unfold read. cbn [content pos].
  set (payload := take (Z.to_nat plen) _).
  destruct (negb (Z.of_nat (length payload) =? plen)); [reflexivity |].
  destruct (rec_type =? L2_BATCH); [| reflexivity].
  destruct (reader._decode_l2_payload payload); [| reflexivity].
  rewrite (IH fuel2); [reflexivity | cbn [pos]; lia | cbn [content pos]; lia ..].
Qed.

(** Iterating a reader over any bytes, from any position: every batch
    it yields is one the writer accepts and writes as a record (so that
    what was read can be written again); an exception that ends the
    iteration is a SchemaError; and the iteration ends by itself, more
    turns change nothing. *)
Theorem iter_l2_batches_sound (r : reader.EvlogReader) (f : rfile) :
  reader._file r = Some f -> 0 <= pos f ->
  exists bs e r',
    reader.iter_l2_batches r = Ok (bs, e, r') /\
    (forall x, e = Some x -> exists msg, x = SchemaError msg) /\
    (forall more,
        (reader.iter_loop (S (length (content f)) + more) f).1 = (bs, e)) /\
    forall b, b ∈ bs ->
      batch_ok b /\
      forall (w : EvlogWriter) (file : list byte),
        writer._file w = Some file ->
        exists rec,
          write_l2_batch w b = Ok (writer.set_file w (Some (file ++ rec))) /\
          is_record rec b.
Proof.
  intros Hf Hpos. unfold reader.iter_l2_batches. rewrite Hf.
  pose proof (iter_loop_sound (S (length (content f))) f) as Hs.
  destruct (reader.iter_loop (S (length (content f))) f) as [[bs e] f']
    eqn:Hrun.
  destruct Hs as [Hall He].
  exists bs, e, (reader.set_file r (Some f')). split; [reflexivity |].
  split; [intros x ->; exact He |]. split.
  - intros more.
    rewrite (iter_loop_fuel _ (S (length (content f))) f Hpos); [| lia ..].
    rewrite Hrun. reflexivity.
  - intros b Hb. rewrite Forall_forall in Hall. specialize (Hall b Hb).
    split; [exact Hall |]. intros w file Hw.
    apply write_then_decode; assumption.
Qed.

Definition cut_reader : reader.EvlogReader :=
  {| reader._file := Some (open_rb [x01; x00; x00]);
     reader._header := None; reader._index := None;
     reader._index_ts := None |}.

Lemma iter_l2_batches_sound_witness :
  exists r',
    reader.iter_l2_batches cut_reader
    = Ok ([], Some (SchemaError "truncated record header"), r').
Proof.
  destruct (iter_l2_batches_sound cut_reader (open_rb [x01; x00; x00])
                                  eq_refl ltac:(cbn; lia))
    as (bs & e & r' & Hrun & _).
  exists r'. rewrite Hrun. vm_compute in Hrun.
  injection Hrun as <- <- _. reflexivity.
Defined.


(** The payload of a batch without updates: two timestamps 1, no reset. *)
Definition empty_payload : list byte :=
  le_bytes 8 1 ++ le_bytes 8 1 ++ replicate 8 x00.


End reader_proofs.

(** ** [ingest/l2_batcher.py]: order, and the raising policies *)

Module l2_batcher_order_proofs.
Import l2_batcher tardis_csv l2_batcher_proofs.

(** The update a row gives when its price and amount quantize. *)
Definition row_update (cfg : Config) (row : L2Row) : option L2Update :=
  match quantize_row cfg row with
  | Ok (p, a) =>
    Some {| evlog_types.side := tardis_csv.side row; price_ticks := p;
            amount_lots := a;
            evlog_types.is_snapshot := tardis_csv.is_snapshot row |}
  | Raise _ => None
  end.

Definition gen_of (f : Flow) : Gen :=
  match f with Fall g | Continue g | Raised g _ => g end.

Ltac unfold_row :=
  unfold process_row, check_exchange, check_ordering, check_skip_batch,
    batch_boundary, flush, check_snapshot, quantize_and_append, after_error,
    handle, _handle_error, record_quarantine.

Ltac split_matches :=
  repeat first
         [ progress (cbn [and_then gen_of FailurePolicy_eqb
                          QuarantineAction_eqb orb andb negb fst snd];
                     simp_locals)
         | match goal with
           | |- context [match ?x with _ => _ end] => destruct x eqn:?
           end ].

Lemma sublist_drop_pending (ys us : list L2Update) :
  sublist (ys ++ []) (ys ++ us).
Proof. apply sublist_app; [reflexivity | apply sublist_nil_l]. Qed.

(** One turn of the loop, whatever the policy: the updates the generator
    holds afterwards are some of those it held before, in the same order,
    followed by the update of the row when the turn reaches its end. *)
Lemma process_row_sublist cfg row g :
  exists kept,
    sublist kept (all_updates g) /\
    all_updates (gen_of (process_row cfg row g))
    = kept ++ match process_row cfg row g with
              | Fall _ => option_list (row_update cfg row)
              | _ => []
              end.
Proof.
  unfold row_update. unfold_row. unfold all_updates.
  destruct (failure_policy cfg), (quarantine_action cfg);
    split_matches;
    rewrite ?map_app, ?concat_app; cbn [map concat option_list];
      rewrite ?app_nil_r.
  all: try (eexists; split; [reflexivity |]; rewrite ?app_nil_r; reflexivity).
  all: try (eexists; split; [| rewrite app_assoc; reflexivity]; reflexivity).
  all: try (exists (concat (map evlog_types.updates (yielded g)));
            split; [apply sublist_inserts_r; reflexivity |];
            rewrite ?app_nil_r; reflexivity).
Qed.

Lemma omap_cons_sublist {A B} (f : A -> option B) (x : A) (l : list A) :
  omap f (x :: l) = option_list (f x) ++ omap f l.
Proof. cbn. destruct (f x); reflexivity. Qed.

Lemma run_rows_sublist cfg rows : forall g,
  sublist (all_updates (run_rows cfg g rows).1)
          (all_updates g ++ omap (row_update cfg) rows).
Proof.
  induction rows as [| row rest IH]; intros g.
  - cbn. rewrite app_nil_r. reflexivity.
  - cbn [run_rows]. rewrite omap_cons_sublist.
    destruct (process_row_sublist cfg row g) as (kept & Hk & Hall).
    destruct (process_row cfg row g) as [g1 | g1 | g1 e] eqn:Hp;
      cbn [gen_of] in Hall.
    + etrans; [apply IH |]. rewrite Hall, <- app_assoc.
      apply sublist_app; [exact Hk | reflexivity].
    + etrans; [apply IH |]. rewrite Hall, app_nil_r.
      apply sublist_app; [exact Hk |]. apply sublist_inserts_l. reflexivity.
    + cbn [fst]. rewrite Hall, app_nil_r.
      apply sublist_inserts_r. exact Hk.
Qed.

Lemma finish_sublist cfg g :
  sublist (concat (map evlog_types.updates (yielded (finish cfg g).1)))
          (all_updates g).
Proof.
  unfold finish, all_updates, _handle_error.
  repeat match goal with
         | |- context [match ?x with _ => _ end] => destruct x eqn:?
         end; cbn [fst yielded];
    rewrite ?map_app, ?concat_app; cbn [map concat evlog_types.updates];
      rewrite ?app_nil_r;
      try reflexivity; try (apply sublist_inserts_r; reflexivity).
Qed.

(** "Updates are emitted in file order": whatever the policy and the
    sink, and whether the run ends normally or in an exception, the
    updates of the yielded batches, taken batch after batch, are updates
    of the rows in the order of the rows: a subsequence of the rows that
    quantize, each with the side and the flag of its row. *)
Theorem updates_in_file_order (cfg : Config)
        (snk : option ListQuarantineSink) (rows : list L2Row) :
  sublist
    (concat (map evlog_types.updates
                 (yielded (iter_l2_batches cfg snk rows).1)))
    (omap (row_update cfg) rows).
Proof.
  unfold iter_l2_batches.
  pose proof (run_rows_sublist
                cfg rows {| locals := initial; sink := snk; yielded := [] |})
    as Hrun.
  destruct (run_rows cfg _ rows) as [g [e |]]; cbn [fst] in *.
  - etrans; [| exact Hrun]. unfold all_updates.
    apply sublist_inserts_r. reflexivity.
  - etrans; [apply finish_sublist | exact Hrun].
Qed.

End l2_batcher_order_proofs.

(** ** [ingest/l2_batcher.py]: the policies that raise *)

Module l2_batcher_raising_proofs.
Import l2_batcher tardis_csv l2_batcher_proofs l2_batcher_order_proofs.

(** HARD_FAIL, or QUARANTINE with HALT: [_handle_error] always raises. *)
Definition raising (cfg : Config) : Prop :=
  failure_policy cfg = HARD_FAIL \/ quarantine_action cfg = HALT.

Definition batch_times (g : Gen) : list Z :=
  map evlog_types.ts_recv_ns (yielded g).

(** The updates of a list of batches, each with the receive time of its
    batch. *)
Definition stamp_batch (b : L2Batch) : list (Z * L2Update) :=
  map (pair (evlog_types.ts_recv_ns b)) (evlog_types.updates b).

Definition stamped (bs : list L2Batch) : list (Z * L2Update) :=
  concat (map stamp_batch bs).

(** The updates of the open batch, with the receive time it will get. *)
Definition pending (g : Gen) : list (Z * L2Update) :=
  map (pair (default 0 (batch_local_ts (locals g)) * 1000))
      (updates (locals g)).

Definition nonempty (b : L2Batch) : Prop := evlog_types.updates b <> [].

(** Between two rows under a raising policy: no batch is being skipped;
    the receive times of the yielded batches increase strictly and lie
    before the open batch; no yielded batch is empty; the open batch is
    the batch of the last row. *)
Definition mono_inv (g : Gen) : Prop :=
  skip_batch (locals g) = false /\
  StronglySorted Z.lt (batch_times g) /\
  Forall nonempty (yielded g) /\
  match batch_local_ts (locals g) with
  | None =>
    yielded g = [] /\ prev_local_ts (locals g) = None /\
    updates (locals g) = []
  | Some b =>
    prev_local_ts (locals g) = Some b /\
    Forall (fun t => t < b * 1000) (batch_times g)
  end.

Lemma StronglySorted_snoc (l : list Z) (x : Z) :
  StronglySorted Z.lt l -> Forall (fun t => t < x) l ->
  StronglySorted Z.lt (l ++ [x]).
Proof.
  induction 1 as [| y l Hs IH Hy]; intros Hall.
  - repeat constructor.
  - apply Forall_cons in Hall as [Hyx Hall]. cbn. constructor; [auto |].
    apply Forall_app. split; [exact Hy | repeat constructor; exact Hyx].
Qed.

Lemma Forall_lt_mono (l : list Z) (x y : Z) :
  Forall (fun t => t < x) l -> x <= y -> Forall (fun t => t < y) l.
Proof. intros H Hxy. eapply Forall_impl; [exact H |]. cbn. lia. Qed.

Lemma nonempty_snoc (bs : list L2Batch) (b : L2Batch) :
  Forall nonempty bs -> evlog_types.updates b <> [] ->
  Forall nonempty (bs ++ [b]).
Proof.
  intros H Hb. apply Forall_app. split; [exact H | repeat constructor; exact Hb].
Qed.

Lemma stamped_snoc (bs : list L2Batch) (b : L2Batch) :
  stamped (bs ++ [b]) = stamped bs ++ stamp_batch b.
Proof.
  unfold stamped. rewrite map_app, concat_app. cbn. rewrite app_nil_r.
  reflexivity.
Qed.

Ltac bool_props :=
  repeat match goal with
         | H : negb _ = true |- _ => apply negb_true_iff in H
         | H : negb _ = false |- _ => apply negb_false_iff in H
         | H : (_ =? _) = true |- _ => apply Z.eqb_eq in H
         | H : (_ =? _) = false |- _ => apply Z.eqb_neq in H
         | H : (_ <? _) = true |- _ => apply Z.ltb_lt in H
         | H : (_ <? _) = false |- _ => apply Z.ltb_ge in H
         end.

(** What a turn of the loop leaves under a raising policy. *)
Definition raising_post (cfg : Config) (row : L2Row) (g : Gen) (f : Flow)
  : Prop :=
  match f with
  | Fall g' =>
    mono_inv g' /\
    exists u, row_update cfg row = Some u /\
              stamped (yielded g') ++ pending g'
              = (stamped (yielded g) ++ pending g)
                  ++ [(local_timestamp_us row * 1000, u)]
  | Continue _ => False
  | Raised g' _ =>
    StronglySorted Z.lt (batch_times g') /\
    Forall nonempty (yielded g') /\
    (stamped (yielded g') = stamped (yielded g) \/
     stamped (yielded g') = stamped (yielded g) ++ pending g)
  end.

Ltac split_flow Hskip Hb Hprev :=
  repeat first
         [ rewrite Hskip
         | rewrite Hb
         | rewrite Hprev
         | progress (cbn [and_then raising_post FailurePolicy_eqb
                          QuarantineAction_eqb orb andb negb fst snd];
                     simp_locals)
         | match goal with
           | |- context [match ?x with _ => _ end] => destruct x eqn:?
           end ].

Ltac rewrite_known :=
  repeat match goal with
         | H : quantize_row _ _ = _ |- _ => rewrite H; clear H
         | H : updates (locals _) = _ |- _ => rewrite H; clear H
         end.

Ltac sorted_leaf :=
  first [ assumption | apply SSorted_nil
        | apply StronglySorted_snoc; assumption ].

Ltac nonempty_leaf :=
  first [ assumption | apply Forall_nil_2
        | apply nonempty_snoc; [assumption | cbn; congruence] ].

Ltac times_leaf :=
  first [ assumption
        | apply Forall_nil_2
        | apply Forall_app; split;
          [eapply Forall_lt_mono; [eassumption | lia]
          | repeat constructor; lia]
        | eapply Forall_lt_mono; [eassumption | lia]
        | match goal with
          | H : yielded _ = [] |- _ => rewrite H; apply Forall_nil_2
          end ].

Ltac stamped_leaf :=
  rewrite ?stamped_snoc; unfold stamp_batch;
  cbn [map app default evlog_types.updates evlog_types.ts_recv_ns stamped
           concat];
  rewrite ?map_app, ?app_nil_r, <- ?app_assoc;
  cbn [map app]; try reflexivity.

Lemma process_row_raising cfg row g :
  raising cfg -> mono_inv g -> raising_post cfg row g (process_row cfg row g).
Proof.
  intros Hr (Hskip & Hsorted & Hne & Hts). unfold_row.
  destruct (failure_policy cfg) eqn:Hfp, (quarantine_action cfg) eqn:Hqa;
    try (destruct Hr; congruence);
    destruct (batch_local_ts (locals g)) as [b |] eqn:Hb;
    cbn beta iota in Hts;
    first [destruct Hts as (Hy & Hprev & Hups) | destruct Hts as [Hprev Hall]];
    split_flow Hskip Hb Hprev; try congruence;
      unfold mono_inv, batch_times, pending, row_update in *;
      simp_locals; bool_props; subst; rewrite_known;
      rewrite ?map_app in *; rewrite ?Hb;
      cbn [map evlog_types.updates evlog_types.ts_recv_ns] in *.
  all: try (split; [sorted_leaf |]; split; [nonempty_leaf |];
            first [left; reflexivity | right; solve [stamped_leaf]]).
  all: try (split;
            [split; [reflexivity |]; split; [sorted_leaf |];
             split; [nonempty_leaf |];
             split; [reflexivity |]; times_leaf
            | eexists; split; [reflexivity |]; solve [stamped_leaf] ]).
Qed.

(** A row and the update it gave, with the receive time of its batch. *)
Definition row_stamped (cfg : Config) (row : L2Row) (p : Z * L2Update)
  : Prop :=
  p.1 = local_timestamp_us row * 1000 /\ row_update cfg row = Some p.2.

Lemma Forall2_emitted {A B} (R : A -> B -> Prop) (done rest : list A)
      (ys ps : list B) :
  Forall2 R done (ys ++ ps) ->
  exists n, Forall2 R (take n (done ++ rest)) ys /\
            (n + length ps = length done)%nat.
Proof.
  intros H. apply Forall2_app_inv_r in H as (d1 & d2 & H1 & H2 & ->).
  exists (length d1). split.
  - rewrite <- app_assoc, take_app_length. exact H1.
  - rewrite length_app. apply Forall2_length in H2. lia.
Qed.

Lemma run_rows_raising cfg rows : forall g done,
  raising cfg -> mono_inv g ->
  Forall2 (row_stamped cfg) done (stamped (yielded g) ++ pending g) ->
  match run_rows cfg g rows with
  | (g', None) =>
    mono_inv g' /\
    Forall2 (row_stamped cfg) (done ++ rows)
            (stamped (yielded g') ++ pending g')
  | (g', Some _) =>
    StronglySorted Z.lt (batch_times g') /\
    Forall nonempty (yielded g') /\
    exists n, Forall2 (row_stamped cfg) (take n (done ++ rows))
                      (stamped (yielded g')) /\
              (n < length (done ++ rows))%nat
  end.
Proof.
  induction rows as [| row rest IH]; intros g done Hr Hinv Hdone.
  - cbn. rewrite app_nil_r. auto.
  - cbn [run_rows].
    pose proof (process_row_raising cfg row g Hr Hinv) as Hpost.
    destruct (process_row cfg row g) as [g1 | g1 | g1 e]; cbn in Hpost.
    + destruct Hpost as (Hinv1 & u & Hu & Hst).
      specialize (IH g1 (done ++ [row]) Hr Hinv1).
      rewrite <- app_assoc in IH. cbn [app] in IH. apply IH.
      rewrite Hst. apply Forall2_app; [exact Hdone |].
      constructor; [split; [reflexivity | exact Hu] | constructor].
    + contradiction.
    + destruct Hpost as (Hs & Hne & Hst). split; [exact Hs |].
      split; [exact Hne |].
      assert (exists ps, Forall2 (row_stamped cfg) done
                                 (stamped (yielded g1) ++ ps)) as [ps Hps].
      { destruct Hst as [-> | ->]; [eexists; exact Hdone |].
        exists []. rewrite app_nil_r. exact Hdone. }
      destruct (Forall2_emitted _ done (row :: rest) _ _ Hps) as (n & Hn & Hl).
      exists n. split; [exact Hn |]. rewrite length_app. cbn. lia.
Qed.

Lemma finish_raising cfg g done :
  raising cfg -> mono_inv g ->
  Forall2 (row_stamped cfg) done (stamped (yielded g) ++ pending g) ->
  StronglySorted Z.lt (batch_times (finish cfg g).1) /\
  Forall nonempty (yielded (finish cfg g).1) /\
  exists n, Forall2 (row_stamped cfg) (take n done)
                    (stamped (yielded (finish cfg g).1)) /\
            match (finish cfg g).2 with
            | None => n = length done
            | Some _ => (n < length done)%nat
            end.
Proof.
  intros Hr (Hskip & Hsorted & Hne & Hts) Hdone.
  unfold finish, pending, batch_times, _handle_error in *.
  destruct (batch_local_ts (locals g)) as [b |] eqn:Hb.
  - destruct Hts as [Hprev Hall].
    destruct (updates (locals g)) as [| u us] eqn:Hups.
    + cbn [fst snd map] in *. rewrite app_nil_r in Hdone.
      split; [exact Hsorted |]. split; [exact Hne |].
      exists (length done). rewrite firstn_all. auto.
    + destruct (batch_ts_exch_us (locals g)) as [exch |] eqn:Hex.
      * cbn [fst snd yielded default] in *. rewrite map_app. cbn [map].
        split; [apply StronglySorted_snoc; assumption |].
        split; [apply nonempty_snoc; [assumption | cbn; congruence] |].
        exists (length done). rewrite firstn_all, stamped_snoc.
        split; [exact Hdone | reflexivity].
      * assert (FailurePolicy_eqb (failure_policy cfg) HARD_FAIL
                || QuarantineAction_eqb (quarantine_action cfg) HALT = true)
          as ->.
        { destruct Hr as [-> | ->]; [reflexivity |].
          apply orb_true_r. }
        cbn [fst snd yielded].
        split; [exact Hsorted |]. split; [exact Hne |].
        destruct (Forall2_emitted _ done [] _ _ Hdone) as (n & Hn & Hl).
        rewrite app_nil_r in Hn. exists n. split; [exact Hn |].
        cbn in Hl. lia.
  - destruct Hts as (Hy & Hprev & Hups). rewrite Hups in Hdone.
    cbn [fst snd map] in *. rewrite app_nil_r in Hdone.
    split; [exact Hsorted |]. split; [exact Hne |].
    exists (length done). rewrite firstn_all. auto.
Qed.

Lemma iter_l2_batches_raising (cfg : Config) (snk : option ListQuarantineSink)
        (rows : list L2Row) :
  raising cfg ->
  StronglySorted Z.lt
    (map evlog_types.ts_recv_ns (yielded (iter_l2_batches cfg snk rows).1)) /\
  Forall nonempty (yielded (iter_l2_batches cfg snk rows).1) /\
  exists n,
    Forall2 (row_stamped cfg) (take n rows)
            (stamped (yielded (iter_l2_batches cfg snk rows).1)) /\
    match (iter_l2_batches cfg snk rows).2 with
    | None => n = length rows
    | Some _ => (n < length rows)%nat
    end.
Proof.
  intros Hr. unfold iter_l2_batches.
  pose proof (run_rows_raising
                cfg rows {| locals := initial; sink := snk; yielded := [] |}
                [] Hr) as Hrun.
  cbn [app] in Hrun.
  destruct (run_rows cfg _ rows) as [g [e |]].
  - apply Hrun; [| constructor].
    repeat split; cbn; auto; constructor.
  - destruct Hrun as [Hinv Hdone]; [| constructor |].
    + repeat split; cbn; auto; constructor.
    + apply (finish_raising cfg g rows Hr Hinv Hdone).
Qed.

(** Under HARD_FAIL, or with the action HALT: the receive times of the
    yielded batches increase strictly and no batch is empty; the updates
    of the batches are, one for one and in order, the updates of the
    first [n] rows, each in a batch whose receive time is the local
    timestamp of its row; [n] is the number of rows when the generator
    ends normally, and smaller when it ends in an exception. *)
Theorem raising_batches (cfg : Config) (snk : option ListQuarantineSink)
        (rows : list L2Row) :
  raising cfg ->
  StronglySorted Z.lt
    (map evlog_types.ts_recv_ns (yielded (iter_l2_batches cfg snk rows).1)) /\
  Forall nonempty (yielded (iter_l2_batches cfg snk rows).1) /\
  exists n,
    Forall2 (row_stamped cfg) (take n rows)
            (stamped (yielded (iter_l2_batches cfg snk rows).1)) /\
    match (iter_l2_batches cfg snk rows).2 with
    | None => n = length rows
    | Some _ => (n < length rows)%nat
    end.
Proof. apply iter_l2_batches_raising. Qed.

Lemma raising_batches_witness :
  exists n,
    Forall2 (row_stamped hard_fail) (take n reset_rows)
            (stamped (yielded (iter_l2_batches hard_fail None reset_rows).1))
    /\ n = 3%nat.
Proof.
  destruct (raising_batches hard_fail None reset_rows) as (_ & _ & n & H & Hn);
    [left; reflexivity |].
  exists n. split; [exact H | exact Hn].
Defined.

End l2_batcher_raising_proofs.

(** ** [core/fixedpoint.py]: the exceptions of the quantizer *)

Module quantize_error_proofs.
Import fixedpoint_proofs.

(** The exceptions that are not caught as a QuantizationError: the
    signals the decimal context traps. *)
Definition quantizer_exn (e : Exn) : Prop :=
  (exists m, e = QuantizationError m) \/
  e = DecimalSignal "Overflow" \/ e = DecimalSignal "InvalidOperation".

Lemma _fix_Finite (ctx : Context) (s : bool) (c : N) (e : Z) :
  match _fix ctx (Finite s c e) with
  | Ok d => exists c' e', d = Finite s c' e'
  | Raise x => x = DecimalSignal "Overflow"
  end.
Proof.
  unfold _fix.
  repeat match goal with
         | |- context [if ?b then _ else _] => destruct b
         | |- context [let '(_, _) := ?p in _] => destruct p
         end; eauto.
Qed.

Lemma normalize_Finite (ctx : Context) (s : bool) (c : N) (e : Z) :
  match normalize ctx (Finite s c e) with
  | Ok d => exists c' e', d = Finite s c' e'
  | Raise x => x = DecimalSignal "Overflow"
  end.
Proof.
  unfold normalize. pose proof (_fix_Finite ctx s c e) as H.
  destruct (_fix ctx (Finite s c e)) as [d | x]; unbind; [| exact H].
  destruct H as (c' & e' & ->).
  destruct (c' =? 0)%N; [eauto |].
  destruct (strip_zeros _ _ _ _). eauto.
Qed.

Lemma _scaled_int_Finite (s : bool) (c : N) (e scale : Z) (x : Exn) :
  _scaled_int (Finite s c e) scale = Raise x -> quantizer_exn x.
Proof.
  unfold _scaled_int, scaleb.
  destruct (_ || _); unbind; [intros [= <-]; right; right; reflexivity |].
  pose proof (_fix_Finite DECIMAL_CTX s c (e + scale)) as H.
  destruct (_fix _ _) as [d | y]; unbind.
  - destruct H as (c' & e' & ->).
    destruct (negb _); [intros [= <-]; left; eauto | discriminate].
  - intros [= <-]. right. left. exact H.
Qed.

Lemma _quantize_decimal_exn (value inc : Decimal) (allow_zero : bool)
      (field : string) (x : Exn) :
  is_finite inc = true ->
  _quantize_decimal value inc allow_zero field = Raise x ->
  quantizer_exn x.
Proof.
  intros Hinc. unfold _quantize_decimal.
  destruct value as [s c e | s | s sg dg]; cbn [is_finite negb];
    try (intros [= <-]; left; eauto).
  destruct (Deq0 _).
  { destruct allow_zero; [discriminate | intros [= <-]; left; eauto]. }
  destruct (Dlt0 _); [intros [= <-]; left; eauto |].
  pose proof (normalize_Finite DECIMAL_CTX s c e) as Hn.
  destruct (normalize _ _) as [nv | y]; unbind;
    [| intros [= <-]; right; left; exact Hn].
  destruct Hn as (c' & e' & ->).
  destruct (_scaled_int (Finite s c' e') _) as [sv | y] eqn:Hsv; unbind;
    [| intros [= <-]; eapply _scaled_int_Finite; eassumption].
  destruct inc as [si ci ei | |]; try discriminate.
  destruct (_scaled_int (Finite si ci ei) _) as [sinc | y] eqn:Hsi; unbind;
    [| intros [= <-]; eapply _scaled_int_Finite; eassumption].
  destruct (sinc =? 0); [intros [= <-]; left; eauto |].
  destruct (negb _); [intros [= <-]; left; eauto | discriminate].
Qed.

Lemma parse_or_quantization_error_cases (value : string) :
  match parse_or_quantization_error value with
  | Ok d => is_finite d = true
  | Raise x => exists m, x = QuantizationError m
  end.
Proof.
  unfold parse_or_quantization_error.
  destruct (parse_decimal value) as [d | e] eqn:Hp.
  - eapply parse_decimal_Ok; eassumption.
  - unfold parse_decimal in Hp.
    destruct (String.eqb _ _); [injection Hp as <-; eauto |].
    destruct (Decimal_of_string _); [| injection Hp as <-; eauto].
    destruct (negb _); [injection Hp as <-; eauto | discriminate].
Qed.

(** Whatever the string, a quantizer with finite increments returns an
    integer or raises a QuantizationError, or lets through one of the
    two signals the decimal context traps (Overflow when a value leaves
    the exponent range, InvalidOperation when the scale does): no
    ValueError of the parser and no other exception leaves it. *)
Theorem quantize_raises (q : Quantizer) (value : string) :
  is_finite (price_increment q) = true ->
  is_finite (amount_increment q) = true ->
  (forall x, quantize_price q value = Raise x -> quantizer_exn x) /\
  (forall x, quantize_amount q value = Raise x -> quantizer_exn x).
Proof.
  intros Hp Ha. unfold quantize_price, quantize_amount.
  pose proof (parse_or_quantization_error_cases value) as H.
  destruct (parse_or_quantization_error value) as [d | y]; unbind.
  - split; intros x Hx;
      (eapply _quantize_decimal_exn; [| exact Hx]; assumption).
  - destruct H as [m ->]. split; intros x [= <-]; left; eauto.
Qed.

Lemma quantize_raises_witness :
  quantize_price cents "1e1000000" = Raise (DecimalSignal "Overflow") /\
  quantizer_exn (DecimalSignal "Overflow").
Proof.
  split; [vm_compute; reflexivity |].
  apply (proj1 (quantize_raises cents "1e1000000" eq_refl eq_refl)).
  vm_compute. reflexivity.
Defined.

End quantize_error_proofs.

(** ** [ingest/l2_batcher.py]: what reaches the quarantine sink *)

Module l2_batcher_sink_proofs.
Import l2_batcher tardis_csv l2_batcher_proofs l2_batcher_order_proofs.

(** An exception that [_handle_error] never sees: one of the quantizer
    that is not a QuantizationError. *)
Definition unhandled (cfg : Config) (row : L2Row) (e : Exn) : Prop :=
  quantize_row cfg row = Raise e /\ forall m, e <> QuantizationError m.

(** What a turn of the loop adds to the sink. *)
Definition row_sink_post (cfg : Config) (row : L2Row) (g : Gen) (f : Flow)
  : Prop :=
  exists recs,
    sink (gen_of f) = (fun s => s ++ recs) <$> sink g /\
    Forall (fun q => exists e, q = quarantine_record cfg row e) recs /\
    (failure_policy cfg = HARD_FAIL -> recs = []) /\
    match f with
    | Raised _ e =>
      failure_policy cfg = HARD_FAIL \/
      failure_policy cfg = QUARANTINE /\ quarantine_action cfg = HALT /\
      recs = [quarantine_record cfg row e] \/
      unhandled cfg row e /\ (quarantine_action cfg = HALT -> recs = [])
    | _ => quarantine_action cfg = HALT -> recs = []
    end.

Ltac split_sink Hs :=
  repeat first
         [ rewrite Hs
         | progress (cbn [and_then gen_of FailurePolicy_eqb
                          QuarantineAction_eqb orb andb negb fst snd];
                     simp_locals)
         | match goal with
           | |- context [match ?x with _ => _ end] => destruct x eqn:?
           end ].

Ltac sink_candidate :=
  split;
  [ unfold record; cbn [fmap option_fmap option_map];
    rewrite <- ?app_assoc, ?app_nil_r; reflexivity |];
  split; [repeat constructor; eexists; reflexivity |];
  split; [intros; first [reflexivity | congruence] |];
  first [ intros; first [reflexivity | congruence]
        | left; reflexivity
        | right; left; split; [reflexivity |]; split; reflexivity
        | right; right; split;
          [split; [reflexivity | intros; discriminate]
          | intros; first [reflexivity | congruence]] ].

Lemma process_row_sink cfg row g :
  row_sink_post cfg row g (process_row cfg row g).
Proof.
  unfold row_sink_post, unhandled, quarantine_record. unfold_row.
  destruct (failure_policy cfg) eqn:Hfp, (quarantine_action cfg) eqn:Hqa,
    (sink g) as [s |] eqn:Hs;
    split_sink Hs.
  all: first [ solve [exists []; sink_candidate]
             | solve [eexists [_]; sink_candidate]
             | solve [eexists [_; _]; sink_candidate]
             | idtac ].
Qed.

(** The record of an error found at a row of [rows]. *)
Definition row_record (cfg : Config) (rows : list L2Row)
           (q : QuarantineRecord) : Prop :=
  exists row e, row ∈ rows /\ q = quarantine_record cfg row e.

(** How a run over [rows] ended, and the records it added. *)
Definition ended (cfg : Config) (rows : list L2Row) (e : option Exn)
           (recs : list QuarantineRecord) : Prop :=
  match e with
  | None => quarantine_action cfg = HALT -> recs = []
  | Some e =>
    failure_policy cfg = HARD_FAIL \/
    failure_policy cfg = QUARANTINE /\ quarantine_action cfg = HALT /\
    (exists row, row ∈ rows /\ recs = [quarantine_record cfg row e]) \/
    (exists row, row ∈ rows /\ unhandled cfg row e) /\
    (quarantine_action cfg = HALT -> recs = [])
  end.

Lemma row_record_cons cfg row rows recs :
  Forall (row_record cfg rows) recs ->
  Forall (row_record cfg (row :: rows)) recs.
Proof.
  intros H. eapply Forall_impl; [exact H |]. intros q (r & e & Hin & ->).
  exists r, e. split; [right; exact Hin | reflexivity].
Qed.

Lemma row_record_head cfg row rows recs :
  Forall (fun q => exists e, q = quarantine_record cfg row e) recs ->
  Forall (row_record cfg (row :: rows)) recs.
Proof.
  intros H. eapply Forall_impl; [exact H |]. intros q (e & ->).
  exists row, e. split; [left | reflexivity].
Qed.

Lemma run_rows_sink cfg rows : forall g,
  exists recs,
    sink (run_rows cfg g rows).1 = (fun s => s ++ recs) <$> sink g /\
    Forall (row_record cfg rows) recs /\
    (failure_policy cfg = HARD_FAIL -> recs = []) /\
    ended cfg rows (run_rows cfg g rows).2 recs.
Proof.
  induction rows as [| row rest IH]; intros g.
  - exists []. cbn. split; [destruct (sink g); cbn; rewrite ?app_nil_r; auto |].
    auto.
  - cbn [run_rows].
    destruct (process_row_sink cfg row g) as (r1 & Hs1 & Hr1 & Hh1 & He1).
    assert (Hnext : forall g1,
      sink g1 = (fun s => s ++ r1) <$> sink g ->
      (quarantine_action cfg = HALT -> r1 = []) ->
      exists recs,
        sink (run_rows cfg g1 rest).1 = (fun s => s ++ recs) <$> sink g /\
        Forall (row_record cfg (row :: rest)) recs /\
        (failure_policy cfg = HARD_FAIL -> recs = []) /\
        ended cfg (row :: rest) (run_rows cfg g1 rest).2 recs).
    { intros g1 Hg1 Hhalt.
      destruct (IH g1) as (r2 & Hs2 & Hr2 & Hh2 & He2).
      exists (r1 ++ r2). split.
      { rewrite Hs2, Hg1. destruct (sink g); cbn; [| reflexivity].
        rewrite app_assoc. reflexivity. }
      split.
      { apply Forall_app. split;
          [apply row_record_head | apply row_record_cons]; assumption. }
      split; [intros H; rewrite Hh1, Hh2 by exact H; reflexivity |].
      unfold ended in *.
      destruct (run_rows cfg g1 rest).2 as [e |].
      - destruct He2 as [H | [(Hq & Ha & r & Hin & ->) | ((r & Hin & Hu) & H)]].
        + left. exact H.
        + right. left. rewrite (Hhalt Ha). cbn [app].
          split; [exact Hq |]. split; [exact Ha |].
          exists r. split; [right; exact Hin | reflexivity].
        + right. right. split; [exists r; split; [right |]; assumption |].
          intros Ha. rewrite (Hhalt Ha), (H Ha). reflexivity.
      - intros Ha. rewrite (Hhalt Ha), (He2 Ha). reflexivity. }
    destruct (process_row cfg row g) as [g1 | g1 | g1 e]; cbn [gen_of] in *.
    + apply Hnext; assumption.
    + apply Hnext; assumption.
    + exists r1. cbn [fst snd]. split; [exact Hs1 |].
      split; [apply row_record_head; exact Hr1 |].
      split; [exact Hh1 |]. unfold ended.
      destruct He1 as [H | [(Hq & Ha & ->) | (Hu & H)]].
      * left. exact H.
      * right. left. split; [exact Hq |]. split; [exact Ha |].
        exists row. split; [left | reflexivity].
      * right. right. split; [| exact H].
        exists row. split; [left | exact Hu].
Qed.

(** The record of the error found after the last row. *)
Definition end_record (cfg : Config) (l : Locals) (e : Exn)
  : QuarantineRecord :=
  {| reason := str_exn e;
     quarantine.source :=
       if negb (String.eqb (source_arg cfg) "") then source_arg cfg
       else match last_source l with
            | Some s => if String.eqb s "" then "" else s
            | None => ""
            end;
     quarantine.line_number := 0; payload := None |}.

Lemma finish_sink cfg g :
  exists recs,
    sink (finish cfg g).1 = (fun s => s ++ recs) <$> sink g /\
    (failure_policy cfg = HARD_FAIL -> recs = []) /\
    match (finish cfg g).2 with
    | None =>
      (quarantine_action cfg = HALT -> recs = []) /\
      Forall (fun q => exists e, q = end_record cfg (locals g) e) recs
    | Some e =>
      failure_policy cfg = HARD_FAIL /\ recs = [] \/
      failure_policy cfg = QUARANTINE /\ quarantine_action cfg = HALT /\
      recs = [end_record cfg (locals g) e]
    end.
Proof.
  assert (Hnone : forall g0 : Gen,
    sink g0 = sink g ->
    exists recs : list QuarantineRecord,
      sink g0 = (fun s => s ++ recs) <$> sink g /\
      (failure_policy cfg = HARD_FAIL -> recs = []) /\
      (quarantine_action cfg = HALT -> recs = []) /\
      Forall (fun q => exists e, q = end_record cfg (locals g) e) recs).
  { intros g0 ->. exists [].
    split; [destruct (sink g); cbn; rewrite ?app_nil_r; reflexivity |].
    auto. }
  unfold finish.
  destruct (batch_local_ts (locals g)); [| apply Hnone; reflexivity].
  destruct (updates (locals g)); [apply Hnone; reflexivity |].
  destruct (batch_ts_exch_us (locals g)); [apply Hnone; reflexivity |].
  unfold _handle_error, record_quarantine, end_record, record.
  destruct (failure_policy cfg), (quarantine_action cfg),
    (sink g) as [s |];
    cbn [fst snd sink FailurePolicy_eqb QuarantineAction_eqb orb fmap
             option_fmap option_map].
  all: first
         [ solve [exists []; rewrite ?app_nil_r; auto 6]
         | solve [eexists [_]; split; [reflexivity |];
                  split; [intros; congruence |];
                  first [ right; repeat split; reflexivity
                        | split; [intros; congruence |];
                          repeat constructor; eexists; reflexivity ]] ].
Qed.

(** The quarantine sink after a run, whatever the policy: a run without
    a sink has none afterwards; a sink keeps its records and gains [recs]
    after them.  Every new record describes a row of the input (the
    row as payload, with its line number and source) or is the record of
    the end of the input (no payload, line 0).  HARD_FAIL writes
    nothing.  With the action HALT a run that ends normally writes
    nothing, and a run that ends in an exception under QUARANTINE writes
    exactly one record, whose reason is the message of the exception;
    unless the exception is one of the quantizer that is not a
    QuantizationError, which is never recorded.  With SKIP_ROW or
    SKIP_BATCH under QUARANTINE such an exception is the only one that
    ends a run. *)
Theorem quarantine_sink_records (cfg : Config) (snk : option ListQuarantineSink)
        (rows : list L2Row) :
  exists recs,
    sink (iter_l2_batches cfg snk rows).1 = (fun s => s ++ recs) <$> snk /\
    Forall (fun q => row_record cfg rows q \/
                     payload q = None /\ quarantine.line_number q = 0)
           recs /\
    (failure_policy cfg = HARD_FAIL -> recs = []) /\
    match (iter_l2_batches cfg snk rows).2 with
    | None => quarantine_action cfg = HALT -> recs = []
    | Some e =>
      failure_policy cfg = HARD_FAIL \/
      failure_policy cfg = QUARANTINE /\ quarantine_action cfg = HALT /\
      (exists q, recs = [q] /\ reason q = str_exn e) \/
      (exists row, row ∈ rows /\ unhandled cfg row e) /\
      (quarantine_action cfg = HALT -> recs = [])
    end.
Proof.
  unfold iter_l2_batches.
  destruct (run_rows_sink
              cfg rows {| locals := initial; sink := snk; yielded := [] |})
    as (r1 & Hs1 & Hr1 & Hh1 & He1).
  cbn [sink] in Hs1.
  destruct (run_rows cfg _ rows) as [g [e |]]; cbn [fst snd] in *.
  - exists r1. split; [exact Hs1 |].
    split; [eapply Forall_impl; [exact Hr1 | cbn; auto] |].
    split; [exact Hh1 |].
    destruct He1 as [H | [(Hq & Ha & r & Hin & ->) | H]]; auto.
    right. left. split; [exact Hq |]. split; [exact Ha |].
    eexists. split; reflexivity.
  - destruct (finish_sink cfg g) as (r2 & Hs2 & Hh2 & He2).
    exists (r1 ++ r2). split.
    { rewrite Hs2, Hs1. destruct snk; cbn; [| reflexivity].
      rewrite app_assoc. reflexivity. }
    destruct (finish cfg g).2 as [e |].
    + split.
      { apply Forall_app. split;
          [eapply Forall_impl; [exact Hr1 | cbn; auto] |].
        destruct He2 as [[_ ->] | (_ & _ & ->)]; [constructor |].
        constructor; [right; split; reflexivity | constructor]. }
      split; [intros H; rewrite Hh1, Hh2 by exact H; reflexivity |].
      destruct He2 as [[H _] | (Hq & Ha & ->)]; [left; exact H |].
      right. left. split; [exact Hq |]. split; [exact Ha |].
      rewrite (He1 Ha). eexists. split; reflexivity.
    + destruct He2 as [Ha2 Hr2]. split.
      { apply Forall_app. split;
          [eapply Forall_impl; [exact Hr1 | cbn; auto] |].
        eapply Forall_impl; [exact Hr2 |]. intros q [e ->].
        right. split; reflexivity. }
      split; [intros H; rewrite Hh1, Hh2 by exact H; reflexivity |].
      intros Ha. rewrite (He1 Ha), (Ha2 Ha). reflexivity.
Qed.

End l2_batcher_sink_proofs.

(** ** [ingest/compiler.py]: from rows to a log and its index *)

Module compile_proofs.
Import l2_batcher tardis_csv l2_batcher_proofs l2_batcher_order_proofs
       l2_batcher_raising_proofs.
Import struct_proofs index_proofs bisect_proofs evlog_proofs.

(** The compile loop ends normally only on batches the writer
    accepts. *)
Lemma compile_batches_inv bs : forall w file entries count r,
  writer._file w = Some file ->
  compile_batches w entries count bs = Ok r ->
  Forall batch_ok bs.
Proof.
  induction bs as [| b bs IH]; intros w file entries count r Hfile Hc;
    [constructor |].
  cbn [compile_batches] in Hc. unfold tell in Hc. rewrite Hfile in Hc.
  unbind.
  destruct (write_l2_batch_cases w b file Hfile)
    as [(Hb & Hfit & rec & Hw & _) | [(_ & _ & Hw) | (_ & m & Hw)]];
    rewrite Hw in Hc; unbind; try discriminate.
  constructor; [split; assumption |].
  eapply IH; [| exact Hc]. reflexivity.
Qed.

Lemma index_valid_written (es : list index.IndexEntry) :
  Forall entry_int64 es -> index_valid es ->
  index.write_index es = (raw_index es, Ok (Z.of_nat (length es))) /\
  index.read_index (raw_index es) = Ok es.
Proof.
  intros H64 Hvalid. apply index_ok_None in Hvalid.
  unfold index.write_index, index._write_entries. rewrite _pack_header_eq.
  rewrite read_index_raw.
  destruct (_write_entries_loop_spec es H64 index_header 0 None)
    as [[_ Hw] | [Hno _]]; [| contradiction].
  destruct (read_entries_spec es H64 [] None)
    as [[_ Hr] | [Hno _]]; [| contradiction].
  cbn [prev_ts prev_offset fmap option_fmap option_map app length]
    in Hw, Hr.
  rewrite Hw, Hr. split; reflexivity.
Qed.

(** Compiling under HARD_FAIL or with the action HALT.  When the
    batcher ends normally on the rows, every yielded batch is written
    and the log stays shorter than [2^63] bytes: the record count is the
    number of batches; the index entries carry the receive times of the
    batches, which increase strictly; [write_index] accepts them; and a
    reader opened on the log and the index written reads back, without
    an error, batches that hold the update of every row, one for one and
    in order, each in a batch stamped with the local timestamp of its
    row. *)
Theorem compile_raising (cfg : Config) (snk : option ListQuarantineSink)
        (rows : list L2Row) (eid sid : Z) (qh : option (list byte))
        (w0 w : EvlogWriter) (entries : list index.IndexEntry) (n : Z)
        (file : list byte) :
  raising cfg ->
  writer.__enter__ (EvlogWriter_new eid sid qh) = Ok w0 ->
  (iter_l2_batches cfg snk rows).2 = None ->
  compile_batches w0 [] 0 (yielded (iter_l2_batches cfg snk rows).1)
  = Ok (w, entries, n) ->
  writer._file w = Some file ->
  Z.of_nat (length file) < 2 ^ 63 ->
  n = Z.of_nat (length (yielded (iter_l2_batches cfg snk rows).1)) /\
  StronglySorted Z.lt (map index.ts_recv_ns entries) /\
  index.write_index entries = (raw_index entries, Ok n) /\
  exists r0 r1 r2 batches,
    reader.EvlogReader_new (Some (raw_index entries)) = Ok r0 /\
    reader.__enter__ r0 file = Ok r1 /\
    reader.iter_l2_batches r1 = Ok (batches, None, r2) /\
    map evlog_types.ts_recv_ns batches = map index.ts_recv_ns entries /\
    Forall2 (row_stamped cfg) rows (stamped batches).
Proof.
  intros Hr Henter Hend Hcompile Hfile Hsize.
  destruct (iter_l2_batches_raising cfg snk rows Hr) as (Hsorted & _ & k & Hrows & Hk).
  rewrite Hend in Hk. subst k. rewrite firstn_all in Hrows.
  set (bs := yielded (iter_l2_batches cfg snk rows).1) in *.
  unfold writer.__enter__ in Henter.
  cbn [writer._exchange_id writer._symbol_id writer._quantizer_hash
       EvlogWriter_new] in Henter.
  destruct (pack_header 0 eid sid qh) as [h |] eqn:Hh; [| discriminate].
  cbn in Henter. injection Henter as <-.
  destruct (pack_header_read _ _ _ _ Hh) as [Hlen Hread].
  assert (Hbs : Forall batch_ok bs)
    by (eapply compile_batches_inv; [| exact Hcompile]; reflexivity).
  destruct (compile_batches_ok bs Hbs
              (writer.set_file (EvlogWriter_new eid sid qh) (Some h))
              h [] 0 eq_refl) as (recs & Hc & Hrecs).
  rewrite Hc in Hcompile. injection Hcompile as <- <- <-.
  cbn in Hfile. injection Hfile as <-. cbn [app].
  set (entries := entries_from (length h) recs bs) in *.
  assert (Hts : map index.ts_recv_ns entries
                = map evlog_types.ts_recv_ns bs)
    by (apply entries_from_ts; assumption).
  assert (H64 : Forall entry_int64 entries).
  { apply entries_from_int64; [assumption .. |].
    rewrite length_app in Hsize. lia. }
  assert (Hvalid : index_valid entries).
  { apply index_ok_None. apply entries_from_index_ok; auto.
    apply StronglySorted_lt_le. exact Hsorted. }
  destruct (index_valid_written entries H64 Hvalid) as [Hwrite Hreadidx].
  assert (Hn : length entries = length bs).
  { rewrite <- (length_map index.ts_recv_ns), Hts, length_map.
    reflexivity. }
  split; [lia |]. split; [rewrite Hts; exact Hsorted |].
  split; [rewrite Hwrite, Hn; f_equal; f_equal; lia |].
  destruct (Hread (concat recs)) as [hdr Hhdr].
  assert (Hiter : exists r',
    reader.iter_l2_batches
      {| reader._file := Some {| content := h ++ concat recs; pos := 64 |};
         reader._header := Some hdr; reader._index := Some entries;
         reader._index_ts := Some (map index.ts_recv_ns entries) |}
    = Ok (bs, None, r')).
  { eapply iter_l2_batches_records; [eassumption |].
    cbn. rewrite Hlen. reflexivity. }
  destruct Hiter as [r' Hiter].
  eexists _, _, r', bs. split.
  { unfold reader.EvlogReader_new. rewrite Hreadidx. reflexivity. }
  split.
  { unfold reader.__enter__. rewrite Hhdr. reflexivity. }
  split; [exact Hiter |]. split; [symmetry; exact Hts | exact Hrows].
Qed.

Definition compiled_rows :=
  match compile_batches
          open_writer [] 0
          (yielded (iter_l2_batches hard_fail None reset_rows).1) with
  | Ok r => r
  | Raise _ => (open_writer, [], 0)
  end.

Lemma compiled_rows_eq :
  compile_batches open_writer [] 0
                  (yielded (iter_l2_batches hard_fail None reset_rows).1)
  = Ok compiled_rows.
Proof. vm_compute. reflexivity. Qed.

Lemma compile_raising_witness :
  index.write_index compiled_rows.1.2 = (raw_index compiled_rows.1.2, Ok 3) /\
  exists batches,
    Forall2 (row_stamped hard_fail) reset_rows (stamped batches).
Proof.
  destruct (compile_raising
              hard_fail None reset_rows 0 0 None open_writer
              compiled_rows.1.1 compiled_rows.1.2 compiled_rows.2
              (default [] (writer._file compiled_rows.1.1)))
    as (_ & _ & Hw & _ & _ & _ & batches & _ & _ & _ & _ & Hrows).
  - left. reflexivity.
  - exact open_writer_eq.
  - vm_compute. reflexivity.
  - rewrite compiled_rows_eq. destruct compiled_rows as [[? ?] ?].
    reflexivity.
  - vm_compute. reflexivity.
  - vm_compute. reflexivity.
  - split; [exact Hw | exists batches; exact Hrows].
Defined.

End compile_proofs.

(** ** [evlog/format.py]: the header of a log *)

Module format_header_proofs.
Import format_header struct_proofs evlog_proofs.

(** The header that [pack_header] writes. *)
Definition v1_header (flags exchange_id symbol_id : Z)
           (quantizer_hash : option (list byte)) : EvlogHeader :=
  {| version := VERSION; endian := ENDIAN_LITTLE; flags := flags;
     exchange_id := Some exchange_id; symbol_id := Some symbol_id;
     quantizer_hash := Some (default (replicate 32 x00) quantizer_hash) |}.

Lemma bytes_eqb_eq (a b : list byte) : bytes_eqb a b = true <-> a = b.
Proof.
  revert b. induction a as [| x a IH]; intros [| y b]; cbn;
    try (split; [discriminate | discriminate]); [tauto |].
  rewrite andb_true_iff, IH. split.
  - intros [Hxy ->]. f_equal. apply Byte.byte_dec_bl. exact Hxy.
  - intros [= -> ->]. split; [apply Byte.byte_dec_lb |]; reflexivity.
Qed.

(** The two readers of a header on the same bytes. *)
Lemma read_header_take (data rest : list byte) (n : nat) :
  (n <= length data)%nat ->
  read (open_rb (data ++ rest)) (Z.of_nat n)
  = (take n data, {| content := data ++ rest; pos := Z.of_nat n |}).
Proof.
  intros Hn. unfold read, open_rb. cbn [content pos].
  change (Z.to_nat 0) with 0%nat. rewrite drop_0, Nat2Z.id.
  rewrite take_app_le by exact Hn.
  rewrite length_take. f_equal. f_equal. lia.
Qed.

Lemma read_extra (data rest : list byte) :
  (64 <= length data)%nat ->
  read {| content := data ++ rest; pos := 16 |} 48
  = (take 48 (drop 16 data), {| content := data ++ rest; pos := 64 |}).
Proof.
  intros Hn. unfold read. cbn [content pos].
  change (Z.to_nat 16) with 16%nat. change (Z.to_nat 48) with 48%nat.
  rewrite drop_app_le by lia. rewrite take_app_le
    by (rewrite length_drop; lia).
  rewrite length_take, length_drop. f_equal. f_equal. lia.
Qed.

(** [unpack_header] and [read_header] accept the same headers: on a byte
    string that [unpack_header] accepts, [read_header] returns the same
    header and leaves the file right after it, whatever follows. *)
Lemma unpack_header_read (data rest : list byte) (hdr : EvlogHeader) :
  unpack_header data = Ok hdr ->
  read_header (open_rb (data ++ rest))
  = Ok (hdr, {| content := data ++ rest;
                pos := Z.of_nat (length data) |}).
Proof.
  unfold unpack_header, read_header.
  change HEADER_BASE_SIZE with 16%nat. change HEADER_V1_SIZE with 64%nat.
  change HEADER_V1_EXTRA_SIZE with 48%nat.
  destruct (Nat.eqb_spec (length data) 16) as [H16 | H16];
    destruct (Nat.eqb_spec (length data) 64) as [H64 | H64];
    cbn [orb negb]; try lia; try discriminate.
  - (* 16 bytes *)
    rewrite read_header_take by lia.
    rewrite take_ge by lia.
    destruct data as [| d0 data']; [discriminate |].
    rewrite H16. cbn [Nat.eqb negb].
    destruct (unpack HEADER_BASE_FMT (d0 :: data')) as [vs | e];
      unbind; [| discriminate].
    destruct vs as [| [? | magic] [| [version |?] [| [endian |?]
                    [| [flags |?] [| [reserved |?] [| ? ?]]]]]];
      try discriminate.
    destruct (negb (bytes_eqb magic MAGIC)); [discriminate |].
    destruct (Z.eqb_spec version 0) as [-> | Hv0]; cbn [orb negb].
    + destruct (negb (endian =? ENDIAN_LITTLE)); [discriminate |].
      destruct (negb (reserved =? 0)); [discriminate |].
      intros [= <-]. reflexivity.
    + destruct (version =? VERSION); cbn [negb]; [| discriminate].
      destruct (negb (endian =? ENDIAN_LITTLE)); [discriminate |].
      destruct (negb (reserved =? 0)); discriminate.
  - (* 64 bytes *)
    rewrite read_header_take by lia.
    assert (Hl : length (take 16 data) = 16%nat)
      by (rewrite length_take; lia).
    destruct (take 16 data) as [| d0 base'] eqn:Hbase; [discriminate |].
    rewrite Hl. cbn [Nat.eqb negb].
    destruct (unpack HEADER_BASE_FMT (d0 :: base')) as [vs | e];
      unbind; [| discriminate].
    destruct vs as [| [? | magic] [| [version |?] [| [endian |?]
                    [| [flags |?] [| [reserved |?] [| ? ?]]]]]];
      try discriminate.
    destruct (negb (bytes_eqb magic MAGIC)); [discriminate |].
    destruct (Z.eqb_spec version 0) as [-> | Hv0]; cbn [orb negb].
    + destruct (negb (endian =? ENDIAN_LITTLE)); [discriminate |].
      destruct (negb (reserved =? 0)); discriminate.
    + destruct (version =? VERSION); cbn [negb]; [| discriminate].
      destruct (negb (endian =? ENDIAN_LITTLE)) eqn:He; [discriminate |].
      destruct (negb (reserved =? 0)) eqn:Hr; [discriminate |].
      change (Z.of_nat 16) with 16. change (Z.of_nat 48) with 48.
      rewrite read_extra by lia.
      rewrite (take_ge (drop 16 data)) by (rewrite length_drop; lia).
      rewrite length_drop, H64. cbn [Nat.sub Nat.eqb negb].
      destruct (unpack HEADER_V1_EXTRA_FMT (drop 16 data)) as [ws | e];
        unbind; [| discriminate].
      destruct ws as [| [eid |?] [| [sid |?] [| [? | qh] [| ? ?]]]];
        try discriminate.
      intros [= <-]. reflexivity.
Qed.

(** Conversely, a header that [read_header] reads from the start of a
    file is the one [unpack_header] finds in the bytes read, 16 or 64 of
    them. *)
Lemma read_header_unpack (data : list byte) (hdr : EvlogHeader) (f : rfile) :
  read_header (open_rb data) = Ok (hdr, f) ->
  content f = data /\ (pos f = 16 \/ pos f = 64) /\
  (Z.to_nat (pos f) <= length data)%nat /\
  unpack_header (take (Z.to_nat (pos f)) data) = Ok hdr.
Proof.
  unfold read_header.
  change HEADER_BASE_SIZE with 16%nat.
  change HEADER_V1_EXTRA_SIZE with 48%nat.
  unfold read at 1, open_rb. cbn [content pos].
  change (Z.to_nat 0) with 0%nat. rewrite drop_0.
  change (Z.to_nat (Z.of_nat 16)) with 16%nat.
  assert (Hl : length (take 16 data) = Nat.min 16 (length data))
    by apply length_take.
  destruct (take 16 data) as [| d0 base'] eqn:Hbase; [discriminate |].
  set (base := d0 :: base') in *.
  destruct (Nat.eqb_spec (length base) 16) as [H16 | H16];
    cbn [negb]; [| discriminate].
  assert (Hdata : (16 <= length data)%nat) by lia.
  destruct (unpack HEADER_BASE_FMT base) as [vs | e] eqn:Hu;
    unbind; [| discriminate].
  destruct vs as [| [? | magic] [| [version |?] [| [endian |?]
                  [| [flags |?] [| [reserved |?] [| ? ?]]]]]];
    try discriminate.
  destruct (negb (bytes_eqb magic MAGIC)) eqn:Hm; [discriminate |].
  assert (Hunpack16 : forall k,
    (16 <= k)%nat ->
    unpack HEADER_BASE_FMT (take 16 (take k data))
    = Ok [VBytes magic; VInt version; VInt endian; VInt flags;
          VInt reserved]).
  { intros k Hk. rewrite take_take, Nat.min_l by exact Hk.
    rewrite Hbase. exact Hu. }
  destruct (Z.eqb_spec version 0) as [-> | Hv0].
  - destruct (negb (endian =? ENDIAN_LITTLE)) eqn:He; [discriminate |].
    destruct (negb (reserved =? 0)) eqn:Hr; [discriminate |].
    intros [= <- <-]. cbn [content pos].
    change (S (length base')) with (length base). rewrite H16. change (0 + Z.of_nat 16) with 16.
    change (Z.to_nat 16) with 16%nat.
    split; [reflexivity |]. split; [left; reflexivity |].
    split; [exact Hdata |].
    unfold unpack_header.
    change HEADER_BASE_SIZE with 16%nat. change HEADER_V1_SIZE with 64%nat.
    rewrite length_take, Nat.min_l by exact Hdata.
    cbn [Nat.eqb orb negb].
    rewrite Hunpack16 by lia. unbind. rewrite Hm, He, Hr.
    reflexivity.
  - destruct (Z.eqb_spec version VERSION) as [-> | Hv1];
      cbn [negb]; [| discriminate].
    change (S (length base')) with (length base). rewrite H16.
    change (0 + Z.of_nat 16) with 16.
    unfold read. cbn [content pos].
    change (Z.to_nat 16) with 16%nat.
    change (Z.to_nat (Z.of_nat 48)) with 48%nat.
    assert (Hle : length (take 48 (drop 16 data))
                  = Nat.min 48 (length data - 16))
      by (rewrite length_take, length_drop; reflexivity).
    destruct (Nat.eqb_spec (length (take 48 (drop 16 data))) 48)
      as [H48 | H48]; cbn [negb]; [| discriminate].
    assert (H64 : (64 <= length data)%nat) by lia.
    destruct (unpack HEADER_V1_EXTRA_FMT (take 48 (drop 16 data)))
      as [ws | e] eqn:Hw; unbind; [| discriminate].
    destruct ws as [| [eid |?] [| [sid |?] [| [? | qh] [| ? ?]]]];
      try discriminate.
    destruct (negb (endian =? ENDIAN_LITTLE)) eqn:He; [discriminate |].
    destruct (negb (reserved =? 0)) eqn:Hr; [discriminate |].
    intros [= <- <-]. cbn [content pos].
    rewrite H48. change (16 + Z.of_nat 48) with 64.
    change (Z.to_nat 64) with 64%nat.
    split; [reflexivity |]. split; [right; reflexivity |].
    split; [exact H64 |].
    unfold unpack_header.
    change HEADER_BASE_SIZE with 16%nat. change HEADER_V1_SIZE with 64%nat.
    rewrite length_take, Nat.min_l by exact H64.
    cbn [Nat.eqb orb negb].
    rewrite Hunpack16 by lia. unbind. rewrite Hm, He, Hr.
    change (1 =? 0) with false. change (1 =? VERSION) with true.
    cbn [orb negb].
    replace (drop 16 (take 64 data)) with (take 48 (drop 16 data))
      by (rewrite take_drop_commute; reflexivity).
    rewrite Hw. reflexivity.
Qed.

(** [unpack_header] and [read_header] agree.  A byte string that
    [unpack_header] accepts is read by [read_header] as the same header,
    whatever follows it in the file, and the file is left right after
    it; and a header that [read_header] reads from the start of a file
    is the header [unpack_header] finds in the 16 or 64 bytes read. *)
Theorem header_readers_agree (data : list byte) (hdr : EvlogHeader) :
  (unpack_header data = Ok hdr ->
   forall rest,
     read_header (open_rb (data ++ rest))
     = Ok (hdr, {| content := data ++ rest;
                   pos := Z.of_nat (length data) |})) /\
  (forall f,
      read_header (open_rb data) = Ok (hdr, f) ->
      content f = data /\ (pos f = 16 \/ pos f = 64) /\
      (Z.to_nat (pos f) <= length data)%nat /\
      unpack_header (take (Z.to_nat (pos f)) data) = Ok hdr).
Proof.
  split.
  - intros H rest. apply unpack_header_read. exact H.
  - intros f. apply read_header_unpack.
Qed.

(** What [pack_header] accepts. *)
Definition header_args_ok (flags exchange_id symbol_id : Z)
           (quantizer_hash : option (list byte)) : Prop :=
  0 <= flags < 2 ^ 16 /\ 0 <= exchange_id < 2 ^ 64 /\
  0 <= symbol_id < 2 ^ 64 /\
  length (default (replicate 32 x00) quantizer_hash) = 32%nat.

Lemma pack_header_cases (flags eid sid : Z) (qh : option (list byte)) :
  match pack_header flags eid sid qh with
  | Ok h =>
    header_args_ok flags eid sid qh /\ length h = 64%nat /\
    unpack_header h = Ok (v1_header flags eid sid qh)
  | Raise e =>
    ~ header_args_ok flags eid sid qh /\
    (e = StructError \/ exists m, e = SchemaError m)
  end.
Proof.
  unfold pack_header, header_args_ok.
  set (q := default (replicate 32 x00) qh).
  destruct (Nat.eqb_spec (length q) 32) as [Hq | Hq]; cbn [negb];
    [| split; [tauto | eauto]].
  destruct (Z.ltb_spec eid 0); cbn [orb]; [split; [lia | eauto] |].
  destruct (Z.ltb_spec (2 ^ 64 - 1) eid); [split; [lia | eauto] |].
  destruct (Z.ltb_spec sid 0); cbn [orb]; [split; [lia | eauto] |].
  destruct (Z.ltb_spec (2 ^ 64 - 1) sid); [split; [lia | eauto] |].
  assert (Hb : pack HEADER_BASE_FMT
                    [VBytes MAGIC; VInt VERSION; VInt ENDIAN_LITTLE;
                     VInt flags; VInt 0]
               = match pack_unsigned 2 flags with
                 | Ok _ => pack HEADER_BASE_FMT
                                [VBytes MAGIC; VInt VERSION;
                                 VInt ENDIAN_LITTLE; VInt flags; VInt 0]
                 | Raise _ => Raise StructError
                 end).
  { unfold HEADER_BASE_FMT. cbn [pack].
    destruct (pack_unsigned 2 flags) as [b | e] eqn:Hf; [reflexivity |].
    unfold pack_unsigned in Hf. destruct (_ && _); [discriminate |].
    injection Hf as <-. reflexivity. }
  assert (Hf : (0 <= flags < 2 ^ 16 /\
                pack_unsigned 2 flags = Ok (le_bytes 2 flags)) \/
               (~ 0 <= flags < 2 ^ 16 /\
                pack_unsigned 2 flags = Raise StructError)).
  { unfold pack_unsigned. change (8 * Z.of_nat 2) with 16.
    destruct (Z.leb_spec 0 flags); [| right; split; [lia | reflexivity]].
    destruct (Z.ltb_spec flags (2 ^ 16));
      [left | right]; split; first [lia | reflexivity]. }
  destruct Hf as [[Hflags Hf] | [Hflags Hf]]; rewrite Hf in Hb;
    [clear Hb | rewrite Hb; unbind; split; [tauto | left; reflexivity]].
  destruct (pack HEADER_BASE_FMT _) as [base | e] eqn:Hbase; unbind.
  - destruct (pack HEADER_V1_EXTRA_FMT _) as [extra | e] eqn:Hextra; unbind.
    + destruct (pack_spec _ _ _ Hbase) as [Hlb _].
      destruct (pack_spec _ _ _ Hextra) as [Hle _].
      change (calcsize HEADER_BASE_FMT) with 16%nat in Hlb.
      change (calcsize HEADER_V1_EXTRA_FMT) with 48%nat in Hle.
      split; [lia |]. split; [rewrite length_app; lia |].
      unfold unpack_header.
      change HEADER_BASE_SIZE with 16%nat.
      change HEADER_V1_SIZE with 64%nat.
      rewrite length_app, Hlb, Hle. cbn [Nat.add Nat.eqb orb negb].
      destruct (take_drop_app_exact base extra 16 Hlb) as [-> ->].
      rewrite (unpack_pack _ _ _ Hbase), (unpack_pack _ _ _ Hextra).
      cbn [canon_all canon HEADER_BASE_FMT HEADER_V1_EXTRA_FMT]. unbind.
      change (negb (bytes_eqb (take 8 (MAGIC ++ replicate 8 x00)) MAGIC))
        with false. cbv iota.
      change (VERSION =? 0) with false. change (VERSION =? VERSION) with true.
      change (ENDIAN_LITTLE =? ENDIAN_LITTLE) with true.
      cbn [orb negb Z.eqb]. unfold v1_header. f_equal. f_equal. f_equal.
      fold q. rewrite take_app_length' by (symmetry; exact Hq). reflexivity.
    + exfalso. unfold HEADER_V1_EXTRA_FMT in Hextra. cbn [pack] in Hextra.
      rewrite !pack_unsigned_ok in Hextra
        by (change (8 * Z.of_nat 8) with 64; lia).
      revert Hextra. unbind. discriminate.
  - exfalso. unfold HEADER_BASE_FMT in Hbase. cbn [pack] in Hbase.
    rewrite Hf in Hbase. revert Hbase. vm_compute. discriminate.
Qed.

(** [pack_header] succeeds exactly on flags of 16 bits, ids of 64 bits
    and a hash of 32 bytes (none stands for 32 zero bytes); it then
    writes 64 bytes that both [unpack_header] and [read_header] read back
    as the version-1 header with exactly these fields, [read_header]
    leaving the file right after the header.  Out of these ranges it
    raises a SchemaError, or [struct.error] for the flags. *)
Theorem header_roundtrip (flags exchange_id symbol_id : Z)
        (quantizer_hash : option (list byte)) :
  match pack_header flags exchange_id symbol_id quantizer_hash with
  | Ok h =>
    header_args_ok flags exchange_id symbol_id quantizer_hash /\
    length h = 64%nat /\
    unpack_header h
    = Ok (v1_header flags exchange_id symbol_id quantizer_hash) /\
    forall rest,
      read_header (open_rb (h ++ rest))
      = Ok (v1_header flags exchange_id symbol_id quantizer_hash,
            {| content := h ++ rest; pos := 64 |})
  | Raise e =>
    ~ header_args_ok flags exchange_id symbol_id quantizer_hash /\
    (e = StructError \/ exists m, e = SchemaError m)
  end.
Proof.
  pose proof (pack_header_cases flags exchange_id symbol_id quantizer_hash)
    as H.
  destruct (pack_header flags exchange_id symbol_id quantizer_hash)
    as [h | e]; [| exact H].
  destruct H as (Hargs & Hlen & Hunpack).
  split; [exact Hargs |]. split; [exact Hlen |]. split; [exact Hunpack |].
  intros rest. rewrite (unpack_header_read h rest _ Hunpack), Hlen.
  reflexivity.
Qed.

End format_header_proofs.

(** ** [evlog/reader.py]: a log that was cut *)

Module truncation_proofs.
Import struct_proofs index_proofs evlog_proofs reader_proofs.

(** The reader's loop on records followed by anything: the batches of
    the records come first, then whatever the loop finds after them. *)
Lemma iter_loop_records_then recs bs :
  Forall2 is_record recs bs ->
  forall pre tail fuel,
    reader.iter_loop
      (length bs + fuel)
      {| content := pre ++ concat recs ++ tail;
         pos := Z.of_nat (length pre) |}
    = let '(bs', e, f') :=
        reader.iter_loop
          fuel {| content := pre ++ concat recs ++ tail;
                  pos := Z.of_nat (length (pre ++ concat recs)) |} in
      (bs ++ bs', e, f').
Proof.
  induction 1 as [| rec b recs bs Hrec _ IH]; intros pre tail fuel.
  - cbn [concat app length Nat.add]. rewrite app_nil_r.
    destruct (reader.iter_loop fuel _) as [[bs' e] f']. reflexivity.
  - destruct Hrec as (rh & payload & -> & Hl & Hu & Hal & Hdec).
    cbn [length Nat.add reader.iter_loop concat].
    change (Z.of_nat RECORD_HEADER_SIZE) with 8.
    replace 8 with (Z.of_nat (length rh)) by (rewrite Hl; reflexivity).
    rewrite <- !app_assoc.
    rewrite (read_at pre rh (payload ++ concat recs ++ tail)).
    destruct rh as [| r0 rh']; [discriminate |].
    change RECORD_HEADER_SIZE with 8%nat. rewrite Hl. cbn [Nat.eqb negb].
    rewrite Hu. change (Z.of_nat 8) with 8. rewrite Hal. cbn [Z.eqb negb].
    replace (pre ++ (r0 :: rh') ++ payload ++ concat recs ++ tail)
      with ((pre ++ r0 :: rh') ++ payload ++ concat recs ++ tail)
      by (rewrite <- app_assoc; reflexivity).
    rewrite (read_at (pre ++ r0 :: rh') payload (concat recs ++ tail)).
    rewrite Z.eqb_refl. cbn [negb]. change (L2_BATCH =? L2_BATCH) with true.
    cbn iota. rewrite Hdec.
    specialize (IH ((pre ++ r0 :: rh') ++ payload) tail fuel).
    rewrite <- (app_assoc (pre ++ r0 :: rh') payload
                          (concat recs ++ tail)) in IH.
    rewrite IH. clear IH.
    match goal with
    | |- context [reader.iter_loop fuel ?s1] => set (st1 := s1)
    end.
    match goal with
    | |- context [reader.iter_loop fuel {| content := ?c; pos := ?p |}] =>
      set (st2 := {| content := c; pos := p |})
    end.
    assert (Hst : st1 = st2).
    { subst st1 st2. f_equal. f_equal.
      rewrite !length_app. cbn [length]. rewrite ?length_app. lia. }
    rewrite Hst.
    destruct (reader.iter_loop fuel _) as [[bs' e] f']. reflexivity.
Qed.

(** One turn of the loop at the start of a record that was cut after
    [k] of its bytes. *)
Lemma iter_loop_cut (rec : list byte) (b : L2Batch) (pre : list byte)
      (k fuel : nat) :
  is_record rec b -> (0 < k < length rec)%nat ->
  exists f',
    reader.iter_loop (S fuel)
                     {| content := pre ++ take k rec;
                        pos := Z.of_nat (length pre) |}
    = ([], Some (SchemaError (if (k <? 8)%nat then "truncated record header"
                              else "truncated payload")), f').
Proof.
  intros (rh & payload & -> & Hl & Hu & Hal & Hdec) Hk.
  rewrite length_app in Hk.
  cbn [reader.iter_loop]. unfold read at 1. cbn [content pos].
  change (Z.to_nat (Z.of_nat RECORD_HEADER_SIZE)) with 8%nat.
  rewrite Nat2Z.id, drop_app_length.
  rewrite take_take.
  destruct (Nat.ltb_spec k 8) as [Hlt | Hge].
  - rewrite Nat.min_r by lia.
    assert (Hlen : length (take k (rh ++ payload)) = k)
      by (rewrite length_take, length_app; lia).
    destruct (take k (rh ++ payload)) as [| c0 cut'] eqn:Hcut;
      [cbn in Hlen; lia |].
    change RECORD_HEADER_SIZE with 8%nat. rewrite Hlen.
    destruct (Nat.eqb_spec k 8) as [-> | _]; [lia |]. cbn [negb]. eauto.
  - rewrite Nat.min_l by lia.
    rewrite take_app_le by lia. rewrite take_ge by lia.
    destruct rh as [| r0 rh']; [discriminate |].
    change RECORD_HEADER_SIZE with 8%nat. rewrite Hl. cbn [Nat.eqb negb].
    rewrite Hu. rewrite Hal. cbn [Z.eqb negb].
    unfold read. cbn [content pos].
    assert (Hd : drop (Z.to_nat (Z.of_nat (length pre) + Z.of_nat 8))
                      (pre ++ take k ((r0 :: rh') ++ payload))
                 = take (k - 8) payload).
    { replace (Z.to_nat (Z.of_nat (length pre) + Z.of_nat 8))
        with (length pre + 8)%nat by lia.
      rewrite <- drop_drop, drop_app_length.
      replace k with (8 + (k - 8))%nat at 1 by lia.
      rewrite <- take_drop_commute.
      rewrite drop_app_length' by (symmetry; exact Hl). reflexivity. }
    rewrite Hd, Nat2Z.id, take_take, length_take.
    destruct (Z.eqb_spec
                (Z.of_nat (Nat.min (Nat.min (length payload) (k - 8))
                                   (length payload)))
                (Z.of_nat (length payload))) as [Heq | _];
      [lia |].
    cbn [negb]. eauto.
Qed.

(** A log of records cut inside the record that follows them, after [k]
    of its bytes: the reader yields the batches of the complete records
    and then raises a SchemaError, "truncated record header" when fewer
    than the 8 bytes of the record header are left and "truncated
    payload" otherwise.  No cut inside a record goes unnoticed, and
    nothing that was written in full is lost. *)
Theorem truncated_log (r : reader.EvlogReader) (pre : list byte)
        (recs : list (list byte)) (bs : list L2Batch) (rec : list byte)
        (b : L2Batch) (k : nat) :
  Forall2 is_record recs bs -> is_record rec b ->
  (0 < k < length rec)%nat ->
  reader._file r = Some {| content := pre ++ concat recs ++ take k rec;
                           pos := Z.of_nat (length pre) |} ->
  exists r',
    reader.iter_l2_batches r
    = Ok (bs,
          Some (SchemaError (if (k <? 8)%nat then "truncated record header"
                             else "truncated payload")),
          r').
Proof.
  intros Hrecs Hrec Hk Hfile. unfold reader.iter_l2_batches.
  rewrite Hfile. cbn [content].
  assert (Hfuel : exists fuel,
    S (length (pre ++ concat recs ++ take k rec))
    = (length bs + S fuel)%nat).
  { pose proof (length_concat_records recs bs Hrecs) as Hlen.
    exists (length (pre ++ concat recs ++ take k rec) - length bs)%nat.
    rewrite !length_app. lia. }
  destruct Hfuel as [fuel ->].
  rewrite (iter_loop_records_then recs bs Hrecs pre (take k rec) (S fuel)).
  destruct (iter_loop_cut rec b (pre ++ concat recs) k fuel Hrec Hk)
    as [f' Hcut].
  rewrite <- app_assoc in Hcut. rewrite Hcut.
  rewrite app_nil_r. eauto.
Qed.

Lemma truncated_log_witness :
  exists rec r',
    is_record rec second_batch /\
    reader.iter_l2_batches
      {| reader._file := Some {| content := take 20 rec; pos := 0 |};
         reader._header := None; reader._index := None;
         reader._index_ts := None |}
    = Ok ([], Some (SchemaError "truncated payload"), r').
Proof.
  assert (Hok : batch_ok second_batch).
  { unfold batch_ok, batch_checks, payload_fits, update_ok, int64. cbn.
    repeat split; try lia. repeat constructor; cbn; lia. }
  destruct (write_then_decode open_writer second_batch _ eq_refl Hok)
    as (rec & _ & Hrec).
  pose proof (is_record_length rec second_batch Hrec) as Hlen.
  assert (Hlong : (20 < length rec)%nat).
  { destruct Hrec as (rh & payload & -> & Hl & _ & _ & Hdec).
    unfold reader._decode_l2_payload in Hdec.
    change L2_BATCH_HEADER_SIZE with 24%nat in Hdec.
    rewrite length_app.
    destruct (Nat.ltb_spec (length payload) 24); [discriminate | lia]. }
  destruct (truncated_log
              {| reader._file := Some {| content := take 20 rec; pos := 0 |};
                 reader._header := None; reader._index := None;
                 reader._index_ts := None |}
              [] [] [] rec second_batch 20
              (Forall2_nil_2 _ _ _) Hrec ltac:(lia) eq_refl) as [r' Hr].
  exists rec, r'. split; [exact Hrec | exact Hr].
Defined.

End truncation_proofs.

(** ** [sim/exchange.py]: the run over the batches *)

Module backtest_proofs.
Import exchange exchange_proofs engine_proofs backtest.

Section run.

Context {S : Type}.
Variable on_batch :
  S -> StrategyContext -> BookSnapshot ->
  S * result (option (list MarketOrder)).
Variable config : RunConfig.
Variable fee_model : FixedBpsFeeModel.


(** The liquidation value of a ledger at a snapshot: the bid for a long
    or flat position, the ask for a short one. *)
Definition marked (p : Portfolio) (snapshot : BookSnapshot) : Z :=
  cash p + position p * (if 0 <=? position p
                         then strategy_api.bid_px snapshot
                         else strategy_api.ask_px snapshot).

(** The snapshot of a book: both sides are there, with positive sizes. *)
Definition snapshot_of (bk : BookPy) (snapshot : BookSnapshot) : Prop :=
  best_bid_ask bk
  = Ok (Some (strategy_api.bid_px snapshot),
        Some (strategy_api.bid_qty snapshot),
        Some (strategy_api.ask_px snapshot),
        Some (strategy_api.ask_qty snapshot)) /\
  0 < strategy_api.bid_qty snapshot /\ 0 < strategy_api.ask_qty snapshot.

(** A turn that was skipped: only the book moved. *)
Definition skipped (st st' : Run S) (batch : L2Batch) : Prop :=
  skip_initial_missing_book config = true /\
  seen_ready_book st = false /\
  st' = set_book st (apply_l2_batch (active_book st) batch).1.

(** A turn that ran to its end: the strategy was asked, its actions
    were executed, and the equity of the ledger was recorded. *)
Definition completed (st st' : Run S) (batch : L2Batch) : Prop :=
  exists snapshot s actions en,
    let ts := evlog_types.ts_recv_ns batch in
    let p := the_portfolio en in
    apply_l2_batch (active_book st) batch = (active_book st', Ok tt) /\
    snapshot_of (active_book st') snapshot /\
    on_batch (strategy st)
             {| ctx_ts_recv_ns := ts;
                ctx_cash := cash (the_portfolio (engine st));
                ctx_position := position (the_portfolio (engine st)) |}
             snapshot = (s, Ok (Some actions)) /\
    execute_actions config fee_model ts snapshot (engine st) actions
    = (en, None) /\
    0 < (if 0 <=? position p then strategy_api.bid_px snapshot
         else strategy_api.ask_px snapshot) /\
    st' = {| engine :=
               set_tape en
                 ((fun t => record_equity t ts (cash p) (position p)
                                          (marked p snapshot))
                    <$> the_tape en);
             active_book := active_book st';
             equity_curve := equity_curve st ++ [(ts, marked p snapshot)];
             seen_ready_book := true; strategy := s |}.

Lemma run_batch_cases (st : Run S) (batch : L2Batch) :
  let '(st', r) := run_batch on_batch config fee_model st batch in
  match r with
  | None => skipped st st' batch \/ completed st st' batch
  | Some _ =>
    equity_curve st' = equity_curve st /\
    (the_portfolio (engine st') = the_portfolio (engine st) \/
     exists ts snapshot actions,
       engine st'
       = (execute_actions config fee_model ts snapshot (engine st)
                          actions).1)
  end.
Proof.
  unfold backtest.run_batch.
  destruct (apply_l2_batch (active_book st) batch) as [bk [[] | e]] eqn:Hb;
    [| cbn; auto].
  destruct (best_bid_ask bk)
    as [[[[bid_px bid_qty] ask_px] ask_qty] | e] eqn:Hbest;
    [| cbn; auto].
  assert (Hskip :
    let '(st', r) :=
      if skip_initial_missing_book config
         && negb (seen_ready_book (set_book st bk))
      then (set_book st bk, None)
      else (set_book st bk, Some (SchemaError "missing best bid/ask")) in
    match r with
    | None => skipped st st' batch \/ completed st st' batch
    | Some _ =>
      equity_curve st' = equity_curve st /\
      (the_portfolio (engine st') = the_portfolio (engine st) \/
       exists ts snapshot actions,
         engine st'
         = (execute_actions config fee_model ts snapshot (engine st)
                            actions).1)
    end).
  { cbn [seen_ready_book set_book].
    destruct (skip_initial_missing_book config) eqn:Hcfg,
      (seen_ready_book st) eqn:Hseen; cbn; auto.
    left. unfold skipped. rewrite Hb. auto. }
  destruct bid_px as [bp |]; [| exact Hskip].
  destruct bid_qty as [bq |]; [| exact Hskip].
  destruct ask_px as [ap |]; [| exact Hskip].
  destruct ask_qty as [aq |]; [| exact Hskip].
  clear Hskip. unfold _ensure_snapshot_ready.
  destruct (Z.leb_spec bq 0); cbn [orb]; [cbn; auto |].
  destruct (Z.leb_spec aq 0); cbn [orb]; [cbn; auto |].
  cbn [set_book engine strategy active_book].
  destruct (on_batch _ _ _) as [s [[actions |] | e]] eqn:Hon;
    [| cbn; auto | cbn; auto].
  cbn [set_ready set_book engine active_book equity_curve strategy].
  destruct (execute_actions _ _ _ _ _ _) as [en [e |]] eqn:Hex.
  { cbn [set_engine engine equity_curve]. split; [reflexivity |].
    right. eexists _, _, actions. rewrite Hex. reflexivity. }
  unfold equity.
  cbn [strategy_api.bid_px strategy_api.ask_px].
  destruct (Z.leb_spec (if 0 <=? position (the_portfolio en) then bp else ap)
                       0) as [Hm | Hm].
  { cbn [set_engine engine equity_curve]. split; [reflexivity |].
    right. eexists _, _, actions. rewrite Hex. reflexivity. }
  right.
  exists {| strategy_api.bid_px := bp; strategy_api.bid_qty := bq;
            strategy_api.ask_px := ap; strategy_api.ask_qty := aq |},
         s, actions, en.
  cbn [active_book equity_curve strategy_api.bid_px strategy_api.ask_px
       strategy_api.bid_qty strategy_api.ask_qty].
  split; [exact Hb |].
  split; [unfold snapshot_of; cbn; split; [exact Hbest | lia] |].
  split; [exact Hon |]. split; [exact Hex |]. split; [exact Hm |].
  unfold marked.
  cbn [strategy_api.bid_px strategy_api.ask_px]. reflexivity.
Qed.

Lemma completed_ready (st st' : Run S) (batch : L2Batch) :
  completed st st' batch ->
  seen_ready_book st' = true /\
  exists eq snapshot,
    equity_curve st' = equity_curve st ++ [(evlog_types.ts_recv_ns batch, eq)]
    /\ snapshot_of (active_book st') snapshot /\
    eq = marked (the_portfolio (engine st')) snapshot.
Proof.
  intros (snapshot & s & actions & en & _ & Hsnap & _ & _ & _ & Hst).
  cbv zeta in Hst.
  split; [rewrite Hst; reflexivity |].
  exists (marked (the_portfolio en) snapshot), snapshot.
  split; [rewrite Hst; reflexivity |]. split; [exact Hsnap |].
  rewrite Hst. reflexivity.
Qed.

Lemma run_batches_points (st st' : Run S) (batches : list L2Batch) :
  run_batches on_batch config fee_model st batches = (st', None) ->
  exists (k : nat) (pts : list (Z * Z)),
    equity_curve st' = equity_curve st ++ pts /\
    map fst pts = map evlog_types.ts_recv_ns (drop k batches) /\
    (k <= length batches)%nat /\
    ((0 < k)%nat ->
     skip_initial_missing_book config = true /\
     seen_ready_book st = false) /\
    (pts <> [] -> seen_ready_book st' = true) /\
    forall ts eq,
      last pts = Some (ts, eq) ->
      exists snapshot,
        snapshot_of (active_book st') snapshot /\
        eq = marked (the_portfolio (engine st')) snapshot.
Proof.
  revert st. induction batches as [| batch rest IH]; intros st Hrun.
  - cbn in Hrun. injection Hrun as <-. exists 0%nat, [].
    rewrite app_nil_r. cbn. repeat split; try lia; try congruence.
  - cbn [backtest.run_batches] in Hrun.
    pose proof (run_batch_cases st batch) as Hc.
    destruct (run_batch on_batch config fee_model st batch)
      as [st1 [e |]]; [discriminate |].
    destruct (IH st1 Hrun) as (k & pts & Hcurve & Hts & Hk & Hskip & Hready
                               & Hlast).
    destruct Hc as [(Hcfg & Hseen & ->) | Hdone].
    + exists (Datatypes.S k), pts. cbn [set_book equity_curve] in Hcurve.
      split; [exact Hcurve |]. split; [exact Hts |].
      split; [cbn [length]; lia |]. split; [auto |].
      split; [exact Hready | exact Hlast].
    + destruct (completed_ready st st1 batch Hdone)
        as (Hseen1 & eq & snapshot & Hc1 & Hsnap & Heq).
      assert (k = 0%nat) as ->.
      { destruct k as [| k]; [reflexivity |].
        destruct Hskip as [_ Hno]; [lia | congruence]. }
      exists 0%nat, ((evlog_types.ts_recv_ns batch, eq) :: pts).
      split; [rewrite Hcurve, Hc1, <- app_assoc; reflexivity |].
      split; [cbn [map fst drop] in *; rewrite Hts; reflexivity |].
      split; [lia |]. split; [lia |]. split.
      { intros _. destruct pts as [| pt pts']; [| apply Hready; discriminate].
        cbn [map drop] in Hts. destruct rest; [| discriminate].
        cbn in Hrun. injection Hrun as <-. exact Hseen1. }
      intros ts eq' Hl. destruct pts as [| pt pts'].
      * cbn in Hl. injection Hl as <- <-.
        cbn [map drop] in Hts. destruct rest; [| discriminate].
        cbn in Hrun. injection Hrun as <-. exists snapshot. auto.
      * apply (Hlast ts eq'). rewrite last_cons in Hl.
        destruct (last (pt :: pts')) eqn:Hl'; [exact Hl |].
        apply last_None in Hl'. discriminate.
Qed.

(** A run of batches that ends without an exception.  The equity curve
    gains one point per batch, in order and stamped with the receive
    time of its batch, except for the [k] leading batches that were
    skipped because the book had no best bid or ask: batches are skipped
    only under [skip_initial_missing_book] and only before the first
    batch that leaves a two-sided book.  The last point is the
    liquidation value of the ledger the run ends with, at the top of the
    book the run ends with: the best bid for a long or flat position, the
    best ask for a short one. *)
Theorem run_batches_curve (st st' : Run S) (batches : list L2Batch) :
  run_batches on_batch config fee_model st batches = (st', None) ->
  exists (k : nat) (pts : list (Z * Z)),
    equity_curve st' = equity_curve st ++ pts /\
    map fst pts = map evlog_types.ts_recv_ns (drop k batches) /\
    (k <= length batches)%nat /\
    ((0 < k)%nat ->
     skip_initial_missing_book config = true /\
     seen_ready_book st = false) /\
    (pts <> [] -> seen_ready_book st' = true) /\
    forall ts eq,
      last pts = Some (ts, eq) ->
      exists snapshot,
        snapshot_of (active_book st') snapshot /\
        eq = marked (the_portfolio (engine st')) snapshot.
Proof. apply run_batches_points. Qed.

(** The step of a ledger that allows neither margin nor shorting. *)
Lemma no_debt_step (ts : Z) (snapshot : BookSnapshot) (p : Portfolio)
      (f : Fill) :
  allow_margin config = false -> allow_short config = false ->
  0 <= bps fee_model <= 10000 ->
  0 <= cash p /\ 0 <= position p ->
  fill_of_snapshot fee_model ts snapshot f ->
  guarded config (book_fill p f) f ->
  0 <= cash (book_fill p f) /\ 0 <= position (book_fill p f).
Proof.
  intros Hm Hs Hb [Hc' Hp'] Hf [Hg1 Hg2].
  destruct Hf as (_ & _ & Hpx & Hq & Hn & Hfee & Hfee0).
  unfold book_fill, filled in *.
  destruct (side f); cbn [cash position] in *.
  - split; [apply Hg1; auto | lia].
  - split; [| apply Hg2; auto].
    assert (0 <= notional f) by nia.
    assert (fee_atoms f <= notional f).
    { rewrite Hfee. apply Z.div_le_upper_bound; nia. }
    lia.
Qed.

(** No debt: the ledger holds no negative cash and no negative
    position, and no point of the equity curve is negative. *)
Definition solvent (st : Run S) : Prop :=
  0 <= cash (the_portfolio (engine st)) /\
  0 <= position (the_portfolio (engine st)) /\
  Forall (fun pt => 0 <= pt.2) (equity_curve st).

Lemma run_batch_solvent (st : Run S) (batch : L2Batch) :
  allow_margin config = false -> allow_short config = false ->
  0 <= bps fee_model <= 10000 ->
  solvent st ->
  solvent (run_batch on_batch config fee_model st batch).1.
Proof.
  intros Hm Hs Hb (Hcash & Hpos & Hcurve).
  assert (Hex : forall ts snapshot actions,
    let p := the_portfolio
               (execute_actions config fee_model ts snapshot (engine st)
                                actions).1 in
    0 <= cash p /\ 0 <= position p).
  { intros ts snapshot actions.
    apply (execute_actions_portfolio
             config fee_model ts snapshot actions (engine st)
             (fun p => 0 <= cash p /\ 0 <= position p)); [auto |].
    intros p f Hp Hf Hg. eapply no_debt_step; eassumption. }
  pose proof (run_batch_cases st batch) as Hc.
  destruct (run_batch on_batch config fee_model st batch) as [st1 [e |]];
    cbn [fst].
  - destruct Hc as [Hcurve1 [Hp | (ts & snapshot & actions & Hen)]];
      unfold solvent; rewrite Hcurve1.
    + rewrite Hp. auto.
    + rewrite Hen. destruct (Hex ts snapshot actions). auto.
  - destruct Hc as [(_ & _ & ->) | Hdone]; [unfold solvent; cbn; auto |].
    destruct Hdone as (snapshot & s & actions & en & _ & _ & _ & Hrun
                       & Hmark & ->).
    cbv zeta in *. unfold solvent.
    cbn [engine set_tape the_portfolio equity_curve].
    pose proof (Hex (evlog_types.ts_recv_ns batch) snapshot actions) as Hp.
    rewrite Hrun in Hp. cbn [fst] in Hp. destruct Hp as [Hc1 Hp1].
    split; [exact Hc1 |]. split; [exact Hp1 |].
    apply Forall_app. split; [exact Hcurve |].
    constructor; [| constructor]. cbn [snd]. unfold marked.
    destruct (Z.leb_spec 0 (position (the_portfolio en))); [nia | lia].
Qed.

(** Without margin and without shorting, under a fee model of 0..10000
    bps: a run that starts without debt never has any, whether it ends
    normally or in an exception.  The ledger never holds negative cash or
    a negative position, and no point of the equity curve is negative,
    whatever the strategy does. *)
Theorem run_batches_solvent (st : Run S) (batches : list L2Batch) :
  allow_margin config = false -> allow_short config = false ->
  0 <= bps fee_model <= 10000 ->
  solvent st ->
  solvent (run_batches on_batch config fee_model st batches).1.
Proof.
  intros Hm Hs Hb. revert st.
  induction batches as [| batch rest IH]; intros st Hst; [exact Hst |].
  cbn [backtest.run_batches].
  pose proof (run_batch_solvent st batch Hm Hs Hb Hst) as H1.
  destruct (run_batch on_batch config fee_model st batch) as [st1 [e |]];
    [exact H1 | apply IH; exact H1].
Qed.

Lemma returns_loop_length (ic : Z) (rest : list Z) : forall prev rets,
  pnl.returns_loop ic prev rest = Ok rets -> length rets = length rest.
Proof.
  induction rest as [| cur rest IH]; intros prev rets H.
  - injection H as <-. reflexivity.
  - cbn [pnl.returns_loop] in H.
    destruct (pnl._round_half_even _ _) as [b |]; [| discriminate].
    unbind.
    destruct (pnl.returns_loop ic cur rest) as [tl |] eqn:Htl;
      [| discriminate].
    injection H as <-. cbn. f_equal. eapply IH. exact Htl.
Qed.


End run.

Definition alternating : dummy.AlternatingMarketOrderStrategy :=
  {| dummy._qty_lots := 1; dummy._next_side := BID |}.

Definition start : Run dummy.AlternatingMarketOrderStrategy :=
  {| engine := test_engine; active_book := BookPy_new true;
     equity_curve := []; seen_ready_book := false;
     strategy := alternating |}.

(** A buy of one lot at 11, then a sell of one lot at 10, with a fee of
    10 bps that rounds down to nothing: the equity is 999 after either
    batch. *)
Example run_batches_test :
  equity_curve
    (run_batches dummy.on_batch test_config {| bps := 10 |} start
                 evlog_proofs.two_batches).1
  = [(1000, 999); (2000, 999)].
Proof. vm_compute. reflexivity. Qed.

Lemma run_batches_curve_witness :
  exists (st' : Run dummy.AlternatingMarketOrderStrategy) pts,
    equity_curve st' = pts /\ map fst pts = [1000; 2000].
Proof.
  destruct (run_batches_curve
              dummy.on_batch test_config {| bps := 10 |} start
              (run_batches dummy.on_batch test_config {| bps := 10 |} start
                           evlog_proofs.two_batches).1
              evlog_proofs.two_batches)
    as (k & pts & Hcurve & Hts & Hk & Hskip & _).
  - vm_compute. reflexivity.
  - assert (k = 0%nat) as ->.
    { destruct k; [reflexivity |].
      destruct Hskip as [Hcfg _]; [lia | discriminate]. }
    eexists _, pts. split; [exact Hcurve | exact Hts].
Defined.

Lemma run_batches_solvent_witness :
  solvent (run_batches dummy.on_batch test_config {| bps := 10 |} start
                       evlog_proofs.two_batches).1.
Proof.
  apply (run_batches_solvent
           dummy.on_batch test_config {| bps := 10 |} start
           evlog_proofs.two_batches);
    first [reflexivity | cbn; lia | idtac].
  unfold solvent. cbn. repeat split; try lia. constructor.
Defined.

End backtest_proofs.

(** ** [core/fixedpoint.py]: the increments of a new quantizer *)

Module quantizer_new_proofs.
Import fixedpoint_proofs.

(** A positive decimal that the context holds exactly. *)
Definition exact_positive (d : Decimal) : Prop :=
  exists (c : N) (e : Z), d = Finite false c e /\ fits c e.

Lemma strip_zeros_done (f : nat) (emax : Z) (c : N) (e : Z) :
  (c mod 10)%N <> 0%N \/ emax <= e ->
  strip_zeros f emax c e = (c, e).
Proof.
  intros H. destruct f as [| f]; [reflexivity |]. cbn [strip_zeros].
  destruct H as [H | H].
  - apply N.eqb_neq in H. rewrite H. reflexivity.
  - apply Z.ltb_ge in H. rewrite H, andb_false_r. reflexivity.
Qed.

Lemma normalize_stripped (c : N) (e : Z) :
  fits c e -> (c mod 10)%N <> 0%N \/ Emax DECIMAL_CTX <= e ->
  normalize DECIMAL_CTX (Finite false c e) = Ok (Finite false c e).
Proof.
  intros Hfit Hs. unfold normalize. rewrite (_fix_fits _ _ _ Hfit). unbind.
  destruct Hfit as (Hc & _). apply N.eqb_neq in Hc. rewrite Hc.
  rewrite strip_zeros_done by exact Hs. reflexivity.
Qed.

Lemma _normalize_increment_exact (d : Decimal) :
  exact_positive d ->
  exists d',
    _normalize_increment d = Ok d' /\ normalized_increment d' /\
    exact_positive d' /\ (to_Q d' == to_Q d)%Q.
Proof.
  intros (c & e & -> & Hfit).
  destruct (normalize_fits c e Hfit)
    as (c' & e' & Hn & Hfit' & He & Hc & _ & Hs).
  assert (Hpos : forall x y, fits x y ->
                             Dle0 (Finite false x y) = false).
  { intros x y (Hx & _). unfold Dle0, Deq0, Dlt0.
    apply N.eqb_neq in Hx. rewrite Hx. reflexivity. }
  exists (Finite false c' e').
  unfold normalized_increment, _normalize_increment.
  cbn [is_finite negb]. rewrite (Hpos _ _ Hfit), (Hpos _ _ Hfit').
  split; [exact Hn |].
  split; [apply normalize_stripped; assumption |].
  split; [exists c', e'; auto |].
  symmetry. apply to_Q_strip; assumption.
Qed.

(** A quantizer built from two positive increments that the 50-digit
    context holds exactly: the constructor succeeds; it keeps the value
    of either increment and drops its trailing zeros; the increments it
    stores are normalized, so that building a quantizer from them again
    changes nothing. *)
Theorem Quantizer_new_normalized (p a : Decimal) :
  exact_positive p -> exact_positive a ->
  exists q,
    Quantizer_new p a = Ok q /\
    normalized_increment (price_increment q) /\
    normalized_increment (amount_increment q) /\
    (to_Q (price_increment q) == to_Q p)%Q /\
    (to_Q (amount_increment q) == to_Q a)%Q /\
    Quantizer_new (price_increment q) (amount_increment q) = Ok q.
Proof.
  intros Hp Ha.
  destruct (_normalize_increment_exact p Hp) as (p' & Hnp & Hp' & _ & Hqp).
  destruct (_normalize_increment_exact a Ha) as (a' & Hna & Ha' & _ & Hqa).
  exists {| price_increment := p'; amount_increment := a' |}.
  unfold Quantizer_new. rewrite Hnp, Hna. unbind.
  cbn [price_increment amount_increment].
  rewrite Hp', Ha'. unbind. auto 10.
Qed.

Lemma Quantizer_new_normalized_witness :
  exists q,
    Quantizer_new (Finite false 10 (-3)) (Finite false 1000 (-6)) = Ok q /\
    normalized_increment (price_increment q).
Proof.
  assert (Hfit : forall c e,
             c <> 0%N -> ndigits c <= 50 -> -1000048 <= e ->
             ndigits c + e <= 1000000 ->
             exact_positive (Finite false c e)).
  { intros c e H1 H2 H3 H4. exists c, e. split; [reflexivity |].
    unfold fits, Etiny. cbn [prec Emax Emin DECIMAL_CTX]. auto. }
  destruct (Quantizer_new_normalized
              (Finite false 10 (-3)) (Finite false 1000 (-6)))
    as (q & Hq & Hn & _).
  - apply Hfit; [discriminate | vm_compute; discriminate | lia
                 | vm_compute; discriminate].
  - apply Hfit; [discriminate | vm_compute; discriminate | lia
                 | vm_compute; discriminate].
  - exists q. split; [exact Hq | exact Hn].
Defined.

End quantizer_new_proofs.

(** ** [ingest/l2_batcher.py]: quarantine with SKIP_BATCH *)

Module l2_batcher_skip_batch_proofs.
Import l2_batcher tardis_csv l2_batcher_proofs l2_batcher_order_proofs
       l2_batcher_sink_proofs.

Definition skip_batch_config (cfg : Config) : Prop :=
  failure_policy cfg = QUARANTINE /\ quarantine_action cfg = SKIP_BATCH.

(** The open batch was dropped: its updates are gone, and the rows that
    follow in it are to be skipped. *)
Definition dropped (row : L2Row) (g' : Gen) : Prop :=
  updates (locals g') = [] /\ skip_batch (locals g') = true /\
  batch_ts_exch_us (locals g') = None /\
  prev_local_ts (locals g') = Some (local_timestamp_us row).

(** What SKIP_BATCH does with the open batch, by the invariant the row
    violated. *)
Definition skip_batch_post (row : L2Row) (v : Violation) (g g' : Gen)
  : Prop :=
  match v with
  | DecreasingTs =>
    yielded g' = yielded g /\
    updates (locals g') = updates (locals g) /\
    skip_batch (locals g') = false /\
    prev_local_ts (locals g') = prev_local_ts (locals g) /\
    batch_local_ts (locals g') = batch_local_ts (locals g)
  | MixedExchange =>
    dropped row g' /\ yielded g' = yielded g /\
    batch_local_ts (locals g')
    = Some (default (local_timestamp_us row) (batch_local_ts (locals g)))
  | MixedSnapshot =>
    dropped row g' /\ yielded g' = yielded g /\
    batch_local_ts (locals g) = Some (local_timestamp_us row) /\
    batch_local_ts (locals g') = Some (local_timestamp_us row)
  | QuantizationFailure =>
    dropped row g' /\
    batch_local_ts (locals g') = Some (local_timestamp_us row) /\
    if bool_decide (batch_local_ts (locals g)
                    = Some (local_timestamp_us row))
    then yielded g' = yielded g
    else concat (map evlog_types.updates (yielded g')) = all_updates g
  end.

Definition skip_batch_row (cfg : Config) (row : L2Row) (v : Violation)
           (exc : Exn) (g : Gen) (f : Flow) : Prop :=
  exists g',
    f = Continue g' /\
    sink g' = (fun s => s ++ [quarantine_record cfg row exc]) <$> sink g /\
    skip_batch_post row v g g'.

Ltac split_skip Hskip Hfp Hqa :=
  repeat first
         [ rewrite Hskip
         | rewrite Hfp
         | rewrite Hqa
         | match goal with
           | H : ?x = _ |- context [match ?x with _ => _ end] => rewrite H
           end
         | progress (cbn [and_then FailurePolicy_eqb
                          QuarantineAction_eqb orb andb negb fst snd];
                     simp_locals)
         | match goal with
           | |- context [match ?x with _ => _ end] => destruct x eqn:?
           end ].

Ltac to_props :=
  repeat match goal with
         | H : _ && _ = true |- _ => apply andb_true_iff in H as [? ?]
         | H : _ || _ = false |- _ => apply orb_false_iff in H as [? ?]
         | H : negb _ = true |- _ => apply negb_true_iff in H
         | H : negb _ = false |- _ => apply negb_false_iff in H
         | H : bool_decide _ = true |- _ => apply bool_decide_eq_true in H
         | H : bool_decide _ = false |- _ => apply bool_decide_eq_false in H
         | H : (_ =? _) = true |- _ => apply Z.eqb_eq in H
         | H : (_ =? _) = false |- _ => apply Z.eqb_neq in H
         | H : (_ <? _) = true |- _ => apply Z.ltb_lt in H
         | H : (_ <? _) = false |- _ => apply Z.ltb_ge in H
         | H : eqb ?x ?x = false |- _ =>
           rewrite Bool.eqb_reflx in H; discriminate
         | H : Some _ = Some _ |- _ => injection H as H
         | H : true && _ = _ |- _ => cbn [andb] in H
         | H1 : ?x = Some ?a, H2 : ?x = Some ?b |- _ =>
           rewrite H1 in H2; injection H2 as H2
         end.

Ltac split_hyp H :=
  repeat match type of H with
         | context [match ?x with _ => _ end] => destruct x eqn:?
         end.

Lemma process_row_skip_batch cfg row g v exc :
  skip_batch_config cfg -> skip_batch (locals g) = false ->
  row_inv g ->
  violation cfg (locals g) row = Some (v, exc) ->
  skip_batch_row cfg row v exc g (process_row cfg row g).
Proof.
  intros [Hfp Hqa] Hskip (_ & Hpend & Hstate) Hv.
  unfold violation, late_violation, batch_violation, exchange_mismatch,
    ts_decreased, snapshot_mixed in Hv.
  unfold pending_ok, fresh, started in *.
  destruct Hpend as [Hups | (s & exch & Hs & Hexch & _)];
    destruct Hstate as [(Hee & Hprev & _ & Hts & Hups')
                       | (ts & s' & Hts & Hs' & _)];
    rewrite ?Hups, ?Hs, ?Hexch, ?Hee, ?Hprev, ?Hts, ?Hs' in *;
    split_hyp Hv; try discriminate; injection Hv as <- <-.
  all: unfold skip_batch_row, skip_batch_post, dropped, quarantine_record,
         all_updates; unfold_row; unfold record.
  all: split_skip Hskip Hfp Hqa.
  all: try congruence.
  all: try (match goal with
            | H : negb (eqb ?x ?x) = true |- _ =>
              rewrite Bool.eqb_reflx in H; discriminate
            end).
  all: try (eexists; split; [reflexivity |]; simp_locals;
            try rewrite Hups; try rewrite Hups'; try rewrite Hts;
            cbn [fmap option_fmap option_map default map concat app];
            rewrite ?map_app, ?concat_app, ?app_nil_r;
            cbn [map concat evlog_types.updates];
            rewrite ?app_nil_r;
            repeat split; first [reflexivity | congruence]).
  all: try (exfalso; to_props; subst; first [congruence | lia]).
  all: try (to_props; subst; eexists; split; [reflexivity |]; simp_locals;
            try rewrite Hups; try rewrite Hups'; try rewrite Hts;
            cbn [fmap option_fmap option_map default map concat app];
            rewrite ?map_app, ?concat_app, ?app_nil_r;
            cbn [map concat evlog_types.updates];
            rewrite ?app_nil_r;
            repeat split; first [reflexivity | congruence | lia]).
Qed.

(** A row of the batch that is being skipped, from the right exchange
    and not earlier than the row before it: it is passed over without a
    look at its flag, price or amount, and without a record. *)
Lemma process_row_in_skipped_batch cfg row g :
  skip_batch (locals g) = true ->
  batch_local_ts (locals g) = Some (local_timestamp_us row) ->
  exchange_mismatch (locals g) row = false ->
  ts_decreased (locals g) row = false ->
  exists g',
    process_row cfg row g = Continue g' /\
    sink g' = sink g /\ yielded g' = yielded g /\
    updates (locals g') = updates (locals g) /\
    skip_batch (locals g') = true /\
    batch_local_ts (locals g') = batch_local_ts (locals g).
Proof.
  intros Hskip Hts Hex Hdec.
  unfold exchange_mismatch, ts_decreased in *.
  unfold process_row, check_exchange, check_ordering, check_skip_batch.
  simp_locals.
  destruct (expected_exchange (locals g)) as [ee |]; [rewrite Hex |];
    cbn [and_then]; simp_locals;
    (destruct (prev_local_ts (locals g)) as [prev |]; [rewrite Hdec |]);
    cbn [and_then]; simp_locals; rewrite Hskip, Hts;
    rewrite bool_decide_eq_true_2 by reflexivity;
    (eexists; split; [reflexivity |]; simp_locals; auto 10).
Qed.

(** Under QUARANTINE with SKIP_BATCH, in a run that was given a sink
    and is not skipping a batch, let a row violate a batcher invariant.
    The turn ends with [continue] and exactly one record is appended to
    the sink.  For a decreasing local timestamp nothing else happens: the
    open batch is kept and the run goes on in it.  For the other
    violations the updates collected so far are dropped and the batch is
    marked as skipped: for a mixed exchange or symbol these are the
    updates of the open batch, whatever its timestamp, and its timestamp
    is kept; for a mixed is_snapshot they are the earlier updates of the
    row's own batch; for a quantization failure the batch dropped is the
    row's own, and when the row starts a new batch the batch before it
    was yielded first.  The rows that follow with the timestamp of the
    skipped batch are passed over without a record. *)
Theorem quarantine_skip_batch (cfg : Config) (s0 : ListQuarantineSink)
        (done : list L2Row) (g : Gen) (row : L2Row)
        (v : Violation) (exc : Exn) :
  skip_batch_config cfg ->
  run_rows cfg {| locals := initial; sink := Some s0; yielded := [] |} done
  = (g, None) ->
  skip_batch (locals g) = false ->
  violation cfg (locals g) row = Some (v, exc) ->
  exists s g',
    sink g = Some s /\
    process_row cfg row g = Continue g' /\
    sink g' = Some (s ++ [{| reason := str_exn exc;
                             quarantine.source := row_source cfg row;
                             quarantine.line_number :=
                               tardis_csv.line_number row;
                             payload := Some row |}]) /\
    skip_batch_post row v g g' /\
    (forall rest, run_rows cfg g (row :: rest) = run_rows cfg g' rest) /\
    forall next,
      skip_batch (locals g') = true ->
      batch_local_ts (locals g') = Some (local_timestamp_us next) ->
      exchange_mismatch (locals g') next = false ->
      ts_decreased (locals g') next = false ->
      exists g'',
        process_row cfg next g' = Continue g'' /\
        sink g'' = sink g' /\ all_updates g'' = all_updates g' /\
        skip_batch (locals g'') = true.
Proof.
  intros Hcfg Hrun Hskip Hv.
  assert (Hinv : row_inv g).
  { eapply run_rows_row_inv; [apply initial_inv | exact Hrun]. }
  destruct (run_rows_sink
              cfg done {| locals := initial; sink := Some s0; yielded := [] |})
    as (recs & Hsink & _).
  rewrite Hrun in Hsink. cbn in Hsink.
  destruct (process_row_skip_batch cfg row g v exc Hcfg Hskip Hinv Hv)
    as (g' & Hf & Hs' & Hpost).
  exists (s0 ++ recs), g'. rewrite Hsink in Hs'. cbn in Hs'.
  split; [exact Hsink |]. split; [exact Hf |]. split; [exact Hs' |].
  split; [exact Hpost |]. split.
  { intros rest. cbn [run_rows]. rewrite Hf. reflexivity. }
  intros next H1 H2 H3 H4.
  destruct (process_row_in_skipped_batch cfg next g' H1 H2 H3 H4)
    as (g'' & Hn & Hsk & Hy & Hu & Hsb & _).
  exists g''. split; [exact Hn |]. split; [exact Hsk |].
  split; [| exact Hsb]. unfold all_updates. rewrite Hy, Hu. reflexivity.
Qed.

Definition skip_batch_cfg : Config :=
  {| quantizer := unit_quantizer; failure_policy := QUARANTINE;
     quarantine_action := SKIP_BATCH; source_arg := "" |}.

(** A row with amount -1 after a good row of the same timestamp: the
    update of the good row is dropped with the batch. *)
Lemma quarantine_skip_batch_witness :
  exists g',
    process_row skip_batch_cfg bad_amount_row
                (gen_after skip_batch_cfg
                           [mk_row 2 1000 900 false BID "10" "1"])
    = Continue g' /\
    updates (locals g') = [] /\ skip_batch (locals g') = true.
Proof.
  destruct (quarantine_skip_batch
              skip_batch_cfg [] [mk_row 2 1000 900 false BID "10" "1"]
              (gen_after skip_batch_cfg
                         [mk_row 2 1000 900 false BID "10" "1"])
              bad_amount_row QuantizationFailure
              (QuantizationError
                 "amount must be non-negative at line 3"))
    as (s & g' & _ & Hf & _ & Hpost & _).
  - split; reflexivity.
  - vm_compute. reflexivity.
  - vm_compute. reflexivity.
  - vm_compute. reflexivity.
  - destruct Hpost as ((Hu & Hsb & _) & _).
    exists g'. split; [exact Hf |]. split; [exact Hu | exact Hsb].
Defined.

End l2_batcher_skip_batch_proofs.
